(** * Grid traffic simulation: a model of [services/SimulationEngine.ts]

    The simulator advances a rectangular grid of signalised intersections
    one tick at a time.  Each road is a cell-transmission link (a fixed
    array of cell densities), each intersection routes the green axis
    straight through, and the engine orchestrates signal update, flow
    routing, aggregation, physics and stochastic entry.

    Numbers.  A JavaScript [number] is modelled by an exact rational [Q]:
    [+], [-], [*], [Math.min], [Math.max] and the comparisons are the exact
    ones.  The densities that the engine reaches are integers between 0 and
    [MAX_CARS_PER_CELL] (lemmas [reachable_whole] and [run_ok] below), on
    which the operations of the program are exact as well.  Counters that
    only ever hold integers (phase, timers, tick count, grid size) are [Z];
    loop indices are [nat].

    Objects.  Roads are shared between the engine's [roads] array and the
    direction slots of the two intersections they connect.  The array is
    the store; a slot holds a handle, the position of the road in it.

    Randomness.  [Math.random()] is an explicit stream of draws that is
    threaded through [step].

    Callers.  The parts of [App.tsx], [components/Charts.tsx] and
    [components/TrafficGrid.tsx] that compute with the engine and its
    snapshots (the history of the two engines, the canvas and the colour
    of a road) are modelled after the engine; what they hand to React
    and to the SVG is not. *)

From Stdlib Require Import List ZArith QArith Qminmax String Ascii Lia Lqa.
From Stdlib Require Import Bool Arith Permutation DecimalString DecimalNat.
Import ListNotations.

Set Implicit Arguments.

(* ================================================================== *)
(** * Part I: the program *)
(* ================================================================== *)

(** ** constants.ts *)

Module PHYSICS.
Definition CELL_LENGTH_M : Q := 50.
Definition ROAD_LENGTH_CELLS : nat := 10.
Definition MAX_CARS_PER_CELL : Q := 7.
Definition WAVE_SPEED : Q := 1.
Definition MIN_GREEN_STEPS : Z := 3.
Definition MAX_RED_STEPS : Z := 24.
Definition FIXED_CYCLE_STEPS : Z := 6.
End PHYSICS.

(** ** types.ts *)

Inductive ControlMode : Type := FIXED | SMART.

(** ** Number and array helpers *)

(** [a < b] on numbers, as a boolean. *)
Definition Qltb (a b : Q) : bool := negb (Qle_bool b a).

(** [cells[i]] for an index inside the array. *)
Definition getCell (cells : list Q) (i : nat) : Q := nth i cells 0%Q.

(** [cells[i] = x] for an index inside the array (the program never
    writes outside: every road has [ROAD_LENGTH_CELLS] cells). *)
Fixpoint setCell (i : nat) (x : Q) (cells : list Q) : list Q :=
  match cells, i with
  | [], _ => []
  | _ :: t, O => x :: t
  | h :: t, S j => h :: setCell j x t
  end.

(** [cells.reduce((a, b) => a + b, 0)] *)
Definition sumCells (cells : list Q) : Q := fold_left Qplus cells 0%Q.

(** The template literal [`${n}`] for a loop counter. *)
Definition natStr (n : nat) : string := NilEmpty.string_of_uint (Nat.to_uint n).

(** [s.includes(sub)] *)
Fixpoint includes (sub s : string) : bool :=
  String.prefix sub s ||
  match s with
  | EmptyString => false
  | String _ s' => includes sub s'
  end.

(** ** The random source *)

Definition Random : Type := nat -> Q.

(** One call of [Math.random()]: the draw and the rest of the stream. *)
Definition nextRandom (g : Random) : Q * Random := (g O, fun n => g (S n)).

(** ** [Record<string, V>]: a string-keyed object in insertion order *)

Module Rec.
Section WithValue.
Variable V : Type.

Definition t : Type := list (string * V).

Definition empty : t := [].

(** [m[k]] *)
Fixpoint get (k : string) (m : t) : option V :=
  match m with
  | [] => None
  | (k', v) :: rest => if String.eqb k k' then Some v else get k rest
  end.

(** [m[k] = v]: an existing key keeps its place, a new one goes last. *)
Fixpoint set (k : string) (v : V) (m : t) : t :=
  match m with
  | [] => [(k, v)]
  | (k', v') :: rest =>
      if String.eqb k k' then (k', v) :: rest else (k', v') :: set k v rest
  end.

(** Mutation of the object stored under [k]. *)
Fixpoint modify (k : string) (f : V -> V) (m : t) : t :=
  match m with
  | [] => []
  | (k', v') :: rest =>
      if String.eqb k k' then (k', f v') :: rest
      else (k', v') :: modify k f rest
  end.

(** [Object.values(m)] *)
Definition values (m : t) : list V := map snd m.

(** Mutation of every stored object, as a [for ... of Object.values]
    loop whose body touches only its own object does. *)
Definition mapValues (f : V -> V) (m : t) : t :=
  map (fun kv => (fst kv, f (snd kv))) m.
End WithValue.
End Rec.

(** ** class DirectedRoad *)

Module DirectedRoad.
Import PHYSICS.

Record t : Type := mk {
  id : string;
  u : string;
  v : string;
  cells : list Q;
  isBoundary : bool
}.

Definition new (id u v : string) (isBoundary : bool) : t :=
  mk id u v (repeat 0%Q ROAD_LENGTH_CELLS) isBoundary.

Definition withCells (r : t) (cs : list Q) : t :=
  mk (id r) (u r) (v r) cs (isBoundary r).

Definition getDemand (r : t) : Q :=
  Qmin (WAVE_SPEED * getCell (cells r) (List.length (cells r) - 1))
       MAX_CARS_PER_CELL.

Definition getSupply (r : t) : Q :=
  Qmax 0 (MAX_CARS_PER_CELL - getCell (cells r) 0).

Definition getTotalCars (r : t) : Q := sumCells (cells r).

Definition getStoppedQueue (r : t) : Q :=
  sumCells (filter (fun c => Qltb 2 c) (cells r)).

(** The flux of the pair [(i, i+1)], read from the frozen array. *)
Definition flux (frozen : list Q) (i : nat) : Q :=
  Qmin (getCell frozen i) (MAX_CARS_PER_CELL - getCell frozen (i + 1)).

(** The body of the CTM loop: [this.cells] is [frozen]. *)
Definition ctmPair (frozen : list Q) (newCells : list Q) (i : nat)
  : list Q :=
  let f := flux frozen i in
  let nc := setCell i (getCell newCells i - f) newCells in
  setCell (i + 1) (getCell nc (i + 1) + f) nc.

(** The CTM loop over the pair indices in the given order. *)
Definition ctmLoop (order : list nat) (frozen : list Q) : list Q :=
  fold_left (ctmPair frozen) order frozen.

(** [for (let i = n - 2; i >= 0; i--)] *)
Definition ctmOrder (n : nat) : list nat := rev (seq 0 (n - 1)).

(** The boundary update of [stepPhysics]: outflow leaves the last
    cell, floored at 0, then inflow enters the first cell. *)
Definition applyBoundary (flowIn flowOut : Q) (cs : list Q) : list Q :=
  let last := (List.length cs - 1)%nat in
  let c1 := setCell last (Qmax 0 (getCell cs last - flowOut)) cs in
  setCell 0 (getCell c1 0 + flowIn) c1.

Definition stepPhysics (flowIn flowOut : Q) (r : t) : t :=
  let frozen := applyBoundary flowIn flowOut (cells r) in
  withCells r (ctmLoop (ctmOrder (List.length frozen)) frozen).
End DirectedRoad.

(** ** class Intersection *)

(** The keys ['N'], ['S'], ['E'], ['W'] of [inRoads] and [outRoads]. *)
Inductive Dir : Type := North | South | East | West.

(** A [Record<string, DirectedRoad>] over those four keys; a slot holds
    the handle of the road or nothing. *)
Record RoadSlots : Type := mkSlots {
  slotN : option nat;
  slotS : option nat;
  slotE : option nat;
  slotW : option nat
}.

Definition noSlots : RoadSlots := mkSlots None None None None.

Definition getSlot (d : Dir) (s : RoadSlots) : option nat :=
  match d with
  | North => slotN s
  | South => slotS s
  | East => slotE s
  | West => slotW s
  end.

Definition setSlot (d : Dir) (h : nat) (s : RoadSlots) : RoadSlots :=
  match d with
  | North => mkSlots (Some h) (slotS s) (slotE s) (slotW s)
  | South => mkSlots (slotN s) (Some h) (slotE s) (slotW s)
  | East => mkSlots (slotN s) (slotS s) (Some h) (slotW s)
  | West => mkSlots (slotN s) (slotS s) (slotE s) (Some h)
  end.

(** The destination of a transfer: [DirectedRoad | 'EXIT']. *)
Inductive Target : Type :=
| ToRoad (r : DirectedRoad.t)
| EXIT.

Record Transfer : Type := mkTransfer {
  src : DirectedRoad.t;
  tgt : Target;
  amount : Q
}.

Module Intersection.
Import PHYSICS.

Record t : Type := mk {
  id : string;
  row : nat;
  col : nat;
  inRoads : RoadSlots;
  outRoads : RoadSlots;
  phase : Z;       (* 0 = NS, 1 = EW *)
  phaseTimer : Z
}.

Definition new (id : string) (row col : nat) : t :=
  mk id row col noSlots noSlots 0 0.

Definition withIn (d : Dir) (h : nat) (n : t) : t :=
  mk (id n) (row n) (col n) (setSlot d h (inRoads n)) (outRoads n)
     (phase n) (phaseTimer n).

Definition withOut (d : Dir) (h : nat) (n : t) : t :=
  mk (id n) (row n) (col n) (inRoads n) (setSlot d h (outRoads n))
     (phase n) (phaseTimer n).

Definition withSignal (p tm : Z) (n : t) : t :=
  mk (id n) (row n) (col n) (inRoads n) (outRoads n) p tm.

(** [this.inRoads[d]] read through the store.  On a grid that
    [buildGrid] made every handle points into the store ([Wired]
    below); a handle that pointed nowhere would read as no road. *)
Definition inRoad (roads : list DirectedRoad.t) (n : t) (d : Dir)
  : option DirectedRoad.t :=
  match getSlot d (inRoads n) with
  | Some h => nth_error roads h
  | None => None
  end.

Definition outRoad (roads : list DirectedRoad.t) (n : t) (d : Dir)
  : option DirectedRoad.t :=
  match getSlot d (outRoads n) with
  | Some h => nth_error roads h
  | None => None
  end.

(** One of the four [if (this.inRoads[a]) { ... }] blocks of
    [getPressure], applied to the running value [p]. *)
Definition addMovement (roads : list DirectedRoad.t) (n : t)
           (a b : Dir) (p : Q) : Q :=
  match inRoad roads n a with
  | Some r =>
      let p1 := p + DirectedRoad.getStoppedQueue r in
      match outRoad roads n b with
      | Some o => p1 - DirectedRoad.getTotalCars o * (1 # 2)
      | None => p1
      end
  | None => p
  end.

Definition getPressure (roads : list DirectedRoad.t) (n : t) : Q * Q :=
  let p_ns := addMovement roads n South North
                (addMovement roads n North South 0) in
  let p_ew := addMovement roads n West East
                (addMovement roads n East West 0) in
  (Qmax (1 # 10) p_ns, Qmax (1 # 10) p_ew).

(** [targetMap] *)
Definition targetMap (d : Dir) : Dir :=
  match d with
  | North => South
  | South => North
  | East => West
  | West => East
  end.

Definition allowedDirs (ph : Z) : list Dir :=
  if (ph =? 0)%Z then [North; South] else [East; West].

(** One iteration of the loop of [stepFlow]: what it pushes. *)
Definition stepFlowDir (roads : list DirectedRoad.t) (n : t) (sDir : Dir)
  : list Transfer :=
  match inRoad roads n sDir with
  | None => []
  | Some source =>
      let demand := DirectedRoad.getDemand source in
      match outRoad roads n (targetMap sDir) with
      | None => [mkTransfer source EXIT demand]
      | Some target =>
          let supply := DirectedRoad.getSupply target in
          let flow := Qmin demand supply in
          if Qltb 0 flow then [mkTransfer source (ToRoad target) flow]
          else []
      end
  end.

Definition stepFlow (roads : list DirectedRoad.t) (n : t)
  : list Transfer :=
  flat_map (stepFlowDir roads n) (allowedDirs (phase n)).

(** The signal update of one node in [SimulationEngine.step]. *)
Definition updateSignal (mode : ControlMode)
           (roads : list DirectedRoad.t) (n : t) : t :=
  let tm := (phaseTimer n + 1)%Z in
  let n1 := withSignal (phase n) tm n in
  match mode with
  | FIXED =>
      if (FIXED_CYCLE_STEPS <=? tm)%Z
      then withSignal (1 - phase n)%Z 0%Z n
      else n1
  | SMART =>
      if (MAX_RED_STEPS <=? tm)%Z
      then withSignal (1 - phase n)%Z 0%Z n
      else if (MIN_GREEN_STEPS <=? tm)%Z
      then
        let (p_ns, p_ew) := getPressure roads n1 in
        if (phase n =? 0)%Z && Qltb p_ns p_ew then withSignal 1%Z 0%Z n
        else if (phase n =? 1)%Z && Qltb p_ew p_ns then withSignal 0%Z 0%Z n
        else n1
      else n1
  end.
End Intersection.

(** ** class SimulationEngine *)

(** A loop whose body may throw: [None] is the exception. *)
Fixpoint forEachM (A St : Type) (body : A -> St -> option St)
         (l : list A) (s : St) : option St :=
  match l with
  | [] => Some s
  | x :: rest =>
      match body x s with
      | Some s' => forEachM body rest s'
      | None => None
      end
  end.

(** The two [Record<string, number>] of [step] and the throughput
    counter while the transfers are summed.  A key that was never
    written reads 0; [step] initialises the key of every road before it
    reads or updates any. *)
Definition FlowMap : Type := string -> Q.

Record Flows : Type := mkFlows {
  outflows : FlowMap;
  inflows : FlowMap;
  throughput : Q
}.

(** The types of the snapshot. *)
Record RoadData : Type := mkRoadData {
  rd_id : string;
  rd_u : string;
  rd_v : string;
  rd_cells : list Q;
  rd_totalCars : Q;
  rd_stoppedQueue : Q;
  rd_isBoundary : bool
}.

Record IntersectionData : Type := mkIntersectionData {
  nd_id : string;
  nd_phase : Z;
  nd_row : nat;
  nd_col : nat
}.

Record SimulationStats : Type := mkStats {
  st_step : Z;
  st_totalCars : Q;
  st_stoppedCars : Q;
  st_throughput : Q
}.

Record SimulationSnapshot : Type := mkSnapshot {
  snap_roads : list RoadData;
  snap_intersections : list IntersectionData;
  snap_stats : SimulationStats
}.

Module SimulationEngine.
Import PHYSICS.

Record t : Type := mk {
  roads : list DirectedRoad.t;
  intersections : Rec.t Intersection.t;
  totalThroughput : Q;
  stepCount : Z;
  mode : ControlMode;
  rows : Z;
  cols : Z;
  inflowRate : Q
}.

(** The roads and the intersections while the grid is built. *)
Definition Grid : Type := (list DirectedRoad.t * Rec.t Intersection.t)%type.

(** [`${r}-${c}`] *)
Definition nodeKey (r c : nat) : string :=
  (natStr r ++ "-" ++ natStr c)%string.

(** [`R_E_${r}_${c}`] and its three siblings. *)
Definition roadKey (tag : string) (r c : nat) : string :=
  ("R_" ++ tag ++ "_" ++ natStr r ++ "_" ++ natStr c)%string.

(** First pair of loops of [buildGrid]. *)
Definition createNodes (rows cols : Z) : Rec.t Intersection.t :=
  fold_left
    (fun m r =>
       fold_left
         (fun m c =>
            Rec.set (nodeKey r c) (Intersection.new (nodeKey r c) r c) m)
         (seq 0 (Z.to_nat cols)) m)
    (seq 0 (Z.to_nat rows)) (Rec.empty Intersection.t).

(** The four slot assignments and the push for one adjacent pair:
    [r1] leaves [u] in direction [d], [r2] comes back. *)
Definition connectPair (ku kv : string) (d : Dir)
           (r1 r2 : DirectedRoad.t) (g : Grid) : Grid :=
  let h1 := List.length (fst g) in
  let h2 := S h1 in
  let ns1 := Rec.modify ku (Intersection.withOut d h1) (snd g) in
  let ns2 := Rec.modify kv
               (Intersection.withIn (Intersection.targetMap d) h1) ns1 in
  let ns3 := Rec.modify kv
               (Intersection.withOut (Intersection.targetMap d) h2) ns2 in
  let ns4 := Rec.modify ku (Intersection.withIn d h2) ns3 in
  (fst g ++ [r1; r2], ns4).

(** One [if] block of the second pair of loops: the neighbour [kv]
    of [ku]; reading [u.id] or [v.id] of a missing node throws. *)
Definition connectTo (ku kv : string) (d : Dir) (tag1 tag2 : string)
           (r c : nat) (b1 b2 : bool) (g : Grid) : option Grid :=
  match Rec.get ku (snd g), Rec.get kv (snd g) with
  | Some u, Some v =>
      Some (connectPair ku kv d
              (DirectedRoad.new (roadKey tag1 r c)
                 (Intersection.id u) (Intersection.id v) b1)
              (DirectedRoad.new (roadKey tag2 r c)
                 (Intersection.id v) (Intersection.id u) b2)
              g)
  | _, _ => None
  end.

(** The body of the second pair of loops of [buildGrid]. *)
Definition connectCell (rows cols : Z) (r c : nat) (g : Grid)
  : option Grid :=
  match
    (if (Z.of_nat c <? cols - 1)%Z
     then connectTo (nodeKey r c) (nodeKey r (c + 1)) East "E" "W" r c
            (Nat.eqb c 0) (Z.of_nat c + 1 =? cols - 1)%Z g
     else Some g)
  with
  | None => None
  | Some g1 =>
      if (Z.of_nat r <? rows - 1)%Z
      then connectTo (nodeKey r c) (nodeKey (r + 1) c) South "S" "N" r c
             (Nat.eqb r 0) (Z.of_nat r + 1 =? rows - 1)%Z g1
      else Some g1
  end.

Definition connectRoads (rows cols : Z) (g : Grid) : option Grid :=
  forEachM
    (fun r => forEachM (connectCell rows cols r) (seq 0 (Z.to_nat cols)))
    (seq 0 (Z.to_nat rows)) g.

Definition buildGrid (rows cols : Z) : option Grid :=
  connectRoads rows cols ([], createNodes rows cols).

(** The constructor; [None] is an exception thrown while it runs. *)
Definition new (rows cols : Z) (inflowRate : Q) (mode : ControlMode)
  : option t :=
  match buildGrid rows cols with
  | Some g => Some (mk (fst g) (snd g) 0 0 mode rows cols inflowRate)
  | None => None
  end.

(** [m[k] += a] *)
Definition addFlow (k : string) (a : Q) (m : FlowMap) : FlowMap :=
  fun k' => if String.eqb k' k then m k' + a else m k'.

(** [this.roads.forEach(r => { m[r.id] = 0 })] *)
Definition zeroFlows (rs : list DirectedRoad.t) : FlowMap :=
  fold_left
    (fun m r => fun k' => if String.eqb k' (DirectedRoad.id r) then 0 else m k')
    rs (fun _ => 0).

(** The body of the loop over the transfers. *)
Definition aggregate1 (acc : Flows) (tr : Transfer) : Flows :=
  let o := addFlow (DirectedRoad.id (src tr)) (amount tr) (outflows acc) in
  match tgt tr with
  | EXIT => mkFlows o (inflows acc) (throughput acc + amount tr)
  | ToRoad r =>
      mkFlows o (addFlow (DirectedRoad.id r) (amount tr) (inflows acc))
              (throughput acc)
  end.

Definition aggregate (rs : list DirectedRoad.t) (thr : Q)
           (trs : list Transfer) : Flows :=
  fold_left aggregate1 trs (mkFlows (zeroFlows rs) (zeroFlows rs) thr).

Definition slotEmpty (d : Dir) (s : RoadSlots) : bool :=
  match getSlot d s with
  | Some _ => false
  | None => true
  end.

Definition isEntry (r : DirectedRoad.t) (uNode : Intersection.t) : bool :=
  let k := DirectedRoad.id r in
  let ins := Intersection.inRoads uNode in
  (includes "R_E" k && slotEmpty West ins)
  || (includes "R_W" k && slotEmpty East ins)
  || (includes "R_S" k && slotEmpty North ins)
  || (includes "R_N" k && slotEmpty South ins).

(** The body of the inflow-generation loop for one road. *)
Definition spawn (ns : Rec.t Intersection.t) (rate : Q)
           (r : DirectedRoad.t) (g : Random) : DirectedRoad.t * Random :=
  match Rec.get (DirectedRoad.u r) ns with
  | None => (r, g)
  | Some uNode =>
      let cs := DirectedRoad.cells r in
      if isEntry r uNode && Qltb (getCell cs 0) 2
      then
        let (x, g') := nextRandom g in
        if Qltb x rate
        then (DirectedRoad.withCells r (setCell 0 (getCell cs 0 + 2) cs), g')
        else (r, g')
      else (r, g)
  end.

Fixpoint generateInflow (ns : Rec.t Intersection.t) (rate : Q)
         (rs : list DirectedRoad.t) (g : Random)
  : list DirectedRoad.t * Random :=
  match rs with
  | [] => ([], g)
  | r :: rest =>
      let (r', g1) := spawn ns rate r g in
      let (rest', g2) := generateInflow ns rate rest g1 in
      (r' :: rest', g2)
  end.

(** The transfers of one tick: signals already updated. *)
Definition collectTransfers (rs : list DirectedRoad.t)
           (ns : Rec.t Intersection.t) : list Transfer :=
  flat_map (Intersection.stepFlow rs) (Rec.values ns).

Definition step (g : Random) (e : t) : t * Random :=
  let count := (stepCount e + 1)%Z in
  let ns := Rec.mapValues
              (Intersection.updateSignal (mode e) (roads e))
              (intersections e) in
  let transfers := collectTransfers (roads e) ns in
  let fl := aggregate (roads e) (totalThroughput e) transfers in
  let rs1 := map (fun r =>
                    DirectedRoad.stepPhysics
                      (inflows fl (DirectedRoad.id r))
                      (outflows fl (DirectedRoad.id r)) r)
                 (roads e) in
  let (rs2, g') := generateInflow ns (inflowRate e) rs1 g in
  (mk rs2 ns (throughput fl) count (mode e) (rows e) (cols e)
      (inflowRate e), g').

(** [n] calls of [step]. *)
Fixpoint run (n : nat) (g : Random) (e : t) : t * Random :=
  match n with
  | O => (e, g)
  | S n' => let (e', g') := step g e in run n' g' e'
  end.

Definition roadSnapshot (r : DirectedRoad.t) : RoadData :=
  mkRoadData (DirectedRoad.id r) (DirectedRoad.u r) (DirectedRoad.v r)
             (DirectedRoad.cells r) (DirectedRoad.getTotalCars r)
             (DirectedRoad.getStoppedQueue r) (DirectedRoad.isBoundary r).

Definition nodeSnapshot (n : Intersection.t) : IntersectionData :=
  mkIntersectionData (Intersection.id n) (Intersection.phase n)
                     (Intersection.row n) (Intersection.col n).

Definition getSnapshot (e : t) : SimulationSnapshot :=
  let totalCars :=
    fold_left (fun sum r => sum + DirectedRoad.getTotalCars r) (roads e) 0 in
  let stoppedCars :=
    fold_left (fun sum r => sum + DirectedRoad.getStoppedQueue r)
              (roads e) 0 in
  mkSnapshot (map roadSnapshot (roads e))
             (map nodeSnapshot (Rec.values (intersections e)))
             (mkStats (stepCount e) totalCars stoppedCars
                      (totalThroughput e)).
End SimulationEngine.

(** ** constants.ts: the colours *)

Module COLORS.
Definition NS_GREEN : string := "#4ade80".
Definition EW_GREEN : string := "#facc15".
Definition RED : string := "#ef4444".
Definition ROAD_EMPTY : string := "#334155".
Definition ROAD_JAMMED : string := "#dc2626".
End COLORS.

(** ** App.tsx: the two engines and the history

    The component keeps a fixed-time and an adaptive engine of the same
    size and entry rate, steps both on every due frame and appends one
    item to the history, of which it keeps the last 200.  Both engines
    draw from the one [Math.random], the fixed-time engine first. *)

Module App.
Import SimulationEngine.

(** [INFLOW = 0.35] *)
Definition INFLOW : Q := 35 # 100.

Record ComparisonStats : Type := mkComparison {
  cs_step : Z;
  fixedTotalCars : Q;
  smartTotalCars : Q;
  fixedStopped : Q;
  smartStopped : Q;
  fixedThroughput : Q;
  smartThroughput : Q
}.

(** The refs and the state that the simulation writes. *)
Record t : Type := mk {
  fixedEngine : SimulationEngine.t;
  smartEngine : SimulationEngine.t;
  fixedSnapshot : SimulationSnapshot;
  smartSnapshot : SimulationSnapshot;
  history : list ComparisonStats
}.

(** [initSimulation]; [None] is an exception of a constructor. *)
Definition initSimulation (gridSize : Z) : option t :=
  match SimulationEngine.new gridSize gridSize INFLOW FIXED with
  | None => None
  | Some fixedEngine =>
      match SimulationEngine.new gridSize gridSize INFLOW SMART with
      | None => None
      | Some smartEngine =>
          Some (mk fixedEngine smartEngine (getSnapshot fixedEngine)
                   (getSnapshot smartEngine) [])
      end
  end.

Definition newItem (fSnap sSnap : SimulationSnapshot) : ComparisonStats :=
  mkComparison (st_step (snap_stats fSnap))
               (st_totalCars (snap_stats fSnap))
               (st_totalCars (snap_stats sSnap))
               (st_stoppedCars (snap_stats fSnap))
               (st_stoppedCars (snap_stats sSnap))
               (st_throughput (snap_stats fSnap))
               (st_throughput (snap_stats sSnap)).

(** The updater given to [setHistory]: [slice(1)] drops the oldest
    item. *)
Definition pushHistory (prev : list ComparisonStats) (item : ComparisonStats)
  : list ComparisonStats :=
  let newHistory := prev ++ [item] in
  if (200 <? List.length newHistory)%nat then skipn 1 newHistory
  else newHistory.

(** The body of [tick] on a frame that is due, both engines present. *)
Definition frame (g : Random) (a : t) : t * Random :=
  let (fe, g1) := step g (fixedEngine a) in
  let (se, g2) := step g1 (smartEngine a) in
  let fSnap := getSnapshot fe in
  let sSnap := getSnapshot se in
  (mk fe se fSnap sSnap (pushHistory (history a) (newItem fSnap sSnap)), g2).

(** [n] due frames. *)
Fixpoint frames (n : nat) (g : Random) (a : t) : t * Random :=
  match n with
  | O => (a, g)
  | S n' => let (a', g') := frame g a in frames n' g' a'
  end.

(** The "Wait Reduction" figure for the last item of the history, as a
    number before [toFixed(1)] formats it; [None] is the literal "0%"
    that is shown when [last.fixedStopped] is 0. *)
Definition waitReduction (last : ComparisonStats) : option Q :=
  if Qeq_bool (fixedStopped last) 0 then None
  else Some (((fixedStopped last - smartStopped last) / fixedStopped last)
             * 100).
End App.

(** ** components/Charts.tsx *)

Module Charts.
(** [data.slice(-200)] *)
Definition chartData (data : list App.ComparisonStats)
  : list App.ComparisonStats :=
  skipn (List.length data - 200) data.
End Charts.

(** ** components/TrafficGrid.tsx *)

Module TrafficGrid.
Import PHYSICS.

Record VisualConfig : Type := mkVisual {
  cellSize : Z;
  radius : Z;
  road : Z;
  padding : Z
}.

Definition getVisualConfig (n : Z) : VisualConfig :=
  if (14 <? n)%Z then mkVisual 22 4 4 15
  else if (8 <? n)%Z then mkVisual 30 6 5 20
  else mkVisual 45 8 6 25.

Definition width (cols : Z) : Z :=
  (cols * cellSize (getVisualConfig cols)
   + padding (getVisualConfig cols) * 2)%Z.

Definition height (rows cols : Z) : Z :=
  (rows * cellSize (getVisualConfig cols)
   + padding (getVisualConfig cols) * 2)%Z.

(** [getCoords(row, col)] as the pair [(x, y)]. *)
Definition getCoords (cols : Z) (row col : Z) : Z * Z :=
  ((col * cellSize (getVisualConfig cols) + padding (getVisualConfig cols))%Z,
   (row * cellSize (getVisualConfig cols) + padding (getVisualConfig cols))%Z).

Definition getRoadColor (rd : RoadData) : string :=
  let density :=
    rd_stoppedQueue rd
    / (inject_Z (Z.of_nat ROAD_LENGTH_CELLS) * MAX_CARS_PER_CELL) in
  if Qltb (4 # 10) density then COLORS.ROAD_JAMMED
  else if Qltb (1 # 10) density then "#eab308"%string
  else COLORS.ROAD_EMPTY.

(** The circle that [drawIntersection] draws: its centre and radius. *)
Definition nodeCircle (cols : Z) (nd : IntersectionData) : Z * Z * Z :=
  (getCoords cols (Z.of_nat (nd_row nd)) (Z.of_nat (nd_col nd)),
   radius (getVisualConfig cols)).

(** [s.split(sep)] for a separator of one character. *)
Fixpoint split (sep : ascii) (s : string) : list string :=
  match s with
  | EmptyString => [EmptyString]
  | String a s' =>
      if Ascii.eqb a sep then EmptyString :: split sep s'
      else match split sep s' with
           | piece :: rest => String a piece :: rest
           | [] => [String a EmptyString]
           end
  end.

(** [Number(s)] for a string of decimal digits; [None] stands for every
    other string, on which [Number] is not modelled. *)
Definition Number (s : string) : option nat :=
  match NilEmpty.uint_of_string s with
  | Some d => Some (Nat.of_uint d)
  | None => None
  end.

(** [const [row, col] = id.split('-').map(Number)]; [None] when a piece
    is missing or is not a string of digits. *)
Definition parseNode (id : string) : option (nat * nat) :=
  match map Number (split "-" id) with
  | Some row :: Some col :: _ => Some (row, col)
  | _ => None
  end.

(** [start] and [end] of [drawRoad], the two points between which the
    road is drawn before it is shifted sideways. *)
Definition roadEnds (cols : Z) (rd : RoadData) : option ((Z * Z) * (Z * Z)) :=
  match parseNode (rd_u rd), parseNode (rd_v rd) with
  | Some (uRow, uCol), Some (vRow, vCol) =>
      Some (getCoords cols (Z.of_nat uRow) (Z.of_nat uCol),
            getCoords cols (Z.of_nat vRow) (Z.of_nat vCol))
  | _, _ => None
  end.
End TrafficGrid.


(* ================================================================== *)
(** * Part II: reference definitions used to state the properties *)
(* ================================================================== *)

Unset Implicit Arguments.

(** Two cell arrays hold the same numbers. *)
Definition sameCells (a b : list Q) : Prop := Forall2 Qeq a b.

(** Every number of the array lies in [[lo, hi]]. *)
Definition cellsWithin (lo hi : Q) (cs : list Q) : Prop :=
  Forall (fun c => lo <= c /\ c <= hi) cs.

Module CTM.
Import PHYSICS.

(** Modelled from the spec: "for each adjacent pair (i, i+1), flux =
    min(density[i], MAX_DENSITY - density[i+1])", the densities being
    those of the frozen post-boundary snapshot; [MAX_DENSITY] is
    [MAX_CARS_PER_CELL]. *)
Definition referenceFlux (frozen : list Q) (i : nat) : Q :=
  Qmin (getCell frozen i) (MAX_CARS_PER_CELL - getCell frozen (i + 1)).

(** Modelled from the spec: the simultaneous update of the
    cell-transmission method,
    [new[i] = frozen[i] - flux(i, i+1) + flux(i-1, i)], a boundary
    cell having only the flux of its one internal neighbour. *)
Definition simultaneousCell (frozen : list Q) (i : nat) : Q :=
  getCell frozen i
  - (if (i + 1 <? List.length frozen)%nat then referenceFlux frozen i else 0)
  + (if (1 <=? i)%nat then referenceFlux frozen (i - 1) else 0).

Definition simultaneous (frozen : list Q) : list Q :=
  map (simultaneousCell frozen) (seq 0 (List.length frozen)).

(** What moving the reference flux of each pair of [order], one pair
    after the other, adds to cell [j]. *)
Fixpoint net (frozen : list Q) (order : list nat) (j : nat) : Q :=
  match order with
  | [] => 0
  | i :: rest =>
      (if (j =? i + 1)%nat then referenceFlux frozen i else 0)
      - (if (j =? i)%nat then referenceFlux frozen i else 0)
      + net frozen rest j
  end.
End CTM.

(** ** Two readings of the pressure of an axis

    Separately: every incoming road of the axis adds its queue, every
    outgoing road of the axis takes away half its load, a missing road
    counts for nothing.  By movement: see [movement]. *)

Module Pressure.
(** The queue of the road that comes in from [d], if there is one. *)
Definition queuedIn (roads : list DirectedRoad.t) (n : Intersection.t)
           (d : Dir) : Q :=
  match Intersection.inRoad roads n d with
  | Some r => DirectedRoad.getStoppedQueue r
  | None => 0
  end.

(** The load of the road that goes out towards [d], if there is one. *)
Definition totalOut (roads : list DirectedRoad.t) (n : Intersection.t)
           (d : Dir) : Q :=
  match Intersection.outRoad roads n d with
  | Some r => DirectedRoad.getTotalCars r
  | None => 0
  end.

Definition axisSeparate (roads : list DirectedRoad.t) (n : Intersection.t)
           (a b : Dir) : Q :=
  (queuedIn roads n a + queuedIn roads n b)
  - (1 # 2) * (totalOut roads n b + totalOut roads n a).

Definition separate (roads : list DirectedRoad.t) (n : Intersection.t)
  : Q * Q :=
  (Qmax (1 # 10) (axisSeparate roads n North South),
   Qmax (1 # 10) (axisSeparate roads n East West)).

(** The reading by movement: an incoming road from [a] adds its queue
    and takes away half the load of the outgoing road towards [b], if
    there is one; without the incoming road the movement counts for
    nothing, whatever the outgoing road holds. *)
Definition movement (roads : list DirectedRoad.t) (n : Intersection.t)
           (a b : Dir) : Q :=
  match Intersection.inRoad roads n a with
  | Some r =>
      DirectedRoad.getStoppedQueue r
      - match Intersection.outRoad roads n b with
        | Some o => (1 # 2) * DirectedRoad.getTotalCars o
        | None => 0
        end
  | None => 0
  end.

Definition byMovement (roads : list DirectedRoad.t) (n : Intersection.t)
  : Q * Q :=
  (Qmax (1 # 10) (movement roads n North South + movement roads n South North),
   Qmax (1 # 10) (movement roads n East West + movement roads n West East)).
End Pressure.

(** The stream of draws that always lets a vehicle block in. *)
Definition alwaysSpawn : Random := fun _ => 0.

(** The four tags of the road identifiers. *)
Definition roadTags : list string := ["E"; "W"; "S"; "N"]%string.

(** A string without the separator of the road identifiers. *)
Fixpoint noSep (s : string) : Prop :=
  match s with
  | EmptyString => True
  | String a s' => a <> "_"%char /\ noSep s'
  end.

(** ** Wiring of the grid *)

Definition allDirs : list Dir := [North; South; East; West].

Definition olist (A : Type) (o : option A) : list A :=
  match o with
  | Some a => [a]
  | None => []
  end.
Arguments olist {A} o.

(** The handles held by the four slots of an object. *)
Definition slotHandles (s : RoadSlots) : list nat :=
  flat_map (fun d => olist (getSlot d s)) allDirs.

(** The handles held by all [inRoads], and by all [outRoads]. *)
Definition inHandles (ns : Rec.t Intersection.t) : list nat :=
  flat_map (fun n => slotHandles (Intersection.inRoads n)) (Rec.values ns).

Definition outHandles (ns : Rec.t Intersection.t) : list nat :=
  flat_map (fun n => slotHandles (Intersection.outRoads n)) (Rec.values ns).

(** Every handle of the list points into a store of [len] roads, and no
    handle occurs twice. *)
Definition HandlesOK (len : nat) (hs : list nat) : Prop :=
  forall x, (count_occ Nat.eq_dec hs x <= (if (x <? len)%nat then 1 else 0))%nat.

(** The incoming roads of a node, and its outgoing roads. *)
Definition inList (rs : list DirectedRoad.t) (n : Intersection.t)
  : list DirectedRoad.t :=
  flat_map (fun d => olist (Intersection.inRoad rs n d)) allDirs.

Definition outList (rs : list DirectedRoad.t) (n : Intersection.t)
  : list DirectedRoad.t :=
  flat_map (fun d => olist (Intersection.outRoad rs n d)) allDirs.

(** A well-wired grid: a road sits in at most one incoming slot and in
    at most one outgoing slot of the whole grid, slots point to roads
    of the store, and no two roads share an identifier. *)
Record Wired (rs : list DirectedRoad.t) (ns : Rec.t Intersection.t)
  : Prop := mkWired {
  wired_in : HandlesOK (List.length rs) (inHandles ns);
  wired_out : HandlesOK (List.length rs) (outHandles ns);
  wired_ids : NoDup (map DirectedRoad.id rs)
}.

(** The identifiers of the roads made so far, while the second pair of
    loops of [buildGrid] is at row [r], column [c], having made there
    the roads tagged [used]. *)
Definition IdsUpTo (r c : nat) (used : list string)
           (rs : list DirectedRoad.t) : Prop :=
  forall x, In x (map DirectedRoad.id rs) ->
    exists tag r' c',
      In tag roadTags /\ x = SimulationEngine.roadKey tag r' c' /\
      ((r' < r)%nat \/ (r' = r /\ (c' < c)%nat) \/
       (r' = r /\ c' = c /\ In tag used)).

(** What holds of the grid all along the second pair of loops. *)
Record GridOK (R C : nat) (g : SimulationEngine.Grid) : Prop := mkGridOK {
  grid_wired : Wired (fst g) (snd g);
  grid_signals :
    Forall (fun n => Intersection.phase n = 0%Z /\
                     Intersection.phaseTimer n = 0%Z) (Rec.values (snd g));
  grid_keys :
    forall r c, (r < R)%nat -> (c < C)%nat ->
                Rec.get (SimulationEngine.nodeKey r c) (snd g) <> None;
  grid_cells :
    Forall (fun rd => DirectedRoad.cells rd =
                      repeat 0 PHYSICS.ROAD_LENGTH_CELLS) (fst g)
}.

(** A node as the first pair of loops of [buildGrid] leaves it. *)
Definition freshNode (n : Intersection.t) : Prop :=
  Intersection.inRoads n = noSlots /\ Intersection.outRoads n = noSlots /\
  Intersection.phase n = 0%Z /\ Intersection.phaseTimer n = 0%Z.

(** The roads a list of handles points to. *)
Definition derefs (rs : list DirectedRoad.t) (hs : list nat)
  : list DirectedRoad.t :=
  flat_map (fun h => olist (nth_error rs h)) hs.

(** The identifiers of the source roads of a list of transfers, and of
    its destination roads. *)
Definition srcIds (trs : list Transfer) : list string :=
  map (fun tr => DirectedRoad.id (src tr)) trs.

Definition tgtIds (trs : list Transfer) : list string :=
  flat_map (fun tr => match tgt tr with
                      | ToRoad r => [DirectedRoad.id r]
                      | EXIT => []
                      end) trs.

(** The amounts that the loop over the transfers adds to [outflows[k]]
    and to [inflows[k]], in the order of the loop. *)
Definition outTerms (k : string) (trs : list Transfer) : list Q :=
  flat_map (fun tr => if String.eqb k (DirectedRoad.id (src tr))
                      then [amount tr] else []) trs.

Definition inTerms (k : string) (trs : list Transfer) : list Q :=
  flat_map (fun tr => match tgt tr with
                      | ToRoad r => if String.eqb k (DirectedRoad.id r)
                                    then [amount tr] else []
                      | EXIT => []
                      end) trs.

(** The transfers that a call of [step] collects in state [e]. *)
Definition tickTransfers (e : SimulationEngine.t) : list Transfer :=
  SimulationEngine.collectTransfers (SimulationEngine.roads e)
    (Rec.mapValues
       (Intersection.updateSignal (SimulationEngine.mode e)
                                  (SimulationEngine.roads e))
       (SimulationEngine.intersections e)).

(** What holds of the engine between two ticks. *)
Record EngineOK (e : SimulationEngine.t) : Prop := mkEngineOK {
  ok_wired : Wired (SimulationEngine.roads e) (SimulationEngine.intersections e);
  ok_cells :
    Forall (fun r => cellsWithin 0 PHYSICS.MAX_CARS_PER_CELL (DirectedRoad.cells r))
           (SimulationEngine.roads e)
}.

(** ** Signal traces *)

(** The node stored under [key]; a key that is absent reads as a node
    that no loop ever touches. *)
Definition nodeAt (e : SimulationEngine.t) (key : string) : Intersection.t :=
  match Rec.get key (SimulationEngine.intersections e) with
  | Some n => n
  | None => Intersection.new key 0 0
  end.

(** Phase and timer of the node [key] after [k] ticks from [e0] with the
    draws [g]. *)
Definition phaseAfter (e0 : SimulationEngine.t) (g : Random) (key : string)
           (k : nat) : Z :=
  Intersection.phase (nodeAt (fst (SimulationEngine.run k g e0)) key).

Definition timerAfter (e0 : SimulationEngine.t) (g : Random) (key : string)
           (k : nat) : Z :=
  Intersection.phaseTimer (nodeAt (fst (SimulationEngine.run k g e0)) key).

(** Tick [j] changes the phase of the node [key]. *)
Definition flipsAt (e0 : SimulationEngine.t) (g : Random) (key : string)
           (j : nat) : Prop :=
  (1 <= j)%nat /\ phaseAfter e0 g key j <> phaseAfter e0 g key (j - 1).

(** ** States that differ only in the boundary flags *)

Definition eraseRoad (r : DirectedRoad.t) : DirectedRoad.t :=
  DirectedRoad.mk (DirectedRoad.id r) (DirectedRoad.u r) (DirectedRoad.v r)
                  (DirectedRoad.cells r) false.

Definition eraseTarget (t : Target) : Target :=
  match t with
  | ToRoad r => ToRoad (eraseRoad r)
  | EXIT => EXIT
  end.

Definition eraseTransfer (tr : Transfer) : Transfer :=
  mkTransfer (eraseRoad (src tr)) (eraseTarget (tgt tr)) (amount tr).

(** The state with every boundary flag cleared: all that is left of the
    state once the flags are put aside. *)
Definition eraseBoundary (e : SimulationEngine.t) : SimulationEngine.t :=
  SimulationEngine.mk
    (map eraseRoad (SimulationEngine.roads e))
    (SimulationEngine.intersections e)
    (SimulationEngine.totalThroughput e)
    (SimulationEngine.stepCount e)
    (SimulationEngine.mode e)
    (SimulationEngine.rows e)
    (SimulationEngine.cols e)
    (SimulationEngine.inflowRate e).

Definition sameButBoundary (e1 e2 : SimulationEngine.t) : Prop :=
  eraseBoundary e1 = eraseBoundary e2.

(** A road of the snapshot without its boundary flag. *)
Definition roadDataButBoundary (rd : RoadData)
  : string * string * string * list Q * Q * Q :=
  (rd_id rd, rd_u rd, rd_v rd, rd_cells rd, rd_totalCars rd,
   rd_stoppedQueue rd).

(** Two flow records agree: same outflow and inflow under every key,
    same throughput. *)
Definition sameFlows (a b : Flows) : Prop :=
  (forall k, outflows a k = outflows b k) /\
  (forall k, inflows a k = inflows b k) /\
  throughput a = throughput b.

(** ** Worked states *)

(** A road holding the given cells. *)
Definition roadWith (id u v : string) (cs : list Q) : DirectedRoad.t :=
  DirectedRoad.mk id u v cs false.

(** Scenario C: a southbound road whose last cell is full, the empty
    road that continues it, and the intersection between the two, its
    north-south axis green. *)
Definition scenarioC_up : DirectedRoad.t :=
  roadWith "R_S_0_0" "0-0" "1-0" [0; 0; 0; 0; 0; 0; 0; 0; 0; 7].

Definition scenarioC_down : DirectedRoad.t :=
  DirectedRoad.new "R_S_1_0" "1-0" "2-0" false.

Definition scenarioC_roads : list DirectedRoad.t :=
  [scenarioC_up; scenarioC_down].

Definition scenarioC_node : Intersection.t :=
  Intersection.withOut South 1 (Intersection.withIn North 0
    (Intersection.new "1-0" 1 0)).

(** A road with some traffic in every cell. *)
Definition busyRoad : DirectedRoad.t :=
  roadWith "R_E_0_0" "0-0" "0-1" [3; 7; 0; 2; 5; 7; 7; 1; 0; 4].

(** The engine with no intersection and no road. *)
Definition emptyEngine (rws cls : Z) (rate : Q) (m : ControlMode)
  : SimulationEngine.t :=
  SimulationEngine.mk [] [] 0 0 m rws cls rate.

(** A 2x2 grid in adaptive mode after 20 ticks in which every entry
    road that has room receives a block. *)
Definition busyGrid : SimulationEngine.t := Eval vm_compute in
    match SimulationEngine.new 2 2 1 SMART with
    | Some e => fst (SimulationEngine.run 20 alwaysSpawn e)
    | None => emptyEngine 2 2 1 SMART
    end.

(** The same grid with every boundary flag inverted. *)
Definition busyGridFlipped : SimulationEngine.t :=
  SimulationEngine.mk
    (map (fun r => DirectedRoad.mk (DirectedRoad.id r) (DirectedRoad.u r)
                     (DirectedRoad.v r) (DirectedRoad.cells r)
                     (negb (DirectedRoad.isBoundary r)))
         (SimulationEngine.roads busyGrid))
    (SimulationEngine.intersections busyGrid)
    (SimulationEngine.totalThroughput busyGrid)
    (SimulationEngine.stepCount busyGrid)
    (SimulationEngine.mode busyGrid)
    (SimulationEngine.rows busyGrid)
    (SimulationEngine.cols busyGrid)
    (SimulationEngine.inflowRate busyGrid).

(** ** Conservation and validation, as the specification words them *)

(** Conservation for one call of [stepPhysics]. *)
Definition conserves (r : DirectedRoad.t) (flowIn flowOut : Q) : Prop :=
  DirectedRoad.getTotalCars (DirectedRoad.stepPhysics flowIn flowOut r) ==
  DirectedRoad.getTotalCars r + flowIn - flowOut.

(** The constructor rejects its arguments: it throws. *)
Definition rejects (rws cls : Z) (rate : Q) (m : ControlMode) : Prop :=
  SimulationEngine.new rws cls rate m = None.

(** The arguments that the constructor was to reject. *)
Definition invalidConfig (rws cls : Z) (rate : Q) : Prop :=
  (rws <= 0)%Z \/ (cls <= 0)%Z \/ ~ (0 <= rate /\ rate <= 1).

(** ** Routing *)

(** Straight through: a road that comes in from [d] continues on the
    road that leaves on the opposite side. *)
Definition opposite (d : Dir) : Dir :=
  match d with
  | North => South
  | South => North
  | East => West
  | West => East
  end.

(** [d] is a direction of the axis that is green in phase [ph]. *)
Definition onGreenAxis (ph : Z) (d : Dir) : Prop :=
  (ph = 0%Z /\ (d = North \/ d = South)) \/
  (ph <> 0%Z /\ (d = East \/ d = West)).

(** ** Whole numbers *)

(** The number is an integer.  On a JavaScript number that is an
    integer of small magnitude, as on its halves, [+], [-] and the
    comparisons are exact. *)
Definition isWhole (q : Q) : Prop := exists z : Z, q == inject_Z z.

Definition wholeCells (cs : list Q) : Prop := Forall isWhole cs.

(** ** Network totals *)

(** [this.roads.reduce((sum, r) => sum + f(r), 0)], the reduction that
    [getSnapshot] uses for its two totals. *)
Definition sumRoads (f : DirectedRoad.t -> Q) (rs : list DirectedRoad.t) : Q :=
  fold_left (fun sum r => sum + f r) rs 0.

(** The vehicles on the roads of the engine, as [getSnapshot] counts
    them. *)
Definition carsInNetwork (e : SimulationEngine.t) : Q :=
  st_totalCars (snap_stats (SimulationEngine.getSnapshot e)).

(** No draw of the stream is below the rate: [Math.random() < rate]
    never holds. *)
Definition neverBelow (rate : Q) (g : Random) : Prop :=
  forall i, rate <= g i.

(** What [step] never writes: the identity, the ends and the flag of a
    road, and the identity, the place and the slots of an intersection. *)
Definition roadFrame (r : DirectedRoad.t) : string * string * string * bool :=
  (DirectedRoad.id r, DirectedRoad.u r, DirectedRoad.v r,
   DirectedRoad.isBoundary r).

Definition nodeFrame (kn : string * Intersection.t)
  : string * string * nat * nat * RoadSlots * RoadSlots :=
  (fst kn, Intersection.id (snd kn), Intersection.row (snd kn),
   Intersection.col (snd kn), Intersection.inRoads (snd kn),
   Intersection.outRoads (snd kn)).


(** ** Movement along a road *)

(** No pair of neighbouring cells holds more than one cell can take:
    every cell can hand all it holds to the next one. *)
Definition freeFlow (cs : list Q) : Prop :=
  forall i, (i + 1 < List.length cs)%nat ->
            getCell cs i + getCell cs (i + 1) <= PHYSICS.MAX_CARS_PER_CELL.

(** The vehicles in the cells [j], [j+1], ... of a road. *)
Definition carsFrom (j : nat) (cs : list Q) : Q := sumCells (skipn j cs).


(** ** The grid in closed form *)

(** The string has no occurrence of the character. *)
Fixpoint lacks (a : ascii) (s : string) : Prop :=
  match s with
  | EmptyString => True
  | String b s' => b <> a /\ lacks a s'
  end.

Definition sameDir (a b : Dir) : bool :=
  match a, b with
  | North, North | South, South | East, East | West, West => true
  | _, _ => false
  end.

(** The test on the road identifier that [step] pairs with the incoming
    slot [d] when it looks for entry roads, and the tag of the roads that
    leave towards [d]. *)
Definition arrives (d : Dir) : string :=
  match d with
  | West => "R_E"
  | East => "R_W"
  | North => "R_S"
  | South => "R_N"
  end.

Definition leaves (d : Dir) : string := arrives (Intersection.targetMap d).

(** The roads that the body of the second pair of loops of [buildGrid]
    makes at row [r], column [c]. *)
Definition cellRoads (rows cols : Z) (r c : nat) : list DirectedRoad.t :=
  (if (Z.of_nat c <? cols - 1)%Z
   then [DirectedRoad.new (SimulationEngine.roadKey "E" r c)
           (SimulationEngine.nodeKey r c) (SimulationEngine.nodeKey r (c + 1))
           (Nat.eqb c 0);
         DirectedRoad.new (SimulationEngine.roadKey "W" r c)
           (SimulationEngine.nodeKey r (c + 1)) (SimulationEngine.nodeKey r c)
           (Z.of_nat c + 1 =? cols - 1)%Z]
   else [])
  ++
  (if (Z.of_nat r <? rows - 1)%Z
   then [DirectedRoad.new (SimulationEngine.roadKey "S" r c)
           (SimulationEngine.nodeKey r c) (SimulationEngine.nodeKey (r + 1) c)
           (Nat.eqb r 0);
         DirectedRoad.new (SimulationEngine.roadKey "N" r c)
           (SimulationEngine.nodeKey (r + 1) c) (SimulationEngine.nodeKey r c)
           (Z.of_nat r + 1 =? rows - 1)%Z]
   else []).

Definition rowRoads (rows cols : Z) (r : nat) : list DirectedRoad.t :=
  flat_map (cellRoads rows cols r) (seq 0 (Z.to_nat cols)).

Definition gridRoads (rows cols : Z) : list DirectedRoad.t :=
  flat_map (rowRoads rows cols) (seq 0 (Z.to_nat rows)).

(** The intersections as the first pair of loops leaves them, row by
    row. *)
Definition rowNodes (cols : Z) (r : nat) : Rec.t Intersection.t :=
  map (fun c => (SimulationEngine.nodeKey r c,
                 Intersection.new (SimulationEngine.nodeKey r c) r c))
      (seq 0 (Z.to_nat cols)).

Definition gridNodes (rows cols : Z) : Rec.t Intersection.t :=
  flat_map (rowNodes cols) (seq 0 (Z.to_nat rows)).

(** The identifier of the road that comes into the intersection at row
    [r], column [c] from [d], and of the road that leaves it towards [d],
    by the place of the intersection in the grid. *)
Definition inRoadId (rows cols : Z) (r c : nat) (d : Dir) : option string :=
  match d with
  | West => if (1 <=? c)%nat
            then Some (SimulationEngine.roadKey "E" r (c - 1)) else None
  | East => if (Z.of_nat c <? cols - 1)%Z
            then Some (SimulationEngine.roadKey "W" r c) else None
  | North => if (1 <=? r)%nat
             then Some (SimulationEngine.roadKey "S" (r - 1) c) else None
  | South => if (Z.of_nat r <? rows - 1)%Z
             then Some (SimulationEngine.roadKey "N" r c) else None
  end.

Definition outRoadId (rows cols : Z) (r c : nat) (d : Dir) : option string :=
  match d with
  | East => if (Z.of_nat c <? cols - 1)%Z
            then Some (SimulationEngine.roadKey "E" r c) else None
  | West => if (1 <=? c)%nat
            then Some (SimulationEngine.roadKey "W" r (c - 1)) else None
  | South => if (Z.of_nat r <? rows - 1)%Z
             then Some (SimulationEngine.roadKey "S" r c) else None
  | North => if (1 <=? r)%nat
             then Some (SimulationEngine.roadKey "N" (r - 1) c) else None
  end.

(** The slots of the intersection stored under [k] agree with the
    roads of the store: a filled slot points to a road that ends (or
    starts) at [k] and carries the tag of the slot; an empty slot means
    that the store has no such road. *)
Definition slotAgrees (rs : list DirectedRoad.t) (k : string)
           (endOf : DirectedRoad.t -> string) (tag : Dir -> string)
           (s : RoadSlots) : Prop :=
  forall d,
    match getSlot d s with
    | Some h =>
        exists rd, nth_error rs h = Some rd /\ endOf rd = k /\
                   includes (tag d) (DirectedRoad.id rd) = true
    | None =>
        forall rd, In rd rs -> endOf rd = k ->
                   includes (tag d) (DirectedRoad.id rd) = false
    end.

Definition WiredExactly (rs : list DirectedRoad.t)
           (ns : Rec.t Intersection.t) : Prop :=
  forall k n, Rec.get k ns = Some n ->
    Intersection.id n = k /\
    slotAgrees rs k DirectedRoad.v arrives (Intersection.inRoads n) /\
    slotAgrees rs k DirectedRoad.u leaves (Intersection.outRoads n).

(** What the second pair of loops of [buildGrid] never writes of an
    intersection. *)
Definition nodeCore (kn : string * Intersection.t)
  : string * string * nat * nat * Z * Z :=
  (fst kn, Intersection.id (snd kn), Intersection.row (snd kn),
   Intersection.col (snd kn), Intersection.phase (snd kn),
   Intersection.phaseTimer (snd kn)).

(** The grid while the second pair of loops runs: the roads made so
    far are [made], the intersections are those of the first pair of
    loops up to their slots, and the slots agree with the roads. *)
Definition BuiltSoFar (rows cols : Z) (made : list DirectedRoad.t)
           (g : SimulationEngine.Grid) : Prop :=
  fst g = made /\
  map nodeCore (snd g) = map nodeCore (gridNodes rows cols) /\
  WiredExactly (fst g) (snd g).


(** ** The adaptive rule along a run *)

(** The pressures that the adaptive rule compares at tick [k + 1] for
    the intersection [key]: that of the axis that is green after [k]
    ticks, and that of the other axis. *)
Definition pressureAt (e0 : SimulationEngine.t) (g : Random) (key : string)
           (k : nat) : Q * Q :=
  Intersection.getPressure
    (SimulationEngine.roads (fst (SimulationEngine.run k g e0)))
    (nodeAt (fst (SimulationEngine.run k g e0)) key).

Definition greenPressure (e0 : SimulationEngine.t) (g : Random)
           (key : string) (k : nat) : Q :=
  if (phaseAfter e0 g key k =? 0)%Z
  then fst (pressureAt e0 g key k) else snd (pressureAt e0 g key k).

Definition redPressure (e0 : SimulationEngine.t) (g : Random)
           (key : string) (k : nat) : Q :=
  if (phaseAfter e0 g key k =? 0)%Z
  then snd (pressureAt e0 g key k) else fst (pressureAt e0 g key k).


(** ** Rendering and history *)

(** The circle lies within the canvas of the given width and height. *)
Definition circleInside (w h : Z) (circle : Z * Z * Z) : Prop :=
  let '(x, y, rad) := circle in
  (0 <= x - rad)%Z /\ (x + rad <= w)%Z /\
  (0 <= y - rad)%Z /\ (y + rad <= h)%Z.

(** The number of cells of a road that count as queued. *)
Definition queuedCells (cs : list Q) : nat :=
  List.length (filter (fun c => Qltb 2 c) cs).


(** ** The entry loop of a tick, seen from outside *)

(** The roads as the cell update of [step] leaves them in state [e],
    before the entry loop runs. *)
Definition afterPhysics (e : SimulationEngine.t) : list DirectedRoad.t :=
  let fl := SimulationEngine.aggregate (SimulationEngine.roads e)
              (SimulationEngine.totalThroughput e) (tickTransfers e) in
  map (fun r => DirectedRoad.stepPhysics (inflows fl (DirectedRoad.id r))
                  (outflows fl (DirectedRoad.id r)) r)
      (SimulationEngine.roads e).

(** The first cell of the road holds more after than before. *)
Definition raised (before after : DirectedRoad.t) : bool :=
  Qltb (getCell (DirectedRoad.cells before) 0)
       (getCell (DirectedRoad.cells after) 0).

(** The blocks that the entry loop of the tick spawns: the roads whose
    first cell holds more at the end of the tick than after the cell
    update. *)
Definition blocksSpawned (e : SimulationEngine.t) (g : Random) : nat :=
  List.length
    (filter (fun p => raised (fst p) (snd p))
            (combine (afterPhysics e)
                     (SimulationEngine.roads (fst (SimulationEngine.step g e))))).

(** What the entry loop may do to a road: nothing, or add one block of
    two to the first cell of an entry road that holds less than two
    there. *)
Definition entryOf (ns : Rec.t Intersection.t)
           (before after : DirectedRoad.t) : Prop :=
  after = before \/
  ((exists uNode,
       Rec.get (DirectedRoad.u before) ns = Some uNode /\
       SimulationEngine.isEntry before uNode = true) /\
   getCell (DirectedRoad.cells before) 0 < 2 /\
   after = DirectedRoad.withCells before
             (setCell 0 (getCell (DirectedRoad.cells before) 0 + 2)
                      (DirectedRoad.cells before))).

(* ================================================================== *)
(** * Part III: properties *)
(* ================================================================== *)

(** ** Numbers and arrays *)

Lemma Qltb_lt (a b : Q) : Qltb a b = true <-> a < b.
Proof.
  unfold Qltb. rewrite negb_true_iff.
  destruct (Qle_bool b a) eqn:H.
  - apply Qle_bool_iff in H. split; [discriminate | lra].
  - split; [intros _ | reflexivity].
    destruct (Qlt_le_dec a b) as [Hlt | Hle]; [exact Hlt |].
    apply Qle_bool_iff in Hle. congruence.
Qed.

Lemma Qltb_ge (a b : Q) : Qltb a b = false <-> b <= a.
Proof.
  unfold Qltb. rewrite negb_false_iff. apply Qle_bool_iff.
Qed.

(** Case analysis on every comparison of loop indices in the goal. *)
Ltac case_nat_tests :=
  repeat match goal with
  | |- context [Nat.leb ?a ?b] => destruct (Nat.leb_spec a b)
  | |- context [Nat.ltb ?a ?b] => destruct (Nat.ltb_spec a b)
  | |- context [Nat.eqb ?a ?b] => destruct (Nat.eqb_spec a b)
  end.

(** Case analysis on every [Qmin] and [Qmax] of the goal. *)
Ltac split_minmax :=
  repeat match goal with
  | |- context [Qmin ?a ?b] =>
      let H := fresh "Hmin" in
      let m := fresh "m" in
      destruct (Q.min_spec a b) as [[? H] | [? H]];
      remember (Qmin a b) as m
  | |- context [Qmax ?a ?b] =>
      let H := fresh "Hmax" in
      let m := fresh "m" in
      destruct (Q.max_spec a b) as [[? H] | [? H]];
      remember (Qmax a b) as m
  end.

Lemma length_setCell (i : nat) (x : Q) (cs : list Q) :
  List.length (setCell i x cs) = List.length cs.
Proof.
  revert i; induction cs as [| h t IH]; intros [| i]; simpl; auto.
Qed.

Lemma getCell_setCell_same (i : nat) (x : Q) (cs : list Q) :
  (i < List.length cs)%nat -> getCell (setCell i x cs) i = x.
Proof.
  unfold getCell. revert i; induction cs as [| h t IH]; intros [| i] H;
    simpl in *; try lia; auto. apply IH; lia.
Qed.

Lemma getCell_setCell_other (i j : nat) (x : Q) (cs : list Q) :
  i <> j -> getCell (setCell i x cs) j = getCell cs j.
Proof.
  unfold getCell. revert i j; induction cs as [| h t IH]; intros [| i] [| j] H;
    simpl; try congruence; auto.
Qed.

Lemma getCell_outside (cs : list Q) (j : nat) :
  (List.length cs <= j)%nat -> getCell cs j = 0.
Proof. intros H. unfold getCell. apply nth_overflow. exact H. Qed.

Lemma sameCells_pointwise (a b : list Q) :
  List.length a = List.length b ->
  (forall j, (j < List.length a)%nat -> getCell a j == getCell b j) ->
  sameCells a b.
Proof.
  unfold sameCells, getCell.
  revert b; induction a as [| x a IH]; intros [| y b] Hlen Hpt;
    simpl in *; try discriminate; constructor.
  - apply (Hpt O). lia.
  - apply IH; [lia |]. intros j Hj. apply (Hpt (S j)). lia.
Qed.

Lemma cellsWithin_pointwise (lo hi : Q) (cs : list Q) :
  (forall j, (j < List.length cs)%nat -> lo <= getCell cs j /\ getCell cs j <= hi) ->
  cellsWithin lo hi cs.
Proof.
  unfold cellsWithin, getCell.
  induction cs as [| x cs IH]; intros Hpt; constructor.
  - apply (Hpt O). simpl; lia.
  - apply IH. intros j Hj. apply (Hpt (S j)). simpl; lia.
Qed.

Lemma cellsWithin_getCell (lo hi : Q) (cs : list Q) (j : nat) :
  cellsWithin lo hi cs -> (j < List.length cs)%nat ->
  lo <= getCell cs j /\ getCell cs j <= hi.
Proof.
  unfold cellsWithin, getCell. intros H Hj.
  rewrite Forall_forall in H. apply H. apply nth_In. exact Hj.
Qed.

Lemma fold_plus_shift (cs : list Q) (a : Q) :
  fold_left Qplus cs a == a + sumCells cs.
Proof.
  unfold sumCells. revert a; induction cs as [| c cs IH]; intros a; simpl.
  - lra.
  - rewrite (IH (a + c)), (IH (0 + c)). lra.
Qed.

Lemma sumCells_cons (c : Q) (cs : list Q) :
  sumCells (c :: cs) == c + sumCells cs.
Proof.
  unfold sumCells at 1. simpl. rewrite fold_plus_shift. lra.
Qed.

Lemma sumCells_setCell (i : nat) (x : Q) (cs : list Q) :
  (i < List.length cs)%nat ->
  sumCells (setCell i x cs) == sumCells cs - getCell cs i + x.
Proof.
  revert i; induction cs as [| c cs IH]; intros [| i] H; simpl in *; try lia.
  - rewrite !sumCells_cons. unfold getCell; simpl. lra.
  - rewrite !sumCells_cons, IH by lia. unfold getCell; simpl. lra.
Qed.

(** ** The CTM loop of [stepPhysics] *)

Section CTMLoop.
Import PHYSICS DirectedRoad CTM.

Variable frozen : list Q.

Lemma length_ctmPair (nc : list Q) (i : nat) :
  List.length (ctmPair frozen nc i) = List.length nc.
Proof. unfold ctmPair. now rewrite !length_setCell. Qed.

Lemma length_ctmFold (order : list nat) (nc : list Q) :
  List.length (fold_left (ctmPair frozen) order nc) = List.length nc.
Proof.
  revert nc; induction order as [| i order IH]; intros nc; simpl; auto.
  now rewrite IH, length_ctmPair.
Qed.

Lemma getCell_ctmPair (nc : list Q) (i j : nat) :
  (i + 1 < List.length nc)%nat ->
  getCell (ctmPair frozen nc i) j ==
  getCell nc j
  + ((if (j =? i + 1)%nat then referenceFlux frozen i else 0)
     - (if (j =? i)%nat then referenceFlux frozen i else 0)).
Proof.
  intros Hi. unfold ctmPair, flux, referenceFlux.
  destruct (Nat.eqb_spec j (i + 1)) as [-> | Hne1].
  - rewrite getCell_setCell_same by (rewrite length_setCell; lia).
    rewrite getCell_setCell_other by lia.
    destruct (Nat.eqb_spec (i + 1) i); [lia | lra].
  - rewrite getCell_setCell_other by lia.
    destruct (Nat.eqb_spec j i) as [-> | Hne].
    + rewrite getCell_setCell_same by lia. lra.
    + rewrite getCell_setCell_other by lia. lra.
Qed.

Lemma getCell_ctmFold (order : list nat) (nc : list Q) (j : nat) :
  Forall (fun i => (i + 1 < List.length nc)%nat) order ->
  getCell (fold_left (ctmPair frozen) order nc) j ==
  getCell nc j + net frozen order j.
Proof.
  revert nc; induction order as [| i order IH]; intros nc Hall; simpl.
  - lra.
  - inversion Hall as [| ? ? Hi Hrest]; subst.
    rewrite IH.
    + rewrite getCell_ctmPair by exact Hi. lra.
    + rewrite length_ctmPair. exact Hrest.
Qed.

Lemma net_perm (l l' : list nat) (j : nat) :
  Permutation l l' -> net frozen l j == net frozen l' j.
Proof.
  induction 1 as [| x l l' _ IH | x y l | l l' l'' _ IH1 _ IH2]; simpl.
  - reflexivity.
  - rewrite IH. reflexivity.
  - lra.
  - rewrite IH1. exact IH2.
Qed.

Lemma net_seq (a m j : nat) :
  net frozen (seq a m) j ==
  (if (a + 1 <=? j)%nat && (j <=? a + m)%nat then referenceFlux frozen (j - 1) else 0)
  - (if (a <=? j)%nat && (j <? a + m)%nat then referenceFlux frozen j else 0).
Proof.
  revert a; induction m as [| m IH]; intros a; simpl.
  - case_nat_tests; simpl; try lia; lra.
  - rewrite IH. case_nat_tests; simpl; try lia; try lra.
    all: first [ replace (j - 1)%nat with a by lia; lra | subst j; lra ].
Qed.

(** Whatever the order of the pairs, cell [j] ends as the simultaneous
    update says. *)
Lemma ctmLoop_cell (order : list nat) (j : nat) :
  Permutation order (seq 0 (List.length frozen - 1)) ->
  (j < List.length frozen)%nat ->
  getCell (ctmLoop order frozen) j == simultaneousCell frozen j.
Proof.
  intros Hperm Hj. unfold ctmLoop, simultaneousCell.
  rewrite getCell_ctmFold.
  - rewrite (net_perm _ _ j Hperm), net_seq.
    case_nat_tests; simpl; try lia; lra.
  - rewrite Forall_forall. intros i Hi.
    apply (Permutation_in _ Hperm) in Hi. apply in_seq in Hi. lia.
Qed.

Lemma ctmLoop_simultaneous (order : list nat) :
  Permutation order (seq 0 (List.length frozen - 1)) ->
  sameCells (ctmLoop order frozen) (simultaneous frozen).
Proof.
  intros Hperm. apply sameCells_pointwise.
  - unfold ctmLoop, simultaneous.
    now rewrite length_ctmFold, length_map, length_seq.
  - unfold ctmLoop. rewrite length_ctmFold. intros j Hj.
    rewrite (ctmLoop_cell _ j Hperm Hj). unfold simultaneous, getCell.
    rewrite (nth_indep _ 0 (simultaneousCell frozen 0))
      by now rewrite length_map, length_seq.
    rewrite map_nth, seq_nth by exact Hj. reflexivity.
Qed.

(** Each pair update moves density, it creates none. *)
Lemma sumCells_ctmFold (order : list nat) (nc : list Q) :
  Forall (fun i => (i + 1 < List.length nc)%nat) order ->
  sumCells (fold_left (ctmPair frozen) order nc) == sumCells nc.
Proof.
  revert nc; induction order as [| i order IH]; intros nc Hall; simpl.
  - reflexivity.
  - inversion Hall as [| ? ? Hi Hrest]; subst.
    rewrite IH by (rewrite length_ctmPair; exact Hrest).
    unfold ctmPair.
    rewrite sumCells_setCell by (rewrite length_setCell; lia).
    rewrite sumCells_setCell by lia. lra.
Qed.
End CTMLoop.

(** ** The boundary update and the whole of [stepPhysics] *)

Section RoadPhysics.
Import PHYSICS DirectedRoad CTM.

Lemma ctmOrder_perm (n : nat) : Permutation (ctmOrder n) (seq 0 (n - 1)).
Proof. unfold ctmOrder. apply Permutation_sym, Permutation_rev. Qed.

Lemma length_applyBoundary (flowIn flowOut : Q) (cs : list Q) :
  List.length (applyBoundary flowIn flowOut cs) = List.length cs.
Proof. unfold applyBoundary. now rewrite !length_setCell. Qed.

Lemma length_stepPhysics (flowIn flowOut : Q) (r : t) :
  List.length (cells (stepPhysics flowIn flowOut r)) = List.length (cells r).
Proof.
  unfold stepPhysics, ctmLoop; simpl.
  now rewrite length_ctmFold, length_applyBoundary.
Qed.

Lemma id_stepPhysics (flowIn flowOut : Q) (r : t) :
  id (stepPhysics flowIn flowOut r) = id r.
Proof. reflexivity. Qed.

(** The first cell after the boundary update. *)
Lemma applyBoundary_first (flowIn flowOut : Q) (cs : list Q) :
  (0 < List.length cs)%nat ->
  getCell (applyBoundary flowIn flowOut cs) 0 =
  (if (List.length cs - 1 =? 0)%nat
   then Qmax 0 (getCell cs 0 - flowOut) else getCell cs 0) + flowIn.
Proof.
  intros Hn. unfold applyBoundary.
  rewrite getCell_setCell_same by (rewrite length_setCell; lia).
  destruct (Nat.eqb_spec (List.length cs - 1) 0) as [E | E].
  - rewrite E. now rewrite getCell_setCell_same by lia.
  - now rewrite getCell_setCell_other by lia.
Qed.

(** The other cells after the boundary update. *)
Lemma applyBoundary_rest (flowIn flowOut : Q) (cs : list Q) (j : nat) :
  (0 < j < List.length cs)%nat ->
  getCell (applyBoundary flowIn flowOut cs) j =
  (if (j =? List.length cs - 1)%nat
   then Qmax 0 (getCell cs j - flowOut) else getCell cs j).
Proof.
  intros Hj. unfold applyBoundary.
  rewrite getCell_setCell_other by lia.
  destruct (Nat.eqb_spec j (List.length cs - 1)) as [E | E].
  - rewrite <- E. now rewrite getCell_setCell_same by lia.
  - now rewrite getCell_setCell_other by lia.
Qed.

Lemma applyBoundary_within (flowIn flowOut : Q) (cs : list Q) :
  cellsWithin 0 MAX_CARS_PER_CELL cs ->
  0 <= flowIn -> flowIn <= Qmax 0 (MAX_CARS_PER_CELL - getCell cs 0) ->
  0 <= flowOut ->
  cellsWithin 0 MAX_CARS_PER_CELL (applyBoundary flowIn flowOut cs).
Proof.
  intros Hin H0 Hsup Hout. apply cellsWithin_pointwise.
  rewrite length_applyBoundary. intros j Hj.
  destruct j as [| j].
  - rewrite applyBoundary_first by lia.
    pose proof (cellsWithin_getCell _ _ _ O Hin Hj) as [Hlo Hhi].
    revert Hsup.
    destruct (List.length cs - 1 =? 0)%nat; split_minmax; intros; lra.
  - rewrite applyBoundary_rest by lia.
    pose proof (cellsWithin_getCell _ _ _ (S j) Hin Hj) as [Hlo Hhi].
    destruct (S j =? List.length cs - 1)%nat; split_minmax; lra.
Qed.

(** The simultaneous update keeps every cell between 0 and the
    maximum. *)
Lemma simultaneousCell_within (frozen : list Q) (j : nat) :
  cellsWithin 0 MAX_CARS_PER_CELL frozen ->
  (j < List.length frozen)%nat ->
  0 <= simultaneousCell frozen j /\
  simultaneousCell frozen j <= MAX_CARS_PER_CELL.
Proof.
  intros Hin Hj. unfold simultaneousCell, referenceFlux.
  pose proof (cellsWithin_getCell _ _ _ j Hin Hj) as [Hlo Hhi].
  destruct (Nat.ltb_spec (j + 1) (List.length frozen)) as [Hn | Hn];
    destruct (Nat.leb_spec 1 j) as [Hp | Hp].
  - pose proof (cellsWithin_getCell _ _ _ (j + 1)%nat Hin Hn) as [? ?].
    assert (Hj1 : (j - 1 < List.length frozen)%nat) by lia.
    pose proof (cellsWithin_getCell _ _ _ (j - 1)%nat Hin Hj1) as [? ?].
    replace (j - 1 + 1)%nat with j by lia.
    split_minmax; lra.
  - pose proof (cellsWithin_getCell _ _ _ (j + 1)%nat Hin Hn) as [? ?].
    split_minmax; lra.
  - assert (Hj1 : (j - 1 < List.length frozen)%nat) by lia.
    pose proof (cellsWithin_getCell _ _ _ (j - 1)%nat Hin Hj1) as [? ?].
    replace (j - 1 + 1)%nat with j by lia.
    split_minmax; lra.
  - lra.
Qed.

Lemma stepPhysics_within (flowIn flowOut : Q) (r : t) :
  cellsWithin 0 MAX_CARS_PER_CELL (cells r) ->
  0 <= flowIn -> flowIn <= getSupply r -> 0 <= flowOut ->
  cellsWithin 0 MAX_CARS_PER_CELL (cells (stepPhysics flowIn flowOut r)).
Proof.
  intros Hin H0 Hsup Hout.
  pose proof (applyBoundary_within flowIn flowOut (cells r) Hin H0 Hsup Hout)
    as Hfrozen.
  apply cellsWithin_pointwise. rewrite length_stepPhysics.
  intros j Hj. unfold stepPhysics; simpl.
  rewrite <- (length_applyBoundary flowIn flowOut) in Hj.
  pose proof (ctmLoop_cell _ _ j (ctmOrder_perm _) Hj) as Heq.
  pose proof (simultaneousCell_within _ j Hfrozen Hj) as [Hlo Hhi].
  split; rewrite Heq; assumption.
Qed.

(** Without the cap on the inflow the first cell may overflow, but no
    cell goes below 0. *)
Lemma applyBoundary_nonneg (flowIn flowOut : Q) (cs : list Q) (j : nat) :
  cellsWithin 0 MAX_CARS_PER_CELL cs -> 0 <= flowIn -> 0 <= flowOut ->
  (j < List.length cs)%nat ->
  0 <= getCell (applyBoundary flowIn flowOut cs) j /\
  ((1 <= j)%nat -> getCell (applyBoundary flowIn flowOut cs) j <= MAX_CARS_PER_CELL).
Proof.
  intros Hin H0 Hout Hj.
  pose proof (cellsWithin_getCell _ _ _ j Hin Hj) as [Hlo Hhi].
  destruct j as [| j].
  - rewrite applyBoundary_first by lia.
    split; [| lia].
    destruct (List.length cs - 1 =? 0)%nat; split_minmax; lra.
  - rewrite applyBoundary_rest by lia.
    destruct (S j =? List.length cs - 1)%nat; split; intros; split_minmax; lra.
Qed.

Lemma stepPhysics_nonneg (flowIn flowOut : Q) (r : t) :
  cellsWithin 0 MAX_CARS_PER_CELL (cells r) ->
  0 <= flowIn -> 0 <= flowOut ->
  Forall (fun c => 0 <= c) (cells (stepPhysics flowIn flowOut r)).
Proof.
  intros Hin H0 Hout.
  set (frozen := applyBoundary flowIn flowOut (cells r)).
  assert (Hfz : forall j, (j < List.length frozen)%nat ->
                          0 <= getCell frozen j /\
                          ((1 <= j)%nat -> getCell frozen j <= MAX_CARS_PER_CELL)).
  { intros j Hj. unfold frozen in *. rewrite length_applyBoundary in Hj.
    now apply applyBoundary_nonneg. }
  assert (Hpt : forall j, (j < List.length frozen)%nat ->
                          0 <= getCell (cells (stepPhysics flowIn flowOut r)) j).
  { intros j Hj. unfold stepPhysics; simpl. fold frozen.
    rewrite (ctmLoop_cell _ _ j (ctmOrder_perm _) Hj).
    unfold simultaneousCell, referenceFlux.
    destruct (Hfz j Hj) as [Hj0 _].
    destruct (Nat.ltb_spec (j + 1) (List.length frozen)) as [Hn | Hn];
      destruct (Nat.leb_spec 1 j) as [Hp | Hp].
    - destruct (Hfz (j + 1)%nat Hn) as [_ Hn7]. specialize (Hn7 ltac:(lia)).
      destruct (Hfz (j - 1)%nat ltac:(lia)) as [Hp0 _].
      destruct (Hfz j Hj) as [_ Hj7]. specialize (Hj7 Hp).
      replace (j - 1 + 1)%nat with j by lia.
      split_minmax; lra.
    - split_minmax; lra.
    - destruct (Hfz (j - 1)%nat ltac:(lia)) as [Hp0 _].
      destruct (Hfz j Hj) as [_ Hj7]. specialize (Hj7 Hp).
      replace (j - 1 + 1)%nat with j by lia.
      split_minmax; lra.
    - lra. }
  assert (Hlen : List.length (cells (stepPhysics flowIn flowOut r)) =
                 List.length frozen).
  { unfold frozen. now rewrite length_stepPhysics, length_applyBoundary. }
  revert Hpt. rewrite <- Hlen.
  generalize (cells (stepPhysics flowIn flowOut r)). intros l Hpt.
  apply Forall_forall. intros x Hx.
  destruct (In_nth l x 0 Hx) as (j & Hj & <-). now apply Hpt.
Qed.

Lemma sumCells_applyBoundary (flowIn flowOut : Q) (cs : list Q) :
  cs <> [] ->
  flowOut <= getCell cs (List.length cs - 1) ->
  sumCells (applyBoundary flowIn flowOut cs) == sumCells cs + flowIn - flowOut.
Proof.
  intros Hne Hout.
  assert (Hn : (0 < List.length cs)%nat) by (destruct cs; simpl; [congruence | lia]).
  unfold applyBoundary.
  rewrite sumCells_setCell by (rewrite length_setCell; lia).
  rewrite sumCells_setCell by lia.
  split_minmax; lra.
Qed.

Lemma sumCells_stepPhysics (flowIn flowOut : Q) (r : t) :
  cells r <> [] ->
  flowOut <= getCell (cells r) (List.length (cells r) - 1) ->
  getTotalCars (stepPhysics flowIn flowOut r) ==
  getTotalCars r + flowIn - flowOut.
Proof.
  intros Hne Hout. unfold getTotalCars, stepPhysics, ctmLoop; simpl.
  rewrite sumCells_ctmFold.
  - now apply sumCells_applyBoundary.
  - rewrite Forall_forall. intros i Hi.
    apply (Permutation_in _ (ctmOrder_perm _)) in Hi.
    apply in_seq in Hi. lia.
Qed.
End RoadPhysics.

(** ** Pressure *)

Section PressureFacts.
Import Intersection Pressure.

Variable roads : list DirectedRoad.t.
Variable n : Intersection.t.

Lemma addMovement_movement (a b : Dir) (p : Q) :
  addMovement roads n a b p == p + movement roads n a b.
Proof.
  unfold addMovement, movement.
  destruct (inRoad roads n a); [destruct (outRoad roads n b) |]; lra.
Qed.

Lemma getPressure_byMovement :
  fst (getPressure roads n) == fst (byMovement roads n) /\
  snd (getPressure roads n) == snd (byMovement roads n).
Proof.
  unfold getPressure, byMovement; simpl.
  rewrite !addMovement_movement.
  split; split_minmax; lra.
Qed.

Lemma getPressure_floor :
  (1 # 10) <= fst (getPressure roads n) /\
  (1 # 10) <= snd (getPressure roads n).
Proof.
  unfold getPressure; simpl. split; apply Q.le_max_l.
Qed.
End PressureFacts.

(** ** Lists, loops and string-keyed objects *)

Lemma NoDup_app_inv (A : Type) (l1 l2 : list A) :
  NoDup (l1 ++ l2) ->
  NoDup l1 /\ NoDup l2 /\ (forall a, In a l1 -> ~ In a l2).
Proof.
  induction l1 as [| x l1 IH]; simpl; intros H.
  - repeat split; [constructor | exact H | tauto].
  - inversion H as [| ? ? Hx Hrest]; subst.
    destruct (IH Hrest) as (H1 & H2 & H3).
    repeat split; [| exact H2 |].
    + constructor; [| exact H1]. intros Hin. apply Hx, in_or_app. now left.
    + intros a [-> | Ha]; [| now apply H3].
      intros Hin. apply Hx, in_or_app. now right.
Qed.

(** Picking, inside each block of a duplicate-free concatenation, a
    duplicate-free part of the block leaves no duplicates. *)
Lemma NoDup_flat_map_incl (A B : Type) (f g : A -> list B) (l : list A) :
  NoDup (flat_map f l) ->
  (forall x, In x l -> NoDup (g x) /\ incl (g x) (f x)) ->
  NoDup (flat_map g l).
Proof.
  induction l as [| a l IH]; simpl; intros Hnd Hsub.
  - constructor.
  - destruct (NoDup_app_inv _ _ _ Hnd) as (_ & Hl & Hdisj).
    destruct (Hsub a (or_introl eq_refl)) as [Hga Hincl].
    apply NoDup_app; [exact Hga | apply IH; auto |].
    intros b Hb Hb'. apply (Hdisj b (Hincl b Hb)).
    apply in_flat_map in Hb'. destruct Hb' as (x & Hx & Hbx).
    apply in_flat_map. exists x. split; [exact Hx |].
    now apply (proj2 (Hsub x (or_intror Hx))).
Qed.

Lemma fold_left_invariant (A St : Type) (f : St -> A -> St)
      (P : St -> Prop) (l : list A) (s : St) :
  P s -> (forall s x, In x l -> P s -> P (f s x)) -> P (fold_left f l s).
Proof.
  revert s; induction l as [| x l IH]; simpl; intros s Hs Hstep.
  - exact Hs.
  - apply IH; auto.
Qed.

(** A property that one iteration establishes and the others keep. *)
Lemma fold_left_reaches (A St : Type) (f : St -> A -> St)
      (P : St -> Prop) (l : list A) (x0 : A) (s : St) :
  In x0 l -> (forall s, P (f s x0)) -> (forall s x, P s -> P (f s x)) ->
  P (fold_left f l s).
Proof.
  revert s; induction l as [| x l IH]; simpl; intros s Hin H0 Hkeep.
  - contradiction.
  - destruct Hin as [-> | Hin].
    + apply fold_left_invariant; auto.
    + apply IH; auto.
Qed.

(** A counting loop whose body may throw: with an invariant [P i] that
    holds before iteration [i] and that lets the body run, the loop
    runs to its end. *)
Lemma forEachM_counting (St : Type) (body : nat -> St -> option St)
      (P : nat -> St -> Prop) (n a : nat) (s : St) :
  P a s ->
  (forall i s, (a <= i < a + n)%nat -> P i s ->
               exists s', body i s = Some s' /\ P (S i) s') ->
  exists s', forEachM body (seq a n) s = Some s' /\ P (a + n)%nat s'.
Proof.
  revert a s; induction n as [| n IH]; simpl; intros a s Hs Hstep.
  - exists s. rewrite Nat.add_0_r. auto.
  - destruct (Hstep a s ltac:(lia) Hs) as (s1 & -> & Hs1).
    destruct (IH (S a) s1 Hs1) as (s2 & Hrun & Hs2).
    + intros i s' Hi. apply Hstep. lia.
    + exists s2. split; [exact Hrun |].
      now replace (a + S n)%nat with (S a + n)%nat by lia.
Qed.

Section RecFacts.
Variable V : Type.
Implicit Types (m : Rec.t V) (k : string) (v : V).

Lemma get_set_same k v m : Rec.get k (Rec.set k v m) = Some v.
Proof.
  induction m as [| [k' v'] m IH]; simpl.
  - now rewrite String.eqb_refl.
  - destruct (String.eqb k k') eqn:E; simpl; rewrite E; auto.
Qed.

Lemma get_set_other k k' v m :
  k <> k' -> Rec.get k (Rec.set k' v m) = Rec.get k m.
Proof.
  intros Hne. induction m as [| [k2 v2] m IH]; simpl.
  - apply String.eqb_neq in Hne. now rewrite Hne.
  - destruct (String.eqb k' k2) eqn:E; simpl.
    + apply String.eqb_eq in E; subst k2.
      apply String.eqb_neq in Hne. now rewrite Hne.
    + now rewrite IH.
Qed.

Lemma get_modify k k' (f : V -> V) m :
  Rec.get k (Rec.modify k' f m) =
  if String.eqb k k' then option_map f (Rec.get k m) else Rec.get k m.
Proof.
  induction m as [| [k2 v2] m IH]; simpl.
  - now destruct (String.eqb k k').
  - destruct (String.eqb k' k2) eqn:E; simpl.
    + apply String.eqb_eq in E; subst k2.
      now destruct (String.eqb k k').
    + rewrite IH. destruct (String.eqb_spec k k') as [-> | Hne].
      * now rewrite E.
      * reflexivity.
Qed.

Lemma get_mapValues k (f : V -> V) m :
  Rec.get k (Rec.mapValues f m) = option_map f (Rec.get k m).
Proof.
  induction m as [| [k2 v2] m IH]; simpl; auto.
  now destruct (String.eqb k k2).
Qed.

Lemma keys_mapValues (f : V -> V) m :
  map fst (Rec.mapValues f m) = map fst m.
Proof. unfold Rec.mapValues. rewrite map_map. reflexivity. Qed.

Lemma values_mapValues (f : V -> V) m :
  Rec.values (Rec.mapValues f m) = map f (Rec.values m).
Proof. unfold Rec.values, Rec.mapValues. now rewrite !map_map. Qed.

Lemma get_in_values k v m : Rec.get k m = Some v -> In v (Rec.values m).
Proof.
  induction m as [| [k2 v2] m IH]; simpl; [discriminate |].
  destruct (String.eqb k k2); intros H.
  - left. congruence.
  - right. auto.
Qed.

Lemma values_set (P : V -> Prop) k v m :
  P v -> Forall P (Rec.values m) -> Forall P (Rec.values (Rec.set k v m)).
Proof.
  intros Hv. induction m as [| [k2 v2] m IH]; simpl; intros H.
  - constructor; auto.
  - inversion H; subst. destruct (String.eqb k k2); simpl; constructor; auto.
Qed.

Lemma values_modify (P : V -> Prop) k (f : V -> V) m :
  (forall v, P v -> P (f v)) ->
  Forall P (Rec.values m) -> Forall P (Rec.values (Rec.modify k f m)).
Proof.
  intros Hf. induction m as [| [k2 v2] m IH]; simpl; intros H; auto.
  inversion H; subst. destruct (String.eqb k k2); simpl; constructor; auto.
Qed.
End RecFacts.

(** ** Identifiers *)

Lemma noSep_uint (d : Decimal.uint) : noSep (NilEmpty.string_of_uint d).
Proof. induction d; simpl; auto; split; auto; discriminate. Qed.

Lemma noSep_natStr (n : nat) : noSep (natStr n).
Proof. apply noSep_uint. Qed.

Lemma natStr_inj (n n' : nat) : natStr n = natStr n' -> n = n'.
Proof.
  unfold natStr. intros H. apply Unsigned.to_uint_inj.
  assert (E : Some (Nat.to_uint n) = Some (Nat.to_uint n'))
    by (rewrite <- !NilEmpty.usu; now rewrite H).
  congruence.
Qed.

Lemma split_sep (s1 t1 s2 t2 : string) :
  noSep s1 -> noSep t1 ->
  (s1 ++ String "_" s2 = t1 ++ String "_" t2)%string ->
  s1 = t1 /\ s2 = t2.
Proof.
  revert t1; induction s1 as [| a s1 IH]; intros [| b t1]; simpl;
    intros Hs Ht E.
  - split; congruence.
  - injection E as Ea _. destruct Ht as [Hb _]. congruence.
  - injection E as Ea _. destruct Hs as [Ha _]. congruence.
  - injection E as Ea Erest.
    destruct Hs as [_ Hs], Ht as [_ Ht].
    destruct (IH t1 Hs Ht Erest). split; congruence.
Qed.

Lemma roadKey_inj (tag tag' : string) (r c r' c' : nat) :
  In tag roadTags -> In tag' roadTags ->
  SimulationEngine.roadKey tag r c = SimulationEngine.roadKey tag' r' c' ->
  tag = tag' /\ r = r' /\ c = c'.
Proof.
  unfold roadTags, SimulationEngine.roadKey. simpl.
  intros Ht Ht' E.
  assert (Htail : tag = tag' /\
                  (natStr r ++ String "_" (natStr c) =
                   natStr r' ++ String "_" (natStr c'))%string).
  { destruct Ht as [<- | [<- | [<- | [<- | []]]]];
      destruct Ht' as [<- | [<- | [<- | [<- | []]]]];
      simpl in E; try discriminate E; injection E as E; auto. }
  destruct Htail as [-> Htail].
  apply split_sep in Htail; try apply noSep_natStr.
  destruct Htail as [Hr Hc].
  apply natStr_inj in Hr, Hc. auto.
Qed.

(** ** Slots and handles *)

Lemma count_slot_set (d : Dir) (h : nat) (s : RoadSlots) (x : nat) :
  (count_occ Nat.eq_dec (slotHandles (setSlot d h s)) x <=
   count_occ Nat.eq_dec (slotHandles s) x + (if (x =? h)%nat then 1 else 0))%nat.
Proof.
  destruct s as [[a |] [b |] [c |] [e |]], d; unfold slotHandles; simpl;
    repeat match goal with
           | |- context [Nat.eq_dec ?p ?q] => destruct (Nat.eq_dec p q)
           end;
    destruct (Nat.eqb_spec x h); lia.
Qed.

Lemma count_in_modify_in (k : string) (d : Dir) (h : nat)
      (ns : Rec.t Intersection.t) (x : nat) :
  (count_occ Nat.eq_dec (inHandles (Rec.modify k (Intersection.withIn d h) ns)) x
   <= count_occ Nat.eq_dec (inHandles ns) x + (if (x =? h)%nat then 1 else 0))%nat.
Proof.
  unfold inHandles, Rec.values.
  induction ns as [| [k2 n2] ns IH]; simpl; [lia |].
  destruct (String.eqb k k2); simpl; rewrite !count_occ_app.
  - pose proof (count_slot_set d h (Intersection.inRoads n2) x). lia.
  - lia.
Qed.

Lemma count_out_modify_out (k : string) (d : Dir) (h : nat)
      (ns : Rec.t Intersection.t) (x : nat) :
  (count_occ Nat.eq_dec (outHandles (Rec.modify k (Intersection.withOut d h) ns)) x
   <= count_occ Nat.eq_dec (outHandles ns) x + (if (x =? h)%nat then 1 else 0))%nat.
Proof.
  unfold outHandles, Rec.values.
  induction ns as [| [k2 n2] ns IH]; simpl; [lia |].
  destruct (String.eqb k k2); simpl; rewrite !count_occ_app.
  - pose proof (count_slot_set d h (Intersection.outRoads n2) x). lia.
  - lia.
Qed.

Lemma inHandles_modify_out (k : string) (d : Dir) (h : nat)
      (ns : Rec.t Intersection.t) :
  inHandles (Rec.modify k (Intersection.withOut d h) ns) = inHandles ns.
Proof.
  unfold inHandles, Rec.values.
  induction ns as [| [k2 n2] ns IH]; simpl; [reflexivity |].
  destruct (String.eqb k k2); simpl; [reflexivity | now rewrite IH].
Qed.

Lemma outHandles_modify_in (k : string) (d : Dir) (h : nat)
      (ns : Rec.t Intersection.t) :
  outHandles (Rec.modify k (Intersection.withIn d h) ns) = outHandles ns.
Proof.
  unfold outHandles, Rec.values.
  induction ns as [| [k2 n2] ns IH]; simpl; [reflexivity |].
  destruct (String.eqb k k2); simpl; [reflexivity | now rewrite IH].
Qed.

Lemma HandlesOK_NoDup (len : nat) (hs : list nat) :
  HandlesOK len hs -> NoDup hs.
Proof.
  intros H. apply (NoDup_count_occ Nat.eq_dec). intros x.
  specialize (H x). destruct (x <? len)%nat; lia.
Qed.

Lemma HandlesOK_bound (len : nat) (hs : list nat) (x : nat) :
  HandlesOK len hs -> In x hs -> (x < len)%nat.
Proof.
  intros H Hin. specialize (H x).
  apply (count_occ_In Nat.eq_dec) in Hin.
  destruct (Nat.ltb_spec x len); lia.
Qed.

(** The slot assignments of one adjacent pair keep the handles in order. *)
Lemma connectPair_handles (ku kv : string) (d : Dir)
      (r1 r2 : DirectedRoad.t) (g : SimulationEngine.Grid) :
  HandlesOK (List.length (fst g)) (inHandles (snd g)) ->
  HandlesOK (List.length (fst g)) (outHandles (snd g)) ->
  let g' := SimulationEngine.connectPair ku kv d r1 r2 g in
  HandlesOK (List.length (fst g')) (inHandles (snd g')) /\
  HandlesOK (List.length (fst g')) (outHandles (snd g')).
Proof.
  intros Hin Hout. unfold SimulationEngine.connectPair; simpl.
  rewrite length_app; simpl.
  set (len := List.length (fst g)) in *.
  split; intros x.
  - pose proof (count_in_modify_in ku d (S len)
      (Rec.modify kv (Intersection.withOut (Intersection.targetMap d) (S len))
        (Rec.modify kv (Intersection.withIn (Intersection.targetMap d) len)
          (Rec.modify ku (Intersection.withOut d len) (snd g)))) x) as H1.
    rewrite inHandles_modify_out in H1.
    pose proof (count_in_modify_in kv (Intersection.targetMap d) len
      (Rec.modify ku (Intersection.withOut d len) (snd g)) x) as H2.
    rewrite inHandles_modify_out in H2.
    specialize (Hin x).
    destruct (Nat.ltb_spec x len), (Nat.ltb_spec x (len + 2)),
      (Nat.eqb_spec x len), (Nat.eqb_spec x (S len)); lia.
  - rewrite outHandles_modify_in.
    pose proof (count_out_modify_out kv (Intersection.targetMap d) (S len)
        (Rec.modify kv (Intersection.withIn (Intersection.targetMap d) len)
          (Rec.modify ku (Intersection.withOut d len) (snd g))) x) as H1.
    rewrite outHandles_modify_in in H1.
    pose proof (count_out_modify_out ku d len (snd g) x) as H2.
    specialize (Hout x).
    destruct (Nat.ltb_spec x len), (Nat.ltb_spec x (len + 2)),
      (Nat.eqb_spec x len), (Nat.eqb_spec x (S len)); lia.
Qed.

(** ** Construction of the grid *)

Section BuildGrid.
Import SimulationEngine.

Variables rows cols : Z.

Let R := Z.to_nat rows.
Let C := Z.to_nat cols.

Lemma createNodes_fresh : Forall freshNode (Rec.values (createNodes rows cols)).
Proof.
  unfold createNodes.
  apply fold_left_invariant; [constructor |].
  intros m r _ Hm. apply fold_left_invariant; [exact Hm |].
  intros m' c _ Hm'. apply values_set; [| exact Hm'].
  repeat split.
Qed.

Lemma createNodes_keys (r c : nat) :
  (r < R)%nat -> (c < C)%nat ->
  Rec.get (nodeKey r c) (createNodes rows cols) <> None.
Proof.
  intros Hr Hc. unfold createNodes.
  assert (Hkeep : forall (m : Rec.t Intersection.t) k v,
             Rec.get (nodeKey r c) m <> None ->
             Rec.get (nodeKey r c) (Rec.set k v m) <> None).
  { intros m k v Hm. destruct (string_dec (nodeKey r c) k) as [<- | Hne].
    - rewrite get_set_same. discriminate.
    - now rewrite get_set_other. }
  apply (fold_left_reaches _ _ _
           (fun m => Rec.get (nodeKey r c) m <> None) _ r).
  - apply in_seq. fold R. lia.
  - intros m.
    apply (fold_left_reaches _ _ _
             (fun m => Rec.get (nodeKey r c) m <> None) _ c).
    + apply in_seq. fold C. lia.
    + intros m'. rewrite get_set_same. discriminate.
    + intros m' c' Hm'. now apply Hkeep.
  - intros m r' Hm. apply fold_left_invariant; [exact Hm |].
    intros m' c' _ Hm'. now apply Hkeep.
Qed.

Lemma fresh_no_handles (ns : Rec.t Intersection.t) :
  Forall freshNode (Rec.values ns) ->
  inHandles ns = [] /\ outHandles ns = [].
Proof.
  unfold inHandles, outHandles.
  induction (Rec.values ns) as [| n l IH]; simpl; intros H; [auto |].
  inversion H as [| ? ? (Hi & Ho & _) Hl]; subst.
  destruct (IH Hl) as [-> ->]. rewrite Hi, Ho. auto.
Qed.

Lemma HandlesOK_nil (len : nat) : HandlesOK len [].
Proof. intros x; simpl. destruct (x <? len)%nat; lia. Qed.

Lemma initial_grid_ok : GridOK R C ([], createNodes rows cols).
Proof.
  destruct (fresh_no_handles _ createNodes_fresh) as [Hi Ho].
  constructor; simpl.
  - constructor; simpl; rewrite ?Hi, ?Ho;
      [apply HandlesOK_nil | apply HandlesOK_nil | constructor].
  - eapply Forall_impl; [| apply createNodes_fresh].
    intros n (_ & _ & Hp & Ht). auto.
  - apply createNodes_keys.
  - constructor.
Qed.

Lemma has_modify (k k' : string) (f : Intersection.t -> Intersection.t)
      (m : Rec.t Intersection.t) :
  Rec.get k m <> None -> Rec.get k (Rec.modify k' f m) <> None.
Proof.
  intros H. rewrite get_modify.
  destruct (String.eqb k k'); [| exact H].
  destruct (Rec.get k m); [discriminate | congruence].
Qed.

Lemma IdsUpTo_weaken (r c : nat) (used : list string)
      (rs : list DirectedRoad.t) :
  IdsUpTo r c used rs -> IdsUpTo r (S c) [] rs.
Proof.
  intros H x Hx. destruct (H x Hx) as (tag & r' & c' & Ht & -> & Hpos).
  exists tag, r', c'. repeat split; auto. lia.
Qed.

Lemma IdsUpTo_next_row (r c : nat) (rs : list DirectedRoad.t) :
  IdsUpTo r c [] rs -> IdsUpTo (S r) 0 [] rs.
Proof.
  intros H x Hx. destruct (H x Hx) as (tag & r' & c' & Ht & -> & Hpos).
  exists tag, r', c'. repeat split; auto.
  destruct Hpos as [? | [[? ?] | (_ & _ & [])]]; lia.
Qed.

(** One [if] block of the second pair of loops. *)
Lemma connectTo_ok (ku kv : string) (d : Dir) (t1 t2 : string)
      (r c : nat) (b1 b2 : bool) (used : list string) (g : Grid) :
  GridOK R C g -> IdsUpTo r c used (fst g) ->
  Rec.get ku (snd g) <> None -> Rec.get kv (snd g) <> None ->
  In t1 roadTags -> In t2 roadTags -> t1 <> t2 ->
  ~ In t1 used -> ~ In t2 used ->
  exists g', connectTo ku kv d t1 t2 r c b1 b2 g = Some g' /\
             GridOK R C g' /\ IdsUpTo r c (t1 :: t2 :: used) (fst g').
Proof.
  intros [[Hin Hout Hids] Hsig Hkeys Hcells] Hup Hu Hv Ht1 Ht2 Hne Hf1 Hf2.
  unfold connectTo.
  destruct (Rec.get ku (snd g)) as [u |]; [| congruence].
  destruct (Rec.get kv (snd g)) as [v |]; [| congruence].
  eexists; split; [reflexivity |].
  assert (Hfresh : forall t, In t roadTags -> ~ In t used ->
                             ~ In (roadKey t r c) (map DirectedRoad.id (fst g))).
  { intros t Ht Hf Hx.
    destruct (Hup _ Hx) as (tag & r' & c' & Htag & E & Hpos).
    apply roadKey_inj in E; auto. destruct E as (-> & -> & ->).
    destruct Hpos as [? | [[? ?] | (_ & _ & ?)]]; try lia. contradiction. }
  split; [constructor; [constructor |..] |].
  - apply (connectPair_handles ku kv d _ _ g Hin Hout).
  - apply (connectPair_handles ku kv d _ _ g Hin Hout).
  - unfold connectPair; simpl. rewrite map_app; simpl.
    apply NoDup_app; [exact Hids | |].
    + constructor; [| constructor; [intros [] | constructor]].
      intros [E | []]. apply roadKey_inj in E; auto.
      destruct E as [E _]. congruence.
    + intros x Hx [<- | [<- | []]]; revert Hx; apply Hfresh; auto.
  - unfold connectPair; simpl.
    repeat apply values_modify; auto; intros n Hn; exact Hn.
  - intros r0 c0 Hr0 Hc0. unfold connectPair; simpl.
    repeat apply has_modify. now apply Hkeys.
  - unfold connectPair; simpl. apply Forall_app. split; [exact Hcells |].
    repeat constructor.
  - unfold connectPair; simpl. intros x Hx.
    rewrite map_app in Hx. apply in_app_or in Hx.
    destruct Hx as [Hx | [<- | [<- | []]]].
    + destruct (Hup x Hx) as (tag & r' & c' & Htag & E & Hpos).
      exists tag, r', c'. repeat split; auto. simpl. tauto.
    + exists t1, r, c.
      split; [auto | split; [reflexivity | right; right; simpl; auto]].
    + exists t2, r, c.
      split; [auto | split; [reflexivity | right; right; simpl; auto]].
Qed.

(** The body of the second pair of loops. *)
Lemma connectCell_ok (r c : nat) (g : Grid) :
  (r < R)%nat -> (c < C)%nat ->
  GridOK R C g -> IdsUpTo r c [] (fst g) ->
  exists g', connectCell rows cols r c g = Some g' /\
             GridOK R C g' /\ IdsUpTo r (S c) [] (fst g').
Proof.
  intros Hr Hc Hok Hup. unfold connectCell.
  assert (Hstep1 : exists g1 used,
             (if (Z.of_nat c <? cols - 1)%Z
              then connectTo (nodeKey r c) (nodeKey r (c + 1)) East "E" "W"
                     r c (Nat.eqb c 0) (Z.of_nat c + 1 =? cols - 1)%Z g
              else Some g) = Some g1 /\
             GridOK R C g1 /\ IdsUpTo r c used (fst g1) /\
             ~ In "S"%string used /\ ~ In "N"%string used).
  { destruct (Z.ltb_spec (Z.of_nat c) (cols - 1)) as [Hlt | Hge].
    - destruct (connectTo_ok (nodeKey r c) (nodeKey r (c + 1)) East
                  "E" "W" r c (Nat.eqb c 0) (Z.of_nat c + 1 =? cols - 1)%Z
                  [] g Hok Hup) as (g1 & E & Hok1 & Hup1);
        try (apply (grid_keys _ _ _ Hok); subst R C; lia);
        unfold roadTags; simpl; try tauto; try discriminate.
      exists g1, ["E"; "W"]%string.
      split; [exact E | split; [exact Hok1 | split; [exact Hup1 |]]].
      split; intros [H | [H | []]]; discriminate H.
    - exists g, []. split; [reflexivity | split; [exact Hok | ]].
      split; [exact Hup | split; intros []]. }
  destruct Hstep1 as (g1 & used & -> & Hok1 & Hup1 & HS & HN).
  destruct (Z.ltb_spec (Z.of_nat r) (rows - 1)) as [Hlt | Hge].
  - destruct (connectTo_ok (nodeKey r c) (nodeKey (r + 1) c) South
                "S" "N" r c (Nat.eqb r 0) (Z.of_nat r + 1 =? rows - 1)%Z
                used g1 Hok1 Hup1) as (g2 & E & Hok2 & Hup2);
      try (apply (grid_keys _ _ _ Hok1); subst R C; lia);
      unfold roadTags; simpl; try tauto; try discriminate.
    exists g2. split; [exact E | split; [exact Hok2 |]].
    exact (IdsUpTo_weaken r c _ _ Hup2).
  - exists g1. split; [reflexivity | split; [exact Hok1 |]].
    exact (IdsUpTo_weaken r c _ _ Hup1).
Qed.

Lemma connectRoads_ok (g : Grid) :
  GridOK R C g -> fst g = [] ->
  exists g', connectRoads rows cols g = Some g' /\ GridOK R C g'.
Proof.
  intros Hok Hnil. unfold connectRoads.
  destruct (forEachM_counting _
              (fun r => forEachM (connectCell rows cols r) (seq 0 (Z.to_nat cols)))
              (fun r g => GridOK R C g /\ IdsUpTo r 0 [] (fst g))
              (Z.to_nat rows) 0 g) as (g' & E & Hok' & _).
  - split; [exact Hok |]. rewrite Hnil. intros x [].
  - intros r g0 Hr [Hok0 Hup0].
    destruct (forEachM_counting _ (connectCell rows cols r)
                (fun c g => GridOK R C g /\ IdsUpTo r c [] (fst g))
                (Z.to_nat cols) 0 g0) as (g1 & E1 & Hok1 & Hup1).
    + auto.
    + intros c g2 Hc [Hok2 Hup2].
      destruct (connectCell_ok r c g2) as (g3 & E3 & Hok3 & Hup3);
        auto; try (subst R C; lia).
      exists g3. auto.
    + exists g1. split; [exact E1 | split; [exact Hok1 |]].
      exact (IdsUpTo_next_row r _ _ Hup1).
  - exists g'. auto.
Qed.

(** [buildGrid] never throws, and the grid it leaves is well wired. *)
Lemma buildGrid_ok :
  exists g, buildGrid rows cols = Some g /\ GridOK R C g.
Proof.
  unfold buildGrid. apply connectRoads_ok; [apply initial_grid_ok | reflexivity].
Qed.
End BuildGrid.

(** ** Routing at one intersection *)

Section Routing.
Import Intersection.

Variable rs : list DirectedRoad.t.
Variable n : Intersection.t.

(** What one iteration of the loop of [stepFlow] pushes. *)
Lemma stepFlowDir_cases (d : Dir) :
  (stepFlowDir rs n d = [] /\
   (inRoad rs n d = None \/
    exists source target,
      inRoad rs n d = Some source /\
      outRoad rs n (targetMap d) = Some target /\
      Qmin (DirectedRoad.getDemand source) (DirectedRoad.getSupply target) <= 0))
  \/
  (exists source,
      inRoad rs n d = Some source /\
      ((outRoad rs n (targetMap d) = None /\
        stepFlowDir rs n d =
        [mkTransfer source EXIT (DirectedRoad.getDemand source)])
       \/
       (exists target,
           outRoad rs n (targetMap d) = Some target /\
           0 < Qmin (DirectedRoad.getDemand source)
                    (DirectedRoad.getSupply target) /\
           stepFlowDir rs n d =
           [mkTransfer source (ToRoad target)
              (Qmin (DirectedRoad.getDemand source)
                    (DirectedRoad.getSupply target))]))).
Proof.
  unfold stepFlowDir.
  destruct (inRoad rs n d) as [source |]; [| left; auto].
  destruct (outRoad rs n (targetMap d)) as [target |].
  - destruct (Qltb 0 _) eqn:E.
    + right. exists source. split; [reflexivity |]. right.
      exists target. apply Qltb_lt in E. auto.
    + left. split; [reflexivity |]. right. exists source, target.
      apply Qltb_ge in E. auto.
  - right. exists source. auto.
Qed.

Lemma targetMap_inj (a b : Dir) : targetMap a = targetMap b -> a = b.
Proof. destruct a, b; simpl; congruence. Qed.

Lemma allowedDirs_two (ph : Z) :
  exists a b, allowedDirs ph = [a; b] /\ a <> b.
Proof.
  unfold allowedDirs. destruct (ph =? 0)%Z.
  - exists North, South. split; [reflexivity | discriminate].
  - exists East, West. split; [reflexivity | discriminate].
Qed.

(** Every transfer of [stepFlow] comes from one green direction. *)
Lemma stepFlow_in (tr : Transfer) :
  In tr (stepFlow rs n) <->
  exists d, In d (allowedDirs (phase n)) /\ In tr (stepFlowDir rs n d).
Proof. unfold stepFlow. apply in_flat_map. Qed.

Lemma inRoad_In (d : Dir) (r : DirectedRoad.t) :
  inRoad rs n d = Some r -> In r rs.
Proof.
  unfold inRoad. destruct (getSlot d (inRoads n)); [| discriminate].
  apply nth_error_In.
Qed.

Lemma outRoad_In (d : Dir) (r : DirectedRoad.t) :
  outRoad rs n d = Some r -> In r rs.
Proof.
  unfold outRoad. destruct (getSlot d (outRoads n)); [| discriminate].
  apply nth_error_In.
Qed.

Lemma inRoad_inList (d : Dir) (r : DirectedRoad.t) :
  inRoad rs n d = Some r -> In r (inList rs n).
Proof.
  intros H. unfold inList. apply in_flat_map. exists d.
  split; [destruct d; simpl; tauto | rewrite H; simpl; auto].
Qed.

Lemma outRoad_outList (d : Dir) (r : DirectedRoad.t) :
  outRoad rs n d = Some r -> In r (outList rs n).
Proof.
  intros H. unfold outList. apply in_flat_map. exists d.
  split; [destruct d; simpl; tauto | rewrite H; simpl; auto].
Qed.

(** Roads in two different slots have different identifiers. *)
Lemma slots_distinct (F : Dir -> option DirectedRoad.t)
      (d1 d2 : Dir) (r1 r2 : DirectedRoad.t) :
  NoDup (map DirectedRoad.id (flat_map (fun d => olist (F d)) allDirs)) ->
  d1 <> d2 -> F d1 = Some r1 -> F d2 = Some r2 ->
  DirectedRoad.id r1 <> DirectedRoad.id r2.
Proof.
  unfold allDirs; simpl. intros Hnd Hne H1 H2 E.
  destruct d1, d2; try congruence; rewrite H1, H2 in Hnd;
    destruct (F North), (F South), (F East), (F West); simpl in Hnd;
    repeat match goal with
           | H : NoDup (_ :: _) |- _ => inversion H; clear H; subst
           end;
    simpl in *;
    repeat match goal with
           | H : Some _ = Some _ |- _ => injection H as H; subst
           end;
    try discriminate; intuition congruence.
Qed.
End Routing.

Section RoutingIds.
Import Intersection.

Variable rs : list DirectedRoad.t.
Variable n : Intersection.t.

Lemma srcIds_dir (d : Dir) :
  srcIds (stepFlowDir rs n d) = [] \/
  exists r, inRoad rs n d = Some r /\
            srcIds (stepFlowDir rs n d) = [DirectedRoad.id r].
Proof.
  destruct (stepFlowDir_cases rs n d)
    as [[-> _] | (source & Hs & [[_ ->] | (target & _ & _ & ->)])].
  - now left.
  - right. exists source. auto.
  - right. exists source. auto.
Qed.

Lemma tgtIds_dir (d : Dir) :
  tgtIds (stepFlowDir rs n d) = [] \/
  exists r, outRoad rs n (targetMap d) = Some r /\
            tgtIds (stepFlowDir rs n d) = [DirectedRoad.id r].
Proof.
  destruct (stepFlowDir_cases rs n d)
    as [[-> _] | (source & Hs & [[_ ->] | (target & Ht & _ & ->)])].
  - now left.
  - now left.
  - right. exists target. auto.
Qed.

Lemma stepFlow_srcIds :
  NoDup (map DirectedRoad.id (inList rs n)) ->
  NoDup (srcIds (stepFlow rs n)) /\
  incl (srcIds (stepFlow rs n)) (map DirectedRoad.id (inList rs n)).
Proof.
  intros Hnd. unfold stepFlow.
  destruct (allowedDirs_two (phase n)) as (a & b & -> & Hab).
  unfold srcIds; simpl. rewrite app_nil_r, map_app.
  fold (srcIds (stepFlowDir rs n a)) (srcIds (stepFlowDir rs n b)).
  destruct (srcIds_dir a) as [-> | (ra & Ha & ->)];
    destruct (srcIds_dir b) as [-> | (rb & Hb & ->)]; simpl.
  - split; [constructor | intros x []].
  - split; [repeat constructor; auto |].
    intros x [<- | []]. apply in_map. eapply inRoad_inList; eauto.
  - split; [repeat constructor; auto |].
    intros x [<- | []]. apply in_map. eapply inRoad_inList; eauto.
  - split.
    + constructor; [| repeat constructor; auto].
      intros [E | []].
      apply (slots_distinct (inRoad rs n) a b ra rb Hnd Hab Ha Hb).
      now symmetry.
    + intros x [<- | [<- | []]]; apply in_map; eapply inRoad_inList; eauto.
Qed.

Lemma stepFlow_tgtIds :
  NoDup (map DirectedRoad.id (outList rs n)) ->
  NoDup (tgtIds (stepFlow rs n)) /\
  incl (tgtIds (stepFlow rs n)) (map DirectedRoad.id (outList rs n)).
Proof.
  intros Hnd. unfold stepFlow.
  destruct (allowedDirs_two (phase n)) as (a & b & -> & Hab).
  unfold tgtIds; simpl. rewrite app_nil_r, flat_map_app.
  fold (tgtIds (stepFlowDir rs n a)) (tgtIds (stepFlowDir rs n b)).
  assert (Hab' : targetMap a <> targetMap b)
    by (intros E; apply Hab, targetMap_inj, E).
  destruct (tgtIds_dir a) as [-> | (ra & Ha & ->)];
    destruct (tgtIds_dir b) as [-> | (rb & Hb & ->)]; simpl.
  - split; [constructor | intros x []].
  - split; [repeat constructor; auto |].
    intros x [<- | []]. apply in_map. eapply outRoad_outList; eauto.
  - split; [repeat constructor; auto |].
    intros x [<- | []]. apply in_map. eapply outRoad_outList; eauto.
  - split.
    + constructor; [| repeat constructor; auto].
      intros [E | []].
      apply (slots_distinct (outRoad rs n) _ _ ra rb Hnd Hab' Ha Hb).
      now symmetry.
    + intros x [<- | [<- | []]]; apply in_map; eapply outRoad_outList; eauto.
Qed.
End RoutingIds.

(** ** The transfers of one tick on a well-wired grid *)

Section WiredTransfers.
Variable rs : list DirectedRoad.t.

Lemma derefs_app (hs hs' : list nat) :
  derefs rs (hs ++ hs') = derefs rs hs ++ derefs rs hs'.
Proof. unfold derefs. apply flat_map_app. Qed.

Lemma inList_derefs (n : Intersection.t) :
  inList rs n = derefs rs (slotHandles (Intersection.inRoads n)).
Proof.
  unfold inList, slotHandles, Intersection.inRoad, allDirs.
  destruct (Intersection.inRoads n) as [[a |] [b |] [c |] [e |]];
    simpl; rewrite ?app_nil_r; reflexivity.
Qed.

Lemma outList_derefs (n : Intersection.t) :
  outList rs n = derefs rs (slotHandles (Intersection.outRoads n)).
Proof.
  unfold outList, slotHandles, Intersection.outRoad, allDirs.
  destruct (Intersection.outRoads n) as [[a |] [b |] [c |] [e |]];
    simpl; rewrite ?app_nil_r; reflexivity.
Qed.

Lemma allIn_derefs (ns : Rec.t Intersection.t) :
  flat_map (inList rs) (Rec.values ns) = derefs rs (inHandles ns).
Proof.
  unfold inHandles.
  induction (Rec.values ns) as [| n l IH]; simpl; [reflexivity |].
  now rewrite derefs_app, IH, inList_derefs.
Qed.

Lemma allOut_derefs (ns : Rec.t Intersection.t) :
  flat_map (outList rs) (Rec.values ns) = derefs rs (outHandles ns).
Proof.
  unfold outHandles.
  induction (Rec.values ns) as [| n l IH]; simpl; [reflexivity |].
  now rewrite derefs_app, IH, outList_derefs.
Qed.

(** Different handles reach roads with different identifiers. *)
Lemma derefs_ids (hs : list nat) :
  NoDup (map DirectedRoad.id rs) -> NoDup hs ->
  NoDup (map DirectedRoad.id (derefs rs hs)).
Proof.
  intros Hids. induction hs as [| h hs IH]; simpl; intros Hnd.
  - constructor.
  - inversion Hnd as [| ? ? Hh Hhs]; subst.
    rewrite map_app. apply NoDup_app; [| now apply IH |].
    + destruct (nth_error rs h); simpl; repeat constructor; auto.
    + intros k Hk Hk'.
      destruct (nth_error rs h) as [r |] eqn:Er; simpl in Hk; [| contradiction].
      destruct Hk as [<- | []].
      apply in_map_iff in Hk'. destruct Hk' as (r' & Eid & Hr').
      unfold derefs in Hr'. apply in_flat_map in Hr'.
      destruct Hr' as (h' & Hh' & Hr').
      destruct (nth_error rs h') as [r2 |] eqn:Er'; simpl in Hr'; [| contradiction].
      destruct Hr' as [<- | []].
      assert (h = h').
      { apply (proj1 (NoDup_nth_error _) Hids).
        - rewrite length_map. apply nth_error_Some. congruence.
        - rewrite !nth_error_map, Er, Er'. simpl. congruence. }
      subst h'. contradiction.
Qed.

Lemma map_flat_map (A B D : Type) (f : B -> D) (g : A -> list B)
      (l : list A) :
  map f (flat_map g l) = flat_map (fun x => map f (g x)) l.
Proof.
  induction l as [| a l IH]; simpl; [reflexivity |].
  now rewrite map_app, IH.
Qed.

Lemma flat_map_flat_map (A B D : Type) (f : B -> list D) (g : A -> list B)
      (l : list A) :
  flat_map f (flat_map g l) = flat_map (fun x => flat_map f (g x)) l.
Proof.
  induction l as [| a l IH]; simpl; [reflexivity |].
  now rewrite flat_map_app, IH.
Qed.

Lemma NoDup_flat_map_piece (A B : Type) (f : A -> list B) (l : list A)
      (x : A) :
  NoDup (flat_map f l) -> In x l -> NoDup (f x).
Proof.
  induction l as [| a l IH]; simpl; intros Hnd []; subst.
  - now apply NoDup_app_inv in Hnd.
  - apply IH; auto. now apply NoDup_app_inv in Hnd.
Qed.

Variable ns : Rec.t Intersection.t.
Hypothesis Hwired : Wired rs ns.

Lemma wired_in_ids :
  NoDup (flat_map (fun n => map DirectedRoad.id (inList rs n)) (Rec.values ns)).
Proof.
  rewrite <- map_flat_map, allIn_derefs.
  apply derefs_ids; [apply Hwired |].
  eapply HandlesOK_NoDup, Hwired.
Qed.

Lemma wired_out_ids :
  NoDup (flat_map (fun n => map DirectedRoad.id (outList rs n)) (Rec.values ns)).
Proof.
  rewrite <- map_flat_map, allOut_derefs.
  apply derefs_ids; [apply Hwired |].
  eapply HandlesOK_NoDup, Hwired.
Qed.

(** No road is the source of two transfers of a tick. *)
Lemma collect_srcIds :
  NoDup (srcIds (SimulationEngine.collectTransfers rs ns)).
Proof.
  unfold SimulationEngine.collectTransfers, srcIds.
  rewrite map_flat_map.
  apply (NoDup_flat_map_incl _ _ _ _ _ wired_in_ids).
  intros n Hn. apply stepFlow_srcIds.
  apply (NoDup_flat_map_piece _ _ _ _ n wired_in_ids Hn).
Qed.

(** No road is the destination of two transfers of a tick. *)
Lemma collect_tgtIds :
  NoDup (tgtIds (SimulationEngine.collectTransfers rs ns)).
Proof.
  unfold SimulationEngine.collectTransfers, tgtIds.
  rewrite flat_map_flat_map.
  apply (NoDup_flat_map_incl _ _ _ _ _ wired_out_ids).
  intros n Hn. apply stepFlow_tgtIds.
  apply (NoDup_flat_map_piece _ _ _ _ n wired_out_ids Hn).
Qed.
End WiredTransfers.

(** ** Aggregation of the transfers *)

Section Aggregation.
Import SimulationEngine.

Lemma zeroFlows_zero (rs : list DirectedRoad.t) (k : string) :
  zeroFlows rs k = 0.
Proof.
  unfold zeroFlows.
  apply (fold_left_invariant _ _ _ (fun m : FlowMap => m k = 0));
    [reflexivity |].
  intros m r _ Hm. now destruct (String.eqb k (DirectedRoad.id r)).
Qed.

Lemma aggregate1_fold_outflows (trs : list Transfer) (acc : Flows)
      (k : string) :
  outflows (fold_left aggregate1 trs acc) k =
  fold_left Qplus (outTerms k trs) (outflows acc k).
Proof.
  revert acc; induction trs as [| tr trs IH]; intros acc; simpl;
    [reflexivity |].
  rewrite IH, fold_left_app. f_equal.
  unfold aggregate1, addFlow.
  destruct (tgt tr); simpl;
    destruct (String.eqb k (DirectedRoad.id (src tr))); reflexivity.
Qed.

Lemma aggregate1_fold_inflows (trs : list Transfer) (acc : Flows)
      (k : string) :
  inflows (fold_left aggregate1 trs acc) k =
  fold_left Qplus (inTerms k trs) (inflows acc k).
Proof.
  revert acc; induction trs as [| tr trs IH]; intros acc; simpl;
    [reflexivity |].
  rewrite IH, fold_left_app. f_equal.
  unfold aggregate1, addFlow.
  destruct (tgt tr) as [r |]; simpl; [| reflexivity].
  destruct (String.eqb k (DirectedRoad.id r)); reflexivity.
Qed.

Lemma outTerms_absent (k : string) (trs : list Transfer) :
  ~ In k (srcIds trs) -> outTerms k trs = [].
Proof.
  induction trs as [| tr trs IH]; simpl; intros H; [reflexivity |].
  destruct (String.eqb_spec k (DirectedRoad.id (src tr))) as [-> | Hne].
  - exfalso. apply H. now left.
  - simpl. apply IH. intros Hin. apply H. now right.
Qed.

Lemma inTerms_absent (k : string) (trs : list Transfer) :
  ~ In k (tgtIds trs) -> inTerms k trs = [].
Proof.
  unfold tgtIds.
  induction trs as [| tr trs IH]; simpl; intros H; [reflexivity |].
  destruct (tgt tr) as [r |]; simpl in *.
  - destruct (String.eqb_spec k (DirectedRoad.id r)) as [-> | Hne].
    + exfalso. apply H. now left.
    + simpl. apply IH. intros Hin. apply H. now right.
  - apply IH, H.
Qed.

(** A road that is the source of at most one transfer has at most one
    amount added to its outflow, and likewise for its inflow. *)
Lemma outTerms_length (k : string) (trs : list Transfer) :
  NoDup (srcIds trs) -> (List.length (outTerms k trs) <= 1)%nat.
Proof.
  induction trs as [| tr trs IH]; simpl; intros Hnd; [lia |].
  inversion Hnd as [| ? ? Hfresh Hrest]; subst.
  destruct (String.eqb_spec k (DirectedRoad.id (src tr))) as [-> | Hne].
  - rewrite outTerms_absent by exact Hfresh. simpl; lia.
  - simpl. auto.
Qed.

Lemma inTerms_length (k : string) (trs : list Transfer) :
  NoDup (tgtIds trs) -> (List.length (inTerms k trs) <= 1)%nat.
Proof.
  unfold tgtIds.
  induction trs as [| tr trs IH]; simpl; intros Hnd; [lia |].
  destruct (tgt tr) as [r |]; simpl in *; [| auto].
  inversion Hnd as [| ? ? Hfresh Hrest]; subst.
  destruct (String.eqb_spec k (DirectedRoad.id r)) as [-> | Hne].
  - rewrite inTerms_absent by exact Hfresh. simpl; lia.
  - simpl. auto.
Qed.

Lemma in_outTerms (k : string) (trs : list Transfer) (a : Q) :
  In a (outTerms k trs) ->
  exists tr, In tr trs /\ DirectedRoad.id (src tr) = k /\ a = amount tr.
Proof.
  unfold outTerms. intros H. apply in_flat_map in H.
  destruct H as (tr & Htr & Ha). exists tr.
  destruct (String.eqb_spec k (DirectedRoad.id (src tr))); simpl in Ha;
    [| contradiction].
  destruct Ha as [<- | []]. auto.
Qed.

Lemma in_inTerms (k : string) (trs : list Transfer) (a : Q) :
  In a (inTerms k trs) ->
  exists tr r, In tr trs /\ tgt tr = ToRoad r /\
               DirectedRoad.id r = k /\ a = amount tr.
Proof.
  unfold inTerms. intros H. apply in_flat_map in H.
  destruct H as (tr & Htr & Ha). exists tr.
  destruct (tgt tr) as [r |]; [| contradiction]. exists r.
  destruct (String.eqb_spec k (DirectedRoad.id r)); simpl in Ha;
    [| contradiction].
  destruct Ha as [<- | []]. auto.
Qed.

(** Two lists of at most one amount that hold the same amounts are
    the same list. *)
Lemma short_perm_eq (l l' : list Q) :
  (List.length l <= 1)%nat -> Permutation l l' -> l = l'.
Proof.
  destruct l as [| a [| b l]]; simpl; intros Hlen Hp; try lia.
  - symmetry. now apply Permutation_nil.
  - symmetry. now apply Permutation_length_1_inv.
Qed.

Lemma outTerms_perm (k : string) (trs trs' : list Transfer) :
  Permutation trs trs' -> Permutation (outTerms k trs) (outTerms k trs').
Proof. unfold outTerms. apply Permutation_flat_map. Qed.

Lemma inTerms_perm (k : string) (trs trs' : list Transfer) :
  Permutation trs trs' -> Permutation (inTerms k trs) (inTerms k trs').
Proof. unfold inTerms. apply Permutation_flat_map. Qed.

(** Summing the transfers in another order gives each road the same
    outflow and the same inflow. *)
Lemma aggregate_order (rs : list DirectedRoad.t) (thr : Q)
      (trs trs' : list Transfer) (k : string) :
  NoDup (srcIds trs) -> NoDup (tgtIds trs) -> Permutation trs trs' ->
  outflows (aggregate rs thr trs) k = outflows (aggregate rs thr trs') k /\
  inflows (aggregate rs thr trs) k = inflows (aggregate rs thr trs') k.
Proof.
  intros Hs Ht Hp. unfold aggregate.
  rewrite !aggregate1_fold_outflows, !aggregate1_fold_inflows.
  rewrite (short_perm_eq _ _ (outTerms_length k trs Hs) (outTerms_perm k _ _ Hp)).
  rewrite (short_perm_eq _ _ (inTerms_length k trs Ht) (inTerms_perm k _ _ Hp)).
  auto.
Qed.

(** The outflow of a road is zero or the amount of the one transfer
    that leaves it. *)
Lemma aggregate_outflow_cases (rs : list DirectedRoad.t) (thr : Q)
      (trs : list Transfer) (k : string) :
  NoDup (srcIds trs) ->
  outflows (aggregate rs thr trs) k = 0 \/
  exists tr, In tr trs /\ DirectedRoad.id (src tr) = k /\
             outflows (aggregate rs thr trs) k = 0 + amount tr.
Proof.
  intros Hs. unfold aggregate. rewrite aggregate1_fold_outflows; simpl.
  rewrite zeroFlows_zero.
  pose proof (outTerms_length k trs Hs) as Hlen.
  destruct (outTerms k trs) as [| a [| b l]] eqn:E; simpl in *; try lia.
  - now left.
  - right. destruct (in_outTerms k trs a) as (tr & Htr & Hk & ->).
    + rewrite E. now left.
    + exists tr. auto.
Qed.

Lemma aggregate_inflow_cases (rs : list DirectedRoad.t) (thr : Q)
      (trs : list Transfer) (k : string) :
  NoDup (tgtIds trs) ->
  inflows (aggregate rs thr trs) k = 0 \/
  exists tr r, In tr trs /\ tgt tr = ToRoad r /\ DirectedRoad.id r = k /\
               inflows (aggregate rs thr trs) k = 0 + amount tr.
Proof.
  intros Ht. unfold aggregate. rewrite aggregate1_fold_inflows; simpl.
  rewrite zeroFlows_zero.
  pose proof (inTerms_length k trs Ht) as Hlen.
  destruct (inTerms k trs) as [| a [| b l]] eqn:E; simpl in *; try lia.
  - now left.
  - right. destruct (in_inTerms k trs a) as (tr & r & Htr & Htgt & Hk & ->).
    + rewrite E. now left.
    + exists tr, r. auto.
Qed.
End Aggregation.

(** ** One tick of the engine *)

Section Tick.
Import PHYSICS SimulationEngine.

Lemma getCell_nonneg (hi : Q) (cs : list Q) (j : nat) :
  cellsWithin 0 hi cs -> 0 <= getCell cs j.
Proof.
  intros H. destruct (Nat.lt_ge_cases j (List.length cs)) as [Hj | Hj].
  - now apply (cellsWithin_getCell 0 hi cs j H).
  - rewrite getCell_outside by exact Hj. lra.
Qed.

Lemma cellsWithin_setCell (lo hi x : Q) (i : nat) (cs : list Q) :
  cellsWithin lo hi cs -> lo <= x -> x <= hi ->
  cellsWithin lo hi (setCell i x cs).
Proof.
  unfold cellsWithin.
  revert i; induction cs as [| c cs IH]; intros [| i] H Hlo Hhi; simpl;
    auto; inversion H; subst; constructor; auto.
Qed.

Lemma getDemand_bounds (r : DirectedRoad.t) :
  cellsWithin 0 MAX_CARS_PER_CELL (DirectedRoad.cells r) ->
  0 <= DirectedRoad.getDemand r /\
  DirectedRoad.getDemand r <=
  getCell (DirectedRoad.cells r) (List.length (DirectedRoad.cells r) - 1).
Proof.
  intros H. unfold DirectedRoad.getDemand, WAVE_SPEED, MAX_CARS_PER_CELL.
  pose proof (getCell_nonneg _ _ (List.length (DirectedRoad.cells r) - 1) H).
  split_minmax; lra.
Qed.

Lemma getSupply_nonneg (r : DirectedRoad.t) : 0 <= DirectedRoad.getSupply r.
Proof. unfold DirectedRoad.getSupply. apply Q.le_max_l. Qed.

(** What every transfer of a tick satisfies. *)
Lemma collect_sound (rs : list DirectedRoad.t) (ns : Rec.t Intersection.t)
      (tr : Transfer) :
  Forall (fun r => cellsWithin 0 MAX_CARS_PER_CELL (DirectedRoad.cells r)) rs ->
  In tr (collectTransfers rs ns) ->
  In (src tr) rs /\ 0 <= amount tr /\
  amount tr <= getCell (DirectedRoad.cells (src tr))
                       (List.length (DirectedRoad.cells (src tr)) - 1) /\
  (forall r, tgt tr = ToRoad r ->
             In r rs /\ amount tr <= DirectedRoad.getSupply r).
Proof.
  intros Hcells Hin. unfold collectTransfers in Hin.
  apply in_flat_map in Hin. destruct Hin as (n & _ & Hin).
  apply stepFlow_in in Hin. destruct Hin as (d & _ & Hin).
  rewrite Forall_forall in Hcells.
  destruct (stepFlowDir_cases rs n d)
    as [[E _] | (source & Hs & [[_ E] | (target & Ht & Hpos & E)])];
    rewrite E in Hin; simpl in Hin; [contradiction | |];
    destruct Hin as [<- | []]; simpl;
    pose proof (inRoad_In _ _ _ _ Hs) as HsIn;
    destruct (getDemand_bounds source (Hcells _ HsIn)) as [Hd0 Hd1].
  - split; [exact HsIn | split; [exact Hd0 | split; [exact Hd1 |]]].
    intros r H. discriminate H.
  - split; [exact HsIn | split; [lra | split]].
    + revert Hpos. split_minmax; intros; lra.
    + intros r H. injection H as <-.
      split; [eapply outRoad_In; eauto | apply Q.le_min_r].
Qed.

Lemma NoDup_ids_eq (rs : list DirectedRoad.t) (r r' : DirectedRoad.t) :
  NoDup (map DirectedRoad.id rs) -> In r rs -> In r' rs ->
  DirectedRoad.id r = DirectedRoad.id r' -> r = r'.
Proof.
  induction rs as [| a rs IH]; simpl; intros Hnd Hr Hr' E; [contradiction |].
  inversion Hnd as [| ? ? Hfresh Hrest]; subst.
  destruct Hr as [-> | Hr], Hr' as [-> | Hr']; auto.
  - exfalso. apply Hfresh. rewrite E. now apply in_map.
  - exfalso. apply Hfresh. rewrite <- E. now apply in_map.
Qed.

(** The physics pass keeps every road of a well-wired grid between 0
    and the maximum. *)
Lemma physics_within (rs : list DirectedRoad.t) (ns : Rec.t Intersection.t)
      (thr : Q) (r : DirectedRoad.t) :
  Wired rs ns ->
  Forall (fun r => cellsWithin 0 MAX_CARS_PER_CELL (DirectedRoad.cells r)) rs ->
  In r rs ->
  let fl := aggregate rs thr (collectTransfers rs ns) in
  cellsWithin 0 MAX_CARS_PER_CELL
    (DirectedRoad.cells
       (DirectedRoad.stepPhysics (inflows fl (DirectedRoad.id r))
                                 (outflows fl (DirectedRoad.id r)) r)).
Proof.
  intros Hw Hcells Hr fl.
  pose proof (collect_srcIds rs ns Hw) as Hsrc.
  pose proof (collect_tgtIds rs ns Hw) as Htgt.
  assert (Hr_cells : cellsWithin 0 MAX_CARS_PER_CELL (DirectedRoad.cells r))
    by (rewrite Forall_forall in Hcells; auto).
  apply stepPhysics_within; auto.
  - destruct (aggregate_inflow_cases rs thr _ (DirectedRoad.id r) Htgt)
      as [E | (tr & r' & Htr & _ & _ & E)]; fold fl in E; rewrite E; [lra |].
    destruct (collect_sound rs ns tr Hcells Htr) as (_ & H0 & _). lra.
  - destruct (aggregate_inflow_cases rs thr _ (DirectedRoad.id r) Htgt)
      as [E | (tr & r' & Htr & Htg & Hid & E)]; fold fl in E; rewrite E.
    + apply getSupply_nonneg.
    + destruct (collect_sound rs ns tr Hcells Htr) as (_ & _ & _ & Hsup).
      destruct (Hsup r' Htg) as [Hin' Hle].
      assert (r' = r) by (apply (NoDup_ids_eq rs); auto; apply Hw).
      subst r'. lra.
  - destruct (aggregate_outflow_cases rs thr _ (DirectedRoad.id r) Hsrc)
      as [E | (tr & Htr & _ & E)]; fold fl in E; rewrite E; [lra |].
    destruct (collect_sound rs ns tr Hcells Htr) as (_ & H0 & _). lra.
Qed.

Lemma spawn_id (ns : Rec.t Intersection.t) (rate : Q)
      (r : DirectedRoad.t) (g : Random) :
  DirectedRoad.id (fst (spawn ns rate r g)) = DirectedRoad.id r.
Proof.
  unfold spawn. destruct (Rec.get _ ns); [| reflexivity].
  destruct (_ && _); [| reflexivity].
  simpl. destruct (Qltb _ rate); reflexivity.
Qed.

Lemma spawn_within (ns : Rec.t Intersection.t) (rate : Q)
      (r : DirectedRoad.t) (g : Random) :
  cellsWithin 0 MAX_CARS_PER_CELL (DirectedRoad.cells r) ->
  cellsWithin 0 MAX_CARS_PER_CELL
              (DirectedRoad.cells (fst (spawn ns rate r g))).
Proof.
  intros H. unfold spawn. destruct (Rec.get _ ns) as [uNode |]; [| exact H].
  destruct (isEntry r uNode); cbn [andb]; [| exact H].
  destruct (Qltb (getCell (DirectedRoad.cells r) 0) 2) eqn:E; [| exact H].
  unfold nextRandom.
  destruct (Qltb _ rate);
    cbn [fst DirectedRoad.cells DirectedRoad.withCells]; [| exact H].
  apply Qltb_lt in E.
  pose proof (getCell_nonneg _ _ O H).
  apply cellsWithin_setCell; auto; unfold MAX_CARS_PER_CELL; lra.
Qed.

Lemma generateInflow_ids (ns : Rec.t Intersection.t) (rate : Q)
      (rs : list DirectedRoad.t) (g : Random) :
  map DirectedRoad.id (fst (generateInflow ns rate rs g)) =
  map DirectedRoad.id rs.
Proof.
  revert g; induction rs as [| r rs IH]; intros g; simpl; [reflexivity |].
  pose proof (spawn_id ns rate r g) as Hid.
  destruct (spawn ns rate r g) as [r' g1]; simpl in Hid.
  specialize (IH g1). destruct (generateInflow ns rate rs g1) as [rest g2].
  simpl in *. congruence.
Qed.

Lemma generateInflow_within (ns : Rec.t Intersection.t) (rate : Q)
      (rs : list DirectedRoad.t) (g : Random) :
  Forall (fun r => cellsWithin 0 MAX_CARS_PER_CELL (DirectedRoad.cells r)) rs ->
  Forall (fun r => cellsWithin 0 MAX_CARS_PER_CELL (DirectedRoad.cells r))
         (fst (generateInflow ns rate rs g)).
Proof.
  revert g; induction rs as [| r rs IH]; intros g H; simpl; [constructor |].
  inversion H as [| ? ? Hr Hrs]; subst.
  pose proof (spawn_within ns rate r g Hr) as Hr'.
  destruct (spawn ns rate r g) as [r' g1]; simpl in Hr'.
  specialize (IH g1 Hrs). destruct (generateInflow ns rate rs g1) as [rest g2].
  simpl in *. constructor; auto.
Qed.

(** The fields of the state after a tick. *)
Lemma step_fields (g : Random) (e : t) :
  let ns := Rec.mapValues (Intersection.updateSignal (mode e) (roads e))
                          (intersections e) in
  let fl := aggregate (roads e) (totalThroughput e) (tickTransfers e) in
  intersections (fst (step g e)) = ns /\
  roads (fst (step g e)) =
    fst (generateInflow ns (inflowRate e)
           (map (fun r => DirectedRoad.stepPhysics
                            (inflows fl (DirectedRoad.id r))
                            (outflows fl (DirectedRoad.id r)) r) (roads e)) g) /\
  totalThroughput (fst (step g e)) = throughput fl /\
  stepCount (fst (step g e)) = (stepCount e + 1)%Z /\
  mode (fst (step g e)) = mode e /\
  rows (fst (step g e)) = rows e /\ cols (fst (step g e)) = cols e /\
  inflowRate (fst (step g e)) = inflowRate e.
Proof.
  unfold step, tickTransfers; simpl.
  destruct (generateInflow _ _ _ g) as [rs2 g']. simpl. repeat split.
Qed.

Lemma updateSignal_slots (m : ControlMode) (rs : list DirectedRoad.t)
      (n : Intersection.t) :
  Intersection.inRoads (Intersection.updateSignal m rs n) = Intersection.inRoads n /\
  Intersection.outRoads (Intersection.updateSignal m rs n) = Intersection.outRoads n /\
  Intersection.id (Intersection.updateSignal m rs n) = Intersection.id n.
Proof.
  unfold Intersection.updateSignal.
  destruct m;
    repeat match goal with
           | |- context [if ?b then _ else _] => destruct b
           | |- context [let (_, _) := ?p in _] => destruct p
           end; simpl; auto.
Qed.

Lemma handles_updateSignal (m : ControlMode) (rs : list DirectedRoad.t)
      (ns : Rec.t Intersection.t) :
  inHandles (Rec.mapValues (Intersection.updateSignal m rs) ns) = inHandles ns /\
  outHandles (Rec.mapValues (Intersection.updateSignal m rs) ns) = outHandles ns.
Proof.
  unfold inHandles, outHandles. rewrite values_mapValues.
  induction (Rec.values ns) as [| n l IH]; simpl; [auto |].
  destruct IH as [-> ->].
  destruct (updateSignal_slots m rs n) as (-> & -> & _). auto.
Qed.

(** A tick keeps the engine in order. *)
Lemma step_ok (g : Random) (e : t) : EngineOK e -> EngineOK (fst (step g e)).
Proof.
  intros [Hw Hcells].
  destruct (step_fields g e) as (Hns & Hrs & _). simpl in Hns, Hrs.
  assert (Hw' : Wired (roads e)
                  (Rec.mapValues (Intersection.updateSignal (mode e) (roads e))
                                 (intersections e))).
  { destruct Hw as [Hi Ho Hid].
    destruct (handles_updateSignal (mode e) (roads e) (intersections e))
      as [Ei Eo].
    constructor; rewrite ?Ei, ?Eo; auto. }
  constructor.
  - rewrite Hns. destruct Hw' as [Hi Ho Hid].
    assert (Eids : map DirectedRoad.id (roads (fst (step g e))) =
                   map DirectedRoad.id (roads e)).
    { rewrite Hrs, generateInflow_ids, map_map. reflexivity. }
    assert (Elen : List.length (roads (fst (step g e))) = List.length (roads e)).
    { rewrite <- (length_map DirectedRoad.id), Eids. apply length_map. }
    constructor; rewrite ?Elen, ?Eids; auto.
  - rewrite Hrs. apply generateInflow_within.
    apply Forall_map, Forall_forall. intros r Hr.
    apply (physics_within (roads e) _ (totalThroughput e) r Hw' Hcells Hr).
Qed.

Lemma run_ok (k : nat) (g : Random) (e : t) :
  EngineOK e -> EngineOK (fst (run k g e)).
Proof.
  revert g e; induction k as [| k IH]; intros g e H; simpl; [exact H |].
  pose proof (step_ok g e H) as H1.
  destruct (step g e) as [e' g']. now apply IH.
Qed.

Lemma cellsWithin_zero (hi : Q) (k : nat) :
  0 <= hi -> cellsWithin 0 hi (repeat 0 k).
Proof.
  intros H. unfold cellsWithin. apply Forall_forall.
  intros x Hx. apply repeat_spec in Hx. subst. split; lra.
Qed.

(** The constructor never throws; it leaves a well-wired grid with
    empty roads and every signal at phase 0, timer 0. *)
Lemma new_ok (rws cls : Z) (rate : Q) (m : ControlMode) :
  exists e, new rws cls rate m = Some e /\ EngineOK e /\
            GridOK (Z.to_nat rws) (Z.to_nat cls) (roads e, intersections e) /\
            totalThroughput e = 0 /\ stepCount e = 0%Z /\ mode e = m /\
            rows e = rws /\ cols e = cls /\ inflowRate e = rate.
Proof.
  unfold new. destruct (buildGrid_ok rws cls) as ([rs ns] & -> & Hok).
  eexists; split; [reflexivity |]. simpl.
  split; [| split; [exact Hok | repeat split]].
  constructor; simpl.
  - apply Hok.
  - eapply Forall_impl; [| apply (grid_cells _ _ _ Hok)].
    intros r Hr. cbv beta in Hr. rewrite Hr.
    apply cellsWithin_zero. unfold MAX_CARS_PER_CELL. lra.
Qed.
End Tick.

(** ** Signals *)

Section SignalOfOneNode.
Import PHYSICS Intersection.

Variable rs : list DirectedRoad.t.
Variable n : Intersection.t.

Lemma updateSignal_fixed :
  let n' := updateSignal FIXED rs n in
  ((FIXED_CYCLE_STEPS <= phaseTimer n + 1)%Z ->
   phase n' = (1 - phase n)%Z /\ phaseTimer n' = 0%Z) /\
  ((phaseTimer n + 1 < FIXED_CYCLE_STEPS)%Z ->
   phase n' = phase n /\ phaseTimer n' = (phaseTimer n + 1)%Z).
Proof.
  unfold updateSignal.
  destruct (Z.leb_spec FIXED_CYCLE_STEPS (phaseTimer n + 1));
    cbn [phase phaseTimer withSignal]; split; intros; try lia; auto.
Qed.

(** In adaptive mode a tick either changes the phase, which needs the
    minimum green and resets the timer, or keeps it, which needs the
    timer below the maximum red and advances it. *)
Lemma updateSignal_smart :
  let n' := updateSignal SMART rs n in
  (phase n' <> phase n /\ phaseTimer n' = 0%Z /\
   (MIN_GREEN_STEPS <= phaseTimer n + 1)%Z)
  \/
  (phase n' = phase n /\ phaseTimer n' = (phaseTimer n + 1)%Z /\
   (phaseTimer n + 1 < MAX_RED_STEPS)%Z).
Proof.
  unfold updateSignal, MAX_RED_STEPS, MIN_GREEN_STEPS.
  destruct (Z.leb_spec 24 (phaseTimer n + 1)).
  - left; cbn [phase phaseTimer withSignal]. repeat split; lia.
  - destruct (Z.leb_spec 3 (phaseTimer n + 1)).
    + destruct (getPressure rs _) as [p_ns p_ew].
      destruct (Z.eqb_spec (phase n) 0); cbn [andb].
      * destruct (Qltb p_ns p_ew); cbn [phase phaseTimer withSignal].
        -- left. repeat split; lia.
        -- destruct (Z.eqb_spec (phase n) 1);
             cbn [andb phase phaseTimer withSignal]; [lia |].
           right. repeat split; lia.
      * destruct (Z.eqb_spec (phase n) 1); cbn [andb].
        -- destruct (Qltb p_ew p_ns); cbn [phase phaseTimer withSignal].
           ++ left. repeat split; lia.
           ++ right. repeat split; lia.
        -- cbn [phase phaseTimer withSignal]. right. repeat split; lia.
    + right; cbn [phase phaseTimer withSignal]. repeat split; lia.
Qed.
End SignalOfOneNode.

(** The timing of a signal that obeys the adaptive rule, tick after
    tick. *)
Section SignalTiming.
Variables P T : nat -> Z.

Hypothesis T_start : T 0%nat = 0%Z.
Hypothesis tick :
  forall k,
    (P (S k) <> P k /\ T (S k) = 0%Z /\ (3 <= T k + 1)%Z)
    \/ (P (S k) = P k /\ T (S k) = (T k + 1)%Z /\ (T k + 1 < 24)%Z).

Let flips (j : nat) : Prop := (1 <= j)%nat /\ P j <> P (j - 1).

Lemma timing_range (k : nat) : (0 <= T k < 24)%Z.
Proof.
  induction k as [| k IH]; [rewrite T_start; lia |].
  destruct (tick k) as [(_ & -> & _) | (_ & -> & ?)]; lia.
Qed.

Lemma timing_flip_resets (j : nat) : flips j -> T j = 0%Z.
Proof.
  intros [Hj Hne]. destruct j as [| i]; [lia |].
  replace (S i - 1)%nat with i in Hne by lia.
  destruct (tick i) as [(_ & E & _) | (E & _)]; [exact E | contradiction].
Qed.

Lemma timing_since (k d : nat) :
  T k = 0%Z -> (T (k + d) <= Z.of_nat d)%Z.
Proof.
  intros Hk. induction d as [| d IH].
  - rewrite Nat.add_0_r, Hk. lia.
  - replace (k + S d)%nat with (S (k + d)) by lia.
    destruct (tick (k + d)) as [(_ & -> & _) | (_ & -> & _)]; lia.
Qed.

Lemma timing_flip_needs (j : nat) : flips j -> (3 <= T (j - 1) + 1)%Z.
Proof.
  intros [Hj Hne]. destruct j as [| i]; [lia |].
  replace (S i - 1)%nat with i in * by lia.
  destruct (tick i) as [(_ & _ & E) | (E & _)]; [exact E | contradiction].
Qed.

Lemma timing_min_green (i j : nat) :
  (i < j)%nat -> flips i -> flips j -> (i + 3 <= j)%nat.
Proof.
  intros Hij Hi Hj.
  pose proof (timing_flip_resets i Hi) as Hreset.
  pose proof (timing_flip_needs j Hj) as Hneed.
  pose proof (timing_since i (j - 1 - i) Hreset) as Hle.
  replace (i + (j - 1 - i))%nat with (j - 1)%nat in Hle by lia.
  lia.
Qed.

Lemma timing_first_flip (j : nat) : flips j -> (3 <= j)%nat.
Proof.
  intros Hj.
  pose proof (timing_flip_needs j Hj) as Hneed.
  pose proof (timing_since 0 (j - 1) T_start) as Hle.
  simpl in Hle. destruct Hj. lia.
Qed.

Lemma timing_quiet (k d : nat) :
  (exists j, (k < j <= k + d)%nat /\ flips j)
  \/ T (k + d) = (T k + Z.of_nat d)%Z.
Proof.
  induction d as [| d IH].
  - right. rewrite Nat.add_0_r. lia.
  - destruct IH as [(j & Hj & Hf) | IH].
    + left. exists j. split; [lia | exact Hf].
    + replace (k + S d)%nat with (S (k + d)) by lia.
      destruct (tick (k + d)) as [(Hne & _) | (_ & -> & _)].
      * left. exists (S (k + d)). split; [lia |].
        split; [lia |]. now replace (S (k + d) - 1)%nat with (k + d)%nat by lia.
      * right. lia.
Qed.

Lemma timing_max_red (k : nat) :
  exists j, (k < j <= k + 24)%nat /\ flips j.
Proof.
  destruct (timing_quiet k 24) as [H | H]; [exact H |].
  pose proof (timing_range k). pose proof (timing_range (k + 24)). lia.
Qed.
End SignalTiming.

(** ** Signals along a run *)

Section SignalsAlongRun.
Import PHYSICS SimulationEngine.

Lemma run_last (k : nat) (g : Random) (e : t) :
  run (S k) g e = step (snd (run k g e)) (fst (run k g e)).
Proof.
  revert g e; induction k as [| k IH]; intros g e.
  - simpl. now destruct (step g e).
  - change (run (S (S k)) g e)
      with (let (e', g') := step g e in run (S k) g' e').
    change (run (S k) g e) with (let (e', g') := step g e in run k g' e').
    destruct (step g e) as [e' g']. apply IH.
Qed.

Lemma run_mode (k : nat) (g : Random) (e : t) :
  mode (fst (run k g e)) = mode e.
Proof.
  revert g e; induction k as [| k IH]; intros g e; simpl; [reflexivity |].
  destruct (step_fields g e) as (_ & _ & _ & _ & Hm & _).
  destruct (step g e) as [e' g']. rewrite IH. exact Hm.
Qed.

Lemma step_has (g : Random) (e : t) (key : string) :
  Rec.get key (intersections e) <> None ->
  Rec.get key (intersections (fst (step g e))) <> None.
Proof.
  intros H. destruct (step_fields g e) as (-> & _).
  rewrite get_mapValues. destruct (Rec.get key (intersections e));
    [discriminate | congruence].
Qed.

Lemma run_has (k : nat) (g : Random) (e : t) (key : string) :
  Rec.get key (intersections e) <> None ->
  Rec.get key (intersections (fst (run k g e))) <> None.
Proof.
  revert g e; induction k as [| k IH]; intros g e H; simpl; [exact H |].
  pose proof (step_has g e key H) as H1.
  destruct (step g e) as [e' g']. now apply IH.
Qed.

Lemma step_nodeAt (g : Random) (e : t) (key : string) :
  Rec.get key (intersections e) <> None ->
  nodeAt (fst (step g e)) key =
  Intersection.updateSignal (mode e) (roads e) (nodeAt e key).
Proof.
  intros H. unfold nodeAt. destruct (step_fields g e) as (-> & _).
  rewrite get_mapValues. destruct (Rec.get key (intersections e));
    [reflexivity | congruence].
Qed.

Variable e0 : t.
Variable g : Random.
Variable key : string.

Hypothesis key_present : Rec.get key (intersections e0) <> None.
Hypothesis fresh_signals :
  Forall (fun n => Intersection.phase n = 0%Z /\
                   Intersection.phaseTimer n = 0%Z)
         (Rec.values (intersections e0)).

Lemma signal_start :
  phaseAfter e0 g key 0 = 0%Z /\ timerAfter e0 g key 0 = 0%Z.
Proof.
  unfold phaseAfter, timerAfter, nodeAt; simpl.
  destruct (Rec.get key (intersections e0)) as [n |] eqn:E; [| congruence].
  apply get_in_values in E. rewrite Forall_forall in fresh_signals.
  now apply fresh_signals.
Qed.

Lemma signal_next (k : nat) :
  nodeAt (fst (run (S k) g e0)) key =
  Intersection.updateSignal (mode e0) (roads (fst (run k g e0)))
                            (nodeAt (fst (run k g e0)) key).
Proof.
  rewrite run_last, step_nodeAt by (apply run_has, key_present).
  now rewrite run_mode.
Qed.

(** Fixed cycle: timer and phase after [k] ticks, in closed form. *)
Lemma fixed_closed_form (k : nat) :
  mode e0 = FIXED ->
  timerAfter e0 g key k = (Z.of_nat k mod FIXED_CYCLE_STEPS)%Z /\
  phaseAfter e0 g key k = ((Z.of_nat k / FIXED_CYCLE_STEPS) mod 2)%Z.
Proof.
  intros Hmode. unfold FIXED_CYCLE_STEPS.
  induction k as [| k [IHt IHp]].
  - destruct signal_start as [-> ->]. split; reflexivity.
  - unfold timerAfter, phaseAfter in *. rewrite signal_next, Hmode.
    destruct (updateSignal_fixed (roads (fst (run k g e0)))
                (nodeAt (fst (run k g e0)) key)) as [Hflip Hkeep].
    unfold FIXED_CYCLE_STEPS in *.
    rewrite Nat2Z.inj_succ.
    destruct (Z_le_gt_dec 6 (Intersection.phaseTimer
                               (nodeAt (fst (run k g e0)) key) + 1)) as [H | H].
    + destruct (Hflip H) as [-> ->]. rewrite IHp. rewrite IHt in H.
      split; Z.div_mod_to_equations; lia.
    + destruct (Hkeep ltac:(lia)) as [-> ->]. rewrite IHp, IHt.
      rewrite IHt in H.
      split; Z.div_mod_to_equations; lia.
Qed.

(** Fixed cycle: the phase changes at the multiples of the cycle
    length and at no other tick. *)
Lemma fixed_flips (j : nat) :
  mode e0 = FIXED ->
  flipsAt e0 g key j <->
  (1 <= j)%nat /\ (Z.of_nat j mod FIXED_CYCLE_STEPS = 0)%Z.
Proof.
  intros Hmode. unfold flipsAt.
  destruct j as [| i]; [split; intros [? _]; lia |].
  replace (S i - 1)%nat with i by lia.
  destruct (fixed_closed_form (S i) Hmode) as [_ ->].
  destruct (fixed_closed_form i Hmode) as [_ ->].
  unfold FIXED_CYCLE_STEPS. rewrite Nat2Z.inj_succ.
  split; intros [H1 H2]; (split; [lia |]).
  - Z.div_mod_to_equations; lia.
  - Z.div_mod_to_equations; lia.
Qed.

(** Adaptive mode: the rule of one tick, along the run. *)
Lemma smart_tick (k : nat) :
  mode e0 = SMART ->
  (phaseAfter e0 g key (S k) <> phaseAfter e0 g key k /\
   timerAfter e0 g key (S k) = 0%Z /\
   (3 <= timerAfter e0 g key k + 1)%Z)
  \/
  (phaseAfter e0 g key (S k) = phaseAfter e0 g key k /\
   timerAfter e0 g key (S k) = (timerAfter e0 g key k + 1)%Z /\
   (timerAfter e0 g key k + 1 < 24)%Z).
Proof.
  intros Hmode. unfold phaseAfter, timerAfter.
  rewrite signal_next, Hmode. apply updateSignal_smart.
Qed.
End SignalsAlongRun.

(** ** The boundary flag is never read by [step] *)

Section BoundaryFlag.
Import SimulationEngine.

Lemma inRoad_erase (rs : list DirectedRoad.t) (n : Intersection.t) (d : Dir) :
  Intersection.inRoad (map eraseRoad rs) n d =
  option_map eraseRoad (Intersection.inRoad rs n d).
Proof.
  unfold Intersection.inRoad.
  destruct (getSlot d (Intersection.inRoads n)); [| reflexivity].
  apply nth_error_map.
Qed.

Lemma outRoad_erase (rs : list DirectedRoad.t) (n : Intersection.t) (d : Dir) :
  Intersection.outRoad (map eraseRoad rs) n d =
  option_map eraseRoad (Intersection.outRoad rs n d).
Proof.
  unfold Intersection.outRoad.
  destruct (getSlot d (Intersection.outRoads n)); [| reflexivity].
  apply nth_error_map.
Qed.

Lemma addMovement_erase (rs : list DirectedRoad.t) (n : Intersection.t)
      (a b : Dir) (p : Q) :
  Intersection.addMovement (map eraseRoad rs) n a b p =
  Intersection.addMovement rs n a b p.
Proof.
  unfold Intersection.addMovement. rewrite inRoad_erase, outRoad_erase.
  destruct (Intersection.inRoad rs n a); simpl; [| reflexivity].
  destruct (Intersection.outRoad rs n b); reflexivity.
Qed.

Lemma getPressure_erase (rs : list DirectedRoad.t) (n : Intersection.t) :
  Intersection.getPressure (map eraseRoad rs) n = Intersection.getPressure rs n.
Proof.
  unfold Intersection.getPressure. now rewrite !addMovement_erase.
Qed.

Lemma updateSignal_erase (m : ControlMode) (rs : list DirectedRoad.t)
      (n : Intersection.t) :
  Intersection.updateSignal m (map eraseRoad rs) n =
  Intersection.updateSignal m rs n.
Proof.
  unfold Intersection.updateSignal. now rewrite getPressure_erase.
Qed.

Lemma stepFlowDir_erase (rs : list DirectedRoad.t) (n : Intersection.t)
      (d : Dir) :
  Intersection.stepFlowDir (map eraseRoad rs) n d =
  map eraseTransfer (Intersection.stepFlowDir rs n d).
Proof.
  unfold Intersection.stepFlowDir. rewrite inRoad_erase, outRoad_erase.
  destruct (Intersection.inRoad rs n d) as [source |]; simpl; [| reflexivity].
  destruct (Intersection.outRoad rs n (Intersection.targetMap d))
    as [target |]; simpl; [| reflexivity].
  change (DirectedRoad.getDemand (eraseRoad source))
    with (DirectedRoad.getDemand source).
  change (DirectedRoad.getSupply (eraseRoad target))
    with (DirectedRoad.getSupply target).
  destruct (Qltb 0 _); reflexivity.
Qed.

Lemma collect_erase (rs : list DirectedRoad.t) (ns : Rec.t Intersection.t) :
  collectTransfers (map eraseRoad rs) ns =
  map eraseTransfer (collectTransfers rs ns).
Proof.
  unfold collectTransfers, Intersection.stepFlow.
  induction (Rec.values ns) as [| n l IH]; simpl; [reflexivity |].
  rewrite map_app, IH. f_equal.
  induction (Intersection.allowedDirs (Intersection.phase n))
    as [| d ds IHd]; simpl; [reflexivity |].
  now rewrite map_app, IHd, stepFlowDir_erase.
Qed.

Lemma aggregate1_erase (a b : Flows) (tr : Transfer) :
  sameFlows a b -> sameFlows (aggregate1 a (eraseTransfer tr)) (aggregate1 b tr).
Proof.
  intros (Ho & Hi & Ht). unfold aggregate1, addFlow.
  destruct (tgt tr) as [r |] eqn:E; unfold eraseTransfer; simpl; rewrite E;
    simpl; repeat split; intros; simpl; rewrite ?Ho, ?Hi, ?Ht; reflexivity.
Qed.

Lemma aggregate_erase (rs : list DirectedRoad.t) (thr : Q)
      (trs : list Transfer) :
  sameFlows (aggregate (map eraseRoad rs) thr (map eraseTransfer trs))
            (aggregate rs thr trs).
Proof.
  unfold aggregate.
  assert (H0 : sameFlows
                 (mkFlows (zeroFlows (map eraseRoad rs))
                          (zeroFlows (map eraseRoad rs)) thr)
                 (mkFlows (zeroFlows rs) (zeroFlows rs) thr)).
  { repeat split; intros k; simpl; now rewrite !zeroFlows_zero. }
  revert H0. generalize (mkFlows (zeroFlows (map eraseRoad rs))
                                 (zeroFlows (map eraseRoad rs)) thr).
  generalize (mkFlows (zeroFlows rs) (zeroFlows rs) thr).
  induction trs as [| tr trs IH]; intros b a Hab; simpl; [exact Hab |].
  apply IH. now apply aggregate1_erase.
Qed.

Lemma spawn_erase (ns : Rec.t Intersection.t) (rate : Q)
      (r : DirectedRoad.t) (g : Random) :
  spawn ns rate (eraseRoad r) g =
  (eraseRoad (fst (spawn ns rate r g)), snd (spawn ns rate r g)).
Proof.
  unfold spawn.
  change (DirectedRoad.u (eraseRoad r)) with (DirectedRoad.u r).
  destruct (Rec.get (DirectedRoad.u r) ns) as [uNode |]; [| reflexivity].
  change (isEntry (eraseRoad r) uNode) with (isEntry r uNode).
  change (DirectedRoad.cells (eraseRoad r)) with (DirectedRoad.cells r).
  destruct (isEntry r uNode && _); [| reflexivity].
  unfold nextRandom. destruct (Qltb _ rate); reflexivity.
Qed.

Lemma generateInflow_erase (ns : Rec.t Intersection.t) (rate : Q)
      (rs : list DirectedRoad.t) (g : Random) :
  generateInflow ns rate (map eraseRoad rs) g =
  (map eraseRoad (fst (generateInflow ns rate rs g)),
   snd (generateInflow ns rate rs g)).
Proof.
  revert g; induction rs as [| r rs IH]; intros g; simpl; [reflexivity |].
  rewrite spawn_erase. destruct (spawn ns rate r g) as [r' g1]; simpl.
  rewrite IH. destruct (generateInflow ns rate rs g1) as [rest g2].
  reflexivity.
Qed.

(** Clearing the flags and then ticking is ticking and then clearing
    the flags, with the same draws used. *)
Lemma step_erase (g : Random) (e : t) :
  step g (eraseBoundary e) = (eraseBoundary (fst (step g e)), snd (step g e)).
Proof.
  unfold step.
  cbn [roads intersections totalThroughput stepCount mode rows cols
       inflowRate eraseBoundary].
  assert (Ens : Rec.mapValues
                  (Intersection.updateSignal (mode e) (map eraseRoad (roads e)))
                  (intersections e) =
                Rec.mapValues (Intersection.updateSignal (mode e) (roads e))
                  (intersections e)).
  { unfold Rec.mapValues. apply map_ext. intros kv.
    now rewrite updateSignal_erase. }
  rewrite Ens, collect_erase.
  set (ns := Rec.mapValues (Intersection.updateSignal (mode e) (roads e))
               (intersections e)).
  destruct (aggregate_erase (roads e) (totalThroughput e)
              (collectTransfers (roads e) ns)) as (Ho & Hi & Ht).
  rewrite map_map.
  rewrite (map_ext
             (fun r => DirectedRoad.stepPhysics
                (inflows (aggregate (map eraseRoad (roads e)) (totalThroughput e)
                   (map eraseTransfer (collectTransfers (roads e) ns)))
                   (DirectedRoad.id (eraseRoad r)))
                (outflows (aggregate (map eraseRoad (roads e)) (totalThroughput e)
                   (map eraseTransfer (collectTransfers (roads e) ns)))
                   (DirectedRoad.id (eraseRoad r)))
                (eraseRoad r))
             (fun r => eraseRoad
                (DirectedRoad.stepPhysics
                   (inflows (aggregate (roads e) (totalThroughput e)
                      (collectTransfers (roads e) ns)) (DirectedRoad.id r))
                   (outflows (aggregate (roads e) (totalThroughput e)
                      (collectTransfers (roads e) ns)) (DirectedRoad.id r))
                   r)))
    by (intros r; rewrite Hi, Ho; reflexivity).
  rewrite <- (map_map _ eraseRoad), generateInflow_erase, Ht.
  destruct (generateInflow ns (inflowRate e) _ g) as [rs2 g']. reflexivity.
Qed.

Lemma run_erase (k : nat) (g : Random) (e : t) :
  run k g (eraseBoundary e) =
  (eraseBoundary (fst (run k g e)), snd (run k g e)).
Proof.
  revert g e; induction k as [| k IH]; intros g e; simpl; [reflexivity |].
  rewrite step_erase. destruct (step g e) as [e' g']; simpl. apply IH.
Qed.

(** Two states that differ only in the flags stay so, tick after
    tick, and use the same draws. *)
Lemma run_sameButBoundary (k : nat) (g : Random) (e1 e2 : t) :
  sameButBoundary e1 e2 ->
  sameButBoundary (fst (run k g e1)) (fst (run k g e2)) /\
  snd (run k g e1) = snd (run k g e2).
Proof.
  unfold sameButBoundary. intros H.
  pose proof (run_erase k g e1) as H1.
  pose proof (run_erase k g e2) as H2.
  rewrite H in H1. rewrite H1 in H2.
  split; [exact (f_equal fst H2) | exact (f_equal snd H2)].
Qed.

(** What [eraseBoundary] keeps is all of the state but the flags. *)
Lemma sameButBoundary_fields (e1 e2 : t) :
  sameButBoundary e1 e2 ->
  map DirectedRoad.cells (roads e1) = map DirectedRoad.cells (roads e2) /\
  map DirectedRoad.id (roads e1) = map DirectedRoad.id (roads e2) /\
  intersections e1 = intersections e2 /\
  stepCount e1 = stepCount e2 /\
  totalThroughput e1 = totalThroughput e2.
Proof.
  unfold sameButBoundary, eraseBoundary. intros H.
  injection H as Hr Hn Ht Hc _ _ _ _.
  repeat split; auto.
  - apply (f_equal (map DirectedRoad.cells)) in Hr.
    now rewrite !map_map in Hr.
  - apply (f_equal (map DirectedRoad.id)) in Hr.
    now rewrite !map_map in Hr.
Qed.

(** The snapshot copies the flag, and nothing else of it depends on
    the flag. *)
Lemma snapshot_flag (e : t) :
  map rd_isBoundary (snap_roads (getSnapshot e)) =
  map DirectedRoad.isBoundary (roads e).
Proof. unfold getSnapshot; simpl. now rewrite map_map. Qed.

Lemma snapshot_erase (e : t) :
  map roadDataButBoundary (snap_roads (getSnapshot (eraseBoundary e))) =
  map roadDataButBoundary (snap_roads (getSnapshot e)) /\
  snap_intersections (getSnapshot (eraseBoundary e)) =
  snap_intersections (getSnapshot e) /\
  snap_stats (getSnapshot (eraseBoundary e)) = snap_stats (getSnapshot e).
Proof.
  assert (Hfold : forall (f : DirectedRoad.t -> Q) rs q,
             (forall r, f (eraseRoad r) = f r) ->
             fold_left (fun sum r => sum + f r) (map eraseRoad rs) q =
             fold_left (fun sum r => sum + f r) rs q).
  { intros f rs. induction rs as [| r rs IH]; intros q Hf; simpl;
      [reflexivity |]. rewrite Hf. now apply IH. }
  unfold getSnapshot; simpl. rewrite !map_map.
  rewrite !Hfold by reflexivity. repeat split.
Qed.
End BoundaryFlag.

(** ** A grid without rows or without columns *)

Lemma buildGrid_empty (rws cls : Z) :
  (rws <= 0)%Z \/ (cls <= 0)%Z ->
  SimulationEngine.buildGrid rws cls = Some ([], []).
Proof.
  intros H.
  unfold SimulationEngine.buildGrid, SimulationEngine.connectRoads,
    SimulationEngine.createNodes.
  destruct H as [H | H].
  - replace (Z.to_nat rws) with O by lia. reflexivity.
  - replace (Z.to_nat cls) with O by lia. simpl.
    induction (seq 0 (Z.to_nat rws)) as [| r l IH]; simpl; auto.
Qed.

(** ** What [step] passes to [stepPhysics] *)

Section TickFlows.
Import PHYSICS SimulationEngine.

Lemma spawn_length (ns : Rec.t Intersection.t) (rate : Q)
      (r : DirectedRoad.t) (g : Random) :
  List.length (DirectedRoad.cells (fst (spawn ns rate r g))) =
  List.length (DirectedRoad.cells r).
Proof.
  unfold spawn. destruct (Rec.get _ ns) as [uNode |]; [| reflexivity].
  destruct (_ && _); [| reflexivity].
  unfold nextRandom. destruct (Qltb _ rate);
    cbn [fst DirectedRoad.cells DirectedRoad.withCells]; [| reflexivity].
  apply length_setCell.
Qed.

Lemma generateInflow_lengths (ns : Rec.t Intersection.t) (rate : Q)
      (rs : list DirectedRoad.t) (g : Random) :
  Forall (fun r => List.length (DirectedRoad.cells r) = ROAD_LENGTH_CELLS) rs ->
  Forall (fun r => List.length (DirectedRoad.cells r) = ROAD_LENGTH_CELLS)
         (fst (generateInflow ns rate rs g)).
Proof.
  revert g; induction rs as [| r rs IH]; intros g H; simpl; [constructor |].
  inversion H as [| ? ? Hr Hrs]; subst.
  pose proof (spawn_length ns rate r g) as Hr'.
  destruct (spawn ns rate r g) as [r' g1]; simpl in Hr'.
  specialize (IH g1 Hrs). destruct (generateInflow ns rate rs g1) as [rest g2].
  simpl in *. constructor; [congruence | assumption].
Qed.

Lemma step_lengths (g : Random) (e : t) :
  Forall (fun r => List.length (DirectedRoad.cells r) = ROAD_LENGTH_CELLS)
         (roads e) ->
  Forall (fun r => List.length (DirectedRoad.cells r) = ROAD_LENGTH_CELLS)
         (roads (fst (step g e))).
Proof.
  intros H. destruct (step_fields g e) as (_ & -> & _).
  apply generateInflow_lengths, Forall_map, Forall_forall. intros r Hr.
  rewrite length_stepPhysics. rewrite Forall_forall in H. now apply H.
Qed.

Lemma run_lengths (k : nat) (g : Random) (e : t) :
  Forall (fun r => List.length (DirectedRoad.cells r) = ROAD_LENGTH_CELLS)
         (roads e) ->
  Forall (fun r => List.length (DirectedRoad.cells r) = ROAD_LENGTH_CELLS)
         (roads (fst (run k g e))).
Proof.
  revert g e; induction k as [| k IH]; intros g e H; simpl; [exact H |].
  pose proof (step_lengths g e H) as H1.
  destruct (step g e) as [e' g']. now apply IH.
Qed.

(** The outflow that a tick asks of a road is never more than its last
    cell holds. *)
Lemma tick_outflow_bound (e : t) (r : DirectedRoad.t) :
  EngineOK e -> In r (roads e) ->
  outflows (aggregate (roads e) (totalThroughput e) (tickTransfers e))
           (DirectedRoad.id r) <=
  getCell (DirectedRoad.cells r) (List.length (DirectedRoad.cells r) - 1).
Proof.
  intros [Hw Hcells] Hr.
  assert (Hw' : Wired (roads e)
                  (Rec.mapValues (Intersection.updateSignal (mode e) (roads e))
                                 (intersections e))).
  { destruct Hw as [Hi Ho Hid].
    destruct (handles_updateSignal (mode e) (roads e) (intersections e))
      as [Ei Eo].
    constructor; rewrite ?Ei, ?Eo; auto. }
  pose proof (collect_srcIds _ _ Hw') as Hsrc.
  destruct (aggregate_outflow_cases (roads e) (totalThroughput e)
              (tickTransfers e) (DirectedRoad.id r) Hsrc)
    as [E | (tr & Htr & Hid & E)]; rewrite E.
  - rewrite Forall_forall in Hcells.
    apply (getCell_nonneg MAX_CARS_PER_CELL). now apply Hcells.
  - destruct (collect_sound _ _ tr Hcells Htr) as (Hin & _ & Hle & _).
    assert (src tr = r) by (apply (NoDup_ids_eq (roads e)); auto; apply Hw).
    subst r. lra.
Qed.
End TickFlows.

(** ** Every density the engine reaches is an integer *)

Section WholeNumbers.
Import PHYSICS SimulationEngine.

Lemma isWhole_eq (a b : Q) : a == b -> isWhole a -> isWhole b.
Proof. intros E [z Hz]. exists z. now rewrite <- E. Qed.

Lemma isWhole_Z (z : Z) : isWhole (inject_Z z).
Proof. exists z. reflexivity. Qed.

Lemma isWhole_plus (a b : Q) : isWhole a -> isWhole b -> isWhole (a + b).
Proof.
  intros [x Hx] [y Hy]. exists (x + y)%Z.
  now rewrite inject_Z_plus, Hx, Hy.
Qed.

Lemma isWhole_minus (a b : Q) : isWhole a -> isWhole b -> isWhole (a - b).
Proof.
  intros [x Hx] [y Hy]. exists (x - y)%Z.
  unfold Z.sub, Qminus. now rewrite inject_Z_plus, inject_Z_opp, Hx, Hy.
Qed.

Lemma isWhole_min (a b : Q) : isWhole a -> isWhole b -> isWhole (Qmin a b).
Proof.
  intros Ha Hb.
  destruct (Q.min_spec a b) as [[_ E] | [_ E]];
    [apply (isWhole_eq a) | apply (isWhole_eq b)]; auto; now symmetry.
Qed.

Lemma isWhole_max (a b : Q) : isWhole a -> isWhole b -> isWhole (Qmax a b).
Proof.
  intros Ha Hb.
  destruct (Q.max_spec a b) as [[_ E] | [_ E]];
    [apply (isWhole_eq b) | apply (isWhole_eq a)]; auto; now symmetry.
Qed.

Lemma whole_getCell (cs : list Q) (j : nat) :
  wholeCells cs -> isWhole (getCell cs j).
Proof.
  intros H. destruct (Nat.lt_ge_cases j (List.length cs)) as [Hj | Hj].
  - unfold wholeCells in H. rewrite Forall_forall in H.
    apply H. unfold getCell. now apply nth_In.
  - rewrite getCell_outside by exact Hj. apply (isWhole_Z 0).
Qed.

Lemma whole_setCell (i : nat) (x : Q) (cs : list Q) :
  wholeCells cs -> isWhole x -> wholeCells (setCell i x cs).
Proof.
  unfold wholeCells.
  revert i; induction cs as [| c cs IH]; intros [| i] H Hx; simpl; auto;
    inversion H; subst; constructor; auto.
Qed.

Lemma whole_flux (frozen : list Q) (i : nat) :
  wholeCells frozen -> isWhole (DirectedRoad.flux frozen i).
Proof.
  intros H. unfold DirectedRoad.flux.
  apply isWhole_min; [now apply whole_getCell |].
  apply isWhole_minus; [apply (isWhole_Z 7) | now apply whole_getCell].
Qed.

Lemma whole_stepPhysics (flowIn flowOut : Q) (r : DirectedRoad.t) :
  wholeCells (DirectedRoad.cells r) -> isWhole flowIn -> isWhole flowOut ->
  wholeCells (DirectedRoad.cells (DirectedRoad.stepPhysics flowIn flowOut r)).
Proof.
  intros H Hin Hout. unfold DirectedRoad.stepPhysics; simpl.
  assert (Hfz : wholeCells (DirectedRoad.applyBoundary flowIn flowOut
                              (DirectedRoad.cells r))).
  { unfold DirectedRoad.applyBoundary.
    assert (H1 : wholeCells
                   (setCell (List.length (DirectedRoad.cells r) - 1)
                      (Qmax 0 (getCell (DirectedRoad.cells r)
                                 (List.length (DirectedRoad.cells r) - 1) - flowOut))
                      (DirectedRoad.cells r))).
    { apply whole_setCell; [exact H |].
      apply isWhole_max; [apply (isWhole_Z 0) |].
      apply isWhole_minus; [now apply whole_getCell | exact Hout]. }
    apply whole_setCell; [exact H1 |].
    apply isWhole_plus; [now apply whole_getCell | exact Hin]. }
  unfold DirectedRoad.ctmLoop.
  apply fold_left_invariant; [exact Hfz |].
  intros nc i _ Hnc. unfold DirectedRoad.ctmPair.
  assert (Hnc1 : wholeCells
                   (setCell i (getCell nc i - DirectedRoad.flux
                      (DirectedRoad.applyBoundary flowIn flowOut
                         (DirectedRoad.cells r)) i) nc)).
  { apply whole_setCell; [exact Hnc |].
    apply isWhole_minus; [now apply whole_getCell | now apply whole_flux]. }
  apply whole_setCell; [exact Hnc1 |].
  apply isWhole_plus; [now apply whole_getCell | now apply whole_flux].
Qed.

Lemma whole_demand (r : DirectedRoad.t) :
  wholeCells (DirectedRoad.cells r) -> isWhole (DirectedRoad.getDemand r).
Proof.
  intros H. unfold DirectedRoad.getDemand, WAVE_SPEED, MAX_CARS_PER_CELL.
  apply isWhole_min; [| apply (isWhole_Z 7)].
  apply (isWhole_eq (getCell (DirectedRoad.cells r)
                       (List.length (DirectedRoad.cells r) - 1)));
    [ring | now apply whole_getCell].
Qed.

Lemma whole_supply (r : DirectedRoad.t) :
  wholeCells (DirectedRoad.cells r) -> isWhole (DirectedRoad.getSupply r).
Proof.
  intros H. unfold DirectedRoad.getSupply, MAX_CARS_PER_CELL.
  apply isWhole_max; [apply (isWhole_Z 0) |].
  apply isWhole_minus; [apply (isWhole_Z 7) | now apply whole_getCell].
Qed.

Lemma whole_amount (rs : list DirectedRoad.t) (ns : Rec.t Intersection.t)
      (tr : Transfer) :
  Forall (fun r => wholeCells (DirectedRoad.cells r)) rs ->
  In tr (collectTransfers rs ns) -> isWhole (amount tr).
Proof.
  intros Hcells Hin. unfold collectTransfers in Hin.
  apply in_flat_map in Hin. destruct Hin as (n & _ & Hin).
  apply stepFlow_in in Hin. destruct Hin as (d & _ & Hin).
  rewrite Forall_forall in Hcells.
  destruct (stepFlowDir_cases rs n d)
    as [[E _] | (source & Hs & [[_ E] | (target & Ht & _ & E)])];
    rewrite E in Hin; simpl in Hin; [contradiction | |];
    destruct Hin as [<- | []]; simpl;
    pose proof (Hcells _ (inRoad_In _ _ _ _ Hs)) as Hsrc.
  - now apply whole_demand.
  - apply isWhole_min; [now apply whole_demand |].
    apply whole_supply, Hcells. eapply outRoad_In; eauto.
Qed.

Lemma whole_sum (l : list Q) (a : Q) :
  Forall isWhole l -> isWhole a -> isWhole (fold_left Qplus l a).
Proof.
  revert a; induction l as [| x l IH]; intros a H Ha; simpl; [exact Ha |].
  inversion H; subst. apply IH; [assumption |]. now apply isWhole_plus.
Qed.

Lemma whole_flows (rs : list DirectedRoad.t) (thr : Q) (trs : list Transfer)
      (k : string) :
  (forall tr, In tr trs -> isWhole (amount tr)) ->
  isWhole (inflows (aggregate rs thr trs) k) /\
  isWhole (outflows (aggregate rs thr trs) k).
Proof.
  intros H. unfold aggregate.
  rewrite aggregate1_fold_inflows, aggregate1_fold_outflows; simpl.
  rewrite zeroFlows_zero.
  split; apply whole_sum; try apply (isWhole_Z 0); apply Forall_forall;
    intros a Ha.
  - destruct (in_inTerms k trs a Ha) as (tr & _ & Htr & _ & _ & ->). auto.
  - destruct (in_outTerms k trs a Ha) as (tr & Htr & _ & ->). auto.
Qed.

Lemma whole_spawn (ns : Rec.t Intersection.t) (rate : Q)
      (r : DirectedRoad.t) (g : Random) :
  wholeCells (DirectedRoad.cells r) ->
  wholeCells (DirectedRoad.cells (fst (spawn ns rate r g))).
Proof.
  intros H. unfold spawn. destruct (Rec.get _ ns) as [uNode |]; [| exact H].
  destruct (_ && _); [| exact H].
  unfold nextRandom. destruct (Qltb _ rate);
    cbn [fst DirectedRoad.cells DirectedRoad.withCells]; [| exact H].
  apply whole_setCell; [exact H |].
  apply isWhole_plus; [now apply whole_getCell | apply (isWhole_Z 2)].
Qed.

Lemma whole_generateInflow (ns : Rec.t Intersection.t) (rate : Q)
      (rs : list DirectedRoad.t) (g : Random) :
  Forall (fun r => wholeCells (DirectedRoad.cells r)) rs ->
  Forall (fun r => wholeCells (DirectedRoad.cells r))
         (fst (generateInflow ns rate rs g)).
Proof.
  revert g; induction rs as [| r rs IH]; intros g H; simpl; [constructor |].
  inversion H as [| ? ? Hr Hrs]; subst.
  pose proof (whole_spawn ns rate r g Hr) as Hr'.
  destruct (spawn ns rate r g) as [r' g1]; simpl in Hr'.
  specialize (IH g1 Hrs). destruct (generateInflow ns rate rs g1) as [rest g2].
  simpl in *. constructor; auto.
Qed.

Lemma whole_step (g : Random) (e : t) :
  Forall (fun r => wholeCells (DirectedRoad.cells r)) (roads e) ->
  Forall (fun r => wholeCells (DirectedRoad.cells r)) (roads (fst (step g e))).
Proof.
  intros H. destruct (step_fields g e) as (_ & -> & _).
  apply whole_generateInflow, Forall_map, Forall_forall. intros r Hr.
  destruct (whole_flows (roads e) (totalThroughput e) (tickTransfers e)
              (DirectedRoad.id r)) as [Hi Ho].
  { intros tr Htr. eapply whole_amount; eauto. }
  rewrite Forall_forall in H. apply whole_stepPhysics; auto.
Qed.

(** On every grid, with any draws, every cell density stays an
    integer: the exact arithmetic of the model is the arithmetic of
    the program on the states it reaches. *)
Lemma reachable_whole (rws cls : Z) (rate : Q) (m : ControlMode) :
  exists e0,
    new rws cls rate m = Some e0 /\
    forall (k : nat) (g : Random),
      Forall (fun r => wholeCells (DirectedRoad.cells r))
             (roads (fst (run k g e0))).
Proof.
  destruct (new_ok rws cls rate m) as (e0 & Hnew & _ & Hgrid & _).
  exists e0. split; [exact Hnew |].
  assert (H0 : Forall (fun r => wholeCells (DirectedRoad.cells r)) (roads e0)).
  { eapply Forall_impl; [| apply (grid_cells _ _ _ Hgrid)].
    intros r Hr. cbv beta in Hr. rewrite Hr.
    apply Forall_forall. intros x Hx. apply repeat_spec in Hx. subst.
    apply (isWhole_Z 0). }
  intros k. revert H0. generalize e0. clear.
  induction k as [| k IH]; intros e H g; simpl; [exact H |].
  pose proof (whole_step g e H) as H1.
  destruct (step g e) as [e' g']. now apply IH.
Qed.
End WholeNumbers.

(* ================================================================== *)
(** * Part IV: the properties of the specification *)
(* ================================================================== *)

(** C1.  Whatever the construction parameters, the engine is built, and
    after any number of calls of [step], with any draws, every cell of
    every road lies between 0 and [MAX_CARS_PER_CELL].  For one road
    whose cells lie in that range: if the inflow is between 0 and the
    road's [getSupply()] and the outflow is not negative, then after
    [stepPhysics] every cell is again in that range; and with any
    inflow and outflow that are not negative, no cell is negative
    after [stepPhysics]. *)
Theorem C1_density_within_bounds (rws cls : Z) (rate : Q) (m : ControlMode) :
  (exists e0,
      SimulationEngine.new rws cls rate m = Some e0 /\
      forall (k : nat) (g : Random),
        Forall (fun r => cellsWithin 0 PHYSICS.MAX_CARS_PER_CELL
                                     (DirectedRoad.cells r))
               (SimulationEngine.roads (fst (SimulationEngine.run k g e0))))
  /\
  (forall (r : DirectedRoad.t) (flowIn flowOut : Q),
      cellsWithin 0 PHYSICS.MAX_CARS_PER_CELL (DirectedRoad.cells r) ->
      0 <= flowIn -> flowIn <= DirectedRoad.getSupply r -> 0 <= flowOut ->
      cellsWithin 0 PHYSICS.MAX_CARS_PER_CELL
        (DirectedRoad.cells (DirectedRoad.stepPhysics flowIn flowOut r)))
  /\
  (forall (r : DirectedRoad.t) (flowIn flowOut : Q),
      cellsWithin 0 PHYSICS.MAX_CARS_PER_CELL (DirectedRoad.cells r) ->
      0 <= flowIn -> 0 <= flowOut ->
      Forall (fun c => 0 <= c)
        (DirectedRoad.cells (DirectedRoad.stepPhysics flowIn flowOut r))).
Proof.
  split; [| split].
  - destruct (new_ok rws cls rate m) as (e0 & Hnew & Hok & _).
    exists e0. split; [exact Hnew |].
    intros k g. apply (ok_cells _ (run_ok k g e0 Hok)).
  - intros r flowIn flowOut. apply stepPhysics_within.
  - intros r flowIn flowOut. apply stepPhysics_nonneg.
Qed.

Lemma C1_witness :
  cellsWithin 0 PHYSICS.MAX_CARS_PER_CELL (DirectedRoad.cells busyRoad) /\
  0 <= 3 /\ 3 <= DirectedRoad.getSupply busyRoad /\ 0 <= 2 /\
  cellsWithin 0 PHYSICS.MAX_CARS_PER_CELL
    (DirectedRoad.cells (DirectedRoad.stepPhysics 3 2 busyRoad)).
Proof.
  assert (H : cellsWithin 0 PHYSICS.MAX_CARS_PER_CELL (DirectedRoad.cells busyRoad)).
  { unfold cellsWithin, PHYSICS.MAX_CARS_PER_CELL; simpl.
    repeat (constructor; [split; unfold Qle; simpl; lia |]). constructor. }
  assert (H0 : 0 <= 3) by (unfold Qle; simpl; lia).
  assert (H1 : 3 <= DirectedRoad.getSupply busyRoad) by (vm_compute; discriminate).
  assert (H2 : 0 <= 2) by (unfold Qle; simpl; lia).
  split; [exact H | split; [exact H0 | split; [exact H1 | split; [exact H2 |]]]].
  exact (proj1 (proj2 (C1_density_within_bounds 2 2 (1 # 2) SMART))
           busyRoad 3 2 H H0 H1 H2).
Defined.

(** C2, as worded, fails: a road cannot give what its last cell does
    not hold.  An empty road asked for an outflow of 1 keeps a total of
    0, where the claim wants -1. *)
Lemma C2_counterexample :
  0 <= 0 /\ 0 <= 1 /\
  ~ conserves (DirectedRoad.new "R_E_0_0" "0-0" "0-1" true) 0 1.
Proof.
  split; [unfold Qle; simpl; lia | split; [unfold Qle; simpl; lia |]].
  unfold conserves. vm_compute. discriminate.
Qed.

(** C2, amended.  For a road with at least one cell, any inflow, and
    any outflow that does not exceed the density of the last cell, one
    call of [stepPhysics] changes the sum of the cell densities by
    exactly inflow minus outflow.  The flows that [step] passes are of
    that kind: on any grid, in every tick, with any draws, every road
    ends the physics pass with its total plus its inflow minus its
    outflow. *)
Theorem C2_conservation :
  (forall (r : DirectedRoad.t) (flowIn flowOut : Q),
      DirectedRoad.cells r <> [] ->
      flowOut <= getCell (DirectedRoad.cells r)
                         (List.length (DirectedRoad.cells r) - 1) ->
      conserves r flowIn flowOut)
  /\
  (forall (rws cls : Z) (rate : Q) (m : ControlMode),
      exists e0,
        SimulationEngine.new rws cls rate m = Some e0 /\
        forall (k : nat) (g : Random) (r : DirectedRoad.t),
          let e := fst (SimulationEngine.run k g e0) in
          let fl := SimulationEngine.aggregate (SimulationEngine.roads e)
                      (SimulationEngine.totalThroughput e) (tickTransfers e) in
          In r (SimulationEngine.roads e) ->
          conserves r (inflows fl (DirectedRoad.id r))
                      (outflows fl (DirectedRoad.id r))).
Proof.
  split.
  - intros r flowIn flowOut. apply sumCells_stepPhysics.
  - intros rws cls rate m.
    destruct (new_ok rws cls rate m) as (e0 & Hnew & Hok & Hgrid & _).
    exists e0. split; [exact Hnew |]. intros k g r e fl Hr.
    assert (Hlen : Forall (fun r => List.length (DirectedRoad.cells r) =
                                    PHYSICS.ROAD_LENGTH_CELLS)
                          (SimulationEngine.roads e)).
    { apply run_lengths.
      eapply Forall_impl; [| apply (grid_cells _ _ _ Hgrid)].
      intros r0 Hr0. cbv beta in Hr0. rewrite Hr0. apply repeat_length. }
    rewrite Forall_forall in Hlen. specialize (Hlen r Hr).
    apply sumCells_stepPhysics.
    + intros E. rewrite E in Hlen. discriminate Hlen.
    + apply tick_outflow_bound; [apply run_ok, Hok | exact Hr].
Qed.

Lemma C2_witness :
  DirectedRoad.cells busyRoad <> [] /\
  4 <= getCell (DirectedRoad.cells busyRoad)
               (List.length (DirectedRoad.cells busyRoad) - 1) /\
  conserves busyRoad 3 4.
Proof.
  assert (H : DirectedRoad.cells busyRoad <> []) by discriminate.
  assert (H1 : 4 <= getCell (DirectedRoad.cells busyRoad)
                            (List.length (DirectedRoad.cells busyRoad) - 1))
    by (vm_compute; discriminate).
  split; [exact H | split; [exact H1 |]].
  exact (proj1 C2_conservation busyRoad 3 4 H H1).
Defined.

(** C3.  [stepPhysics] reads every flux from the array frozen after the
    boundary update, so its result is the simultaneous update
    [new[i] = frozen[i] - flux(i, i+1) + flux(i-1, i)] with the flux
    [min(frozen[i], MAX_CARS_PER_CELL - frozen[i+1])] of the
    specification; and the pairs may be processed in any order: every
    order of the pair indices gives the cells of the simultaneous update
    as well. *)
Theorem C3_simultaneous_update (flowIn flowOut : Q) (r : DirectedRoad.t)
        (order : list nat) :
  let frozen := DirectedRoad.applyBoundary flowIn flowOut (DirectedRoad.cells r) in
  Permutation order (DirectedRoad.ctmOrder (List.length frozen)) ->
  sameCells (DirectedRoad.cells (DirectedRoad.stepPhysics flowIn flowOut r))
            (CTM.simultaneous frozen) /\
  sameCells (DirectedRoad.ctmLoop order frozen) (CTM.simultaneous frozen).
Proof.
  intros frozen Hperm. split.
  - unfold DirectedRoad.stepPhysics; simpl. fold frozen.
    apply ctmLoop_simultaneous, ctmOrder_perm.
  - apply ctmLoop_simultaneous.
    eapply Permutation_trans; [exact Hperm | apply ctmOrder_perm].
Qed.

Lemma C3_witness :
  Permutation (seq 0 9)
    (DirectedRoad.ctmOrder
       (List.length (DirectedRoad.applyBoundary 3 2 (DirectedRoad.cells busyRoad))))
  /\
  sameCells (DirectedRoad.cells (DirectedRoad.stepPhysics 3 2 busyRoad))
            (CTM.simultaneous
               (DirectedRoad.applyBoundary 3 2 (DirectedRoad.cells busyRoad))) /\
  sameCells (DirectedRoad.ctmLoop (seq 0 9)
               (DirectedRoad.applyBoundary 3 2 (DirectedRoad.cells busyRoad)))
            (CTM.simultaneous
               (DirectedRoad.applyBoundary 3 2 (DirectedRoad.cells busyRoad))).
Proof.
  assert (H : Permutation (seq 0 9)
                (DirectedRoad.ctmOrder
                   (List.length (DirectedRoad.applyBoundary 3 2
                                   (DirectedRoad.cells busyRoad)))))
    by (apply Permutation_rev).
  split; [exact H |].
  exact (C3_simultaneous_update 3 2 busyRoad (seq 0 9) H).
Defined.

(** C4.  [stepFlow] emits exactly these transfers: for each incoming
    road of the green axis, towards the road on the opposite side; if
    that road is missing, the whole [getDemand()] goes to EXIT, with no
    cap by any supply; otherwise the amount is the minimum of the
    demand and of the opposite road's [getSupply()], and the transfer
    is emitted only if that amount is positive.  There are at most two
    transfers per intersection.  Scenario C: with the last cell of the
    incoming road at 7 and the road downstream empty, the transfer is
    7, and the physics pass moves exactly 7 from one road to the
    other. *)
Theorem C4_straight_through_routing :
  (forall (rs : list DirectedRoad.t) (n : Intersection.t) (tr : Transfer),
      In tr (Intersection.stepFlow rs n) <->
      exists sDir source,
        onGreenAxis (Intersection.phase n) sDir /\
        Intersection.inRoad rs n sDir = Some source /\
        src tr = source /\
        match Intersection.outRoad rs n (opposite sDir) with
        | None =>
            tgt tr = EXIT /\ amount tr = DirectedRoad.getDemand source
        | Some target =>
            tgt tr = ToRoad target /\
            amount tr = Qmin (DirectedRoad.getDemand source)
                             (DirectedRoad.getSupply target) /\
            0 < amount tr
        end)
  /\
  (forall (rs : list DirectedRoad.t) (n : Intersection.t),
      (List.length (Intersection.stepFlow rs n) <= 2)%nat)
  /\
  (let trs := Intersection.stepFlow scenarioC_roads scenarioC_node in
   let fl := SimulationEngine.aggregate scenarioC_roads 0 trs in
   let up' := DirectedRoad.stepPhysics (inflows fl "R_S_0_0"%string)
                (outflows fl "R_S_0_0"%string) scenarioC_up in
   let down' := DirectedRoad.stepPhysics (inflows fl "R_S_1_0"%string)
                  (outflows fl "R_S_1_0"%string) scenarioC_down in
   trs = [mkTransfer scenarioC_up (ToRoad scenarioC_down) 7] /\
   DirectedRoad.getTotalCars up' == DirectedRoad.getTotalCars scenarioC_up - 7 /\
   DirectedRoad.getTotalCars down' ==
   DirectedRoad.getTotalCars scenarioC_down + 7 /\
   throughput fl == 0).
Proof.
  split; [| split].
  - intros rs n tr. rewrite stepFlow_in. split.
    + intros (d & Hd & Hin). exists d.
      assert (Hgreen : onGreenAxis (Intersection.phase n) d).
      { unfold Intersection.allowedDirs in Hd. unfold onGreenAxis.
        destruct (Z.eqb_spec (Intersection.phase n) 0) as [E | E];
          simpl in Hd; intuition auto. }
      change (opposite d) with (Intersection.targetMap d).
      destruct (stepFlowDir_cases rs n d)
        as [[E _] | (source & Hs & [[Ho E] | (target & Ho & Hpos & E)])];
        rewrite E in Hin; simpl in Hin; [contradiction | |];
        destruct Hin as [<- | []]; exists source; rewrite Ho; simpl;
        repeat split; auto.
    + intros (d & source & Hgreen & Hs & Hsrc & Hout). exists d. split.
      * unfold Intersection.allowedDirs, onGreenAxis in *.
        destruct (Z.eqb_spec (Intersection.phase n) 0) as [E | E];
          simpl; intuition auto.
      * unfold Intersection.stepFlowDir. rewrite Hs.
        change (Intersection.targetMap d) with (opposite d).
        destruct tr as [s t a]; simpl in *. subst s.
        destruct (Intersection.outRoad rs n (opposite d)) as [target |].
        -- destruct Hout as (-> & -> & Hpos).
           apply Qltb_lt in Hpos. rewrite Hpos. now left.
        -- destruct Hout as (-> & ->). now left.
  - intros rs n. unfold Intersection.stepFlow.
    destruct (allowedDirs_two (Intersection.phase n)) as (a & b & -> & _).
    simpl. rewrite app_nil_r, length_app.
    assert (Hone : forall d, (List.length (Intersection.stepFlowDir rs n d) <= 1)%nat).
    { intros d.
      destruct (stepFlowDir_cases rs n d)
        as [[-> _] | (source & _ & [[_ ->] | (target & _ & _ & ->)])];
        simpl; lia. }
    pose proof (Hone a). pose proof (Hone b). lia.
  - vm_compute. repeat split.
Qed.

(** C5.  In fixed-cycle mode, on any grid, with any entry rate and any
    draws, the constructor builds an engine in which every intersection
    has, after [k] ticks, timer [k mod FIXED_CYCLE_STEPS] and phase
    [(k / FIXED_CYCLE_STEPS) mod 2]: the phase changes at the ticks
    that are multiples of the cycle length and at no other tick, and
    the timer is 0 after each change.  The update does not look at
    the roads.  Scenario B: on the 2x2 grid every intersection starts
    at phase 0 (NS) and is at phase 1 (EW) after tick 6. *)
Theorem C5_fixed_cycle (rate : Q) (g : Random) :
  (forall (rws cls : Z),
      exists e0,
        SimulationEngine.new rws cls rate FIXED = Some e0 /\
        forall key,
          Rec.get key (SimulationEngine.intersections e0) <> None ->
          (forall k,
              timerAfter e0 g key k =
              (Z.of_nat k mod PHYSICS.FIXED_CYCLE_STEPS)%Z /\
              phaseAfter e0 g key k =
              ((Z.of_nat k / PHYSICS.FIXED_CYCLE_STEPS) mod 2)%Z) /\
          (forall j,
              flipsAt e0 g key j <->
              (1 <= j)%nat /\
              (Z.of_nat j mod PHYSICS.FIXED_CYCLE_STEPS = 0)%Z) /\
          (forall j, flipsAt e0 g key j -> timerAfter e0 g key j = 0%Z))
  /\
  (forall (rs rs' : list DirectedRoad.t) (n : Intersection.t),
      Intersection.updateSignal FIXED rs n =
      Intersection.updateSignal FIXED rs' n)
  /\
  (exists e0,
      SimulationEngine.new 2 2 rate FIXED = Some e0 /\
      map fst (SimulationEngine.intersections e0) =
      ["0-0"; "0-1"; "1-0"; "1-1"]%string /\
      forall key,
        In key ["0-0"; "0-1"; "1-0"; "1-1"]%string ->
        phaseAfter e0 g key 0 = 0%Z /\ phaseAfter e0 g key 6 = 1%Z).
Proof.
  assert (Hgen : forall rws cls e0 key,
             SimulationEngine.new rws cls rate FIXED = Some e0 ->
             Rec.get key (SimulationEngine.intersections e0) <> None ->
             (forall k,
                 timerAfter e0 g key k =
                 (Z.of_nat k mod PHYSICS.FIXED_CYCLE_STEPS)%Z /\
                 phaseAfter e0 g key k =
                 ((Z.of_nat k / PHYSICS.FIXED_CYCLE_STEPS) mod 2)%Z) /\
             (forall j,
                 flipsAt e0 g key j <->
                 (1 <= j)%nat /\
                 (Z.of_nat j mod PHYSICS.FIXED_CYCLE_STEPS = 0)%Z)).
  { intros rws cls e0 key Hnew Hkey.
    destruct (new_ok rws cls rate FIXED)
      as (e & Hnew' & _ & Hgrid & _ & _ & Hmode & _).
    rewrite Hnew in Hnew'. injection Hnew' as <-.
    pose proof (grid_signals _ _ _ Hgrid) as Hsig. simpl in Hsig.
    split.
    - intros k. now apply fixed_closed_form.
    - intros j. now apply fixed_flips. }
  split; [| split].
  - intros rws cls.
    destruct (new_ok rws cls rate FIXED) as (e0 & Hnew & _).
    exists e0. split; [exact Hnew |]. intros key Hkey.
    destruct (Hgen rws cls e0 key Hnew Hkey) as [Hform Hflips].
    split; [exact Hform | split; [exact Hflips |]].
    intros j Hj. apply Hflips in Hj. destruct Hj as [_ Hj].
    destruct (Hform j) as [-> _]. exact Hj.
  - intros rs rs' n. reflexivity.
  - destruct (new_ok 2 2 rate FIXED) as (e0 & Hnew & _).
    exists e0. split; [exact Hnew |].
    assert (Hkeys : map fst (SimulationEngine.intersections e0) =
                    ["0-0"; "0-1"; "1-0"; "1-1"]%string).
    { revert Hnew. vm_compute. intros H. injection H as <-. reflexivity. }
    split; [exact Hkeys |].
    intros key Hin.
    assert (Hkey : Rec.get key (SimulationEngine.intersections e0) <> None).
    { revert Hnew. vm_compute in Hin. vm_compute.
      intros H. injection H as <-.
      destruct Hin as [<- | [<- | [<- | [<- | []]]]]; vm_compute; discriminate. }
    destruct (Hgen 2%Z 2%Z e0 key Hnew Hkey) as [Hform _].
    destruct (Hform 0%nat) as [_ ->]. destruct (Hform 6%nat) as [_ ->].
    split; reflexivity.
Qed.

Lemma C5_witness :
  exists e0,
    SimulationEngine.new 2 2 (1 # 2) FIXED = Some e0 /\
    Rec.get "1-0"%string (SimulationEngine.intersections e0) <> None /\
    (forall k,
        timerAfter e0 alwaysSpawn "1-0"%string k =
        (Z.of_nat k mod PHYSICS.FIXED_CYCLE_STEPS)%Z /\
        phaseAfter e0 alwaysSpawn "1-0"%string k =
        ((Z.of_nat k / PHYSICS.FIXED_CYCLE_STEPS) mod 2)%Z).
Proof.
  destruct (proj1 (C5_fixed_cycle (1 # 2) alwaysSpawn) 2%Z 2%Z)
    as (e0 & Hnew & Hall).
  exists e0.
  assert (Hkey : Rec.get "1-0"%string (SimulationEngine.intersections e0) <> None).
  { revert Hnew. vm_compute. intros H. injection H as <-. discriminate. }
  split; [exact Hnew | split; [exact Hkey |]].
  exact (proj1 (Hall "1-0"%string Hkey)).
Defined.

(** C6.  In adaptive mode, on any grid, with any entry rate and any
    draws, for every intersection of the engine that the constructor
    builds: after every tick the timer is at least 0 and strictly less
    than [MAX_RED_STEPS]; two changes of phase are at least
    [MIN_GREEN_STEPS] ticks apart, and the first change comes no
    earlier than tick [MIN_GREEN_STEPS]; after any tick, a change of
    phase comes within the next [MAX_RED_STEPS] ticks, whatever the
    pressures; and the timer is 0 after each change. *)
Theorem C6_adaptive_timing (rws cls : Z) (rate : Q) (g : Random) :
  exists e0,
    SimulationEngine.new rws cls rate SMART = Some e0 /\
    forall key,
      Rec.get key (SimulationEngine.intersections e0) <> None ->
      (forall k, (0 <= timerAfter e0 g key k < PHYSICS.MAX_RED_STEPS)%Z) /\
      (forall i j,
          (i < j)%nat -> flipsAt e0 g key i -> flipsAt e0 g key j ->
          (Z.of_nat i + PHYSICS.MIN_GREEN_STEPS <= Z.of_nat j)%Z) /\
      (forall j, flipsAt e0 g key j ->
                 (PHYSICS.MIN_GREEN_STEPS <= Z.of_nat j)%Z) /\
      (forall k, exists j,
            (Z.of_nat k < Z.of_nat j <= Z.of_nat k + PHYSICS.MAX_RED_STEPS)%Z /\
            flipsAt e0 g key j) /\
      (forall j, flipsAt e0 g key j -> timerAfter e0 g key j = 0%Z).
Proof.
  destruct (new_ok rws cls rate SMART)
    as (e0 & Hnew & _ & Hgrid & _ & _ & Hmode & _).
  exists e0. split; [exact Hnew |]. intros key Hkey.
  pose proof (grid_signals _ _ _ Hgrid) as Hsig. simpl in Hsig.
  destruct (signal_start e0 g key Hkey Hsig) as [_ Hstart].
  pose proof (fun k => smart_tick e0 g key Hkey k Hmode) as Htick.
  unfold PHYSICS.MAX_RED_STEPS, PHYSICS.MIN_GREEN_STEPS.
  split; [| split; [| split; [| split]]].
  - intros k.
    apply (timing_range (phaseAfter e0 g key) (timerAfter e0 g key) Hstart Htick).
  - intros i j Hij Hi Hj.
    pose proof (timing_min_green (phaseAfter e0 g key) (timerAfter e0 g key)
                  Htick i j Hij Hi Hj). lia.
  - intros j Hj.
    pose proof (timing_first_flip (phaseAfter e0 g key) (timerAfter e0 g key)
                  Hstart Htick j Hj). lia.
  - intros k.
    destruct (timing_max_red (phaseAfter e0 g key) (timerAfter e0 g key)
                Hstart Htick k) as (j & Hj & Hf).
    exists j. split; [lia | exact Hf].
  - intros j Hj.
    apply (timing_flip_resets (phaseAfter e0 g key) (timerAfter e0 g key)
             Htick j Hj).
Qed.

Lemma C6_witness :
  exists e0,
    SimulationEngine.new 2 2 1 SMART = Some e0 /\
    Rec.get "0-1"%string (SimulationEngine.intersections e0) <> None /\
    (forall k, (0 <= timerAfter e0 alwaysSpawn "0-1"%string k
                < PHYSICS.MAX_RED_STEPS)%Z) /\
    (forall k, exists j,
          (Z.of_nat k < Z.of_nat j <= Z.of_nat k + PHYSICS.MAX_RED_STEPS)%Z /\
          flipsAt e0 alwaysSpawn "0-1"%string j).
Proof.
  destruct (C6_adaptive_timing 2 2 1 alwaysSpawn) as (e0 & Hnew & Hall).
  exists e0.
  assert (Hkey : Rec.get "0-1"%string (SimulationEngine.intersections e0) <> None).
  { revert Hnew. vm_compute. intros H. injection H as <-. discriminate. }
  split; [exact Hnew | split; [exact Hkey |]].
  destruct (Hall "0-1"%string Hkey) as (Hrange & _ & _ & Hred & _).
  split; [exact Hrange | exact Hred].
Defined.

(** C7, as worded, fails.  On the 2x2 grid in adaptive mode, after 20
    ticks in which every entry road with room receives a block, the
    intersection 0-0 has no road coming in from the north and none
    going out to the north, a road coming in from the south with a
    queue of 3 + 7 = 10, and a road going out to the south that holds
    26.  [getPressure] leaves the load of that outgoing road out, its
    opposite incoming road being absent, and returns 10 for the
    north-south axis; taking queues and loads separately gives
    10 - 13 < 1/10, hence the floor 1/10. *)
Lemma C7_counterexample :
  exists e0 n rin rout,
    SimulationEngine.new 2 2 1 SMART = Some e0 /\
    fst (SimulationEngine.run 20 alwaysSpawn e0) = busyGrid /\
    Rec.get "0-0"%string (SimulationEngine.intersections busyGrid) = Some n /\
    Intersection.inRoad (SimulationEngine.roads busyGrid) n North = None /\
    Intersection.outRoad (SimulationEngine.roads busyGrid) n North = None /\
    Intersection.inRoad (SimulationEngine.roads busyGrid) n South = Some rin /\
    DirectedRoad.cells rin = [2; 2; 2; 2; 2; 2; 2; 2; 3; 7] /\
    Intersection.outRoad (SimulationEngine.roads busyGrid) n South = Some rout /\
    DirectedRoad.cells rout = [2; 2; 2; 2; 2; 2; 2; 2; 3; 7] /\
    fst (Intersection.getPressure (SimulationEngine.roads busyGrid) n) == 10 /\
    fst (Pressure.separate (SimulationEngine.roads busyGrid) n) == 1 # 10 /\
    ~ fst (Intersection.getPressure (SimulationEngine.roads busyGrid) n) ==
      fst (Pressure.separate (SimulationEngine.roads busyGrid) n).
Proof.
  destruct (new_ok 2 2 1 SMART) as (e0 & Hnew & _).
  exists e0.
  destruct (Rec.get "0-0"%string (SimulationEngine.intersections busyGrid))
    as [n |] eqn:En; [| vm_compute in En; discriminate En].
  vm_compute in En. injection En as <-.
  eexists. eexists. eexists.
  split; [exact Hnew |].
  split.
  { assert (Hrun : option_map
                     (fun e => fst (SimulationEngine.run 20 alwaysSpawn e))
                     (SimulationEngine.new 2 2 1 SMART) = Some busyGrid)
      by (vm_compute; reflexivity).
    rewrite Hnew in Hrun. cbn [option_map] in Hrun.
    injection Hrun as Hrun. exact Hrun. }
  split; [vm_compute; reflexivity |].
  split; [reflexivity |]. split; [reflexivity |].
  split; [vm_compute; reflexivity |]. split; [reflexivity |].
  split; [vm_compute; reflexivity |]. split; [reflexivity |].
  split; [vm_compute; reflexivity |]. split; [vm_compute; reflexivity |].
  vm_compute. discriminate.
Qed.

(** C7, amended.  [getPressure] returns, for each axis, the larger of
    1/10 and the sum over the two movements of the axis, a movement
    being an incoming road together with the outgoing road on the
    opposite side: an incoming road adds its [getStoppedQueue()] and
    takes away half the [getTotalCars()] of its opposite outgoing road
    if there is one; a direction with no incoming road adds nothing.
    Both components are at least 1/10. *)
Theorem C7_pressure (rs : list DirectedRoad.t) (n : Intersection.t) :
  fst (Intersection.getPressure rs n) == fst (Pressure.byMovement rs n) /\
  snd (Intersection.getPressure rs n) == snd (Pressure.byMovement rs n) /\
  (1 # 10) <= fst (Intersection.getPressure rs n) /\
  (1 # 10) <= snd (Intersection.getPressure rs n).
Proof.
  destruct (getPressure_byMovement rs n) as [H1 H2].
  destruct (getPressure_floor rs n) as [H3 H4].
  auto.
Qed.

(** C8, as worded, fails.  The constructor checks nothing: with 0 rows
    and an entry probability of 3/2 it returns an engine. *)
Lemma C8_counterexample :
  invalidConfig 0 2 (3 # 2) /\ ~ rejects 0 2 (3 # 2) FIXED.
Proof.
  split.
  - left. lia.
  - unfold rejects. vm_compute. discriminate.
Qed.

(** C8, amended.  The constructor never fails.  For any rows, columns,
    entry probability and mode it returns an engine that holds these
    four values as given, with throughput 0 and tick count 0; with
    rows <= 0 or columns <= 0 that engine has no intersection and no
    road. *)
Theorem C8_construction (rws cls : Z) (rate : Q) (m : ControlMode) :
  exists e,
    SimulationEngine.new rws cls rate m = Some e /\
    SimulationEngine.rows e = rws /\ SimulationEngine.cols e = cls /\
    SimulationEngine.inflowRate e = rate /\ SimulationEngine.mode e = m /\
    SimulationEngine.totalThroughput e = 0 /\
    SimulationEngine.stepCount e = 0%Z /\
    ((rws <= 0)%Z \/ (cls <= 0)%Z -> e = emptyEngine rws cls rate m).
Proof.
  destruct (new_ok rws cls rate m)
    as (e & Hnew & _ & _ & Hthr & Hcount & Hmode & Hrows & Hcols & Hrate).
  exists e. repeat split; auto.
  intros Hempty. unfold SimulationEngine.new in Hnew.
  rewrite (buildGrid_empty rws cls Hempty) in Hnew.
  injection Hnew as <-. reflexivity.
Qed.

Lemma C8_witness :
  ((0 <= 0)%Z \/ (2 <= 0)%Z) /\
  exists e,
    SimulationEngine.new 0 2 (3 # 2) FIXED = Some e /\
    e = emptyEngine 0 2 (3 # 2) FIXED.
Proof.
  assert (H : (0 <= 0)%Z \/ (2 <= 0)%Z) by (left; lia).
  split; [exact H |].
  destruct (C8_construction 0 2 (3 # 2) FIXED) as (e & Hnew & _ & _ & _ & _ & _ & _ & Hempty).
  exists e. split; [exact Hnew | exact (Hempty H)].
Defined.

(** C9.  On any grid that the constructor builds, in every tick, with
    any draws: no two transfers of the tick have the same source road
    and no two have the same destination road, roads being told apart
    by their identifiers, which are pairwise different; so each road's
    outflow and inflow come out the same in whatever order the
    transfers are summed. *)
Theorem C9_one_transfer_per_road (rws cls : Z) (rate : Q) (m : ControlMode) :
  exists e0,
    SimulationEngine.new rws cls rate m = Some e0 /\
    forall (k : nat) (g : Random),
      let e := fst (SimulationEngine.run k g e0) in
      NoDup (map DirectedRoad.id (SimulationEngine.roads e)) /\
      NoDup (srcIds (tickTransfers e)) /\
      NoDup (tgtIds (tickTransfers e)) /\
      (forall tr, In tr (tickTransfers e) ->
                  In (src tr) (SimulationEngine.roads e) /\
                  forall r, tgt tr = ToRoad r -> In r (SimulationEngine.roads e)) /\
      (forall trs' key,
          Permutation (tickTransfers e) trs' ->
          outflows (SimulationEngine.aggregate (SimulationEngine.roads e)
                      (SimulationEngine.totalThroughput e) (tickTransfers e)) key =
          outflows (SimulationEngine.aggregate (SimulationEngine.roads e)
                      (SimulationEngine.totalThroughput e) trs') key /\
          inflows (SimulationEngine.aggregate (SimulationEngine.roads e)
                     (SimulationEngine.totalThroughput e) (tickTransfers e)) key =
          inflows (SimulationEngine.aggregate (SimulationEngine.roads e)
                     (SimulationEngine.totalThroughput e) trs') key).
Proof.
  destruct (new_ok rws cls rate m) as (e0 & Hnew & Hok & _).
  exists e0. split; [exact Hnew |]. intros k g e.
  destruct (run_ok k g e0 Hok) as [Hw Hcells]. fold e in Hw, Hcells.
  assert (Hw' : Wired (SimulationEngine.roads e)
                  (Rec.mapValues
                     (Intersection.updateSignal (SimulationEngine.mode e)
                                                (SimulationEngine.roads e))
                     (SimulationEngine.intersections e))).
  { destruct Hw as [Hi Ho Hid].
    destruct (handles_updateSignal (SimulationEngine.mode e)
                (SimulationEngine.roads e) (SimulationEngine.intersections e))
      as [Ei Eo].
    constructor; rewrite ?Ei, ?Eo; auto. }
  pose proof (collect_srcIds _ _ Hw') as Hsrc.
  pose proof (collect_tgtIds _ _ Hw') as Htgt.
  split; [apply Hw | split; [exact Hsrc | split; [exact Htgt | split]]].
  - intros tr Htr.
    destruct (collect_sound _ _ tr Hcells Htr) as (Hs & _ & _ & Ht).
    split; [exact Hs |]. intros r Hr. apply (Ht r Hr).
  - intros trs' key Hperm. now apply aggregate_order.
Qed.

Lemma C9_witness :
  exists e0,
    SimulationEngine.new 2 2 1 SMART = Some e0 /\
    NoDup (srcIds (tickTransfers (fst (SimulationEngine.run 20 alwaysSpawn e0)))) /\
    NoDup (tgtIds (tickTransfers (fst (SimulationEngine.run 20 alwaysSpawn e0)))).
Proof.
  destruct (C9_one_transfer_per_road 2 2 1 SMART) as (e0 & Hnew & Hall).
  exists e0. split; [exact Hnew |].
  destruct (Hall 20%nat alwaysSpawn) as (_ & Hsrc & Htgt & _).
  split; [exact Hsrc | exact Htgt].
Defined.

(** C10.  [step] never reads [isBoundary].  Two states that are equal
    but for the flags of their roads are, after any number of ticks
    with the same draws, again equal but for the flags: same cells,
    same intersections with their phases and timers, same tick count,
    same throughput, and the same draws left.  Whether a road is an
    entry road depends on its identifier and on the incoming slots of
    its upstream intersection only.  The snapshot copies the flag, and
    the rest of the snapshot is the same for the two states. *)
Theorem C10_boundary_flag_unused (e1 e2 : SimulationEngine.t) (k : nat)
        (g : Random) :
  sameButBoundary e1 e2 ->
  let a := fst (SimulationEngine.run k g e1) in
  let b := fst (SimulationEngine.run k g e2) in
  sameButBoundary a b /\
  snd (SimulationEngine.run k g e1) = snd (SimulationEngine.run k g e2) /\
  map DirectedRoad.cells (SimulationEngine.roads a) =
  map DirectedRoad.cells (SimulationEngine.roads b) /\
  SimulationEngine.intersections a = SimulationEngine.intersections b /\
  SimulationEngine.stepCount a = SimulationEngine.stepCount b /\
  SimulationEngine.totalThroughput a = SimulationEngine.totalThroughput b /\
  (forall r r' uNode,
      DirectedRoad.id r = DirectedRoad.id r' ->
      SimulationEngine.isEntry r uNode = SimulationEngine.isEntry r' uNode) /\
  map rd_isBoundary (snap_roads (SimulationEngine.getSnapshot a)) =
  map DirectedRoad.isBoundary (SimulationEngine.roads a) /\
  map roadDataButBoundary (snap_roads (SimulationEngine.getSnapshot a)) =
  map roadDataButBoundary (snap_roads (SimulationEngine.getSnapshot b)) /\
  snap_intersections (SimulationEngine.getSnapshot a) =
  snap_intersections (SimulationEngine.getSnapshot b) /\
  snap_stats (SimulationEngine.getSnapshot a) =
  snap_stats (SimulationEngine.getSnapshot b).
Proof.
  intros Hsame a b.
  destruct (run_sameButBoundary k g e1 e2 Hsame) as [Hab Hg].
  fold a b in Hab.
  destruct (sameButBoundary_fields a b Hab) as (Hc & _ & Hn & Hs & Ht).
  destruct (snapshot_erase a) as (Ha1 & Ha2 & Ha3).
  destruct (snapshot_erase b) as (Hb1 & Hb2 & Hb3).
  unfold sameButBoundary in Hab.
  repeat split; auto.
  - intros r r' uNode E. unfold SimulationEngine.isEntry. now rewrite E.
  - apply snapshot_flag.
  - rewrite <- Ha1, <- Hb1, Hab. reflexivity.
  - rewrite <- Ha2, <- Hb2, Hab. reflexivity.
  - rewrite <- Ha3, <- Hb3, Hab. reflexivity.
Qed.

Lemma C10_witness :
  sameButBoundary busyGrid busyGridFlipped /\
  map DirectedRoad.isBoundary (SimulationEngine.roads busyGrid) <>
  map DirectedRoad.isBoundary (SimulationEngine.roads busyGridFlipped) /\
  sameButBoundary (fst (SimulationEngine.run 5 alwaysSpawn busyGrid))
                  (fst (SimulationEngine.run 5 alwaysSpawn busyGridFlipped)).
Proof.
  assert (H : sameButBoundary busyGrid busyGridFlipped) by reflexivity.
  split; [exact H | split; [discriminate |]].
  exact (proj1 (C10_boundary_flag_unused busyGrid busyGridFlipped 5
                  alwaysSpawn H)).
Defined.

(* ================================================================== *)
(** * Part V: further properties of the program *)
(* ================================================================== *)

(** ** Signals: the phase is binary, the timer counts from the last change *)

Section SignalFacts.
Import PHYSICS SimulationEngine.

Lemma updateSignal_binary (m : ControlMode) (rs : list DirectedRoad.t)
      (n : Intersection.t) :
  Intersection.phase n = 0%Z \/ Intersection.phase n = 1%Z ->
  Intersection.phase (Intersection.updateSignal m rs n) = 0%Z \/
  Intersection.phase (Intersection.updateSignal m rs n) = 1%Z.
Proof.
  intros H. unfold Intersection.updateSignal.
  destruct m;
    repeat match goal with
           | |- context [if ?b then _ else _] => destruct b
           | |- context [let (_, _) := ?p in _] => destruct p
           end;
    cbn [Intersection.phase Intersection.withSignal]; lia.
Qed.

Lemma run_binary (k : nat) (g : Random) (e : t) :
  Forall (fun n => Intersection.phase n = 0%Z \/ Intersection.phase n = 1%Z)
         (Rec.values (intersections e)) ->
  Forall (fun n => Intersection.phase n = 0%Z \/ Intersection.phase n = 1%Z)
         (Rec.values (intersections (fst (run k g e)))).
Proof.
  revert g e; induction k as [| k IH]; intros g e H; simpl; [exact H |].
  assert (H1 : Forall (fun n => Intersection.phase n = 0%Z \/
                                Intersection.phase n = 1%Z)
                      (Rec.values (intersections (fst (step g e))))).
  { destruct (step_fields g e) as (-> & _). rewrite values_mapValues.
    apply Forall_map. eapply Forall_impl; [| exact H].
    intros n Hn. now apply updateSignal_binary. }
  destruct (step g e) as [e' g']. now apply IH.
Qed.

(** In either mode a tick changes the phase and resets the timer, or
    keeps the phase and advances the timer by one. *)
Lemma updateSignal_either (m : ControlMode) (rs : list DirectedRoad.t)
      (n : Intersection.t) :
  let n' := Intersection.updateSignal m rs n in
  (Intersection.phase n' <> Intersection.phase n /\
   Intersection.phaseTimer n' = 0%Z)
  \/
  (Intersection.phase n' = Intersection.phase n /\
   Intersection.phaseTimer n' = (Intersection.phaseTimer n + 1)%Z).
Proof.
  destruct m.
  - destruct (updateSignal_fixed rs n) as [Hflip Hkeep].
    destruct (Z_le_gt_dec FIXED_CYCLE_STEPS (Intersection.phaseTimer n + 1))
      as [H | H].
    + left. destruct (Hflip H) as [Hp Ht]. cbv zeta. rewrite Hp, Ht.
      split; lia.
    + right. apply Hkeep. lia.
  - destruct (updateSignal_smart rs n) as [(Hp & Ht & _) | (Hp & Ht & _)];
      [left | right]; auto.
Qed.
End SignalFacts.

(** A timer that is reset by every change of phase and advanced by
    every other tick counts the ticks since the last change. *)
Section TimerCounts.
Variables P T : nat -> Z.

Hypothesis T_start : T 0%nat = 0%Z.
Hypothesis tick :
  forall k,
    (P (S k) <> P k /\ T (S k) = 0%Z)
    \/ (P (S k) = P k /\ T (S k) = (T k + 1)%Z).

Lemma timer_counts (k : nat) :
  exists j,
    (j <= k)%nat /\
    (j = 0%nat \/ P j <> P (j - 1)) /\
    (forall i, (j < i <= k)%nat -> P i = P (i - 1)) /\
    T k = Z.of_nat (k - j).
Proof.
  induction k as [| k (j & Hj & Hflip & Hquiet & HT)].
  - exists 0%nat. split; [lia | split; [now left | split]].
    + intros i Hi. lia.
    + rewrite T_start. reflexivity.
  - destruct (tick k) as [[Hne E] | [Heq E]].
    + exists (S k). split; [lia | split; [| split]].
      * right. now replace (S k - 1)%nat with k by lia.
      * intros i Hi. lia.
      * rewrite E. f_equal. lia.
    + exists j. split; [lia | split; [exact Hflip | split]].
      * intros i Hi. destruct (Nat.eq_dec i (S k)) as [-> | Hne].
        -- now replace (S k - 1)%nat with k by lia.
        -- apply Hquiet. lia.
      * rewrite E, HT. lia.
Qed.

Lemma timer_zero_iff (k : nat) : T (S k) = 0%Z <-> P (S k) <> P k.
Proof.
  assert (Hnonneg : forall i, (0 <= T i)%Z).
  { induction i as [| i IH]; [rewrite T_start; lia |].
    destruct (tick i) as [[_ ->] | [_ ->]]; lia. }
  pose proof (Hnonneg k).
  destruct (tick k) as [[Hne E] | [Heq E]]; split; intros; auto;
    try lia; congruence.
Qed.
End TimerCounts.

(** X1.  On any grid, in either mode, with any draws, the phase of
    every intersection is 0 or 1 after every tick. *)
Theorem X1_phase_is_binary (rws cls : Z) (rate : Q) (m : ControlMode) :
  exists e0,
    SimulationEngine.new rws cls rate m = Some e0 /\
    forall (k : nat) (g : Random),
      Forall (fun n => Intersection.phase n = 0%Z \/ Intersection.phase n = 1%Z)
             (Rec.values (SimulationEngine.intersections
                            (fst (SimulationEngine.run k g e0)))).
Proof.
  destruct (new_ok rws cls rate m) as (e0 & Hnew & _ & Hgrid & _).
  exists e0. split; [exact Hnew |]. intros k g. apply run_binary.
  eapply Forall_impl; [| apply (grid_signals _ _ _ Hgrid)].
  simpl. intros n [Hp _]. now left.
Qed.

(** X2.  On any grid, in either mode, with any draws, the timer of an
    intersection is the number of ticks since its phase last changed,
    or since the start if it never did; and a tick leaves the timer at
    0 exactly when it changes the phase. *)
Theorem X2_timer_counts_ticks_since_change (rws cls : Z) (rate : Q)
        (m : ControlMode) (g : Random) :
  exists e0,
    SimulationEngine.new rws cls rate m = Some e0 /\
    forall key,
      Rec.get key (SimulationEngine.intersections e0) <> None ->
      (forall k, exists j,
            (j <= k)%nat /\
            (j = 0%nat \/ flipsAt e0 g key j) /\
            (forall i, (j < i <= k)%nat -> ~ flipsAt e0 g key i) /\
            timerAfter e0 g key k = Z.of_nat (k - j)) /\
      (forall k, timerAfter e0 g key (S k) = 0%Z <-> flipsAt e0 g key (S k)).
Proof.
  destruct (new_ok rws cls rate m)
    as (e0 & Hnew & _ & Hgrid & _ & _ & Hmode & _).
  exists e0. split; [exact Hnew |]. intros key Hkey.
  pose proof (grid_signals _ _ _ Hgrid) as Hsig. simpl in Hsig.
  destruct (signal_start e0 g key Hkey Hsig) as [_ Hstart].
  assert (Htick : forall k,
             (phaseAfter e0 g key (S k) <> phaseAfter e0 g key k /\
              timerAfter e0 g key (S k) = 0%Z)
             \/ (phaseAfter e0 g key (S k) = phaseAfter e0 g key k /\
                 timerAfter e0 g key (S k) = (timerAfter e0 g key k + 1)%Z)).
  { intros k. unfold phaseAfter, timerAfter.
    rewrite (signal_next e0 g key Hkey). apply updateSignal_either. }
  split.
  - intros k.
    destruct (timer_counts (phaseAfter e0 g key) (timerAfter e0 g key)
                Hstart Htick k) as (j & Hj & Hflip & Hquiet & HT).
    exists j. split; [exact Hj | split; [| split; [| exact HT]]].
    + destruct Hflip as [-> | Hne]; [now left |].
      destruct j as [| j]; [now left | right].
      split; [lia | exact Hne].
    + intros i Hi [_ Hne]. apply Hne, Hquiet, Hi.
  - intros k.
    rewrite (timer_zero_iff (phaseAfter e0 g key) (timerAfter e0 g key)
               Hstart Htick k).
    unfold flipsAt. replace (S k - 1)%nat with k by lia.
    split; [intros H; split; [lia | exact H] | intros [_ H]; exact H].
Qed.

Lemma X2_witness :
  exists e0,
    SimulationEngine.new 2 2 1 FIXED = Some e0 /\
    Rec.get "1-1"%string (SimulationEngine.intersections e0) <> None /\
    (forall k, timerAfter e0 alwaysSpawn "1-1"%string (S k) = 0%Z <->
               flipsAt e0 alwaysSpawn "1-1"%string (S k)).
Proof.
  destruct (X2_timer_counts_ticks_since_change 2 2 1 FIXED alwaysSpawn)
    as (e0 & Hnew & Hall).
  exists e0.
  assert (Hkey : Rec.get "1-1"%string (SimulationEngine.intersections e0) <> None).
  { revert Hnew. vm_compute. intros H. injection H as <-. discriminate. }
  split; [exact Hnew | split; [exact Hkey |]].
  exact (proj2 (Hall "1-1"%string Hkey)).
Defined.

(** ** Demand, supply, queue and load of a road within bounds *)

Section RoadMeasures.
Import PHYSICS.

Lemma sumCells_nil : sumCells [] == 0.
Proof. reflexivity. Qed.

Lemma sumCells_bounds (lo hi : Q) (cs : list Q) :
  cellsWithin lo hi cs ->
  inject_Z (Z.of_nat (List.length cs)) * lo <= sumCells cs /\
  sumCells cs <= inject_Z (Z.of_nat (List.length cs)) * hi.
Proof.
  unfold cellsWithin. induction cs as [| c cs IH]; intros H.
  - unfold sumCells; simpl. change (inject_Z 0) with 0. split; lra.
  - inversion H as [| ? ? [Hlo Hhi] Hrest]; subst.
    destruct (IH Hrest) as [IHlo IHhi].
    rewrite sumCells_cons. cbn [List.length].
    rewrite Nat2Z.inj_succ. unfold Z.succ. rewrite inject_Z_plus.
    change (inject_Z 1) with 1.
    set (n := inject_Z (Z.of_nat (List.length cs))) in *.
    assert (Elo : (n + 1) * lo == n * lo + lo) by ring.
    assert (Ehi : (n + 1) * hi == n * hi + hi) by ring.
    rewrite Elo, Ehi.
    generalize dependent (n * lo). generalize dependent (n * hi).
    intros; split; lra.
Qed.

Lemma sumCells_filter_le (p : Q -> bool) (cs : list Q) :
  Forall (fun c => 0 <= c) cs ->
  0 <= sumCells (filter p cs) /\ sumCells (filter p cs) <= sumCells cs.
Proof.
  induction cs as [| c cs IH]; intros H; simpl.
  - unfold sumCells; simpl. split; lra.
  - inversion H as [| ? ? Hc Hrest]; subst.
    destruct (IH Hrest) as [IH0 IH1].
    destruct (p c); rewrite !sumCells_cons; split; lra.
Qed.

Lemma within_nonneg (hi : Q) (cs : list Q) :
  cellsWithin 0 hi cs -> Forall (fun c => 0 <= c) cs.
Proof. apply Forall_impl. intros c [H _]. exact H. Qed.

(** No cell above the queuing threshold, no queue. *)
Lemma stoppedQueue_none (r : DirectedRoad.t) :
  Forall (fun c => c <= 2) (DirectedRoad.cells r) ->
  DirectedRoad.getStoppedQueue r = 0.
Proof.
  unfold DirectedRoad.getStoppedQueue. intros H.
  replace (filter (fun c => Qltb 2 c) (DirectedRoad.cells r)) with (@nil Q);
    [reflexivity |].
  induction (DirectedRoad.cells r) as [| c cs IH]; simpl; [reflexivity |].
  inversion H as [| ? ? Hc Hrest]; subst.
  destruct (Qltb 2 c) eqn:E; [apply Qltb_lt in E; lra | now apply IH].
Qed.

Lemma road_measures (r : DirectedRoad.t) :
  cellsWithin 0 MAX_CARS_PER_CELL (DirectedRoad.cells r) ->
  DirectedRoad.getDemand r ==
  getCell (DirectedRoad.cells r) (List.length (DirectedRoad.cells r) - 1) /\
  getCell (DirectedRoad.cells r) 0 + DirectedRoad.getSupply r ==
  MAX_CARS_PER_CELL /\
  0 <= DirectedRoad.getStoppedQueue r /\
  DirectedRoad.getStoppedQueue r <= DirectedRoad.getTotalCars r /\
  DirectedRoad.getTotalCars r <=
  inject_Z (Z.of_nat (List.length (DirectedRoad.cells r))) * MAX_CARS_PER_CELL.
Proof.
  intros H.
  destruct (sumCells_filter_le (fun c => Qltb 2 c) _ (within_nonneg _ _ H))
    as [Hq0 Hq1].
  destruct (sumCells_bounds _ _ _ H) as [_ Htot].
  assert (Hlast : 0 <= getCell (DirectedRoad.cells r)
                               (List.length (DirectedRoad.cells r) - 1) /\
                  getCell (DirectedRoad.cells r)
                          (List.length (DirectedRoad.cells r) - 1)
                  <= MAX_CARS_PER_CELL).
  { destruct (DirectedRoad.cells r) as [| c cs] eqn:E.
    - unfold getCell, MAX_CARS_PER_CELL; simpl. split; lra.
    - rewrite <- E in *. apply cellsWithin_getCell; [exact H |].
      rewrite E. simpl. lia. }
  assert (Hfirst : 0 <= getCell (DirectedRoad.cells r) 0 /\
                   getCell (DirectedRoad.cells r) 0 <= MAX_CARS_PER_CELL).
  { destruct (DirectedRoad.cells r) as [| c cs] eqn:E.
    - unfold getCell, MAX_CARS_PER_CELL; simpl. split; lra.
    - rewrite <- E in *. apply cellsWithin_getCell; [exact H |].
      rewrite E. simpl. lia. }
  unfold DirectedRoad.getDemand, DirectedRoad.getSupply,
    DirectedRoad.getStoppedQueue, DirectedRoad.getTotalCars, WAVE_SPEED in *.
  repeat split; auto; unfold MAX_CARS_PER_CELL in *; split_minmax; lra.
Qed.
End RoadMeasures.

(** X3.  For a road whose cells lie between 0 and the maximum:
    [getDemand()] is the density of the last cell, [getSupply()] is the
    room left in the first cell, the stopped queue is at least 0 and at
    most the total load, and the total load is at most the maximum
    times the number of cells. *)
Theorem X3_road_measures (r : DirectedRoad.t) :
  cellsWithin 0 PHYSICS.MAX_CARS_PER_CELL (DirectedRoad.cells r) ->
  DirectedRoad.getDemand r ==
  getCell (DirectedRoad.cells r) (List.length (DirectedRoad.cells r) - 1) /\
  getCell (DirectedRoad.cells r) 0 + DirectedRoad.getSupply r ==
  PHYSICS.MAX_CARS_PER_CELL /\
  0 <= DirectedRoad.getStoppedQueue r /\
  DirectedRoad.getStoppedQueue r <= DirectedRoad.getTotalCars r /\
  DirectedRoad.getTotalCars r <=
  inject_Z (Z.of_nat (List.length (DirectedRoad.cells r)))
  * PHYSICS.MAX_CARS_PER_CELL.
Proof. apply road_measures. Qed.

Lemma X3_witness :
  cellsWithin 0 PHYSICS.MAX_CARS_PER_CELL (DirectedRoad.cells busyRoad) /\
  DirectedRoad.getDemand busyRoad ==
  getCell (DirectedRoad.cells busyRoad)
          (List.length (DirectedRoad.cells busyRoad) - 1) /\
  DirectedRoad.getStoppedQueue busyRoad <= DirectedRoad.getTotalCars busyRoad.
Proof.
  assert (H : cellsWithin 0 PHYSICS.MAX_CARS_PER_CELL (DirectedRoad.cells busyRoad)).
  { unfold cellsWithin, PHYSICS.MAX_CARS_PER_CELL; simpl.
    repeat (constructor; [split; unfold Qle; simpl; lia |]). constructor. }
  split; [exact H |].
  destruct (X3_road_measures busyRoad H) as (Hd & _ & _ & Hq & _).
  split; [exact Hd | exact Hq].
Defined.

(** ** Totals over the network: throughput and conservation *)

Section NetworkTotals.
Import PHYSICS SimulationEngine.

Lemma sumRoads_shift (f : DirectedRoad.t -> Q) (rs : list DirectedRoad.t)
      (a : Q) :
  fold_left (fun sum r => sum + f r) rs a == a + sumRoads f rs.
Proof.
  unfold sumRoads. revert a. induction rs as [| r rs IH]; intros a; simpl.
  - lra.
  - rewrite IH, (IH (0 + f r)). lra.
Qed.

Lemma sumRoads_cons (f : DirectedRoad.t -> Q) (r : DirectedRoad.t)
      (rs : list DirectedRoad.t) :
  sumRoads f (r :: rs) == f r + sumRoads f rs.
Proof. unfold sumRoads at 1. simpl. rewrite sumRoads_shift. lra. Qed.

Lemma sumRoads_ext (f h : DirectedRoad.t -> Q) (rs : list DirectedRoad.t) :
  (forall r, In r rs -> f r == h r) -> sumRoads f rs == sumRoads h rs.
Proof.
  induction rs as [| r rs IH]; intros H; [reflexivity |].
  rewrite !sumRoads_cons, IH, (H r); [reflexivity | now left |].
  intros r' Hr'. apply H. now right.
Qed.

Lemma sumRoads_le (f h : DirectedRoad.t -> Q) (rs : list DirectedRoad.t) :
  (forall r, In r rs -> f r <= h r) -> sumRoads f rs <= sumRoads h rs.
Proof.
  induction rs as [| r rs IH]; intros H; [apply Qle_refl |].
  rewrite !sumRoads_cons.
  assert (f r <= h r) by (apply H; now left).
  assert (sumRoads f rs <= sumRoads h rs)
    by (apply IH; intros r' Hr'; apply H; now right).
  lra.
Qed.

Lemma sumRoads_plus (f h : DirectedRoad.t -> Q) (rs : list DirectedRoad.t) :
  sumRoads (fun r => f r + h r) rs == sumRoads f rs + sumRoads h rs.
Proof.
  induction rs as [| r rs IH]; [reflexivity |].
  rewrite !sumRoads_cons, IH. lra.
Qed.

Lemma sumRoads_minus (f h : DirectedRoad.t -> Q) (rs : list DirectedRoad.t) :
  sumRoads (fun r => f r - h r) rs == sumRoads f rs - sumRoads h rs.
Proof.
  induction rs as [| r rs IH]; [reflexivity |].
  rewrite !sumRoads_cons, IH. lra.
Qed.

Lemma sumRoads_const (c : Q) (rs : list DirectedRoad.t) :
  sumRoads (fun _ => c) rs == inject_Z (Z.of_nat (List.length rs)) * c.
Proof.
  induction rs as [| r rs IH]; [reflexivity |].
  rewrite sumRoads_cons, IH. cbn [List.length].
  rewrite Nat2Z.inj_succ. unfold Z.succ. rewrite inject_Z_plus.
  change (inject_Z 1) with 1. ring.
Qed.

Lemma sumRoads_map (f : DirectedRoad.t -> Q)
      (h : DirectedRoad.t -> DirectedRoad.t) (rs : list DirectedRoad.t) :
  sumRoads f (map h rs) = sumRoads (fun r => f (h r)) rs.
Proof.
  unfold sumRoads. generalize 0. induction rs as [| r rs IH]; intros a; simpl;
    [reflexivity | apply IH].
Qed.

(** *** The amounts of a tick are not negative *)

Lemma throughput_fold (trs : list Transfer) (acc : Flows) :
  Forall (fun tr => 0 <= amount tr) trs ->
  throughput acc <= throughput (fold_left aggregate1 trs acc).
Proof.
  revert acc. induction trs as [| tr trs IH]; intros acc H; simpl; [lra |].
  inversion H as [| ? ? Ha Hrest]; subst.
  eapply Qle_trans; [| apply IH, Hrest].
  unfold aggregate1. destruct (tgt tr); cbn [throughput]; lra.
Qed.

Lemma tick_amounts (e : t) :
  EngineOK e -> Forall (fun tr => 0 <= amount tr) (tickTransfers e).
Proof.
  intros [_ Hcells]. apply Forall_forall. intros tr Htr.
  now destruct (collect_sound _ _ _ Hcells Htr) as (_ & H & _).
Qed.

Lemma step_throughput (g : Random) (e : t) :
  EngineOK e -> totalThroughput e <= totalThroughput (fst (step g e)).
Proof.
  intros Hok. destruct (step_fields g e) as (_ & _ & -> & _).
  unfold aggregate.
  apply (throughput_fold (tickTransfers e)
           (mkFlows (zeroFlows (roads e)) (zeroFlows (roads e))
                    (totalThroughput e))).
  now apply tick_amounts.
Qed.

(** *** What a tick moves is taken from one road and given to another
        road or to the throughput *)

Lemma sum_addFlow (k : string) (a : Q) (m : FlowMap)
      (rs : list DirectedRoad.t) :
  NoDup (map DirectedRoad.id rs) ->
  sumRoads (fun r => addFlow k a m (DirectedRoad.id r)) rs ==
  sumRoads (fun r => m (DirectedRoad.id r)) rs
  + (if in_dec string_dec k (map DirectedRoad.id rs) then a else 0).
Proof.
  induction rs as [| r rs IH]; intros Hnd.
  - unfold sumRoads; simpl. lra.
  - simpl in Hnd. inversion Hnd as [| ? ? Hnotin Hnd']; subst.
    rewrite !sumRoads_cons, (IH Hnd'). unfold addFlow at 1.
    destruct (String.eqb_spec (DirectedRoad.id r) k) as [E | E].
    + subst k.
      destruct (in_dec string_dec (DirectedRoad.id r)
                       (map DirectedRoad.id rs)) as [Hin | _];
        [contradiction |].
      destruct (in_dec string_dec (DirectedRoad.id r)
                       (map DirectedRoad.id (r :: rs))) as [_ | Hout];
        [lra | exfalso; apply Hout; now left].
    + destruct (in_dec string_dec k (map DirectedRoad.id rs)) as [Hin | Hout];
        destruct (in_dec string_dec k (map DirectedRoad.id (r :: rs)))
          as [Hin' | Hout']; try lra.
      * exfalso. apply Hout'. now right.
      * exfalso. destruct Hin' as [E' | Hin']; [now apply E | now apply Hout].
Qed.

Lemma sum_addFlow_in (k : string) (a : Q) (m : FlowMap)
      (rs : list DirectedRoad.t) :
  NoDup (map DirectedRoad.id rs) -> In k (map DirectedRoad.id rs) ->
  sumRoads (fun r => addFlow k a m (DirectedRoad.id r)) rs ==
  sumRoads (fun r => m (DirectedRoad.id r)) rs + a.
Proof.
  intros Hnd Hin. rewrite (sum_addFlow k a m rs Hnd).
  destruct (in_dec string_dec k (map DirectedRoad.id rs)); [lra | contradiction].
Qed.

(** Inflows plus throughput minus outflows, summed over the roads. *)
Let balance (rs : list DirectedRoad.t) (fl : Flows) : Q :=
  sumRoads (fun r => inflows fl (DirectedRoad.id r)) rs + throughput fl
  - sumRoads (fun r => outflows fl (DirectedRoad.id r)) rs.

Lemma aggregate1_balance (rs : list DirectedRoad.t) (acc : Flows)
      (tr : Transfer) :
  NoDup (map DirectedRoad.id rs) ->
  In (src tr) rs ->
  (forall r, tgt tr = ToRoad r -> In r rs) ->
  balance rs (aggregate1 acc tr) == balance rs acc.
Proof.
  intros Hnd Hsrc Htgt. unfold balance, aggregate1.
  destruct (tgt tr) as [r |] eqn:E; cbn [inflows outflows throughput].
  - rewrite !sum_addFlow_in; auto using in_map. lra.
  - rewrite !sum_addFlow_in; auto using in_map. lra.
Qed.

Lemma aggregate_balance (rs : list DirectedRoad.t) (trs : list Transfer)
      (acc : Flows) :
  NoDup (map DirectedRoad.id rs) ->
  Forall (fun tr => In (src tr) rs /\
                    forall r, tgt tr = ToRoad r -> In r rs) trs ->
  balance rs (fold_left aggregate1 trs acc) == balance rs acc.
Proof.
  intros Hnd. revert acc. induction trs as [| tr trs IH]; intros acc H; simpl;
    [reflexivity |].
  inversion H as [| ? ? [Hs Ht] Hrest]; subst.
  rewrite (IH _ Hrest). now apply aggregate1_balance.
Qed.

Lemma tick_balance (e : t) :
  EngineOK e ->
  let fl := aggregate (roads e) (totalThroughput e) (tickTransfers e) in
  sumRoads (fun r => inflows fl (DirectedRoad.id r)) (roads e) + throughput fl
  - sumRoads (fun r => outflows fl (DirectedRoad.id r)) (roads e)
  == totalThroughput e.
Proof.
  intros [Hw Hcells]. cbv zeta. unfold aggregate.
  pose proof (aggregate_balance (roads e) (tickTransfers e)
                (mkFlows (zeroFlows (roads e)) (zeroFlows (roads e))
                         (totalThroughput e)) (wired_ids _ _ Hw)) as H.
  unfold balance in H. rewrite H.
  - cbn [inflows outflows throughput].
    rewrite (sumRoads_ext (fun r => zeroFlows (roads e) (DirectedRoad.id r))
                          (fun _ => 0)).
    + rewrite sumRoads_const. lra.
    + intros r _. now rewrite zeroFlows_zero.
  - apply Forall_forall. intros tr Htr.
    destruct (collect_sound _ _ _ Hcells Htr) as (Hs & _ & _ & Ht).
    split; [exact Hs |]. intros r E. now destruct (Ht r E).
Qed.

(** *** Entry adds whole blocks of two *)

Lemma spawn_total (ns : Rec.t Intersection.t) (rate : Q)
      (r : DirectedRoad.t) (g : Random) :
  DirectedRoad.cells r <> [] ->
  DirectedRoad.getTotalCars (fst (spawn ns rate r g)) ==
  DirectedRoad.getTotalCars r \/
  DirectedRoad.getTotalCars (fst (spawn ns rate r g)) ==
  DirectedRoad.getTotalCars r + 2.
Proof.
  intros Hne. unfold spawn.
  destruct (Rec.get (DirectedRoad.u r) ns) as [uNode |]; [| now left].
  destruct (isEntry r uNode && Qltb (getCell (DirectedRoad.cells r) 0) 2);
    [| now left].
  unfold nextRandom.
  destruct (Qltb (g 0%nat) rate); [right | now left].
  cbn [fst]. unfold DirectedRoad.getTotalCars.
  cbn [DirectedRoad.cells DirectedRoad.withCells].
  rewrite sumCells_setCell; [lra |].
  destruct (DirectedRoad.cells r); [contradiction | simpl; lia].
Qed.

Lemma spawn_quiet (ns : Rec.t Intersection.t) (rate : Q)
      (r : DirectedRoad.t) (g : Random) :
  neverBelow rate g ->
  fst (spawn ns rate r g) = r /\ neverBelow rate (snd (spawn ns rate r g)).
Proof.
  intros Hq. unfold spawn.
  destruct (Rec.get (DirectedRoad.u r) ns) as [uNode |]; [| now split].
  destruct (isEntry r uNode && Qltb (getCell (DirectedRoad.cells r) 0) 2);
    [| now split].
  unfold nextRandom.
  destruct (Qltb (g 0%nat) rate) eqn:E.
  - apply Qltb_lt in E. specialize (Hq 0%nat). lra.
  - split; [reflexivity |]. intros i. apply Hq.
Qed.

Lemma generateInflow_quiet (ns : Rec.t Intersection.t) (rate : Q)
      (rs : list DirectedRoad.t) (g : Random) :
  neverBelow rate g ->
  fst (generateInflow ns rate rs g) = rs /\
  neverBelow rate (snd (generateInflow ns rate rs g)).
Proof.
  revert g. induction rs as [| r rs IH]; intros g Hq; simpl; [now split |].
  destruct (spawn_quiet ns rate r g Hq) as [E1 Hq1].
  destruct (spawn ns rate r g) as [r' g1]. cbn [fst snd] in *.
  destruct (IH g1 Hq1) as [E2 Hq2].
  destruct (generateInflow ns rate rs g1) as [rest' g2]. cbn [fst snd] in *.
  split; [congruence | exact Hq2].
Qed.

Lemma generateInflow_total (ns : Rec.t Intersection.t) (rate : Q)
      (rs : list DirectedRoad.t) (g : Random) :
  Forall (fun r => DirectedRoad.cells r <> []) rs ->
  exists n : nat,
    (n <= List.length rs)%nat /\
    sumRoads DirectedRoad.getTotalCars (fst (generateInflow ns rate rs g)) ==
    sumRoads DirectedRoad.getTotalCars rs + 2 * inject_Z (Z.of_nat n).
Proof.
  revert g. induction rs as [| r rs IH]; intros g H; simpl.
  - exists 0%nat. split; [lia | reflexivity].
  - inversion H as [| ? ? Hr Hrest]; subst.
    pose proof (spawn_total ns rate r g Hr) as Hs.
    destruct (spawn ns rate r g) as [r' g1]. cbn [fst] in Hs.
    destruct (IH g1 Hrest) as (n & Hn & E).
    destruct (generateInflow ns rate rs g1) as [rest' g2]. cbn [fst] in *.
    destruct Hs as [Hs | Hs].
    + exists n. split; [lia |]. rewrite !sumRoads_cons, E, Hs. lra.
    + exists (S n). split; [lia |]. rewrite !sumRoads_cons, E, Hs.
      rewrite Nat2Z.inj_succ. unfold Z.succ. rewrite inject_Z_plus.
      change (inject_Z 1) with 1. lra.
Qed.

(** *** One tick *)

Lemma physics_total (e : t) :
  EngineOK e ->
  Forall (fun r => List.length (DirectedRoad.cells r) = ROAD_LENGTH_CELLS)
         (roads e) ->
  let fl := aggregate (roads e) (totalThroughput e) (tickTransfers e) in
  sumRoads DirectedRoad.getTotalCars
    (map (fun r => DirectedRoad.stepPhysics (inflows fl (DirectedRoad.id r))
                     (outflows fl (DirectedRoad.id r)) r) (roads e))
  + throughput fl
  == sumRoads DirectedRoad.getTotalCars (roads e) + totalThroughput e.
Proof.
  intros Hok Hlen fl.
  pose proof (tick_balance e Hok) as Hb. cbv zeta in Hb. fold fl in Hb.
  rewrite sumRoads_map.
  rewrite (sumRoads_ext _
             (fun r => DirectedRoad.getTotalCars r
                       + inflows fl (DirectedRoad.id r)
                       - outflows fl (DirectedRoad.id r))).
  - rewrite sumRoads_minus, sumRoads_plus. lra.
  - intros r Hr. apply sumCells_stepPhysics.
    + rewrite Forall_forall in Hlen. specialize (Hlen r Hr).
      destruct (DirectedRoad.cells r); [discriminate | discriminate].
    + now apply tick_outflow_bound.
Qed.

Lemma step_total (g : Random) (e : t) :
  EngineOK e ->
  Forall (fun r => List.length (DirectedRoad.cells r) = ROAD_LENGTH_CELLS)
         (roads e) ->
  (exists n : nat,
      (n <= List.length (roads e))%nat /\
      carsInNetwork (fst (step g e)) + totalThroughput (fst (step g e)) ==
      carsInNetwork e + totalThroughput e + 2 * inject_Z (Z.of_nat n)) /\
  (neverBelow (inflowRate e) g ->
   carsInNetwork (fst (step g e)) + totalThroughput (fst (step g e)) ==
   carsInNetwork e + totalThroughput e).
Proof.
  intros Hok Hlen.
  pose proof (physics_total e Hok Hlen) as Hp. cbv zeta in Hp.
  destruct (step_fields g e) as (_ & Hroads & Hthr & _). cbv zeta in Hroads.
  unfold carsInNetwork, getSnapshot. cbn [snap_stats st_totalCars].
  fold (sumRoads DirectedRoad.getTotalCars (roads (fst (step g e)))).
  fold (sumRoads DirectedRoad.getTotalCars (roads e)).
  rewrite Hroads, Hthr.
  set (fl := aggregate (roads e) (totalThroughput e) (tickTransfers e)) in *.
  set (rs1 := map (fun r => DirectedRoad.stepPhysics
                              (inflows fl (DirectedRoad.id r))
                              (outflows fl (DirectedRoad.id r)) r) (roads e)) in *.
  set (ns := Rec.mapValues (Intersection.updateSignal (mode e) (roads e))
                           (intersections e)) in *.
  split.
  - destruct (generateInflow_total ns (inflowRate e) rs1 g) as (n & Hn & E).
    + subst rs1. apply Forall_map. eapply Forall_impl; [| exact Hlen].
      intros r Hr E.
      apply (f_equal (@List.length Q)) in E.
      rewrite length_stepPhysics, Hr in E. discriminate.
    + exists n. split.
      * subst rs1. now rewrite length_map in Hn.
      * rewrite E. lra.
  - intros Hq.
    destruct (generateInflow_quiet ns (inflowRate e) rs1 g Hq) as [-> _].
    exact Hp.
Qed.
End NetworkTotals.

(** ** States reached from the constructor *)

Section Reachable.
Import PHYSICS SimulationEngine.

Lemma run_step_count (k : nat) (g : Random) (e : t) :
  stepCount (fst (run k g e)) = (stepCount e + Z.of_nat k)%Z.
Proof.
  revert g e. induction k as [| k IH]; intros g e.
  - simpl. lia.
  - cbn [run]. destruct (step_fields g e) as (_ & _ & _ & Hc & _).
    destruct (step g e) as [e' g']. cbn [fst] in Hc. rewrite IH, Hc. lia.
Qed.

Lemma new_reachable (rws cls : Z) (rate : Q) (m : ControlMode) :
  exists e0,
    new rws cls rate m = Some e0 /\
    totalThroughput e0 = 0 /\ stepCount e0 = 0%Z /\ inflowRate e0 = rate /\
    mode e0 = m /\
    Forall (fun r => DirectedRoad.cells r = repeat 0 ROAD_LENGTH_CELLS)
           (roads e0) /\
    forall (k : nat) (g : Random),
      EngineOK (fst (run k g e0)) /\
      Forall (fun r => List.length (DirectedRoad.cells r) = ROAD_LENGTH_CELLS)
             (roads (fst (run k g e0))).
Proof.
  destruct (new_ok rws cls rate m)
    as (e0 & Hnew & Hok & Hgrid & Hthr & Hcount & Hmode & _ & _ & Hrate).
  exists e0. repeat (split; [assumption |]).
  split; [exact (grid_cells _ _ _ Hgrid) |].
  intros k g. split; [now apply run_ok |].
  apply run_lengths.
  eapply Forall_impl; [| apply (grid_cells _ _ _ Hgrid)].
  cbn [fst]. intros r ->. apply repeat_length.
Qed.

Lemma spawn_frame (ns : Rec.t Intersection.t) (rate : Q)
      (r : DirectedRoad.t) (g : Random) :
  roadFrame (fst (spawn ns rate r g)) = roadFrame r.
Proof.
  unfold spawn.
  destruct (Rec.get (DirectedRoad.u r) ns) as [uNode |]; [| reflexivity].
  destruct (isEntry r uNode && Qltb (getCell (DirectedRoad.cells r) 0) 2);
    [| reflexivity].
  unfold nextRandom. destruct (Qltb (g 0%nat) rate); reflexivity.
Qed.

Lemma generateInflow_frame (ns : Rec.t Intersection.t) (rate : Q)
      (rs : list DirectedRoad.t) (g : Random) :
  map roadFrame (fst (generateInflow ns rate rs g)) = map roadFrame rs.
Proof.
  revert g. induction rs as [| r rs IH]; intros g; [reflexivity |].
  cbn [generateInflow].
  pose proof (spawn_frame ns rate r g) as E.
  destruct (spawn ns rate r g) as [r' g1]. cbn [fst] in E.
  specialize (IH g1).
  destruct (generateInflow ns rate rs g1) as [rest' g2]. cbn [fst map] in *.
  now rewrite E, IH.
Qed.

Lemma updateSignal_place (m : ControlMode) (rs : list DirectedRoad.t)
      (n : Intersection.t) :
  Intersection.row (Intersection.updateSignal m rs n) = Intersection.row n /\
  Intersection.col (Intersection.updateSignal m rs n) = Intersection.col n.
Proof.
  unfold Intersection.updateSignal.
  destruct m;
    repeat match goal with
           | |- context [if ?b then _ else _] => destruct b
           | |- context [let (_, _) := ?p in _] => destruct p
           end; split; reflexivity.
Qed.

Lemma step_frame (g : Random) (e : t) :
  map roadFrame (roads (fst (step g e))) = map roadFrame (roads e) /\
  map nodeFrame (intersections (fst (step g e))) =
  map nodeFrame (intersections e).
Proof.
  destruct (step_fields g e) as (-> & -> & _). split.
  - rewrite generateInflow_frame, map_map. apply map_ext. reflexivity.
  - unfold Rec.mapValues. rewrite map_map. apply map_ext.
    intros [k n]. unfold nodeFrame. cbn [fst snd].
    destruct (updateSignal_slots (mode e) (roads e) n) as (-> & -> & ->).
    destruct (updateSignal_place (mode e) (roads e) n) as (-> & ->).
    reflexivity.
Qed.

Lemma run_frame (k : nat) (g : Random) (e : t) :
  map roadFrame (roads (fst (run k g e))) = map roadFrame (roads e) /\
  map nodeFrame (intersections (fst (run k g e))) =
  map nodeFrame (intersections e) /\
  mode (fst (run k g e)) = mode e /\
  rows (fst (run k g e)) = rows e /\ cols (fst (run k g e)) = cols e /\
  inflowRate (fst (run k g e)) = inflowRate e.
Proof.
  revert g e. induction k as [| k IH]; intros g e; [now repeat split |].
  cbn [run]. destruct (step_frame g e) as [Hr Hn].
  destruct (step_fields g e) as (_ & _ & _ & _ & Hm & Hrows & Hcols & Hrate).
  destruct (step g e) as [e' g']. cbn [fst] in *.
  destruct (IH g' e') as (-> & -> & -> & -> & -> & ->).
  now repeat split.
Qed.

Lemma run_quiet (k : nat) (g : Random) (e : t) :
  neverBelow (inflowRate e) g ->
  neverBelow (inflowRate e) (snd (run k g e)).
Proof.
  revert g e. induction k as [| k IH]; intros g e Hq; [exact Hq |].
  cbn [run].
  assert (H1 : neverBelow (inflowRate e) (snd (step g e))).
  { unfold step.
    destruct (generateInflow_quiet
                (Rec.mapValues (Intersection.updateSignal (mode e) (roads e))
                               (intersections e))
                (inflowRate e)
                (map (fun r => DirectedRoad.stepPhysics
                        (inflows (aggregate (roads e) (totalThroughput e)
                           (collectTransfers (roads e)
                              (Rec.mapValues
                                 (Intersection.updateSignal (mode e) (roads e))
                                 (intersections e)))) (DirectedRoad.id r))
                        (outflows (aggregate (roads e) (totalThroughput e)
                           (collectTransfers (roads e)
                              (Rec.mapValues
                                 (Intersection.updateSignal (mode e) (roads e))
                                 (intersections e)))) (DirectedRoad.id r)) r)
                     (roads e)) g Hq) as [_ H].
    destruct (generateInflow _ _ _ g) as [rs2 g']. exact H. }
  destruct (step_fields g e) as (_ & _ & _ & _ & _ & _ & _ & Hrate).
  destruct (step g e) as [e' g']. cbn [fst snd] in *.
  rewrite <- Hrate. apply IH. now rewrite Hrate.
Qed.

Lemma run_total_quiet (k : nat) (g : Random) (e : t) :
  (forall j g', EngineOK (fst (run j g' e)) /\
                Forall (fun r => List.length (DirectedRoad.cells r)
                                 = ROAD_LENGTH_CELLS)
                       (roads (fst (run j g' e)))) ->
  neverBelow (inflowRate e) g ->
  carsInNetwork (fst (run k g e)) + totalThroughput (fst (run k g e)) ==
  carsInNetwork e + totalThroughput e.
Proof.
  intros Hreach Hq. induction k as [| k IH]; [reflexivity |].
  rewrite run_last. destruct (Hreach k g) as [Hok Hlen].
  destruct (step_total (snd (run k g e)) (fst (run k g e)) Hok Hlen)
    as [_ Hstep].
  rewrite Hstep, IH; [reflexivity |].
  destruct (run_frame k g e) as (_ & _ & _ & _ & _ & ->).
  now apply run_quiet.
Qed.

Lemma run_throughput_nonneg (k : nat) (g : Random) (e : t) :
  (forall j g', EngineOK (fst (run j g' e))) ->
  0 <= totalThroughput e -> 0 <= totalThroughput (fst (run k g e)).
Proof.
  intros Hreach H0. induction k as [| k IH]; [exact H0 |].
  rewrite run_last.
  eapply Qle_trans; [exact IH | apply step_throughput, Hreach].
Qed.

Lemma sumRoads_sumCells (f : DirectedRoad.t -> Q) (rs : list DirectedRoad.t) :
  sumRoads f rs == sumCells (map f rs).
Proof.
  induction rs as [| r rs IH]; [reflexivity |].
  cbn [map]. now rewrite sumRoads_cons, sumCells_cons, IH.
Qed.

Lemma sumCells_nonneg (cs : list Q) :
  Forall (fun c => 0 <= c) cs -> 0 <= sumCells cs.
Proof.
  induction 1 as [| c cs Hc _ IH]; [apply Qle_refl |].
  rewrite sumCells_cons. lra.
Qed.

Lemma sumCells_zero (cs : list Q) :
  Forall (fun c => 0 <= c) cs -> sumCells cs == 0 ->
  Forall (fun c => c == 0) cs.
Proof.
  induction 1 as [| c cs Hc Hrest IH]; intros E; [constructor |].
  rewrite sumCells_cons in E. pose proof (sumCells_nonneg cs Hrest).
  constructor; [lra | apply IH; lra].
Qed.

Lemma road_total_nonneg (r : DirectedRoad.t) :
  cellsWithin 0 MAX_CARS_PER_CELL (DirectedRoad.cells r) ->
  0 <= DirectedRoad.getTotalCars r.
Proof.
  intros H. apply sumCells_nonneg. eapply Forall_impl; [| exact H].
  intros c [Hc _]. exact Hc.
Qed.

Lemma cars_nonneg (e : t) : EngineOK e -> 0 <= carsInNetwork e.
Proof.
  intros [_ Hcells]. unfold carsInNetwork, getSnapshot.
  cbn [snap_stats st_totalCars].
  fold (sumRoads DirectedRoad.getTotalCars (roads e)).
  rewrite sumRoads_sumCells. apply sumCells_nonneg, Forall_map.
  eapply Forall_impl; [| exact Hcells]. intros r. apply road_total_nonneg.
Qed.

Lemma cars_zero (e : t) :
  EngineOK e -> carsInNetwork e == 0 ->
  Forall (fun r => Forall (fun c => c == 0) (DirectedRoad.cells r)) (roads e).
Proof.
  intros [_ Hcells]. unfold carsInNetwork, getSnapshot.
  cbn [snap_stats st_totalCars].
  fold (sumRoads DirectedRoad.getTotalCars (roads e)).
  rewrite sumRoads_sumCells. intros E.
  apply sumCells_zero in E.
  - rewrite Forall_map in E. rewrite Forall_forall in *.
    intros r Hr. apply sumCells_zero; [| exact (E r Hr)].
    eapply Forall_impl; [| exact (Hcells r Hr)]. intros c [Hc _]. exact Hc.
  - apply Forall_map. eapply Forall_impl; [| exact Hcells].
    intros r. apply road_total_nonneg.
Qed.

Lemma cars_fresh (rs : list DirectedRoad.t) :
  Forall (fun r => DirectedRoad.cells r = repeat 0 ROAD_LENGTH_CELLS) rs ->
  sumRoads DirectedRoad.getTotalCars rs == 0.
Proof.
  intros H. rewrite (sumRoads_ext _ (fun _ => 0)).
  - rewrite sumRoads_const. lra.
  - rewrite Forall_forall in H. intros r Hr.
    unfold DirectedRoad.getTotalCars. rewrite (H r Hr). reflexivity.
Qed.

Lemma snapshot_bounds (e : t) :
  EngineOK e ->
  0 <= st_stoppedCars (snap_stats (getSnapshot e)) /\
  st_stoppedCars (snap_stats (getSnapshot e)) <=
  st_totalCars (snap_stats (getSnapshot e)).
Proof.
  intros [_ Hcells]. unfold getSnapshot.
  cbn [snap_stats st_totalCars st_stoppedCars].
  fold (sumRoads DirectedRoad.getTotalCars (roads e)).
  fold (sumRoads DirectedRoad.getStoppedQueue (roads e)).
  rewrite Forall_forall in Hcells. split.
  - rewrite sumRoads_sumCells. apply sumCells_nonneg, Forall_map, Forall_forall.
    intros r Hr. now destruct (road_measures r (Hcells r Hr)) as (_ & _ & H & _).
  - apply sumRoads_le. intros r Hr.
    now destruct (road_measures r (Hcells r Hr)) as (_ & _ & _ & H & _).
Qed.

Lemma snapshot_capacity (e : t) :
  EngineOK e ->
  Forall (fun r => List.length (DirectedRoad.cells r) = ROAD_LENGTH_CELLS)
         (roads e) ->
  st_totalCars (snap_stats (getSnapshot e)) <=
  inject_Z (Z.of_nat (List.length (roads e)))
  * (inject_Z (Z.of_nat ROAD_LENGTH_CELLS) * MAX_CARS_PER_CELL).
Proof.
  intros [_ Hcells] Hlen. unfold getSnapshot. cbn [snap_stats st_totalCars].
  fold (sumRoads DirectedRoad.getTotalCars (roads e)).
  rewrite <- sumRoads_const. apply sumRoads_le.
  rewrite Forall_forall in Hcells, Hlen. intros r Hr.
  destruct (road_measures r (Hcells r Hr)) as (_ & _ & _ & _ & H).
  now rewrite (Hlen r Hr) in H.
Qed.

Lemma snapshot_roads (e : t) :
  Forall (fun r => cellsWithin 0 MAX_CARS_PER_CELL (DirectedRoad.cells r))
         (roads e) ->
  Forall (fun r => List.length (DirectedRoad.cells r) = ROAD_LENGTH_CELLS)
         (roads e) ->
  Forall (fun rd =>
            List.length (rd_cells rd) = ROAD_LENGTH_CELLS /\
            0 <= rd_stoppedQueue rd /\
            rd_stoppedQueue rd <= rd_totalCars rd /\
            rd_totalCars rd <=
            inject_Z (Z.of_nat ROAD_LENGTH_CELLS) * MAX_CARS_PER_CELL)
         (snap_roads (getSnapshot e)).
Proof.
  intros Hcells Hlen. unfold getSnapshot. cbn [snap_roads].
  apply Forall_map. rewrite Forall_forall in *. intros r Hr.
  unfold roadSnapshot. cbn [rd_cells rd_stoppedQueue rd_totalCars].
  destruct (road_measures r (Hcells r Hr)) as (_ & _ & H0 & H1 & H2).
  rewrite (Hlen r Hr) in H2. repeat split; auto.
Qed.
End Reachable.


(** X4.  On any grid, in either mode, with any draws, the throughput
    counter is never negative and never decreases from one tick to the
    next. *)
Theorem X4_throughput_never_decreases (rws cls : Z) (rate : Q)
        (m : ControlMode) :
  exists e0,
    SimulationEngine.new rws cls rate m = Some e0 /\
    forall (k : nat) (g : Random),
      0 <= SimulationEngine.totalThroughput (fst (SimulationEngine.run k g e0)) /\
      SimulationEngine.totalThroughput (fst (SimulationEngine.run k g e0)) <=
      SimulationEngine.totalThroughput
        (fst (SimulationEngine.run (S k) g e0)).
Proof.
  destruct (new_reachable rws cls rate m)
    as (e0 & Hnew & Hthr & _ & _ & _ & _ & Hreach).
  exists e0. split; [exact Hnew |]. intros k g. split.
  - apply run_throughput_nonneg; [intros j g'; apply Hreach |].
    rewrite Hthr. apply Qle_refl.
  - rewrite run_last. apply step_throughput, Hreach.
Qed.

(** X5.  The snapshot taken after [k] ticks reports step [k]; its
    stopped total is at least 0 and at most its vehicle total, which is
    at most the capacity of all roads; its throughput is not negative;
    it lists the roads and the intersections of the constructed grid in
    their order, and each listed road has [ROAD_LENGTH_CELLS] cells, a
    queue between 0 and its load, and a load within its capacity. *)
Theorem X5_snapshot_statistics (rws cls : Z) (rate : Q) (m : ControlMode) :
  exists e0,
    SimulationEngine.new rws cls rate m = Some e0 /\
    forall (k : nat) (g : Random),
      let s := SimulationEngine.getSnapshot
                 (fst (SimulationEngine.run k g e0)) in
      st_step (snap_stats s) = Z.of_nat k /\
      0 <= st_stoppedCars (snap_stats s) /\
      st_stoppedCars (snap_stats s) <= st_totalCars (snap_stats s) /\
      st_totalCars (snap_stats s) <=
      inject_Z (Z.of_nat (List.length (snap_roads s)))
      * (inject_Z (Z.of_nat PHYSICS.ROAD_LENGTH_CELLS)
         * PHYSICS.MAX_CARS_PER_CELL) /\
      0 <= st_throughput (snap_stats s) /\
      map rd_id (snap_roads s) =
      map DirectedRoad.id (SimulationEngine.roads e0) /\
      map nd_id (snap_intersections s) =
      map Intersection.id (Rec.values (SimulationEngine.intersections e0)) /\
      Forall (fun rd =>
                List.length (rd_cells rd) = PHYSICS.ROAD_LENGTH_CELLS /\
                0 <= rd_stoppedQueue rd /\
                rd_stoppedQueue rd <= rd_totalCars rd /\
                rd_totalCars rd <=
                inject_Z (Z.of_nat PHYSICS.ROAD_LENGTH_CELLS)
                * PHYSICS.MAX_CARS_PER_CELL)
             (snap_roads s).
Proof.
  destruct (new_reachable rws cls rate m)
    as (e0 & Hnew & Hthr & Hcount & _ & _ & _ & Hreach).
  exists e0. split; [exact Hnew |]. intros k g s.
  destruct (Hreach k g) as [Hok Hlen].
  destruct (snapshot_bounds _ Hok) as [Hs0 Hs1].
  destruct (run_frame k g e0) as (Hroads & Hnodes & _).
  split; [| split; [exact Hs0 | split; [exact Hs1 | split; [| split; [| split; [| split]]]]]].
  - subst s. unfold SimulationEngine.getSnapshot. cbn [snap_stats st_step].
    rewrite run_step_count, Hcount. lia.
  - subst s. unfold SimulationEngine.getSnapshot at 2. cbn [snap_roads].
    rewrite length_map. now apply snapshot_capacity.
  - subst s. unfold SimulationEngine.getSnapshot.
    cbn [snap_stats st_throughput].
    apply run_throughput_nonneg; [intros j g'; apply Hreach |].
    rewrite Hthr. apply Qle_refl.
  - subst s. unfold SimulationEngine.getSnapshot. cbn [snap_roads].
    rewrite map_map. cbn [SimulationEngine.roadSnapshot rd_id].
    apply (f_equal (map (fun f => fst (fst (fst f))))) in Hroads.
    rewrite !map_map in Hroads. exact Hroads.
  - subst s. unfold SimulationEngine.getSnapshot. cbn [snap_intersections].
    unfold Rec.values. rewrite !map_map.
    cbn [SimulationEngine.nodeSnapshot nd_id].
    apply (f_equal (map (fun f => snd (fst (fst (fst (fst f))))))) in Hnodes.
    rewrite !map_map in Hnodes. exact Hnodes.
  - apply snapshot_roads; [apply Hok | exact Hlen].
Qed.

(** ** The entry loop adds whole blocks, and nothing else changes the
       number of vehicles *)

Section EntryBlocks.
Import PHYSICS SimulationEngine.

Lemma spawn_effect (ns : Rec.t Intersection.t) (rate : Q)
      (r : DirectedRoad.t) (g : Random) :
  entryOf ns r (fst (spawn ns rate r g)).
Proof.
  unfold spawn, entryOf.
  destruct (Rec.get (DirectedRoad.u r) ns) as [uNode |]; [| now left].
  destruct (isEntry r uNode) eqn:Ee; cbn [andb]; [| now left].
  destruct (Qltb (getCell (DirectedRoad.cells r) 0) 2) eqn:Ec; [| now left].
  unfold nextRandom. destruct (Qltb (g 0%nat) rate); [right | now left].
  apply Qltb_lt in Ec. cbn [fst].
  split; [exists uNode; split; [reflexivity | exact Ee] | split; [exact Ec | reflexivity]].
Qed.

Lemma generateInflow_effect (ns : Rec.t Intersection.t) (rate : Q)
      (rs : list DirectedRoad.t) (g : Random) :
  Forall2 (entryOf ns) rs (fst (generateInflow ns rate rs g)).
Proof.
  revert g. induction rs as [| r rs IH]; intros g; [constructor |].
  cbn [generateInflow].
  pose proof (spawn_effect ns rate r g) as H.
  destruct (spawn ns rate r g) as [r' g1]. cbn [fst] in H.
  specialize (IH g1).
  destruct (generateInflow ns rate rs g1) as [rest' g2]. cbn [fst] in *.
  now constructor.
Qed.

Lemma entry_total (ns : Rec.t Intersection.t) (r1 r2 : DirectedRoad.t) :
  DirectedRoad.cells r1 <> [] -> entryOf ns r1 r2 ->
  DirectedRoad.getTotalCars r2 ==
  DirectedRoad.getTotalCars r1 + (if raised r1 r2 then 2 else 0).
Proof.
  intros Hne [-> | (_ & Hc & ->)]; unfold raised.
  - destruct (Qltb _ _) eqn:E; [apply Qltb_lt in E; lra | lra].
  - cbn [DirectedRoad.cells DirectedRoad.withCells].
    assert (Hlen : (0 < List.length (DirectedRoad.cells r1))%nat)
      by (destruct (DirectedRoad.cells r1); [contradiction | simpl; lia]).
    rewrite getCell_setCell_same by exact Hlen.
    destruct (Qltb _ _) eqn:E; [| apply Qltb_ge in E; lra].
    unfold DirectedRoad.getTotalCars.
    cbn [DirectedRoad.cells DirectedRoad.withCells].
    rewrite sumCells_setCell by exact Hlen. lra.
Qed.

Lemma entry_totals (ns : Rec.t Intersection.t)
      (rs rs' : list DirectedRoad.t) :
  Forall (fun r => DirectedRoad.cells r <> []) rs ->
  Forall2 (entryOf ns) rs rs' ->
  sumRoads DirectedRoad.getTotalCars rs' ==
  sumRoads DirectedRoad.getTotalCars rs
  + 2 * inject_Z (Z.of_nat
                    (List.length (filter (fun p => raised (fst p) (snd p))
                                         (combine rs rs')))) /\
  (List.length (filter (fun p => raised (fst p) (snd p)) (combine rs rs'))
   <= List.length rs)%nat.
Proof.
  intros Hne H. induction H as [| r1 r2 rs rs' H12 _ IH].
  - split; [reflexivity | simpl; lia].
  - inversion Hne as [| ? ? Hr Hrest]; subst.
    destruct (IH Hrest) as [E Hle].
    pose proof (entry_total ns r1 r2 Hr H12) as E1.
    cbn [combine filter fst snd]. rewrite !sumRoads_cons, E, E1.
    destruct (raised r1 r2); cbn [List.length]; split; try lia.
    + rewrite Nat2Z.inj_succ. unfold Z.succ. rewrite inject_Z_plus.
      change (inject_Z 1) with 1. lra.
    + lra.
Qed.

Lemma tick_account (g : Random) (e : t) :
  EngineOK e ->
  Forall (fun r => List.length (DirectedRoad.cells r) = ROAD_LENGTH_CELLS)
         (roads e) ->
  let e' := fst (step g e) in
  sumRoads DirectedRoad.getTotalCars (afterPhysics e) + totalThroughput e' ==
  carsInNetwork e + totalThroughput e /\
  Forall2 (entryOf (intersections e')) (afterPhysics e) (roads e') /\
  carsInNetwork e' + totalThroughput e' ==
  carsInNetwork e + totalThroughput e
  + 2 * inject_Z (Z.of_nat (blocksSpawned e g)) /\
  (blocksSpawned e g <= List.length (roads e))%nat.
Proof.
  intros Hok Hlen e'.
  pose proof (physics_total e Hok Hlen) as Hp. cbv zeta in Hp.
  destruct (step_fields g e) as (Hns & Hroads & Hthr & _). cbv zeta in Hroads.
  fold e' in Hns, Hroads, Hthr.
  assert (Hcars : forall x, carsInNetwork x
                            = sumRoads DirectedRoad.getTotalCars (roads x))
    by reflexivity.
  assert (Hne : Forall (fun r => DirectedRoad.cells r <> []) (afterPhysics e)).
  { unfold afterPhysics. cbv zeta. apply Forall_map.
    eapply Forall_impl; [| exact Hlen]. intros r Hr E.
    apply (f_equal (@List.length Q)) in E.
    rewrite length_stepPhysics, Hr in E. discriminate. }
  assert (Heff : Forall2 (entryOf (intersections e')) (afterPhysics e) (roads e')).
  { rewrite Hns, Hroads. apply generateInflow_effect. }
  destruct (entry_totals _ _ _ Hne Heff) as [E Hle].
  unfold blocksSpawned. fold e'.
  assert (H1 : sumRoads DirectedRoad.getTotalCars (afterPhysics e)
               + totalThroughput e' ==
               carsInNetwork e + totalThroughput e).
  { rewrite Hthr, Hcars. exact Hp. }
  split; [exact H1 | split; [exact Heff | split]].
  - rewrite (Hcars e'), E. lra.
  - unfold afterPhysics in Hle. cbv zeta in Hle.
    now rewrite length_map in Hle.
Qed.
End EntryBlocks.

(** X6.  In every tick of every reachable state: routing and the cell
    update neither create nor lose vehicles (the vehicles on the roads
    after the cell update, plus the throughput, are the vehicles before
    the tick plus the throughput before it); the entry loop leaves each
    road as it is or adds one block of two to the first cell of an entry
    road that holds less than two there; so the vehicles on the roads
    plus the throughput grow by exactly two for each road whose first
    cell the entry loop raised, and by nothing else.  When no draw is
    below the entry rate the sum is unchanged. *)
Theorem X6_network_conservation (rws cls : Z) (rate : Q) (m : ControlMode) :
  exists e0,
    SimulationEngine.new rws cls rate m = Some e0 /\
    forall (k : nat) (g0 g : Random),
      let e := fst (SimulationEngine.run k g0 e0) in
      let e' := fst (SimulationEngine.step g e) in
      sumRoads DirectedRoad.getTotalCars (afterPhysics e)
      + SimulationEngine.totalThroughput e' ==
      carsInNetwork e + SimulationEngine.totalThroughput e /\
      Forall2 (entryOf (SimulationEngine.intersections e'))
              (afterPhysics e) (SimulationEngine.roads e') /\
      carsInNetwork e' + SimulationEngine.totalThroughput e' ==
      carsInNetwork e + SimulationEngine.totalThroughput e
      + 2 * inject_Z (Z.of_nat (blocksSpawned e g)) /\
      (blocksSpawned e g <= List.length (SimulationEngine.roads e))%nat /\
      (neverBelow rate g ->
       carsInNetwork e' + SimulationEngine.totalThroughput e' ==
       carsInNetwork e + SimulationEngine.totalThroughput e).
Proof.
  destruct (new_reachable rws cls rate m)
    as (e0 & Hnew & _ & _ & Hrate & _ & _ & Hreach).
  exists e0. split; [exact Hnew |]. intros k g0 g e e'.
  destruct (Hreach k g0) as [Hok Hlen].
  destruct (tick_account g e Hok Hlen) as (H1 & H2 & H3 & H4).
  destruct (step_total g e Hok Hlen) as [_ Hq].
  repeat (split; [assumption |]). intros Hnever. apply Hq.
  subst e. destruct (run_frame k g0 e0) as (_ & _ & _ & _ & _ & ->).
  now rewrite Hrate.
Qed.

Lemma X6_witness :
  neverBelow 0 alwaysSpawn /\
  exists e0,
    SimulationEngine.new 2 2 0 SMART = Some e0 /\
    carsInNetwork (fst (SimulationEngine.step alwaysSpawn
                          (fst (SimulationEngine.run 3 alwaysSpawn e0))))
    + SimulationEngine.totalThroughput
        (fst (SimulationEngine.step alwaysSpawn
                (fst (SimulationEngine.run 3 alwaysSpawn e0)))) ==
    carsInNetwork (fst (SimulationEngine.run 3 alwaysSpawn e0))
    + SimulationEngine.totalThroughput
        (fst (SimulationEngine.run 3 alwaysSpawn e0)).
Proof.
  assert (H : neverBelow 0 alwaysSpawn) by (intros i; apply Qle_refl).
  split; [exact H |].
  destruct (X6_network_conservation 2 2 0 SMART) as (e0 & Hnew & Hall).
  exists e0. split; [exact Hnew |].
  destruct (Hall 3%nat alwaysSpawn alwaysSpawn) as (_ & _ & _ & _ & Hq).
  exact (Hq H).
Defined.

(** X7.  When no draw is below the entry rate (an entry rate of 0, for
    one), the grid stays empty for ever: after any number of ticks every
    cell of every road is 0 and the throughput is 0. *)
Theorem X7_no_entry_no_traffic (rws cls : Z) (rate : Q) (m : ControlMode)
        (g : Random) :
  neverBelow rate g ->
  exists e0,
    SimulationEngine.new rws cls rate m = Some e0 /\
    forall k : nat,
      Forall (fun r => Forall (fun c => c == 0) (DirectedRoad.cells r))
             (SimulationEngine.roads (fst (SimulationEngine.run k g e0))) /\
      SimulationEngine.totalThroughput (fst (SimulationEngine.run k g e0)) == 0.
Proof.
  intros Hq.
  destruct (new_reachable rws cls rate m)
    as (e0 & Hnew & Hthr & _ & Hrate & _ & Hfresh & Hreach).
  exists e0. split; [exact Hnew |]. intros k.
  assert (Hsum : carsInNetwork (fst (SimulationEngine.run k g e0))
                 + SimulationEngine.totalThroughput
                     (fst (SimulationEngine.run k g e0)) == 0).
  { rewrite (run_total_quiet k g e0 Hreach); [| now rewrite Hrate].
    rewrite Hthr. unfold carsInNetwork, SimulationEngine.getSnapshot.
    cbn [snap_stats st_totalCars].
    fold (sumRoads DirectedRoad.getTotalCars (SimulationEngine.roads e0)).
    rewrite (cars_fresh _ Hfresh). reflexivity. }
  destruct (Hreach k g) as [Hok _].
  pose proof (cars_nonneg _ Hok) as Hc.
  assert (Ht : 0 <= SimulationEngine.totalThroughput
                      (fst (SimulationEngine.run k g e0))).
  { apply run_throughput_nonneg; [intros j g'; apply Hreach |].
    rewrite Hthr. apply Qle_refl. }
  split; [apply cars_zero; [exact Hok | lra] | lra].
Qed.

Lemma X7_witness :
  neverBelow 0 alwaysSpawn /\
  exists e0,
    SimulationEngine.new 2 2 0 FIXED = Some e0 /\
    SimulationEngine.totalThroughput
      (fst (SimulationEngine.run 7 alwaysSpawn e0)) == 0.
Proof.
  assert (H : neverBelow 0 alwaysSpawn) by (intros i; apply Qle_refl).
  split; [exact H |].
  destruct (X7_no_entry_no_traffic 2 2 0 FIXED alwaysSpawn H)
    as (e0 & Hnew & Hall).
  exists e0. split; [exact Hnew | exact (proj2 (Hall 7%nat))].
Defined.

(** X8.  [step] never rewires the grid: after any number of ticks from
    any state, the roads are the same in number and order with the same
    identifier, ends and boundary flag, the intersections are stored
    under the same keys in the same order with the same identifier, row,
    column and road slots, and mode, size and entry rate are unchanged;
    the tick count has advanced by the number of ticks. *)
Theorem X8_step_keeps_the_grid (k : nat) (g : Random)
        (e : SimulationEngine.t) :
  let e' := fst (SimulationEngine.run k g e) in
  map roadFrame (SimulationEngine.roads e') =
  map roadFrame (SimulationEngine.roads e) /\
  map nodeFrame (SimulationEngine.intersections e') =
  map nodeFrame (SimulationEngine.intersections e) /\
  SimulationEngine.mode e' = SimulationEngine.mode e /\
  SimulationEngine.rows e' = SimulationEngine.rows e /\
  SimulationEngine.cols e' = SimulationEngine.cols e /\
  SimulationEngine.inflowRate e' = SimulationEngine.inflowRate e /\
  SimulationEngine.stepCount e' =
  (SimulationEngine.stepCount e + Z.of_nat k)%Z.
Proof.
  intros e'. subst e'.
  destruct (run_frame k g e) as (H1 & H2 & H3 & H4 & H5 & H6).
  repeat (split; [assumption |]). apply run_step_count.
Qed.


(** ** Movement along a road *)

Section Movement.
Import PHYSICS DirectedRoad CTM.

Lemma stepPhysics_cell (flowIn flowOut : Q) (r : t) (j : nat) :
  (j < List.length (cells r))%nat ->
  getCell (cells (stepPhysics flowIn flowOut r)) j ==
  simultaneousCell (applyBoundary flowIn flowOut (cells r)) j.
Proof.
  intros Hj. unfold stepPhysics. cbn [cells withCells].
  apply ctmLoop_cell.
  - apply ctmOrder_perm.
  - now rewrite length_applyBoundary.
Qed.

Lemma flux_free (frozen : list Q) (i : nat) :
  freeFlow frozen -> (i + 1 < List.length frozen)%nat ->
  referenceFlux frozen i == getCell frozen i.
Proof.
  intros Hfree Hi. specialize (Hfree i Hi). unfold referenceFlux.
  unfold MAX_CARS_PER_CELL in *. split_minmax; lra.
Qed.

Lemma flux_bounds (frozen : list Q) (i : nat) :
  cellsWithin 0 MAX_CARS_PER_CELL frozen ->
  (i + 1 < List.length frozen)%nat ->
  0 <= referenceFlux frozen i /\ referenceFlux frozen i <= getCell frozen i /\
  referenceFlux frozen i <= MAX_CARS_PER_CELL - getCell frozen (i + 1).
Proof.
  intros Hw Hi.
  destruct (cellsWithin_getCell _ _ _ i Hw ltac:(lia)) as [H0 H1].
  destruct (cellsWithin_getCell _ _ _ (i + 1) Hw Hi) as [H2 H3].
  unfold referenceFlux. unfold MAX_CARS_PER_CELL in *. split_minmax; repeat split; lra.
Qed.

Lemma free_flow_cells (frozen : list Q) (j : nat) :
  freeFlow frozen -> (2 <= List.length frozen)%nat ->
  (j < List.length frozen)%nat ->
  simultaneousCell frozen j ==
  (if (j =? List.length frozen - 1)%nat then getCell frozen j else 0)
  + (if (1 <=? j)%nat then getCell frozen (j - 1) else 0).
Proof.
  intros Hfree Hn Hj. unfold simultaneousCell.
  destruct (Nat.ltb_spec (j + 1) (List.length frozen)) as [H1 | H1];
    destruct (Nat.eqb_spec j (List.length frozen - 1)) as [H2 | H2];
    try lia;
    destruct (Nat.leb_spec 1 j) as [H3 | H3];
    rewrite ?flux_free by (auto; lia); lra.
Qed.

Lemma carsFrom_step (cs : list Q) (j : nat) :
  (j < List.length cs)%nat ->
  carsFrom j cs == getCell cs j + carsFrom (S j) cs.
Proof.
  unfold carsFrom, getCell. revert j.
  induction cs as [| c cs IH]; intros j Hj; [simpl in Hj; lia |].
  destruct j as [| j].
  - cbn [skipn nth]. apply sumCells_cons.
  - cbn [skipn nth]. apply IH. simpl in Hj. lia.
Qed.

Lemma carsFrom_end (cs : list Q) (j : nat) :
  (List.length cs <= j)%nat -> carsFrom j cs == 0.
Proof.
  intros Hj. unfold carsFrom. rewrite skipn_all2 by exact Hj. reflexivity.
Qed.

(** The vehicles from cell [j] on, after the loop: those that were
    there, and the flux that crossed into cell [j]. *)
Lemma carsFrom_ctm (flowIn flowOut : Q) (r : t) (d : nat) :
  let frozen := applyBoundary flowIn flowOut (cells r) in
  let n := List.length (cells r) in
  (d < n)%nat ->
  carsFrom (n - 1 - d) (cells (stepPhysics flowIn flowOut r)) ==
  carsFrom (n - 1 - d) frozen
  + (if (1 <=? n - 1 - d)%nat then referenceFlux frozen (n - 1 - d - 1) else 0).
Proof.
  intros frozen n. induction d as [| d IH]; intros Hd.
  - replace (n - 1 - 0)%nat with (n - 1)%nat by lia.
    rewrite (carsFrom_step (cells (stepPhysics flowIn flowOut r)))
      by (rewrite length_stepPhysics; fold n; lia).
    rewrite (carsFrom_step frozen)
      by (unfold frozen; rewrite length_applyBoundary; fold n; lia).
    rewrite (carsFrom_end (cells (stepPhysics flowIn flowOut r)))
      by (rewrite length_stepPhysics; fold n; lia).
    rewrite (carsFrom_end frozen)
      by (unfold frozen; rewrite length_applyBoundary; fold n; lia).
    rewrite stepPhysics_cell by (fold n; lia). fold frozen.
    unfold simultaneousCell.
    destruct (Nat.ltb_spec (n - 1 + 1) (List.length frozen)) as [H | H].
    + unfold frozen in H. rewrite length_applyBoundary in H. fold n in H. lia.
    + lra.
  - specialize (IH ltac:(lia)).
    replace (n - 1 - d)%nat with (S (n - 1 - S d))%nat in IH by lia.
    rewrite (carsFrom_step (cells (stepPhysics flowIn flowOut r)))
      by (rewrite length_stepPhysics; fold n; lia).
    rewrite (carsFrom_step frozen)
      by (unfold frozen; rewrite length_applyBoundary; fold n; lia).
    rewrite IH. rewrite stepPhysics_cell by (fold n; lia). fold frozen.
    unfold simultaneousCell.
    destruct (Nat.ltb_spec (n - 1 - S d + 1) (List.length frozen)) as [H | H].
    2:{ unfold frozen in H. rewrite length_applyBoundary in H. fold n in H. lia. }
    destruct (Nat.leb_spec 1 (S (n - 1 - S d))) as [H1 | H1]; [| lia].
    replace (S (n - 1 - S d) - 1)%nat with (n - 1 - S d)%nat by lia.
    lra.
Qed.

Lemma carsFrom_forward (flowIn flowOut : Q) (r : t) (j : nat) :
  cellsWithin 0 MAX_CARS_PER_CELL (cells r) ->
  0 <= flowIn -> flowIn <= getSupply r -> 0 <= flowOut ->
  (1 <= j < List.length (cells r))%nat ->
  let frozen := applyBoundary flowIn flowOut (cells r) in
  carsFrom j frozen <= carsFrom j (cells (stepPhysics flowIn flowOut r)) /\
  carsFrom j (cells (stepPhysics flowIn flowOut r)) <=
  carsFrom j frozen + getCell frozen (j - 1).
Proof.
  intros Hw Hin Hsup Hout Hj frozen.
  assert (Hfw : cellsWithin 0 MAX_CARS_PER_CELL frozen).
  { apply applyBoundary_within; auto. }
  pose proof (carsFrom_ctm flowIn flowOut r (List.length (cells r) - 1 - j)
                ltac:(lia)) as E.
  cbv zeta in E. fold frozen in E.
  replace (List.length (cells r) - 1 - (List.length (cells r) - 1 - j))%nat
    with j in E by lia.
  destruct (Nat.leb_spec 1 j) as [_ | H]; [| lia].
  destruct (flux_bounds frozen (j - 1) Hfw) as (F0 & F1 & _).
  { unfold frozen. rewrite length_applyBoundary. lia. }
  rewrite E. split; lra.
Qed.

Lemma free_flow_step (flowIn flowOut : Q) (r : t) :
  let frozen := applyBoundary flowIn flowOut (cells r) in
  let cs' := cells (stepPhysics flowIn flowOut r) in
  let n := List.length (cells r) in
  (2 <= n)%nat -> freeFlow frozen ->
  getCell cs' 0 == 0 /\
  (forall j, (1 <= j < n - 1)%nat -> getCell cs' j == getCell frozen (j - 1)) /\
  getCell cs' (n - 1) == getCell frozen (n - 1) + getCell frozen (n - 2).
Proof.
  intros frozen cs' n Hn Hfree.
  assert (Hlen : List.length frozen = n)
    by (unfold frozen; apply length_applyBoundary).
  assert (Hcell : forall j, (j < n)%nat ->
             getCell cs' j ==
             (if (j =? n - 1)%nat then getCell frozen j else 0)
             + (if (1 <=? j)%nat then getCell frozen (j - 1) else 0)).
  { intros j Hj. unfold cs'. rewrite stepPhysics_cell by exact Hj.
    fold frozen. rewrite free_flow_cells by (auto; lia).
    rewrite Hlen. reflexivity. }
  split; [| split].
  - rewrite Hcell by lia.
    destruct (Nat.eqb_spec 0 (n - 1)); [lia |]. cbn [Nat.leb]. lra.
  - intros j Hj. rewrite Hcell by lia.
    destruct (Nat.eqb_spec j (n - 1)); [lia |].
    destruct (Nat.leb_spec 1 j); [lra | lia].
  - rewrite Hcell by lia. rewrite Nat.eqb_refl.
    destruct (Nat.leb_spec 1 (n - 1)); [| lia].
    replace (n - 1 - 1)%nat with (n - 2)%nat by lia. lra.
Qed.

Lemma frozen_cells (flowIn flowOut : Q) (cs : list Q) :
  (2 <= List.length cs)%nat ->
  let frozen := applyBoundary flowIn flowOut cs in
  getCell frozen 0 = getCell cs 0 + flowIn /\
  (forall j, (1 <= j < List.length cs - 1)%nat ->
             getCell frozen j = getCell cs j) /\
  getCell frozen (List.length cs - 1) =
  Qmax 0 (getCell cs (List.length cs - 1) - flowOut).
Proof.
  intros Hn frozen. split; [| split].
  - unfold frozen. rewrite applyBoundary_first by lia.
    destruct (Nat.eqb_spec (List.length cs - 1) 0); [lia | reflexivity].
  - intros j Hj. unfold frozen. rewrite applyBoundary_rest by lia.
    destruct (Nat.eqb_spec j (List.length cs - 1)); [lia | reflexivity].
  - unfold frozen. rewrite applyBoundary_rest by lia.
    now rewrite Nat.eqb_refl.
Qed.
End Movement.

(** X9.  Free flow: when, after the two boundary writes of
    [stepPhysics], no two neighbouring cells of a road of at least two
    cells hold more than [MAX_CARS_PER_CELL] together, the loop moves the
    content of every cell exactly one cell ahead: the first cell is left
    empty, every inner cell holds what the cell before it held, and the
    last cell adds the content of the cell before it to its own.  The
    boundary writes themselves add the inflow to the first cell and take
    the outflow from the last, floored at 0. *)
Theorem X9_free_flow_advances_one_cell (flowIn flowOut : Q)
        (r : DirectedRoad.t) :
  let cs := DirectedRoad.cells r in
  let frozen := DirectedRoad.applyBoundary flowIn flowOut cs in
  let cs' := DirectedRoad.cells (DirectedRoad.stepPhysics flowIn flowOut r) in
  let n := List.length cs in
  (2 <= n)%nat -> freeFlow frozen ->
  (getCell cs' 0 == 0 /\
   (forall j, (1 <= j < n - 1)%nat -> getCell cs' j == getCell frozen (j - 1)) /\
   getCell cs' (n - 1) == getCell frozen (n - 1) + getCell frozen (n - 2)) /\
  (getCell frozen 0 = getCell cs 0 + flowIn /\
   (forall j, (1 <= j < n - 1)%nat -> getCell frozen j = getCell cs j) /\
   getCell frozen (n - 1) = Qmax 0 (getCell cs (n - 1) - flowOut)).
Proof.
  intros cs frozen cs' n Hn Hfree. split.
  - now apply free_flow_step.
  - now apply frozen_cells.
Qed.

Lemma X9_witness :
  (2 <= List.length (DirectedRoad.cells scenarioC_up))%nat /\
  freeFlow (DirectedRoad.applyBoundary 2 7 (DirectedRoad.cells scenarioC_up)) /\
  getCell (DirectedRoad.cells (DirectedRoad.stepPhysics 2 7 scenarioC_up)) 1
  == getCell (DirectedRoad.applyBoundary 2 7
                (DirectedRoad.cells scenarioC_up)) 0.
Proof.
  assert (Hn : (2 <= List.length (DirectedRoad.cells scenarioC_up))%nat)
    by (simpl; lia).
  assert (Hfree : freeFlow (DirectedRoad.applyBoundary 2 7
                              (DirectedRoad.cells scenarioC_up))).
  { intros i Hi. simpl in Hi.
    do 10 (destruct i as [| i]; [vm_compute; discriminate |]).
    lia. }
  split; [exact Hn | split; [exact Hfree |]].
  destruct (X9_free_flow_advances_one_cell 2 7 scenarioC_up Hn Hfree)
    as [(_ & Hmid & _) _].
  exact (Hmid 1%nat ltac:(simpl; lia)).
Defined.

(** X10.  Vehicles only move forward, and by at most one cell a tick:
    for a road within bounds and flows as [step] passes them, the
    vehicles in the cells from [j] on after the loop of [stepPhysics] are
    at least those that were there after the boundary writes, and exceed
    them by at most the content of cell [j - 1]. *)
Theorem X10_vehicles_only_move_forward (flowIn flowOut : Q)
        (r : DirectedRoad.t) (j : nat) :
  cellsWithin 0 PHYSICS.MAX_CARS_PER_CELL (DirectedRoad.cells r) ->
  0 <= flowIn -> flowIn <= DirectedRoad.getSupply r -> 0 <= flowOut ->
  (1 <= j < List.length (DirectedRoad.cells r))%nat ->
  let frozen := DirectedRoad.applyBoundary flowIn flowOut
                  (DirectedRoad.cells r) in
  let cs' := DirectedRoad.cells (DirectedRoad.stepPhysics flowIn flowOut r) in
  carsFrom j frozen <= carsFrom j cs' /\
  carsFrom j cs' <= carsFrom j frozen + getCell frozen (j - 1).
Proof. apply carsFrom_forward. Qed.

Lemma X10_witness :
  cellsWithin 0 PHYSICS.MAX_CARS_PER_CELL (DirectedRoad.cells busyRoad) /\
  0 <= 3 /\ 3 <= DirectedRoad.getSupply busyRoad /\ 0 <= 2 /\
  (1 <= 4 < List.length (DirectedRoad.cells busyRoad))%nat /\
  carsFrom 4 (DirectedRoad.applyBoundary 3 2 (DirectedRoad.cells busyRoad)) <=
  carsFrom 4 (DirectedRoad.cells (DirectedRoad.stepPhysics 3 2 busyRoad)).
Proof.
  assert (H : cellsWithin 0 PHYSICS.MAX_CARS_PER_CELL (DirectedRoad.cells busyRoad)).
  { unfold cellsWithin, PHYSICS.MAX_CARS_PER_CELL; simpl.
    repeat (constructor; [split; unfold Qle; simpl; lia |]). constructor. }
  assert (H0 : 0 <= 3) by (unfold Qle; simpl; lia).
  assert (H1 : 3 <= DirectedRoad.getSupply busyRoad) by (vm_compute; discriminate).
  assert (H2 : 0 <= 2) by (unfold Qle; simpl; lia).
  assert (H3 : (1 <= 4 < List.length (DirectedRoad.cells busyRoad))%nat)
    by (simpl; lia).
  repeat (split; [assumption |]).
  exact (proj1 (X10_vehicles_only_move_forward 3 2 busyRoad 4 H H0 H1 H2 H3)).
Defined.


(** ** The grid that [buildGrid] makes *)

Section Strings.
Import SimulationEngine.

Lemma lacks_app (a : ascii) (s t : string) :
  lacks a s -> lacks a t -> lacks a (s ++ t).
Proof. induction s as [| b s IH]; simpl; [auto | intros [? ?] ?; auto]. Qed.

Lemma lacks_uint (a : ascii) (d : Decimal.uint) :
  (forall x, In x ["0"; "1"; "2"; "3"; "4"; "5"; "6"; "7"; "8"; "9"]%char ->
             x <> a) ->
  lacks a (NilEmpty.string_of_uint d).
Proof.
  intros H. induction d; simpl; auto; (split; [apply H; simpl; tauto | auto]).
Qed.

Lemma lacks_natStr (a : ascii) (n : nat) :
  (forall x, In x ["0"; "1"; "2"; "3"; "4"; "5"; "6"; "7"; "8"; "9"]%char ->
             x <> a) ->
  lacks a (natStr n).
Proof. apply lacks_uint. Qed.

Lemma split_lacks (a : ascii) (s1 t1 s2 t2 : string) :
  lacks a s1 -> lacks a t1 ->
  (s1 ++ String a s2 = t1 ++ String a t2)%string ->
  s1 = t1 /\ s2 = t2.
Proof.
  revert t1; induction s1 as [| b s1 IH]; intros [| b' t1]; simpl;
    intros Hs Ht E.
  - split; congruence.
  - injection E as Ea _. destruct Ht as [Hb _]. congruence.
  - injection E as Ea _. destruct Hs as [Ha _]. congruence.
  - injection E as Ea Erest.
    destruct Hs as [_ Hs], Ht as [_ Ht].
    destruct (IH t1 Hs Ht Erest). split; congruence.
Qed.

Lemma nodeKey_inj (r c r' c' : nat) :
  nodeKey r c = nodeKey r' c' -> r = r' /\ c = c'.
Proof.
  unfold nodeKey. simpl. intros E.
  apply split_lacks in E.
  - destruct E as [Hr Hc]. apply natStr_inj in Hr, Hc. auto.
  - apply lacks_natStr. intros x Hx.
    repeat (destruct Hx as [<- | Hx]; [discriminate |]). destruct Hx.
  - apply lacks_natStr. intros x Hx.
    repeat (destruct Hx as [<- | Hx]; [discriminate |]). destruct Hx.
Qed.

Lemma includes_lacks (a : ascii) (x s : string) :
  lacks a s -> includes (String a x) s = false.
Proof.
  induction s as [| b s IH]; simpl; [reflexivity |].
  intros [Hb Hs]. rewrite (IH Hs).
  destruct (ascii_dec a b) as [E | _]; [congruence | reflexivity].
Qed.

Lemma lacks_R_tail (t : string) (r c : nat) :
  In t roadTags ->
  lacks "R" ("_" ++ t ++ "_" ++ natStr r ++ "_" ++ natStr c)%string.
Proof.
  intros Ht.
  assert (Hd : forall n, lacks "R" (natStr n)).
  { intros n. apply lacks_natStr. intros x Hx.
    repeat (destruct Hx as [<- | Hx]; [discriminate |]). destruct Hx. }
  unfold roadTags in Ht.
  repeat (destruct Ht as [<- | Ht];
          [simpl; split; [discriminate |]; split; [discriminate |];
           split; [discriminate |];
           apply lacks_app; [apply Hd |]; simpl; split; [discriminate |];
           apply Hd |]).
  destruct Ht.
Qed.

(** [id.includes("R_" + t)] holds of the identifiers tagged [t] and of
    no other identifier that [buildGrid] makes. *)
Lemma includes_roadKey (t t' : string) (r c : nat) :
  In t roadTags -> In t' roadTags ->
  includes ("R_" ++ t) (roadKey t' r c) = String.eqb t t'.
Proof.
  intros Ht Ht'. unfold roadKey.
  change ("R_" ++ t' ++ "_" ++ natStr r ++ "_" ++ natStr c)%string
    with (String "R" ("_" ++ t' ++ "_" ++ natStr r ++ "_" ++ natStr c))%string.
  change ("R_" ++ t)%string with (String "R" (String "_" t)).
  cbn [includes].
  rewrite (includes_lacks "R" (String "_" t) _ (lacks_R_tail t' r c Ht')).
  rewrite orb_false_r.
  unfold roadTags in Ht, Ht'.
  repeat (destruct Ht as [<- | Ht]);
    try (destruct Ht);
    repeat (destruct Ht' as [<- | Ht']); try (destruct Ht');
    reflexivity.
Qed.
End Strings.

Section RecKeys.
Variable V : Type.
Implicit Types m : Rec.t V.

Lemma get_none_keys k m : Rec.get k m = None <-> ~ In k (map fst m).
Proof.
  induction m as [| [k' v'] m IH]; simpl; [tauto |].
  destruct (String.eqb_spec k k') as [-> | Hne].
  - split; [discriminate | intros H; exfalso; apply H; now left].
  - rewrite IH. split; [intros H [E | Hin]; [congruence | auto] | tauto].
Qed.

Lemma set_fresh k v m : Rec.get k m = None -> Rec.set k v m = m ++ [(k, v)].
Proof.
  induction m as [| [k' v'] m IH]; simpl; [reflexivity |].
  destruct (String.eqb k k'); [discriminate |].
  intros H. now rewrite (IH H).
Qed.

Lemma keys_modify k (f : V -> V) m :
  map fst (Rec.modify k f m) = map fst m.
Proof.
  induction m as [| [k' v'] m IH]; simpl; [reflexivity |].
  destruct (String.eqb k k'); simpl; [reflexivity | now rewrite IH].
Qed.

Lemma get_app k m m' :
  Rec.get k (m ++ m') =
  match Rec.get k m with
  | Some v => Some v
  | None => Rec.get k m'
  end.
Proof.
  induction m as [| [k' v'] m IH]; simpl; [reflexivity |].
  destruct (String.eqb k k'); [reflexivity | exact IH].
Qed.

Lemma in_values_get (n : V) m :
  NoDup (map fst m) -> In n (Rec.values m) ->
  exists k, Rec.get k m = Some n.
Proof.
  induction m as [| [k' v'] m IH]; simpl; intros Hnd Hin; [destruct Hin |].
  inversion Hnd as [| ? ? Hnotin Hnd']; subst.
  destruct Hin as [<- | Hin].
  - exists k'. now rewrite String.eqb_refl.
  - destruct (IH Hnd' Hin) as (k & Hk). exists k.
    destruct (String.eqb_spec k k') as [-> | _]; [| exact Hk].
    apply get_none_keys in Hnotin. congruence.
Qed.
End RecKeys.

Section CreateNodes.
Import SimulationEngine.

Variables rows cols : Z.

Let keysBefore (r a : nat) (m : Rec.t Intersection.t) : Prop :=
  forall k, In k (map fst m) ->
            exists r' c', k = nodeKey r' c' /\
                          ((r' < r)%nat \/ (r' = r /\ (c' < a)%nat)).

Lemma createRow_closed (r a n : nat) (m : Rec.t Intersection.t) :
  keysBefore r a m ->
  fold_left (fun m c => Rec.set (nodeKey r c) (Intersection.new (nodeKey r c) r c) m)
            (seq a n) m =
  m ++ map (fun c => (nodeKey r c, Intersection.new (nodeKey r c) r c)) (seq a n).
Proof.
  revert a m. induction n as [| n IH]; intros a m Hk; simpl.
  - now rewrite app_nil_r.
  - rewrite set_fresh.
    + rewrite IH.
      * now rewrite <- app_assoc.
      * intros k Hin. rewrite map_app in Hin. apply in_app_or in Hin.
        destruct Hin as [Hin | [<- | []]].
        -- destruct (Hk k Hin) as (r' & c' & -> & Hpos).
           exists r', c'. split; [reflexivity | lia].
        -- exists r, a. split; [reflexivity | lia].
    + apply get_none_keys. intros Hin.
      destruct (Hk _ Hin) as (r' & c' & E & Hpos).
      apply nodeKey_inj in E. lia.
Qed.

Lemma keys_rowNodes (r : nat) (k : string) :
  In k (map fst (rowNodes cols r)) -> exists c, k = nodeKey r c.
Proof.
  unfold rowNodes. rewrite map_map. cbn [fst]. intros Hin.
  apply in_map_iff in Hin. destruct Hin as (c & <- & _). now exists c.
Qed.

Lemma createRows_closed (a n : nat) (m : Rec.t Intersection.t) :
  keysBefore a 0 m ->
  fold_left
    (fun m r =>
       fold_left
         (fun m c => Rec.set (nodeKey r c) (Intersection.new (nodeKey r c) r c) m)
         (seq 0 (Z.to_nat cols)) m)
    (seq a n) m =
  m ++ flat_map (rowNodes cols) (seq a n).
Proof.
  revert a m. induction n as [| n IH]; intros a m Hk; simpl.
  - now rewrite app_nil_r.
  - rewrite createRow_closed by exact Hk. rewrite IH.
    + now rewrite <- app_assoc.
    + intros k Hin. rewrite map_app in Hin. apply in_app_or in Hin.
      destruct Hin as [Hin | Hin].
      * destruct (Hk k Hin) as (r' & c' & -> & Hpos).
        exists r', c'. split; [reflexivity | lia].
      * apply (keys_rowNodes a) in Hin. destruct Hin as (c & ->).
        exists a, c. split; [reflexivity | lia].
Qed.

Lemma createNodes_closed : createNodes rows cols = gridNodes rows cols.
Proof.
  unfold createNodes, gridNodes. rewrite createRows_closed; [reflexivity |].
  intros k [].
Qed.

Lemma gridNodes_get (r c : nat) :
  (r < Z.to_nat rows)%nat -> (c < Z.to_nat cols)%nat ->
  In (nodeKey r c) (map fst (gridNodes rows cols)).
Proof.
  intros Hr Hc. unfold gridNodes. rewrite map_flat_map.
  apply in_flat_map. exists r. split; [apply in_seq; lia |].
  unfold rowNodes. rewrite map_map. cbn [fst].
  apply in_map_iff. exists c. split; [reflexivity | apply in_seq; lia].
Qed.

Lemma NoDup_gridKeys : NoDup (map fst (gridNodes rows cols)).
Proof.
  unfold gridNodes. rewrite map_flat_map.
  assert (Hrow : forall r, NoDup (map fst (rowNodes cols r))).
  { intros r. unfold rowNodes. rewrite map_map. cbn [fst].
    generalize 0%nat. induction (Z.to_nat cols) as [| n IH]; intros a; simpl;
      constructor; [| apply IH].
    intros Hin. apply in_map_iff in Hin. destruct Hin as (c & E & Hc).
    apply nodeKey_inj in E. apply in_seq in Hc. lia. }
  assert (Hgen : forall a n,
             NoDup (flat_map (fun r => map fst (rowNodes cols r)) (seq a n)) /\
             forall k, In k (flat_map (fun r => map fst (rowNodes cols r))
                                      (seq a n)) ->
                       exists r c, k = nodeKey r c /\ (a <= r)%nat).
  { intros a n. revert a. induction n as [| n IH]; intros a; simpl.
    - split; [constructor | intros k []].
    - destruct (IH (S a)) as [Hnd Hkeys]. split.
      + apply NoDup_app; [apply Hrow | exact Hnd |].
        intros k Hk1 Hk2. apply keys_rowNodes in Hk1. destruct Hk1 as (c & ->).
        destruct (Hkeys _ Hk2) as (r' & c' & E & Hle).
        apply nodeKey_inj in E. lia.
      + intros k Hk. apply in_app_or in Hk. destruct Hk as [Hk | Hk].
        * apply keys_rowNodes in Hk. destruct Hk as (c & ->).
          exists a, c. split; [reflexivity | lia].
        * destruct (Hkeys _ Hk) as (r' & c' & E & Hle).
          exists r', c'. split; [exact E | lia]. }
  apply Hgen.
Qed.
End CreateNodes.

Section ExactWiring.
Import SimulationEngine.

Lemma getSlot_setSlot (d d' : Dir) (h : nat) (s : RoadSlots) :
  getSlot d' (setSlot d h s) = if sameDir d' d then Some h else getSlot d' s.
Proof. destruct d, d'; reflexivity. Qed.

Lemma sameDir_refl (d : Dir) : sameDir d d = true.
Proof. destruct d; reflexivity. Qed.

Lemma slotAgrees_set (rs rs' : list DirectedRoad.t) (k : string)
      (endOf : DirectedRoad.t -> string) (tag : Dir -> string)
      (s : RoadSlots) (d : Dir) (h : nat) (rnew : DirectedRoad.t) :
  slotAgrees rs k endOf tag s ->
  nth_error rs' h = Some rnew -> endOf rnew = k ->
  (forall d', includes (tag d') (DirectedRoad.id rnew) = sameDir d' d) ->
  (forall h' rd, nth_error rs h' = Some rd -> nth_error rs' h' = Some rd) ->
  (forall rd, In rd rs' -> In rd rs \/ rd = rnew \/ endOf rd <> k) ->
  slotAgrees rs' k endOf tag (setSlot d h s).
Proof.
  intros Hold Hnth Hend Htag Hmono Hnew d'.
  rewrite getSlot_setSlot. destruct (sameDir d' d) eqn:E.
  - exists rnew. split; [exact Hnth | split; [exact Hend |]].
    now rewrite Htag.
  - specialize (Hold d'). destruct (getSlot d' s) as [h' |].
    + destruct Hold as (rd & H1 & H2 & H3). exists rd. auto.
    + intros rd Hin Hk. destruct (Hnew rd Hin) as [Ho | [-> | Hne]].
      * now apply Hold.
      * now rewrite Htag.
      * contradiction.
Qed.

Lemma slotAgrees_keep (rs rs' : list DirectedRoad.t) (k : string)
      (endOf : DirectedRoad.t -> string) (tag : Dir -> string)
      (s : RoadSlots) :
  slotAgrees rs k endOf tag s ->
  (forall h' rd, nth_error rs h' = Some rd -> nth_error rs' h' = Some rd) ->
  (forall rd, In rd rs' -> In rd rs \/ endOf rd <> k) ->
  slotAgrees rs' k endOf tag s.
Proof.
  intros Hold Hmono Hnew d'. specialize (Hold d').
  destruct (getSlot d' s) as [h' |].
  - destruct Hold as (rd & H1 & H2 & H3). exists rd. auto.
  - intros rd Hin Hk. destruct (Hnew rd Hin) as [Ho | Hne];
      [now apply Hold | contradiction].
Qed.

Lemma get_connectPair (ku kv : string) (d : Dir) (r1 r2 : DirectedRoad.t)
      (g : Grid) (k : string) :
  ku <> kv ->
  Rec.get k (snd (connectPair ku kv d r1 r2 g)) =
  if String.eqb k ku
  then option_map
         (fun n => Intersection.withIn d (S (List.length (fst g)))
                     (Intersection.withOut d (List.length (fst g)) n))
         (Rec.get k (snd g))
  else if String.eqb k kv
  then option_map
         (fun n => Intersection.withOut (Intersection.targetMap d)
                     (S (List.length (fst g)))
                     (Intersection.withIn (Intersection.targetMap d)
                        (List.length (fst g)) n))
         (Rec.get k (snd g))
  else Rec.get k (snd g).
Proof.
  intros Hne. unfold connectPair. cbn [snd]. rewrite !get_modify.
  destruct (String.eqb_spec k ku) as [-> | Hku].
  - destruct (String.eqb_spec ku kv) as [E | _]; [contradiction |].
    destruct (Rec.get ku (snd g)); reflexivity.
  - destruct (String.eqb_spec k kv) as [-> | Hkv]; [| reflexivity].
    destruct (Rec.get kv (snd g)); reflexivity.
Qed.

Lemma core_modify (k : string) (f : Intersection.t -> Intersection.t)
      (m : Rec.t Intersection.t) :
  (forall n, nodeCore (k, f n) = nodeCore (k, n)) ->
  map nodeCore (Rec.modify k f m) = map nodeCore m.
Proof.
  intros Hf. induction m as [| [k' n'] m IH]; simpl; [reflexivity |].
  destruct (String.eqb_spec k k') as [<- | Hne]; simpl.
  - now rewrite Hf.
  - now rewrite IH.
Qed.

Lemma core_connectPair (ku kv : string) (d : Dir) (r1 r2 : DirectedRoad.t)
      (g : Grid) :
  map nodeCore (snd (connectPair ku kv d r1 r2 g)) = map nodeCore (snd g).
Proof.
  unfold connectPair. cbn [snd].
  rewrite !core_modify; [reflexivity |..]; intros n; reflexivity.
Qed.

Lemma connectPair_exact (ku kv : string) (d : Dir) (r1 r2 : DirectedRoad.t)
      (g : Grid) :
  ku <> kv ->
  DirectedRoad.u r1 = ku -> DirectedRoad.v r1 = kv ->
  DirectedRoad.u r2 = kv -> DirectedRoad.v r2 = ku ->
  (forall d', includes (leaves d') (DirectedRoad.id r1) = sameDir d' d) ->
  (forall d', includes (arrives d') (DirectedRoad.id r1) =
              sameDir d' (Intersection.targetMap d)) ->
  (forall d', includes (leaves d') (DirectedRoad.id r2) =
              sameDir d' (Intersection.targetMap d)) ->
  (forall d', includes (arrives d') (DirectedRoad.id r2) = sameDir d' d) ->
  WiredExactly (fst g) (snd g) ->
  WiredExactly (fst (connectPair ku kv d r1 r2 g))
               (snd (connectPair ku kv d r1 r2 g)).
Proof.
  intros Hne Hu1 Hv1 Hu2 Hv2 L1 A1 L2 A2 Hold k n Hget.
  rewrite get_connectPair in Hget by exact Hne.
  assert (Hmono : forall h' rd,
             nth_error (fst g) h' = Some rd ->
             nth_error (fst g ++ [r1; r2]) h' = Some rd).
  { intros h' rd H. rewrite nth_error_app1; [exact H |].
    apply nth_error_Some. congruence. }
  assert (Hn1 : nth_error (fst g ++ [r1; r2]) (List.length (fst g)) = Some r1).
  { rewrite nth_error_app2 by lia. now rewrite Nat.sub_diag. }
  assert (Hn2 : nth_error (fst g ++ [r1; r2]) (S (List.length (fst g)))
                = Some r2).
  { rewrite nth_error_app2 by lia.
    now replace (S (List.length (fst g)) - List.length (fst g))%nat
      with 1%nat by lia. }
  assert (Hin : forall rd, In rd (fst g ++ [r1; r2]) ->
                           In rd (fst g) \/ rd = r1 \/ rd = r2).
  { intros rd H. apply in_app_or in H.
    destruct H as [H | [<- | [<- | []]]]; auto. }
  unfold connectPair. cbn [fst].
  destruct (String.eqb_spec k ku) as [-> | Hku].
  - destruct (Rec.get ku (snd g)) as [U |] eqn:EU; [| discriminate].
    injection Hget as <-. destruct (Hold ku U EU) as (Hid & Hi & Ho).
    split; [exact Hid | split].
    + cbn [Intersection.inRoads Intersection.withIn Intersection.withOut].
      apply (slotAgrees_set (fst g) _ ku DirectedRoad.v arrives _ d _ r2);
        auto.
      intros rd H. destruct (Hin rd H) as [? | [-> | ->]]; auto.
      right; right. congruence.
    + cbn [Intersection.outRoads Intersection.withIn Intersection.withOut].
      apply (slotAgrees_set (fst g) _ ku DirectedRoad.u leaves _ d _ r1);
        auto.
      intros rd H. destruct (Hin rd H) as [? | [-> | ->]]; auto.
      right; right. congruence.
  - destruct (String.eqb_spec k kv) as [-> | Hkv].
    + destruct (Rec.get kv (snd g)) as [V |] eqn:EV; [| discriminate].
      injection Hget as <-. destruct (Hold kv V EV) as (Hid & Hi & Ho).
      split; [exact Hid | split].
      * cbn [Intersection.inRoads Intersection.withIn Intersection.withOut].
        apply (slotAgrees_set (fst g) _ kv DirectedRoad.v arrives _
                 (Intersection.targetMap d) _ r1); auto.
        intros rd H. destruct (Hin rd H) as [? | [-> | ->]]; auto.
        right; right. congruence.
      * cbn [Intersection.outRoads Intersection.withIn Intersection.withOut].
        apply (slotAgrees_set (fst g) _ kv DirectedRoad.u leaves _
                 (Intersection.targetMap d) _ r2); auto.
        intros rd H. destruct (Hin rd H) as [? | [-> | ->]]; auto.
        right; right. congruence.
    + destruct (Hold k n Hget) as (Hid & Hi & Ho).
      split; [exact Hid | split].
      * apply (slotAgrees_keep (fst g)); auto.
        intros rd H. destruct (Hin rd H) as [? | [-> | ->]]; auto;
          right; congruence.
      * apply (slotAgrees_keep (fst g)); auto.
        intros rd H. destruct (Hin rd H) as [? | [-> | ->]]; auto;
          right; congruence.
Qed.
End ExactWiring.

Section BuildExactly.
Import SimulationEngine.

Variables rows cols : Z.

Lemma get_in (V : Type) (k : string) (v : V) (m : Rec.t V) :
  Rec.get k m = Some v -> In (k, v) m.
Proof.
  induction m as [| [k' v'] m IH]; simpl; [discriminate |].
  destruct (String.eqb_spec k k') as [-> | _].
  - intros E. injection E as ->. now left.
  - intros E. right. now apply IH.
Qed.

Lemma gridNodes_fresh (k : string) (n : Intersection.t) :
  In (k, n) (gridNodes rows cols) ->
  exists r c, (r < Z.to_nat rows)%nat /\ (c < Z.to_nat cols)%nat /\
              k = nodeKey r c /\ n = Intersection.new k r c.
Proof.
  unfold gridNodes, rowNodes. intros H.
  apply in_flat_map in H. destruct H as (r & Hr & H).
  apply in_map_iff in H. destruct H as (c & E & Hc).
  injection E as <- <-. apply in_seq in Hr, Hc.
  exists r, c. repeat split; lia || reflexivity.
Qed.

Lemma built_start : BuiltSoFar rows cols [] ([], createNodes rows cols).
Proof.
  rewrite createNodes_closed. split; [reflexivity | split; [reflexivity |]].
  intros k n Hget. cbn [fst snd] in *. apply get_in in Hget.
  destruct (gridNodes_fresh _ _ Hget) as (r & c & _ & _ & -> & ->).
  split; [reflexivity | split]; intros d; destruct d; cbn; intros rd [].
Qed.

Lemma built_has (made : list DirectedRoad.t) (g : Grid) (r c : nat) :
  BuiltSoFar rows cols made g ->
  (r < Z.to_nat rows)%nat -> (c < Z.to_nat cols)%nat ->
  Rec.get (nodeKey r c) (snd g) <> None.
Proof.
  intros (_ & Hcore & _) Hr Hc Hnone. apply get_none_keys in Hnone.
  apply Hnone.
  apply (f_equal (map (fun x => fst (fst (fst (fst (fst x))))))) in Hcore.
  rewrite !map_map in Hcore. cbn [nodeCore fst] in Hcore.
  change (map (fun x : string * Intersection.t => fst x) (snd g))
    with (map fst (snd g)) in Hcore.
  rewrite Hcore. now apply gridNodes_get.
Qed.

Lemma tags_leave (t : string) (d : Dir) (r c : nat) :
  leaves d = ("R_" ++ t)%string -> In t roadTags ->
  forall d', includes (leaves d') (roadKey t r c) = sameDir d' d.
Proof.
  intros E Ht d'.
  assert (Hd' : exists t', In t' roadTags /\ leaves d' = ("R_" ++ t')%string).
  { destruct d'; cbn; unfold roadTags;
      [exists "N"%string | exists "S"%string | exists "E"%string
       | exists "W"%string]; simpl; tauto. }
  destruct Hd' as (t' & Ht' & E'). rewrite E'.
  rewrite includes_roadKey by assumption.
  unfold roadTags in Ht, Ht'.
  destruct d, d'; cbn in E, E';
    repeat (destruct Ht as [<- | Ht]; try discriminate E);
    try (destruct Ht);
    repeat (destruct Ht' as [<- | Ht']; try discriminate E');
    try (destruct Ht'); reflexivity.
Qed.

Lemma tags_arrive (t : string) (d : Dir) (r c : nat) :
  leaves d = ("R_" ++ t)%string -> In t roadTags ->
  forall d', includes (arrives d') (roadKey t r c) =
             sameDir d' (Intersection.targetMap d).
Proof.
  intros E Ht d'.
  replace (arrives d') with (leaves (Intersection.targetMap d'))
    by (destruct d'; reflexivity).
  rewrite (tags_leave t d r c E Ht). destruct d, d'; reflexivity.
Qed.

Lemma connectTo_built (ku kv : string) (d : Dir) (t1 t2 : string)
      (r c : nat) (b1 b2 : bool) (made : list DirectedRoad.t) (g : Grid) :
  BuiltSoFar rows cols made g ->
  Rec.get ku (snd g) <> None -> Rec.get kv (snd g) <> None -> ku <> kv ->
  In t1 roadTags -> In t2 roadTags ->
  leaves d = ("R_" ++ t1)%string ->
  leaves (Intersection.targetMap d) = ("R_" ++ t2)%string ->
  exists g',
    connectTo ku kv d t1 t2 r c b1 b2 g = Some g' /\
    BuiltSoFar rows cols
      (made ++ [DirectedRoad.new (roadKey t1 r c) ku kv b1;
                DirectedRoad.new (roadKey t2 r c) kv ku b2]) g'.
Proof.
  intros (Hmade & Hcore & Hw) Hu Hv Hne Ht1 Ht2 E1 E2. unfold connectTo.
  destruct (Rec.get ku (snd g)) as [U |] eqn:EU; [| congruence].
  destruct (Rec.get kv (snd g)) as [V |] eqn:EV; [| congruence].
  destruct (Hw ku U EU) as (-> & _). destruct (Hw kv V EV) as (-> & _).
  eexists. split; [reflexivity |]. split; [| split].
  - unfold connectPair. cbn [fst]. now rewrite Hmade.
  - now rewrite core_connectPair.
  - apply connectPair_exact; auto.
    + cbn [DirectedRoad.id DirectedRoad.new]. now apply tags_leave.
    + cbn [DirectedRoad.id DirectedRoad.new]. now apply tags_arrive.
    + cbn [DirectedRoad.id DirectedRoad.new]. now apply tags_leave.
    + cbn [DirectedRoad.id DirectedRoad.new].
      intros d'. rewrite (tags_arrive t2 (Intersection.targetMap d) r c E2 Ht2).
      destruct d, d'; reflexivity.
Qed.

Lemma connectCell_built (r c : nat) (made : list DirectedRoad.t) (g : Grid) :
  (r < Z.to_nat rows)%nat -> (c < Z.to_nat cols)%nat ->
  BuiltSoFar rows cols made g ->
  exists g', connectCell rows cols r c g = Some g' /\
             BuiltSoFar rows cols (made ++ cellRoads rows cols r c) g'.
Proof.
  intros Hr Hc Hb. unfold connectCell, cellRoads.
  assert (Hstep1 : exists g1,
             (if (Z.of_nat c <? cols - 1)%Z
              then connectTo (nodeKey r c) (nodeKey r (c + 1)) East "E" "W"
                     r c (Nat.eqb c 0) (Z.of_nat c + 1 =? cols - 1)%Z g
              else Some g) = Some g1 /\
             BuiltSoFar rows cols
               (made ++
                (if (Z.of_nat c <? cols - 1)%Z
                 then [DirectedRoad.new (roadKey "E" r c) (nodeKey r c)
                         (nodeKey r (c + 1)) (Nat.eqb c 0);
                       DirectedRoad.new (roadKey "W" r c) (nodeKey r (c + 1))
                         (nodeKey r c) (Z.of_nat c + 1 =? cols - 1)%Z]
                 else [])) g1).
  { destruct (Z.ltb_spec (Z.of_nat c) (cols - 1)) as [Hlt | Hge].
    - apply connectTo_built; auto.
      + apply (built_has made); auto.
      + apply (built_has made); auto. lia.
      + intros E. apply nodeKey_inj in E. lia.
      + unfold roadTags; simpl; tauto.
      + unfold roadTags; simpl; tauto.
    - exists g. split; [reflexivity | now rewrite app_nil_r]. }
  destruct Hstep1 as (g1 & -> & Hb1).
  rewrite app_assoc.
  destruct (Z.ltb_spec (Z.of_nat r) (rows - 1)) as [Hlt | Hge].
  - apply connectTo_built; auto.
    + eapply built_has; eauto.
    + eapply built_has; eauto. lia.
    + intros E. apply nodeKey_inj in E. lia.
    + unfold roadTags; simpl; tauto.
    + unfold roadTags; simpl; tauto.
  - exists g1. split; [reflexivity | now rewrite app_nil_r].
Qed.

Lemma flat_map_seq_S (A : Type) (f : nat -> list A) (n : nat) :
  flat_map f (seq 0 (S n)) = flat_map f (seq 0 n) ++ f n.
Proof.
  rewrite seq_S, flat_map_app. simpl. now rewrite app_nil_r.
Qed.

Lemma connectRow_built (r : nat) (made : list DirectedRoad.t) (g : Grid) :
  (r < Z.to_nat rows)%nat ->
  BuiltSoFar rows cols made g ->
  exists g',
    forEachM (connectCell rows cols r) (seq 0 (Z.to_nat cols)) g = Some g' /\
    BuiltSoFar rows cols (made ++ rowRoads rows cols r) g'.
Proof.
  intros Hr Hb.
  destruct (forEachM_counting _ (connectCell rows cols r)
              (fun c g => BuiltSoFar rows cols
                            (made ++ flat_map (cellRoads rows cols r) (seq 0 c)) g)
              (Z.to_nat cols) 0 g) as (g' & E & Hb').
  - simpl. now rewrite app_nil_r.
  - intros c g0 Hc Hb0.
    destruct (connectCell_built r c _ g0 Hr ltac:(lia) Hb0) as (g1 & E1 & Hb1).
    exists g1. split; [exact E1 |].
    now rewrite flat_map_seq_S, app_assoc.
  - exists g'. split; [exact E | exact Hb'].
Qed.

Lemma buildGrid_built :
  exists g, buildGrid rows cols = Some g /\
            BuiltSoFar rows cols (gridRoads rows cols) g.
Proof.
  unfold buildGrid, connectRoads.
  destruct (forEachM_counting _
              (fun r => forEachM (connectCell rows cols r)
                                 (seq 0 (Z.to_nat cols)))
              (fun r g => BuiltSoFar rows cols
                            (flat_map (rowRoads rows cols) (seq 0 r)) g)
              (Z.to_nat rows) 0 ([], createNodes rows cols))
    as (g' & E & Hb').
  - apply built_start.
  - intros r g0 Hr Hb0.
    destruct (connectRow_built r _ g0 ltac:(lia) Hb0) as (g1 & E1 & Hb1).
    exists g1. split; [exact E1 |]. now rewrite flat_map_seq_S.
  - exists g'. split; [exact E | exact Hb'].
Qed.
End BuildExactly.

Section BuiltGrid.
Import SimulationEngine.

Variables rows cols : Z.

Lemma includes_tag (r c : nat) (d' : Dir) :
  (includes (arrives d') (roadKey "E" r c) = sameDir d' West /\
   includes (arrives d') (roadKey "W" r c) = sameDir d' East /\
   includes (arrives d') (roadKey "S" r c) = sameDir d' North /\
   includes (arrives d') (roadKey "N" r c) = sameDir d' South) /\
  (includes (leaves d') (roadKey "E" r c) = sameDir d' East /\
   includes (leaves d') (roadKey "W" r c) = sameDir d' West /\
   includes (leaves d') (roadKey "S" r c) = sameDir d' South /\
   includes (leaves d') (roadKey "N" r c) = sameDir d' North).
Proof.
  assert (HE : In "E"%string roadTags) by (unfold roadTags; simpl; tauto).
  assert (HW : In "W"%string roadTags) by (unfold roadTags; simpl; tauto).
  assert (HS : In "S"%string roadTags) by (unfold roadTags; simpl; tauto).
  assert (HN : In "N"%string roadTags) by (unfold roadTags; simpl; tauto).
  repeat split.
  - apply (tags_arrive "E" East r c eq_refl HE).
  - apply (tags_arrive "W" West r c eq_refl HW).
  - apply (tags_arrive "S" South r c eq_refl HS).
  - apply (tags_arrive "N" North r c eq_refl HN).
  - apply (tags_leave "E" East r c eq_refl HE).
  - apply (tags_leave "W" West r c eq_refl HW).
  - apply (tags_leave "S" South r c eq_refl HS).
  - apply (tags_leave "N" North r c eq_refl HN).
Qed.

Lemma gridRoads_in (rd : DirectedRoad.t) :
  In rd (gridRoads rows cols) <->
  exists r c, (r < Z.to_nat rows)%nat /\ (c < Z.to_nat cols)%nat /\
              In rd (cellRoads rows cols r c).
Proof.
  unfold gridRoads, rowRoads. split.
  - intros H. apply in_flat_map in H. destruct H as (r & Hr & H).
    apply in_flat_map in H. destruct H as (c & Hc & H).
    apply in_seq in Hr, Hc. exists r, c. repeat split; auto; lia.
  - intros (r & c & Hr & Hc & H).
    apply in_flat_map. exists r. split; [apply in_seq; lia |].
    apply in_flat_map. exists c. split; [apply in_seq; lia | exact H].
Qed.

Variable rs : list DirectedRoad.t.
Variable ns : Rec.t Intersection.t.

Hypothesis frames : map roadFrame rs = map roadFrame (gridRoads rows cols).
Hypothesis wired : WiredExactly rs ns.

Lemma roads_shape (rd : DirectedRoad.t) :
  In rd rs ->
  exists r c, (r < Z.to_nat rows)%nat /\ (c < Z.to_nat cols)%nat /\
              In (roadFrame rd) (map roadFrame (cellRoads rows cols r c)).
Proof.
  intros H. apply (in_map roadFrame) in H. rewrite frames in H.
  apply in_map_iff in H. destruct H as (rd0 & E & H0).
  apply gridRoads_in in H0. destruct H0 as (r & c & Hr & Hc & H0).
  exists r, c. repeat split; auto. rewrite <- E. now apply in_map.
Qed.

Lemma roads_have (r c : nat) (f : string * string * string * bool) :
  (r < Z.to_nat rows)%nat -> (c < Z.to_nat cols)%nat ->
  In f (map roadFrame (cellRoads rows cols r c)) ->
  exists rd, In rd rs /\ roadFrame rd = f.
Proof.
  intros Hr Hc H. apply in_map_iff in H. destruct H as (rd0 & E & H0).
  assert (H1 : In (roadFrame rd0) (map roadFrame rs)).
  { rewrite frames. apply in_map. apply gridRoads_in. exists r, c. auto. }
  apply in_map_iff in H1. destruct H1 as (rd & E1 & H1).
  exists rd. split; [exact H1 | congruence].
Qed.

Ltac road_cases H :=
  unfold cellRoads in H;
  repeat match type of H with
         | context [if ?b then _ else _] =>
             let E := fresh "Hcond" in destruct b eqn:E
         end;
  simpl in H;
  repeat match type of H with
         | _ \/ _ => destruct H as [H | H]
         | False => destruct H
         end.

Ltac frame_fields H :=
  unfold roadFrame in H; cbn [DirectedRoad.id DirectedRoad.u DirectedRoad.v
    DirectedRoad.isBoundary DirectedRoad.new] in H;
  injection H as ? ? ? ?.

Lemma wiring_in (r c : nat) (n : Intersection.t) (d : Dir) :
  (r < Z.to_nat rows)%nat -> (c < Z.to_nat cols)%nat ->
  Rec.get (nodeKey r c) ns = Some n ->
  option_map DirectedRoad.id (Intersection.inRoad rs n d) =
  inRoadId rows cols r c d.
Proof.
  intros Hr Hc Hget. destruct (wired _ _ Hget) as (Hid & Hin & _).
  specialize (Hin d). unfold Intersection.inRoad.
  destruct (getSlot d (Intersection.inRoads n)) as [h |].
  - destruct Hin as (rd & Hnth & Hv & Hinc). rewrite Hnth. cbn [option_map].
    apply nth_error_In in Hnth.
    destruct (roads_shape rd Hnth) as (r' & c' & Hr' & Hc' & Hshape).
    destruct (includes_tag r' c' d) as [(A1 & A2 & A3 & A4) _].
    road_cases Hshape; frame_fields Hshape;
      match goal with
      | E : _ = DirectedRoad.id rd |- _ => rewrite <- E in *
      end;
      match goal with
      | E : _ = DirectedRoad.v rd |- _ => rewrite <- E in Hv
      end;
      apply nodeKey_inj in Hv; destruct Hv; subst;
      rewrite ?A1, ?A2, ?A3, ?A4 in Hinc;
      destruct d; try discriminate Hinc; unfold inRoadId;
      repeat match goal with
             | |- context [Nat.leb ?a ?b] => destruct (Nat.leb_spec a b)
             | |- context [Z.ltb ?a ?b] => destruct (Z.ltb_spec a b)
             | H : Z.ltb ?a ?b = true |- _ => apply Z.ltb_lt in H
             end; try lia;
      repeat f_equal; lia.
  - assert (Hno : forall f, In f (flat_map (fun r' =>
                      flat_map (fun c' => map roadFrame (cellRoads rows cols r' c'))
                               (seq 0 (Z.to_nat cols))) (seq 0 (Z.to_nat rows))) ->
                    snd (fst f) = nodeKey r c ->
                    includes (arrives d) (fst (fst (fst f))) = false).
    { intros f Hf Ev. apply in_flat_map in Hf. destruct Hf as (r' & Hr' & Hf).
      apply in_flat_map in Hf. destruct Hf as (c' & Hc' & Hf).
      apply in_seq in Hr', Hc'.
      destruct (roads_have r' c' f ltac:(lia) ltac:(lia) Hf) as (rd & Hrd & E).
      subst f. apply (Hin rd Hrd). exact Ev. }
    cbn [option_map]. symmetry.
    destruct (includes_tag r c d) as [(A1 & A2 & A3 & A4) _].
    destruct d; unfold inRoadId.
    + destruct (Nat.leb_spec 1 r) as [H1 | H1]; [exfalso | reflexivity].
      destruct (includes_tag (r - 1) c North) as [(_ & _ & B3 & _) _].
      specialize (Hno (roadKey "S" (r - 1) c, nodeKey (r - 1) c,
                       nodeKey (r - 1 + 1) c, Nat.eqb (r - 1) 0)).
      cbn [fst snd] in Hno. rewrite B3 in Hno.
      enough (true = false) by discriminate. apply Hno.
      * apply in_flat_map. exists (r - 1)%nat. split; [apply in_seq; lia |].
        apply in_flat_map. exists c. split; [apply in_seq; lia |].
        unfold cellRoads.
        destruct (Z.ltb_spec (Z.of_nat (r - 1)) (rows - 1)); [| lia].
        rewrite map_app. apply in_or_app. right. now left.
      * f_equal. lia.
    + destruct (Z.ltb_spec (Z.of_nat r) (rows - 1)) as [H1 | H1];
        [exfalso | reflexivity].
      specialize (Hno (roadKey "N" r c, nodeKey (r + 1) c, nodeKey r c,
                       (Z.of_nat r + 1 =? rows - 1)%Z)).
      cbn [fst snd] in Hno. rewrite A4 in Hno.
      enough (true = false) by discriminate. apply Hno; [| reflexivity].
      apply in_flat_map. exists r. split; [apply in_seq; lia |].
      apply in_flat_map. exists c. split; [apply in_seq; lia |].
      unfold cellRoads.
      destruct (Z.ltb_spec (Z.of_nat r) (rows - 1)); [| lia].
      rewrite map_app. apply in_or_app. right. right. now left.
    + destruct (Z.ltb_spec (Z.of_nat c) (cols - 1)) as [H1 | H1];
        [exfalso | reflexivity].
      specialize (Hno (roadKey "W" r c, nodeKey r (c + 1), nodeKey r c,
                       (Z.of_nat c + 1 =? cols - 1)%Z)).
      cbn [fst snd] in Hno. rewrite A2 in Hno.
      enough (true = false) by discriminate. apply Hno; [| reflexivity].
      apply in_flat_map. exists r. split; [apply in_seq; lia |].
      apply in_flat_map. exists c. split; [apply in_seq; lia |].
      unfold cellRoads.
      destruct (Z.ltb_spec (Z.of_nat c) (cols - 1)); [| lia].
      rewrite map_app. apply in_or_app. left. right. now left.
    + destruct (Nat.leb_spec 1 c) as [H1 | H1]; [exfalso | reflexivity].
      destruct (includes_tag r (c - 1) West) as [(B1 & _) _].
      specialize (Hno (roadKey "E" r (c - 1), nodeKey r (c - 1),
                       nodeKey r (c - 1 + 1), Nat.eqb (c - 1) 0)).
      cbn [fst snd] in Hno. rewrite B1 in Hno.
      enough (true = false) by discriminate. apply Hno.
      * apply in_flat_map. exists r. split; [apply in_seq; lia |].
        apply in_flat_map. exists (c - 1)%nat. split; [apply in_seq; lia |].
        unfold cellRoads.
        destruct (Z.ltb_spec (Z.of_nat (c - 1)) (cols - 1)); [| lia].
        rewrite map_app. apply in_or_app. left. now left.
      * f_equal. lia.
Qed.

Lemma wiring_out (r c : nat) (n : Intersection.t) (d : Dir) :
  (r < Z.to_nat rows)%nat -> (c < Z.to_nat cols)%nat ->
  Rec.get (nodeKey r c) ns = Some n ->
  option_map DirectedRoad.id (Intersection.outRoad rs n d) =
  outRoadId rows cols r c d.
Proof.
  intros Hr Hc Hget. destruct (wired _ _ Hget) as (Hid & _ & Hout).
  specialize (Hout d). unfold Intersection.outRoad.
  destruct (getSlot d (Intersection.outRoads n)) as [h |].
  - destruct Hout as (rd & Hnth & Hu & Hinc). rewrite Hnth. cbn [option_map].
    apply nth_error_In in Hnth.
    destruct (roads_shape rd Hnth) as (r' & c' & Hr' & Hc' & Hshape).
    destruct (includes_tag r' c' d) as [_ (A1 & A2 & A3 & A4)].
    road_cases Hshape; frame_fields Hshape;
      match goal with
      | E : _ = DirectedRoad.id rd |- _ => rewrite <- E in *
      end;
      match goal with
      | E : _ = DirectedRoad.u rd |- _ => rewrite <- E in Hu
      end;
      apply nodeKey_inj in Hu; destruct Hu; subst;
      rewrite ?A1, ?A2, ?A3, ?A4 in Hinc;
      destruct d; try discriminate Hinc; unfold outRoadId;
      repeat match goal with
             | |- context [Nat.leb ?a ?b] => destruct (Nat.leb_spec a b)
             | |- context [Z.ltb ?a ?b] => destruct (Z.ltb_spec a b)
             | H : Z.ltb ?a ?b = true |- _ => apply Z.ltb_lt in H
             end; try lia;
      repeat f_equal; lia.
  - assert (Hno : forall f, In f (flat_map (fun r' =>
                      flat_map (fun c' => map roadFrame (cellRoads rows cols r' c'))
                               (seq 0 (Z.to_nat cols))) (seq 0 (Z.to_nat rows))) ->
                    snd (fst (fst f)) = nodeKey r c ->
                    includes (leaves d) (fst (fst (fst f))) = false).
    { intros f Hf Ev. apply in_flat_map in Hf. destruct Hf as (r' & Hr' & Hf).
      apply in_flat_map in Hf. destruct Hf as (c' & Hc' & Hf).
      apply in_seq in Hr', Hc'.
      destruct (roads_have r' c' f ltac:(lia) ltac:(lia) Hf) as (rd & Hrd & E).
      subst f. apply (Hout rd Hrd). exact Ev. }
    cbn [option_map]. symmetry.
    destruct (includes_tag r c d) as [_ (A1 & A2 & A3 & A4)].
    destruct d; unfold outRoadId.
    + destruct (Nat.leb_spec 1 r) as [H1 | H1]; [exfalso | reflexivity].
      destruct (includes_tag (r - 1) c North) as [_ (_ & _ & _ & B4)].
      specialize (Hno (roadKey "N" (r - 1) c, nodeKey (r - 1 + 1) c,
                       nodeKey (r - 1) c,
                       (Z.of_nat (r - 1) + 1 =? rows - 1)%Z)).
      cbn [fst snd] in Hno. rewrite B4 in Hno.
      enough (true = false) by discriminate. apply Hno.
      * apply in_flat_map. exists (r - 1)%nat. split; [apply in_seq; lia |].
        apply in_flat_map. exists c. split; [apply in_seq; lia |].
        unfold cellRoads.
        destruct (Z.ltb_spec (Z.of_nat (r - 1)) (rows - 1)); [| lia].
        rewrite map_app. apply in_or_app. right. right. now left.
      * f_equal. lia.
    + destruct (Z.ltb_spec (Z.of_nat r) (rows - 1)) as [H1 | H1];
        [exfalso | reflexivity].
      specialize (Hno (roadKey "S" r c, nodeKey r c, nodeKey (r + 1) c,
                       Nat.eqb r 0)).
      cbn [fst snd] in Hno. rewrite A3 in Hno.
      enough (true = false) by discriminate. apply Hno; [| reflexivity].
      apply in_flat_map. exists r. split; [apply in_seq; lia |].
      apply in_flat_map. exists c. split; [apply in_seq; lia |].
      unfold cellRoads.
      destruct (Z.ltb_spec (Z.of_nat r) (rows - 1)); [| lia].
      rewrite map_app. apply in_or_app. right. now left.
    + destruct (Z.ltb_spec (Z.of_nat c) (cols - 1)) as [H1 | H1];
        [exfalso | reflexivity].
      specialize (Hno (roadKey "E" r c, nodeKey r c, nodeKey r (c + 1),
                       Nat.eqb c 0)).
      cbn [fst snd] in Hno. rewrite A1 in Hno.
      enough (true = false) by discriminate. apply Hno; [| reflexivity].
      apply in_flat_map. exists r. split; [apply in_seq; lia |].
      apply in_flat_map. exists c. split; [apply in_seq; lia |].
      unfold cellRoads.
      destruct (Z.ltb_spec (Z.of_nat c) (cols - 1)); [| lia].
      rewrite map_app. apply in_or_app. left. now left.
    + destruct (Nat.leb_spec 1 c) as [H1 | H1]; [exfalso | reflexivity].
      destruct (includes_tag r (c - 1) West) as [_ (_ & B2 & _)].
      specialize (Hno (roadKey "W" r (c - 1), nodeKey r (c - 1 + 1),
                       nodeKey r (c - 1),
                       (Z.of_nat (c - 1) + 1 =? cols - 1)%Z)).
      cbn [fst snd] in Hno. rewrite B2 in Hno.
      enough (true = false) by discriminate. apply Hno.
      * apply in_flat_map. exists r. split; [apply in_seq; lia |].
        apply in_flat_map. exists (c - 1)%nat. split; [apply in_seq; lia |].
        unfold cellRoads.
        destruct (Z.ltb_spec (Z.of_nat (c - 1)) (cols - 1)); [| lia].
        rewrite map_app. apply in_or_app. left. right. now left.
      * f_equal. lia.
Qed.
End BuiltGrid.

Section FramesAndWiring.
Import SimulationEngine.

Lemma get_frame (k : string) (n' : Intersection.t)
      (ns ns' : Rec.t Intersection.t) :
  map nodeFrame ns' = map nodeFrame ns ->
  Rec.get k ns' = Some n' ->
  exists n, Rec.get k ns = Some n /\ nodeFrame (k, n) = nodeFrame (k, n').
Proof.
  revert ns. induction ns' as [| [k1 n1] ns' IH]; intros [| [k2 n2] ns] E;
    simpl in *; try discriminate.
  injection E as Ek Eid Erow Ecol Ein Eout Erest. subst k2.
  destruct (String.eqb_spec k k1) as [-> | _].
  - intros H. injection H as <-. exists n2. split; [reflexivity |].
    unfold nodeFrame. cbn [fst snd]. congruence.
  - intros H. now apply IH.
Qed.

Lemma nth_frame (rs rs' : list DirectedRoad.t) (h : nat)
      (rd : DirectedRoad.t) :
  map roadFrame rs' = map roadFrame rs ->
  nth_error rs h = Some rd ->
  exists rd', nth_error rs' h = Some rd' /\ roadFrame rd' = roadFrame rd.
Proof.
  intros E H.
  assert (H1 : nth_error (map roadFrame rs') h = Some (roadFrame rd)).
  { rewrite E, nth_error_map, H. reflexivity. }
  rewrite nth_error_map in H1.
  destruct (nth_error rs' h) as [rd' |]; [| discriminate].
  exists rd'. split; [reflexivity |]. cbn [option_map] in H1. congruence.
Qed.

Lemma in_frame (rs rs' : list DirectedRoad.t) (rd' : DirectedRoad.t) :
  map roadFrame rs' = map roadFrame rs ->
  In rd' rs' -> exists rd, In rd rs /\ roadFrame rd = roadFrame rd'.
Proof.
  intros E H. apply (in_map roadFrame) in H. rewrite E in H.
  apply in_map_iff in H. destruct H as (rd & E1 & H). now exists rd.
Qed.

Lemma slotAgrees_frame (rs rs' : list DirectedRoad.t) (k : string)
      (endOf : DirectedRoad.t -> string) (tag : Dir -> string)
      (s : RoadSlots) :
  (forall a b, roadFrame a = roadFrame b -> endOf a = endOf b) ->
  map roadFrame rs' = map roadFrame rs ->
  slotAgrees rs k endOf tag s -> slotAgrees rs' k endOf tag s.
Proof.
  intros Hend E Hold d. specialize (Hold d).
  destruct (getSlot d s) as [h |].
  - destruct Hold as (rd & Hnth & Hk & Hinc).
    destruct (nth_frame rs rs' h rd E Hnth) as (rd' & Hnth' & Ef).
    exists rd'. split; [exact Hnth' | split].
    + now rewrite (Hend _ _ Ef).
    + replace (DirectedRoad.id rd') with (DirectedRoad.id rd); [exact Hinc |].
      unfold roadFrame in Ef. congruence.
  - intros rd' Hin Hk.
    destruct (in_frame rs rs' rd' E Hin) as (rd & Hrd & Ef).
    replace (DirectedRoad.id rd') with (DirectedRoad.id rd).
    + apply Hold; [exact Hrd |]. now rewrite (Hend _ _ Ef).
    + unfold roadFrame in Ef. congruence.
Qed.

Lemma WiredExactly_frame (rs rs' : list DirectedRoad.t)
      (ns ns' : Rec.t Intersection.t) :
  map roadFrame rs' = map roadFrame rs ->
  map nodeFrame ns' = map nodeFrame ns ->
  WiredExactly rs ns -> WiredExactly rs' ns'.
Proof.
  intros Er En Hold k n' Hget.
  destruct (get_frame k n' ns ns' En Hget) as (n & Hn & Ef).
  destruct (Hold k n Hn) as (Hid & Hi & Ho).
  unfold nodeFrame in Ef. cbn [fst snd] in Ef.
  injection Ef as Eid Erow Ecol Ein Eout.
  rewrite <- Eid, <- Ein, <- Eout.
  split; [exact Hid | split].
  - apply (slotAgrees_frame rs); auto.
    intros a b E. unfold roadFrame in E. congruence.
  - apply (slotAgrees_frame rs); auto.
    intros a b E. unfold roadFrame in E. congruence.
Qed.

Lemma frame_updateSignal (m : ControlMode) (rs : list DirectedRoad.t)
      (ns : Rec.t Intersection.t) :
  map nodeFrame (Rec.mapValues (Intersection.updateSignal m rs) ns) =
  map nodeFrame ns.
Proof.
  unfold Rec.mapValues. rewrite map_map. apply map_ext.
  intros [k n]. unfold nodeFrame. cbn [fst snd].
  destruct (updateSignal_slots m rs n) as (-> & -> & ->).
  destruct (updateSignal_place m rs n) as (-> & ->).
  reflexivity.
Qed.

(** The grid in every state reached from the constructor. *)
Lemma reachable_grid (rws cls : Z) (rate : Q) (m : ControlMode) :
  exists e0,
    new rws cls rate m = Some e0 /\
    roads e0 = gridRoads rws cls /\
    map nodeCore (intersections e0) = map nodeCore (gridNodes rws cls) /\
    forall (k : nat) (g : Random),
      map roadFrame (roads (fst (run k g e0))) =
      map roadFrame (gridRoads rws cls) /\
      WiredExactly (roads (fst (run k g e0)))
                   (intersections (fst (run k g e0))) /\
      map fst (intersections (fst (run k g e0))) =
      map fst (gridNodes rws cls) /\
      forall key n,
        Rec.get key (intersections (fst (run k g e0))) = Some n ->
        exists r c, (r < Z.to_nat rws)%nat /\ (c < Z.to_nat cls)%nat /\
                    key = nodeKey r c /\ Intersection.id n = key /\
                    Intersection.row n = r /\ Intersection.col n = c.
Proof.
  destruct (buildGrid_built rws cls) as (g0 & Hb & Hmade & Hcore & Hw).
  unfold new. rewrite Hb. eexists. split; [reflexivity |].
  cbn [roads intersections]. split; [exact Hmade | split; [exact Hcore |]].
  intros k g.
  destruct (run_frame k g
              (mk (fst g0) (snd g0) 0 0 m rws cls rate))
    as (Hr & Hn & _). cbn [roads intersections] in Hr, Hn.
  set (e := fst (run k g (mk (fst g0) (snd g0) 0 0 m rws cls rate))) in *.
  assert (Hkeys0 : map fst (snd g0) = map fst (gridNodes rws cls)).
  { apply (f_equal (map (fun x => fst (fst (fst (fst (fst x))))))) in Hcore.
    rewrite !map_map in Hcore. exact Hcore. }
  split; [now rewrite Hr, Hmade | split; [| split]].
  - now apply (WiredExactly_frame (fst g0) _ (snd g0)).
  - apply (f_equal (map (fun x => fst (fst (fst (fst (fst x))))))) in Hn.
    rewrite !map_map in Hn. cbn [nodeFrame fst] in Hn.
    change (map (fun x : string * Intersection.t => fst x) (intersections e))
      with (map fst (intersections e)) in Hn.
    change (map (fun x : string * Intersection.t => fst x) (snd g0))
      with (map fst (snd g0)) in Hn.
    now rewrite Hn.
  - intros key n Hget.
    destruct (get_frame key n (snd g0) _ Hn Hget) as (n0 & Hget0 & Ef).
    apply get_in in Hget0. apply (in_map nodeCore) in Hget0.
    rewrite Hcore in Hget0. apply in_map_iff in Hget0.
    destruct Hget0 as ([k1 n1] & Ec & Hin1).
    destruct (gridNodes_fresh rws cls k1 n1 Hin1) as (r & c & Hr1 & Hc1 & -> & ->).
    unfold nodeCore in Ec. cbn [fst snd Intersection.id Intersection.row
      Intersection.col Intersection.new] in Ec.
    injection Ec as E1 E2 E3 E4 _ _.
    unfold nodeFrame in Ef. cbn [fst snd] in Ef.
    injection Ef as F1 F2 F3 _ _.
    exists r, c. repeat split; auto; congruence.
Qed.

Lemma slotEmpty_inRoad (rs : list DirectedRoad.t) (ns : Rec.t Intersection.t)
      (k : string) (n : Intersection.t) (d : Dir) :
  WiredExactly rs ns -> Rec.get k ns = Some n ->
  slotEmpty d (Intersection.inRoads n) =
  match Intersection.inRoad rs n d with
  | Some _ => false
  | None => true
  end.
Proof.
  intros Hw Hget. destruct (Hw k n Hget) as (_ & Hin & _).
  specialize (Hin d). unfold slotEmpty, Intersection.inRoad.
  destruct (getSlot d (Intersection.inRoads n)) as [h |]; [| reflexivity].
  destruct Hin as (rd & -> & _). reflexivity.
Qed.
End FramesAndWiring.

Section EntryAndLinks.
Import SimulationEngine.

Variables rows cols : Z.
Variable rs : list DirectedRoad.t.
Variable ns : Rec.t Intersection.t.

Hypothesis frames : map roadFrame rs = map roadFrame (gridRoads rows cols).
Hypothesis wired : WiredExactly rs ns.
Hypothesis keys : map fst ns = map fst (gridNodes rows cols).

Lemma grid_node (r c : nat) :
  (r < Z.to_nat rows)%nat -> (c < Z.to_nat cols)%nat ->
  exists n, Rec.get (nodeKey r c) ns = Some n.
Proof.
  intros Hr Hc. destruct (Rec.get (nodeKey r c) ns) as [n |] eqn:E;
    [now exists n |].
  apply get_none_keys in E. exfalso. apply E. rewrite keys.
  now apply gridNodes_get.
Qed.

Lemma grid_key (k : string) (n : Intersection.t) :
  Rec.get k ns = Some n ->
  exists r c, (r < Z.to_nat rows)%nat /\ (c < Z.to_nat cols)%nat /\
              k = nodeKey r c.
Proof.
  intros H. apply get_in in H. apply (in_map fst) in H. cbn [fst] in H.
  rewrite keys in H. apply in_map_iff in H. destruct H as ([k1 n1] & E & H).
  cbn [fst] in E. subst k1.
  destruct (gridNodes_fresh rows cols k n1 H) as (r & c & Hr & Hc & -> & _).
  now exists r, c.
Qed.

Lemma entry_is_boundary (rd : DirectedRoad.t) :
  In rd rs ->
  exists uNode,
    Rec.get (DirectedRoad.u rd) ns = Some uNode /\
    isEntry rd uNode = DirectedRoad.isBoundary rd.
Proof.
  intros Hin.
  destruct (roads_shape rows cols rs frames rd Hin)
    as (r & c & Hr & Hc & Hshape).
  unfold cellRoads in Hshape.
  assert (Hentry : forall r' c' uNode,
             (r' < Z.to_nat rows)%nat -> (c' < Z.to_nat cols)%nat ->
             Rec.get (nodeKey r' c') ns = Some uNode ->
             forall d, slotEmpty d (Intersection.inRoads uNode) =
                       match inRoadId rows cols r' c' d with
                       | Some _ => false
                       | None => true
                       end).
  { intros r' c' uNode Hr' Hc' Hget d.
    rewrite (slotEmpty_inRoad rs ns _ _ d wired Hget).
    rewrite <- (wiring_in rows cols rs ns frames wired r' c' uNode d Hr' Hc' Hget).
    destruct (Intersection.inRoad rs uNode d); reflexivity. }
  assert (Htags : forall t, In t roadTags ->
             DirectedRoad.id rd = roadKey t r c ->
             includes "R_E" (DirectedRoad.id rd) = String.eqb "E" t /\
             includes "R_W" (DirectedRoad.id rd) = String.eqb "W" t /\
             includes "R_S" (DirectedRoad.id rd) = String.eqb "S" t /\
             includes "R_N" (DirectedRoad.id rd) = String.eqb "N" t).
  { intros t Ht ->.
    repeat split;
      [apply (includes_roadKey "E") | apply (includes_roadKey "W")
       | apply (includes_roadKey "S") | apply (includes_roadKey "N")];
      auto; unfold roadTags; simpl; tauto. }
  repeat match type of Hshape with
         | context [if ?b then _ else _] =>
             let E := fresh "Hcond" in destruct b eqn:E
         end;
    simpl in Hshape;
    repeat match type of Hshape with
           | _ \/ _ => destruct Hshape as [Hshape | Hshape]
           | False => destruct Hshape
           end;
    unfold roadFrame in Hshape;
    cbn [DirectedRoad.id DirectedRoad.u DirectedRoad.v DirectedRoad.isBoundary
         DirectedRoad.new] in Hshape;
    injection Hshape as Eid Eu Ev Eb;
    repeat match goal with
           | H : Z.ltb ?a ?b = true |- _ => apply Z.ltb_lt in H
           end;
    rewrite <- Eu, <- Eb.
  all: match goal with
       | |- exists uNode, Rec.get (nodeKey ?r' ?c') ns = Some uNode /\ _ =>
           destruct (grid_node r' c' ltac:(lia) ltac:(lia)) as (uNode & Hget);
           exists uNode; split; [exact Hget |];
           pose proof (Hentry r' c' uNode ltac:(lia) ltac:(lia) Hget) as Hs
       end.
  all: unfold isEntry;
    rewrite (Hs West), (Hs East), (Hs North), (Hs South);
    match goal with
    | E : roadKey ?t _ _ = DirectedRoad.id _ |- _ =>
        destruct (Htags t ltac:(unfold roadTags; simpl; tauto) (eq_sym E))
          as (-> & -> & -> & ->)
    end;
    unfold inRoadId; cbn [String.eqb Ascii.eqb Bool.eqb andb orb];
    repeat match goal with
           | |- context [Nat.leb ?a ?b] => destruct (Nat.leb_spec a b)
           | |- context [Z.ltb ?a ?b] => destruct (Z.ltb_spec a b)
           | |- context [Nat.eqb ?a ?b] => destruct (Nat.eqb_spec a b)
           | |- context [Z.eqb ?a ?b] => destruct (Z.eqb_spec a b)
           end; try reflexivity; lia.
Qed.

(** Every transfer that [stepFlow] makes at the intersection of row [r],
    column [c] takes from the road that comes in from a direction [d]
    and gives to the road that leaves on the other side, or to the exit
    when the grid has no such road. *)
Lemma stepFlow_links (r c : nat) (n : Intersection.t) (tr : Transfer) :
  (r < Z.to_nat rows)%nat -> (c < Z.to_nat cols)%nat ->
  Rec.get (nodeKey r c) ns = Some n ->
  In tr (Intersection.stepFlow rs n) ->
  exists d,
    Some (DirectedRoad.id (src tr)) = inRoadId rows cols r c d /\
    DirectedRoad.v (src tr) = nodeKey r c /\
    match tgt tr with
    | ToRoad rd =>
        Some (DirectedRoad.id rd) =
        outRoadId rows cols r c (Intersection.targetMap d) /\
        DirectedRoad.u rd = nodeKey r c
    | EXIT => outRoadId rows cols r c (Intersection.targetMap d) = None
    end.
Proof.
  intros Hr Hc Hget Htr. apply stepFlow_in in Htr.
  destruct Htr as (d & _ & Htr). exists d.
  pose proof (wiring_in rows cols rs ns frames wired r c n d Hr Hc Hget) as Wi.
  pose proof (wiring_out rows cols rs ns frames wired r c n
                (Intersection.targetMap d) Hr Hc Hget) as Wo.
  destruct (wired _ _ Hget) as (_ & Hi & Ho).
  specialize (Hi d). specialize (Ho (Intersection.targetMap d)).
  unfold Intersection.stepFlowDir in Htr.
  unfold Intersection.inRoad in *. unfold Intersection.outRoad in *.
  destruct (getSlot d (Intersection.inRoads n)) as [h |]; [| destruct Htr].
  destruct Hi as (source & Hs & Hv & _). rewrite Hs in *.
  cbn [option_map] in Wi.
  destruct (getSlot (Intersection.targetMap d) (Intersection.outRoads n))
    as [h' |].
  - destruct Ho as (target & Ht & Hu & _). rewrite Ht in *.
    cbn [option_map] in Wo.
    destruct (Qltb 0 _); [| destruct Htr].
    destruct Htr as [<- | []]. cbn [src tgt]. auto.
  - destruct Htr as [<- | []]. cbn [src tgt]. cbn [option_map] in Wo. auto.
Qed.
End EntryAndLinks.

Section GridSize.
Import SimulationEngine.

Variables rows cols : Z.

Lemma length_gridNodes :
  List.length (gridNodes rows cols) = (Z.to_nat rows * Z.to_nat cols)%nat.
Proof.
  unfold gridNodes. induction (Z.to_nat rows) as [| n IH]; [reflexivity |].
  rewrite flat_map_seq_S, length_app, IH. unfold rowNodes.
  rewrite length_map, length_seq. lia.
Qed.

Lemma length_cellRoads (r c : nat) :
  List.length (cellRoads rows cols r c) =
  ((if (Z.of_nat c <? cols - 1)%Z then 2 else 0)
   + (if (Z.of_nat r <? rows - 1)%Z then 2 else 0))%nat.
Proof.
  unfold cellRoads. rewrite length_app.
  destruct (Z.of_nat c <? cols - 1)%Z, (Z.of_nat r <? rows - 1)%Z; reflexivity.
Qed.

Lemma length_rowRoads_upto (r n : nat) :
  (n <= Z.to_nat cols)%nat ->
  List.length (flat_map (cellRoads rows cols r) (seq 0 n)) =
  (2 * Nat.min n (Z.to_nat cols - 1)
   + (if (Z.of_nat r <? rows - 1)%Z then 2 * n else 0))%nat.
Proof.
  induction n as [| n IH]; intros Hn.
  - simpl. destruct (Z.of_nat r <? rows - 1)%Z; reflexivity.
  - rewrite flat_map_seq_S, length_app, IH by lia.
    rewrite length_cellRoads.
    destruct (Z.ltb_spec (Z.of_nat n) (cols - 1));
      destruct (Z.of_nat r <? rows - 1)%Z; lia.
Qed.

Lemma length_gridRoads_upto (n : nat) :
  (n <= Z.to_nat rows)%nat ->
  List.length (flat_map (rowRoads rows cols) (seq 0 n)) =
  (2 * (n * (Z.to_nat cols - 1))
   + 2 * (Nat.min n (Z.to_nat rows - 1) * Z.to_nat cols))%nat.
Proof.
  induction n as [| n IH]; intros Hn; [reflexivity |].
  rewrite flat_map_seq_S, length_app, IH by lia.
  unfold rowRoads. rewrite length_rowRoads_upto by lia.
  rewrite (Nat.min_r (Z.to_nat cols)) by lia.
  destruct (Z.ltb_spec (Z.of_nat n) (rows - 1)).
  - rewrite (Nat.min_l n) by lia. rewrite (Nat.min_l (S n)) by lia. lia.
  - rewrite (Nat.min_r n) by lia. rewrite (Nat.min_r (S n)) by lia. lia.
Qed.

Lemma length_gridRoads :
  (1 <= rows)%Z -> (1 <= cols)%Z ->
  Z.of_nat (List.length (gridRoads rows cols)) =
  (2 * (rows * (cols - 1) + (rows - 1) * cols))%Z.
Proof.
  intros Hr Hc. unfold gridRoads. rewrite length_gridRoads_upto by lia.
  rewrite Nat.min_r by lia.
  rewrite Nat2Z.inj_add, !Nat2Z.inj_mul, !Nat2Z.inj_sub by lia.
  rewrite !Z2Nat.id by lia. simpl (Z.of_nat 2). simpl (Z.of_nat 1). ring.
Qed.
End GridSize.

(** X11.  [buildGrid] makes exactly the roads of [gridRoads], in that
    order: row by row and column by column, at each cell first the pair
    [R_E], [R_W] to the right-hand neighbour when there is one, then the
    pair [R_S], [R_N] to the neighbour below when there is one, each road
    with its two ends, its flag and [ROAD_LENGTH_CELLS] empty cells; and
    the intersections are stored row by row under the keys [r-c], each
    with its key as identifier, its row and column, phase 0 and timer
    0. *)
Theorem X11_grid_in_closed_form (rws cls : Z) (rate : Q) (m : ControlMode) :
  exists e0,
    SimulationEngine.new rws cls rate m = Some e0 /\
    SimulationEngine.roads e0 = gridRoads rws cls /\
    map nodeCore (SimulationEngine.intersections e0) =
    map nodeCore (gridNodes rws cls).
Proof.
  destruct (reachable_grid rws cls rate m) as (e0 & Hnew & Hr & Hn & _).
  exists e0. auto.
Qed.

(** X12.  The wiring of the grid, in every state reached from the
    constructor: the intersection of row [r], column [c] is stored under
    [r-c]; the road in its incoming slot W is [R_E_r_(c-1)], in E
    [R_W_r_c], in N [R_S_(r-1)_c], in S [R_N_r_c]; the road in its
    outgoing slot E is [R_E_r_c], in W [R_W_r_(c-1)], in S [R_S_r_c], in
    N [R_N_(r-1)_c]; and a slot is empty exactly when that neighbour is
    off the grid. *)
Theorem X12_wiring_by_position (rws cls : Z) (rate : Q) (m : ControlMode) :
  exists e0,
    SimulationEngine.new rws cls rate m = Some e0 /\
    forall (k : nat) (g : Random) (r c : nat),
      (r < Z.to_nat rws)%nat -> (c < Z.to_nat cls)%nat ->
      let e := fst (SimulationEngine.run k g e0) in
      exists n,
        Rec.get (SimulationEngine.nodeKey r c)
                (SimulationEngine.intersections e) = Some n /\
        Intersection.id n = SimulationEngine.nodeKey r c /\
        Intersection.row n = r /\ Intersection.col n = c /\
        forall d,
          option_map DirectedRoad.id
            (Intersection.inRoad (SimulationEngine.roads e) n d) =
          inRoadId rws cls r c d /\
          option_map DirectedRoad.id
            (Intersection.outRoad (SimulationEngine.roads e) n d) =
          outRoadId rws cls r c d.
Proof.
  destruct (reachable_grid rws cls rate m) as (e0 & Hnew & _ & _ & Hreach).
  exists e0. split; [exact Hnew |]. intros k g r c Hr Hc e.
  destruct (Hreach k g) as (Hf & Hw & Hk & Hnode). fold e in Hf, Hw, Hk, Hnode.
  destruct (grid_node rws cls _ Hk r c Hr Hc) as (n & Hget).
  exists n. split; [exact Hget |].
  destruct (Hnode _ _ Hget) as (r' & c' & _ & _ & E & Hid & Hrow & Hcol).
  apply nodeKey_inj in E. destruct E as [<- <-].
  repeat (split; [assumption |]).
  intros d. split.
  - now apply (wiring_in rws cls _ (SimulationEngine.intersections e)).
  - now apply (wiring_out rws cls _ (SimulationEngine.intersections e)).
Qed.

Lemma X12_witness :
  (1 < Z.to_nat 2)%nat /\ (0 < Z.to_nat 2)%nat /\
  exists e0 n,
    SimulationEngine.new 2 2 1 SMART = Some e0 /\
    Rec.get (SimulationEngine.nodeKey 1 0)
            (SimulationEngine.intersections
               (fst (SimulationEngine.run 5 alwaysSpawn e0))) = Some n /\
    option_map DirectedRoad.id
      (Intersection.inRoad
         (SimulationEngine.roads (fst (SimulationEngine.run 5 alwaysSpawn e0)))
         n North) = inRoadId 2 2 1 0 North.
Proof.
  assert (H1 : (1 < Z.to_nat 2)%nat) by (simpl; lia).
  assert (H0 : (0 < Z.to_nat 2)%nat) by (simpl; lia).
  split; [exact H1 | split; [exact H0 |]].
  destruct (X12_wiring_by_position 2 2 1 SMART) as (e0 & Hnew & Hall).
  destruct (Hall 5%nat alwaysSpawn 1%nat 0%nat H1 H0)
    as (n & Hget & _ & _ & _ & Hd).
  exists e0, n. split; [exact Hnew | split; [exact Hget |]].
  exact (proj1 (Hd North)).
Defined.

(** X13.  The size of the grid: [rows * cols] intersections, and, for
    at least one row and one column, [2 * (rows * (cols - 1) + (rows - 1)
    * cols)] roads, in every state reached from the constructor. *)
Theorem X13_grid_size (rws cls : Z) (rate : Q) (m : ControlMode) :
  (1 <= rws)%Z -> (1 <= cls)%Z ->
  exists e0,
    SimulationEngine.new rws cls rate m = Some e0 /\
    forall (k : nat) (g : Random),
      let e := fst (SimulationEngine.run k g e0) in
      Z.of_nat (List.length (SimulationEngine.intersections e)) =
      (rws * cls)%Z /\
      Z.of_nat (List.length (SimulationEngine.roads e)) =
      (2 * (rws * (cls - 1) + (rws - 1) * cls))%Z.
Proof.
  intros Hr Hc.
  destruct (reachable_grid rws cls rate m) as (e0 & Hnew & _ & _ & Hreach).
  exists e0. split; [exact Hnew |]. intros k g e.
  destruct (Hreach k g) as (Hf & _ & Hk & _). fold e in Hf, Hk.
  split.
  - apply (f_equal (@List.length string)) in Hk.
    rewrite !length_map in Hk. rewrite Hk, length_gridNodes.
    rewrite Nat2Z.inj_mul, !Z2Nat.id by lia. reflexivity.
  - apply (f_equal (@List.length _)) in Hf.
    rewrite !length_map in Hf. rewrite Hf. now apply length_gridRoads.
Qed.

Lemma X13_witness :
  (1 <= 6)%Z /\ (1 <= 6)%Z /\
  exists e0,
    SimulationEngine.new 6 6 (35 # 100) FIXED = Some e0 /\
    Z.of_nat (List.length (SimulationEngine.intersections
                             (fst (SimulationEngine.run 9 alwaysSpawn e0))))
    = 36%Z /\
    Z.of_nat (List.length (SimulationEngine.roads
                             (fst (SimulationEngine.run 9 alwaysSpawn e0))))
    = 120%Z.
Proof.
  assert (H : (1 <= 6)%Z) by lia.
  split; [exact H | split; [exact H |]].
  destruct (X13_grid_size 6 6 (35 # 100) FIXED H H) as (e0 & Hnew & Hall).
  exists e0. split; [exact Hnew |]. exact (Hall 9%nat alwaysSpawn).
Defined.

(** X14.  The entry roads are the roads flagged as boundary: in every
    state reached from the constructor, the upstream intersection of
    every road exists, and the test that [step] makes to decide whether
    the road is an entry road (the tag in its identifier and the empty
    incoming slot of the upstream intersection) gives the value of the
    road's [isBoundary] flag. *)
Theorem X14_entry_roads_are_the_boundary_roads (rws cls : Z) (rate : Q)
        (m : ControlMode) :
  exists e0,
    SimulationEngine.new rws cls rate m = Some e0 /\
    forall (k : nat) (g : Random) (rd : DirectedRoad.t),
      let e := fst (SimulationEngine.run k g e0) in
      In rd (SimulationEngine.roads e) ->
      exists uNode,
        Rec.get (DirectedRoad.u rd) (SimulationEngine.intersections e)
        = Some uNode /\
        SimulationEngine.isEntry rd uNode = DirectedRoad.isBoundary rd.
Proof.
  destruct (reachable_grid rws cls rate m) as (e0 & Hnew & _ & _ & Hreach).
  exists e0. split; [exact Hnew |]. intros k g rd e Hin.
  destruct (Hreach k g) as (Hf & Hw & Hk & _). fold e in Hf, Hw, Hk.
  now apply (entry_is_boundary rws cls _ _ Hf Hw Hk).
Qed.

Lemma X14_witness :
  exists e0 rd,
    SimulationEngine.new 2 2 1 SMART = Some e0 /\
    In rd (SimulationEngine.roads (fst (SimulationEngine.run 0 alwaysSpawn e0))) /\
    exists uNode,
      Rec.get (DirectedRoad.u rd)
              (SimulationEngine.intersections
                 (fst (SimulationEngine.run 0 alwaysSpawn e0))) = Some uNode /\
      SimulationEngine.isEntry rd uNode = DirectedRoad.isBoundary rd.
Proof.
  destruct (X14_entry_roads_are_the_boundary_roads 2 2 1 SMART)
    as (e0 & Hnew & Hall).
  exists e0, (DirectedRoad.new "R_E_0_0" "0-0" "0-1" true).
  assert (Hin : In (DirectedRoad.new "R_E_0_0" "0-0" "0-1" true)
                   (SimulationEngine.roads
                      (fst (SimulationEngine.run 0 alwaysSpawn e0)))).
  { revert Hnew. vm_compute. intros H. injection H as <-. left. reflexivity. }
  split; [exact Hnew | split; [exact Hin |]].
  exact (Hall 0%nat alwaysSpawn _ Hin).
Defined.

(** X15.  Vehicles move between roads that meet, and leave the network
    only at its edge: in every state reached from the constructor, every
    transfer of a tick is made at some intersection [(r, c)] from the
    road that comes into it from a direction [d] and ends there, to the
    road that leaves it on the opposite side and starts there; the
    destination is the exit exactly when the grid has no road on that
    side. *)
Theorem X15_transfers_join_adjoining_roads (rws cls : Z) (rate : Q)
        (m : ControlMode) :
  exists e0,
    SimulationEngine.new rws cls rate m = Some e0 /\
    forall (k : nat) (g : Random) (tr : Transfer),
      let e := fst (SimulationEngine.run k g e0) in
      In tr (tickTransfers e) ->
      exists r c d,
        (r < Z.to_nat rws)%nat /\ (c < Z.to_nat cls)%nat /\
        Some (DirectedRoad.id (src tr)) = inRoadId rws cls r c d /\
        DirectedRoad.v (src tr) = SimulationEngine.nodeKey r c /\
        match tgt tr with
        | ToRoad rd =>
            Some (DirectedRoad.id rd) =
            outRoadId rws cls r c (Intersection.targetMap d) /\
            DirectedRoad.u rd = SimulationEngine.nodeKey r c
        | EXIT => outRoadId rws cls r c (Intersection.targetMap d) = None
        end.
Proof.
  destruct (reachable_grid rws cls rate m) as (e0 & Hnew & _ & _ & Hreach).
  exists e0. split; [exact Hnew |]. intros k g tr e Htr.
  destruct (Hreach k g) as (Hf & Hw & Hk & _). fold e in Hf, Hw, Hk.
  unfold tickTransfers, SimulationEngine.collectTransfers in Htr.
  set (ns' := Rec.mapValues
                (Intersection.updateSignal (SimulationEngine.mode e)
                                           (SimulationEngine.roads e))
                (SimulationEngine.intersections e)) in *.
  assert (Hw' : WiredExactly (SimulationEngine.roads e) ns').
  { apply (WiredExactly_frame (SimulationEngine.roads e) _
             (SimulationEngine.intersections e)); auto.
    apply frame_updateSignal. }
  assert (Hk' : map fst ns' = map fst (gridNodes rws cls)).
  { unfold ns'. now rewrite keys_mapValues. }
  apply in_flat_map in Htr. destruct Htr as (n & Hn & Htr).
  destruct (in_values_get _ n ns') as (key & Hget); auto.
  { rewrite Hk'. apply NoDup_gridKeys. }
  destruct (grid_key rws cls ns' Hk' key n Hget) as (r & c & Hr & Hc & ->).
  destruct (stepFlow_links rws cls _ ns' Hf Hw' r c n tr Hr Hc Hget Htr)
    as (d & H1 & H2 & H3).
  exists r, c, d. auto.
Qed.

Lemma X15_witness :
  exists e0 tr,
    SimulationEngine.new 2 2 1 SMART = Some e0 /\
    In tr (tickTransfers (fst (SimulationEngine.run 0 alwaysSpawn e0))) /\
    exists r c d,
      (r < Z.to_nat 2)%nat /\ (c < Z.to_nat 2)%nat /\
      Some (DirectedRoad.id (src tr)) = inRoadId 2 2 r c d /\
      DirectedRoad.v (src tr) = SimulationEngine.nodeKey r c.
Proof.
  destruct (X15_transfers_join_adjoining_roads 2 2 1 SMART)
    as (e0 & Hnew & Hall).
  assert (Hin : exists tr,
             In tr (tickTransfers (fst (SimulationEngine.run 0 alwaysSpawn e0)))).
  { assert (E : match option_map
                        (fun e => tickTransfers
                                    (fst (SimulationEngine.run 0 alwaysSpawn e)))
                        (SimulationEngine.new 2 2 1 SMART)
                with
                | Some (_ :: _) => true
                | _ => false
                end = true) by (vm_compute; reflexivity).
    rewrite Hnew in E. cbn [option_map] in E.
    destruct (tickTransfers (fst (SimulationEngine.run 0 alwaysSpawn e0)))
      as [| tr rest]; [discriminate E |].
    exists tr. left. reflexivity. }
  destruct Hin as (tr & Hin).
  exists e0, tr. split; [exact Hnew | split; [exact Hin |]].
  destruct (Hall 0%nat alwaysSpawn tr Hin) as (r & c & d & Hr & Hc & H1 & H2 & _).
  exists r, c, d. auto.
Defined.


(** ** The adaptive rule along a run *)

Section AdaptiveRule.
Import PHYSICS SimulationEngine.

Lemma getPressure_signal (rs : list DirectedRoad.t) (n : Intersection.t)
      (p tm : Z) :
  Intersection.getPressure rs (Intersection.withSignal p tm n) =
  Intersection.getPressure rs n.
Proof. reflexivity. Qed.

(** One tick of the adaptive rule: the phase changes exactly when the
    timer has reached [MAX_RED_STEPS], or has reached [MIN_GREEN_STEPS]
    while the red axis has strictly more pressure than the green one. *)
Lemma updateSignal_smart_rule (rs : list DirectedRoad.t)
      (n : Intersection.t) :
  Intersection.phase n = 0%Z \/ Intersection.phase n = 1%Z ->
  let tm := (Intersection.phaseTimer n + 1)%Z in
  let green := if (Intersection.phase n =? 0)%Z
               then fst (Intersection.getPressure rs n)
               else snd (Intersection.getPressure rs n) in
  let red := if (Intersection.phase n =? 0)%Z
             then snd (Intersection.getPressure rs n)
             else fst (Intersection.getPressure rs n) in
  Intersection.phase (Intersection.updateSignal SMART rs n)
  <> Intersection.phase n
  <->
  (MAX_RED_STEPS <= tm)%Z \/ ((MIN_GREEN_STEPS <= tm)%Z /\ green < red).
Proof.
  intros Hbin tm green red. subst tm green red.
  unfold Intersection.updateSignal.
  rewrite getPressure_signal.
  destruct (Intersection.getPressure rs n) as [p_ns p_ew]. cbn [fst snd].
  destruct (Z.leb_spec MAX_RED_STEPS (Intersection.phaseTimer n + 1)) as [H1 | H1].
  - cbn [Intersection.phase Intersection.withSignal].
    split; [intros _; left; exact H1 | intros _; lia].
  - destruct (Z.leb_spec MIN_GREEN_STEPS (Intersection.phaseTimer n + 1))
      as [H2 | H2].
    + destruct Hbin as [-> | ->]; cbn [Z.eqb andb].
      * destruct (Qltb p_ns p_ew) eqn:E;
          cbn [Intersection.phase Intersection.withSignal].
        -- apply Qltb_lt in E.
           split; [intros _; right; split; [exact H2 | exact E]
                  | intros _; discriminate].
        -- apply Qltb_ge in E.
           split; [intros H; now contradiction H | intros [H | [_ H]]; [lia | lra]].
      * destruct (Qltb p_ew p_ns) eqn:E;
          cbn [Intersection.phase Intersection.withSignal].
        -- apply Qltb_lt in E.
           split; [intros _; right; split; [exact H2 | exact E]
                  | intros _; discriminate].
        -- apply Qltb_ge in E.
           split; [intros H; now contradiction H | intros [H | [_ H]]; [lia | lra]].
    + cbn [Intersection.phase Intersection.withSignal].
      split; [intros H; now contradiction H | intros [H | [H _]]; lia].
Qed.

(** On roads without vehicles both pressures are at their floor. *)
Lemma stoppedQueue_empty (r : DirectedRoad.t) :
  Forall (fun c => c == 0) (DirectedRoad.cells r) ->
  DirectedRoad.getStoppedQueue r == 0.
Proof.
  intros H. rewrite stoppedQueue_none; [reflexivity |].
  eapply Forall_impl; [| exact H]. intros c Hc. cbv beta in Hc. lra.
Qed.

Lemma totalCars_empty (r : DirectedRoad.t) :
  Forall (fun c => c == 0) (DirectedRoad.cells r) ->
  DirectedRoad.getTotalCars r == 0.
Proof.
  unfold DirectedRoad.getTotalCars.
  induction 1 as [| c cs Hc _ IH]; [reflexivity |].
  rewrite sumCells_cons, IH, Hc. reflexivity.
Qed.

Lemma addMovement_empty (rs : list DirectedRoad.t) (n : Intersection.t)
      (a b : Dir) (p : Q) :
  Forall (fun r => Forall (fun c => c == 0) (DirectedRoad.cells r)) rs ->
  Intersection.addMovement rs n a b p == p.
Proof.
  intros H. rewrite Forall_forall in H. unfold Intersection.addMovement.
  destruct (Intersection.inRoad rs n a) as [r |] eqn:Ei; [| reflexivity].
  pose proof (stoppedQueue_empty r (H r (inRoad_In rs n a r Ei))) as Hq.
  destruct (Intersection.outRoad rs n b) as [o |] eqn:Eo.
  - pose proof (totalCars_empty o (H o (outRoad_In rs n b o Eo))) as Ht.
    rewrite Hq, Ht. ring.
  - rewrite Hq. ring.
Qed.

Lemma getPressure_empty (rs : list DirectedRoad.t) (n : Intersection.t) :
  Forall (fun r => Forall (fun c => c == 0) (DirectedRoad.cells r)) rs ->
  fst (Intersection.getPressure rs n) == 1 # 10 /\
  snd (Intersection.getPressure rs n) == 1 # 10.
Proof.
  intros H. unfold Intersection.getPressure. cbn [fst snd].
  pose proof (addMovement_empty rs n North South 0 H) as H1.
  pose proof (addMovement_empty rs n South North
                (Intersection.addMovement rs n North South 0) H) as H2.
  pose proof (addMovement_empty rs n East West 0 H) as H3.
  pose proof (addMovement_empty rs n West East
                (Intersection.addMovement rs n East West 0) H) as H4.
  split; split_minmax; lra.
Qed.

(** No entry, no vehicles. *)
Lemma run_empty (rws cls : Z) (rate : Q) (m : ControlMode) (g : Random)
      (e0 : t) (k : nat) :
  new rws cls rate m = Some e0 -> neverBelow rate g ->
  Forall (fun r => Forall (fun c => c == 0) (DirectedRoad.cells r))
         (roads (fst (run k g e0))) /\
  totalThroughput (fst (run k g e0)) == 0.
Proof.
  intros Hnew Hq.
  destruct (new_reachable rws cls rate m)
    as (e0' & Hnew' & Hthr & _ & Hrate & _ & Hfresh & Hreach).
  assert (e0' = e0) by congruence. subst e0'.
  assert (Hsum : carsInNetwork (fst (run k g e0))
                 + totalThroughput (fst (run k g e0)) == 0).
  { rewrite (run_total_quiet k g e0 Hreach); [| now rewrite Hrate].
    rewrite Hthr. unfold carsInNetwork, getSnapshot.
    cbn [snap_stats st_totalCars].
    fold (sumRoads DirectedRoad.getTotalCars (roads e0)).
    rewrite (cars_fresh _ Hfresh). reflexivity. }
  destruct (Hreach k g) as [Hok _].
  pose proof (cars_nonneg _ Hok) as Hc.
  assert (Ht : 0 <= totalThroughput (fst (run k g e0))).
  { apply run_throughput_nonneg; [intros j g'; apply Hreach |].
    rewrite Hthr. apply Qle_refl. }
  split; [apply cars_zero; [exact Hok | lra] | lra].
Qed.

Variable e0 : t.
Variable g : Random.
Variable key : string.

Hypothesis key_present : Rec.get key (intersections e0) <> None.
Hypothesis fresh_signals :
  Forall (fun n => Intersection.phase n = 0%Z /\
                   Intersection.phaseTimer n = 0%Z)
         (Rec.values (intersections e0)).
Hypothesis smart : mode e0 = SMART.

Lemma phase_binary (k : nat) :
  phaseAfter e0 g key k = 0%Z \/ phaseAfter e0 g key k = 1%Z.
Proof.
  unfold phaseAfter, nodeAt.
  pose proof (run_has k g e0 key key_present) as Hhas.
  destruct (Rec.get key (intersections (fst (run k g e0)))) as [n |] eqn:E;
    [| congruence].
  apply get_in_values in E.
  assert (Hb : Forall (fun n => Intersection.phase n = 0%Z \/
                                Intersection.phase n = 1%Z)
                      (Rec.values (intersections (fst (run k g e0))))).
  { apply run_binary. eapply Forall_impl; [| exact fresh_signals].
    intros n0 [Hp _]. now left. }
  rewrite Forall_forall in Hb. now apply Hb.
Qed.

Lemma smart_rule (k : nat) :
  flipsAt e0 g key (S k) <->
  (MAX_RED_STEPS <= timerAfter e0 g key k + 1)%Z \/
  ((MIN_GREEN_STEPS <= timerAfter e0 g key k + 1)%Z /\
   greenPressure e0 g key k < redPressure e0 g key k).
Proof.
  unfold flipsAt. replace (S k - 1)%nat with k by lia.
  pose proof (updateSignal_smart_rule (roads (fst (run k g e0)))
                (nodeAt (fst (run k g e0)) key) (phase_binary k)) as H.
  cbv zeta in H.
  unfold greenPressure, redPressure, pressureAt, timerAfter.
  unfold phaseAfter at 1 2. unfold phaseAfter in H.
  rewrite (signal_next e0 g key key_present k), smart.
  unfold phaseAfter. rewrite <- H.
  split; [intros [_ Hne]; exact Hne | intros Hne; split; [lia | exact Hne]].
Qed.

(** With a tie at every tick the adaptive rule runs the cycle of
    [MAX_RED_STEPS]. *)
Lemma tie_closed_form :
  (forall k, ~ greenPressure e0 g key k < redPressure e0 g key k) ->
  forall k,
    timerAfter e0 g key k = (Z.of_nat k mod MAX_RED_STEPS)%Z /\
    phaseAfter e0 g key k = ((Z.of_nat k / MAX_RED_STEPS) mod 2)%Z.
Proof.
  intros Htie. unfold MAX_RED_STEPS.
  induction k as [| k [IHt IHp]].
  - destruct (signal_start e0 g key key_present fresh_signals) as [-> ->].
    split; reflexivity.
  - pose proof (smart_rule k) as Hrule. unfold MAX_RED_STEPS, MIN_GREEN_STEPS in Hrule.
    pose proof (smart_tick e0 g key key_present k smart) as Htick.
    pose proof (phase_binary k) as Hb. pose proof (phase_binary (S k)) as Hb'.
    unfold flipsAt in Hrule. replace (S k - 1)%nat with k in Hrule by lia.
    rewrite Nat2Z.inj_succ.
    destruct (Z_le_gt_dec 24 (timerAfter e0 g key k + 1)) as [H | H].
    + assert (Hne : phaseAfter e0 g key (S k) <> phaseAfter e0 g key k).
      { apply Hrule. now left. }
      destruct Htick as [(_ & Ht & _) | (Heq & _)]; [| contradiction].
      rewrite Ht. rewrite IHt in H. rewrite IHp in Hb, Hne.
      split; [Z.div_mod_to_equations; lia |].
      destruct Hb as [Hb | Hb], Hb' as [Hb' | Hb']; rewrite Hb in *;
        rewrite Hb' in *; try congruence; Z.div_mod_to_equations; lia.
    + assert (Heq : phaseAfter e0 g key (S k) = phaseAfter e0 g key k).
      { destruct (Z.eq_dec (phaseAfter e0 g key (S k)) (phaseAfter e0 g key k))
          as [E | Hne]; [exact E | exfalso].
        assert (Hf : (1 <= S k)%nat /\
                     phaseAfter e0 g key (S k) <> phaseAfter e0 g key k)
          by (split; [lia | exact Hne]).
        apply Hrule in Hf. destruct Hf as [Hf | [_ Hf]]; [lia |].
        exact (Htie k Hf). }
      destruct Htick as [(Hne & _) | (_ & Ht & _)]; [contradiction |].
      rewrite Ht, Heq, IHt, IHp. rewrite IHt in H.
      split; Z.div_mod_to_equations; lia.
Qed.
End AdaptiveRule.

(** X16.  The adaptive rule along a run: for an engine built in SMART
    mode, any draws and any intersection, tick [k + 1] changes the phase
    exactly when the timer, advanced by one, has reached
    [MAX_RED_STEPS], or has reached [MIN_GREEN_STEPS] while the pressure
    of the red axis is strictly greater than that of the green axis
    (both computed on the roads as tick [k] left them); a tie keeps the
    phase. *)
Theorem X16_adaptive_rule (rws cls : Z) (rate : Q) (g : Random) :
  exists e0,
    SimulationEngine.new rws cls rate SMART = Some e0 /\
    forall key,
      Rec.get key (SimulationEngine.intersections e0) <> None ->
      forall k : nat,
        flipsAt e0 g key (S k) <->
        (PHYSICS.MAX_RED_STEPS <= timerAfter e0 g key k + 1)%Z \/
        ((PHYSICS.MIN_GREEN_STEPS <= timerAfter e0 g key k + 1)%Z /\
         greenPressure e0 g key k < redPressure e0 g key k).
Proof.
  destruct (new_ok rws cls rate SMART)
    as (e0 & Hnew & _ & Hgrid & _ & _ & Hmode & _).
  exists e0. split; [exact Hnew |]. intros key Hkey k.
  pose proof (grid_signals _ _ _ Hgrid) as Hsig. cbn [snd] in Hsig.
  now apply smart_rule.
Qed.

Lemma X16_witness :
  exists e0,
    SimulationEngine.new 2 2 1 SMART = Some e0 /\
    Rec.get "0-1"%string (SimulationEngine.intersections e0) <> None /\
    (flipsAt e0 alwaysSpawn "0-1"%string 4 <->
     (PHYSICS.MAX_RED_STEPS <= timerAfter e0 alwaysSpawn "0-1"%string 3 + 1)%Z \/
     ((PHYSICS.MIN_GREEN_STEPS <= timerAfter e0 alwaysSpawn "0-1"%string 3 + 1)%Z /\
      greenPressure e0 alwaysSpawn "0-1"%string 3
      < redPressure e0 alwaysSpawn "0-1"%string 3)).
Proof.
  destruct (X16_adaptive_rule 2 2 1 alwaysSpawn) as (e0 & Hnew & Hall).
  exists e0.
  assert (Hkey : Rec.get "0-1"%string (SimulationEngine.intersections e0) <> None).
  { revert Hnew. vm_compute. intros H. injection H as <-. discriminate. }
  split; [exact Hnew | split; [exact Hkey |]].
  exact (Hall "0-1"%string Hkey 3%nat).
Defined.

(** X17.  Without traffic the adaptive controller runs a fixed cycle of
    [MAX_RED_STEPS]: when no draw is below the entry rate, every
    intersection of an engine built in SMART mode has timer [k mod 24]
    and phase [(k / 24) mod 2] after [k] ticks. *)
Theorem X17_adaptive_idles_at_max_red (rws cls : Z) (rate : Q) (g : Random) :
  neverBelow rate g ->
  exists e0,
    SimulationEngine.new rws cls rate SMART = Some e0 /\
    forall key,
      Rec.get key (SimulationEngine.intersections e0) <> None ->
      forall k : nat,
        timerAfter e0 g key k = (Z.of_nat k mod PHYSICS.MAX_RED_STEPS)%Z /\
        phaseAfter e0 g key k =
        ((Z.of_nat k / PHYSICS.MAX_RED_STEPS) mod 2)%Z.
Proof.
  intros Hq.
  destruct (new_ok rws cls rate SMART)
    as (e0 & Hnew & _ & Hgrid & _ & _ & Hmode & _).
  exists e0. split; [exact Hnew |]. intros key Hkey.
  pose proof (grid_signals _ _ _ Hgrid) as Hsig. cbn [snd] in Hsig.
  apply tie_closed_form; auto.
  intros k. unfold greenPressure, redPressure, pressureAt.
  destruct (run_empty rws cls rate SMART g e0 k Hnew Hq) as [Hempty _].
  destruct (getPressure_empty _
              (nodeAt (fst (SimulationEngine.run k g e0)) key) Hempty)
    as [H1 H2].
  destruct (phaseAfter e0 g key k =? 0)%Z; lra.
Qed.

Lemma X17_witness :
  neverBelow 0 alwaysSpawn /\
  exists e0,
    SimulationEngine.new 2 2 0 SMART = Some e0 /\
    Rec.get "1-1"%string (SimulationEngine.intersections e0) <> None /\
    timerAfter e0 alwaysSpawn "1-1"%string 30 =
    (Z.of_nat 30 mod PHYSICS.MAX_RED_STEPS)%Z /\
    phaseAfter e0 alwaysSpawn "1-1"%string 30 =
    ((Z.of_nat 30 / PHYSICS.MAX_RED_STEPS) mod 2)%Z.
Proof.
  assert (H : neverBelow 0 alwaysSpawn) by (intros i; apply Qle_refl).
  split; [exact H |].
  destruct (X17_adaptive_idles_at_max_red 2 2 0 alwaysSpawn H)
    as (e0 & Hnew & Hall).
  exists e0.
  assert (Hkey : Rec.get "1-1"%string (SimulationEngine.intersections e0) <> None).
  { revert Hnew. vm_compute. intros H0. injection H0 as <-. discriminate. }
  split; [exact Hnew | split; [exact Hkey |]].
  exact (Hall "1-1"%string Hkey 30%nat).
Defined.


(** ** The history of the application and the drawing of the grid *)

Section AppHistory.
Import SimulationEngine App.

Lemma length_pushHistory (prev : list ComparisonStats)
      (item : ComparisonStats) :
  (List.length prev <= 200)%nat ->
  List.length (pushHistory prev item) = Nat.min (S (List.length prev)) 200.
Proof.
  intros H. unfold pushHistory. cbv zeta.
  destruct (Nat.ltb_spec 200 (List.length (prev ++ [item]))) as [H1 | H1];
    rewrite length_app in H1; cbn [List.length] in H1.
  - rewrite length_skipn, length_app. cbn [List.length]. lia.
  - rewrite length_app. cbn [List.length]. lia.
Qed.

Lemma steps_pushHistory (prev : list ComparisonStats)
      (item : ComparisonStats) (a : nat) :
  (List.length prev <= 200)%nat ->
  map cs_step prev = map Z.of_nat (seq a (List.length prev)) ->
  cs_step item = Z.of_nat (a + List.length prev) ->
  map cs_step (pushHistory prev item) =
  map Z.of_nat
      (seq (a + S (List.length prev) - Nat.min (S (List.length prev)) 200)
           (Nat.min (S (List.length prev)) 200)).
Proof.
  intros Hlen Hsteps Hitem. unfold pushHistory. cbv zeta.
  assert (Hall : map cs_step (prev ++ [item]) =
                 map Z.of_nat (seq a (S (List.length prev)))).
  { rewrite map_app, Hsteps, seq_S, map_app. simpl. now rewrite Hitem. }
  destruct (Nat.ltb_spec 200 (List.length (prev ++ [item]))) as [H1 | H1];
    rewrite length_app in H1; cbn [List.length] in H1.
  - assert (E : List.length prev = 200%nat) by lia.
    rewrite <- skipn_map, Hall. rewrite E.
    rewrite Nat.min_r by lia.
    replace (a + 201 - 200)%nat with (S a) by lia. reflexivity.
  - rewrite Hall. rewrite Nat.min_l by lia.
    replace (a + S (List.length prev) - S (List.length prev))%nat with a by lia.
    reflexivity.
Qed.

Lemma last_pushHistory (prev : list ComparisonStats)
      (item : ComparisonStats) :
  last (pushHistory prev item) item = item /\ pushHistory prev item <> [].
Proof.
  unfold pushHistory. cbv zeta.
  destruct (Nat.ltb_spec 200 (List.length (prev ++ [item]))) as [H | H].
  - destruct prev as [| p prev]; [simpl in H; lia |].
    cbn [app skipn]. split; [apply last_last |].
    destruct prev; discriminate.
  - split; [apply last_last |]. destruct prev; discriminate.
Qed.

(** What holds of the application after [j] due frames. *)
Let AppOK (j : nat) (a : App.t) : Prop :=
  EngineOK (fixedEngine a) /\ EngineOK (smartEngine a) /\
  stepCount (fixedEngine a) = Z.of_nat j /\
  stepCount (smartEngine a) = Z.of_nat j /\
  fixedSnapshot a = getSnapshot (fixedEngine a) /\
  smartSnapshot a = getSnapshot (smartEngine a) /\
  List.length (history a) = Nat.min j 200 /\
  map cs_step (history a) =
  map Z.of_nat (seq (j - Nat.min j 200 + 1) (Nat.min j 200)) /\
  ((1 <= j)%nat ->
   last (history a) (newItem (fixedSnapshot a) (smartSnapshot a)) =
   newItem (fixedSnapshot a) (smartSnapshot a) /\ history a <> []).

Lemma frame_ok (j : nat) (g : Random) (a : App.t) :
  AppOK j a -> AppOK (S j) (fst (frame g a)).
Proof.
  intros (Hf & Hs & Cf & Cs & Sf & Ss & Hlen & Hsteps & _). unfold frame.
  pose proof (step_ok g (fixedEngine a) Hf) as Hf'.
  destruct (step_fields g (fixedEngine a)) as (_ & _ & _ & Cf' & _).
  destruct (step g (fixedEngine a)) as [fe g1]. cbn [fst] in Hf', Cf'.
  pose proof (step_ok g1 (smartEngine a) Hs) as Hs'.
  destruct (step_fields g1 (smartEngine a)) as (_ & _ & _ & Cs' & _).
  destruct (step g1 (smartEngine a)) as [se g2]. cbn [fst] in Hs', Cs'.
  unfold AppOK. cbv zeta.
  cbn [fst fixedEngine smartEngine fixedSnapshot smartSnapshot history].
  assert (Hle : (List.length (history a) <= 200)%nat) by lia.
  split; [exact Hf' | split; [exact Hs' |]].
  split; [rewrite Cf', Cf; lia | split; [rewrite Cs', Cs; lia |]].
  split; [reflexivity | split; [reflexivity |]].
  split; [| split].
  - rewrite length_pushHistory by exact Hle. rewrite Hlen. lia.
  - rewrite (steps_pushHistory _ _ (j - Nat.min j 200 + 1)); auto.
    + rewrite Hlen. f_equal. f_equal; lia.
    + now rewrite Hlen.
    + unfold newItem. cbn [cs_step]. unfold getSnapshot.
      cbn [snap_stats st_step]. rewrite Cf', Cf, Hlen. lia.
  - intros _. apply last_pushHistory.
Qed.

Lemma frames_ok (n j : nat) (g : Random) (a : App.t) :
  AppOK j a -> AppOK (j + n) (fst (frames n g a)).
Proof.
  revert j g a. induction n as [| n IH]; intros j g a H.
  - now rewrite Nat.add_0_r.
  - cbn [frames]. pose proof (frame_ok j g a H) as H1.
    destruct (frame g a) as [a' g']. cbn [fst] in H1.
    replace (j + S n)%nat with (S j + n)%nat by lia. now apply IH.
Qed.

Lemma init_ok (gridSize : Z) :
  exists a0, initSimulation gridSize = Some a0 /\ AppOK 0 a0.
Proof.
  unfold initSimulation.
  destruct (new_ok gridSize gridSize INFLOW FIXED)
    as (fe & -> & Hf & _ & _ & Cf & _).
  destruct (new_ok gridSize gridSize INFLOW SMART)
    as (se & -> & Hs & _ & _ & Cs & _).
  eexists. split; [reflexivity |]. unfold AppOK.
  cbn [fixedEngine smartEngine fixedSnapshot smartSnapshot history].
  repeat (split; [assumption || reflexivity |]). intros Hk. lia.
Qed.

Lemma app_after (gridSize : Z) :
  exists a0, initSimulation gridSize = Some a0 /\
             forall k g, AppOK k (fst (frames k g a0)).
Proof.
  destruct (init_ok gridSize) as (a0 & Hinit & H0).
  exists a0. split; [exact Hinit |]. intros k g.
  exact (frames_ok k 0 g a0 H0).
Qed.

Lemma app_history (gridSize : Z) :
  exists a0,
    initSimulation gridSize = Some a0 /\
    forall (k : nat) (g : Random),
      let a := fst (frames k g a0) in
      List.length (history a) = Nat.min k 200 /\
      map cs_step (history a) =
      map Z.of_nat (seq (k - Nat.min k 200 + 1) (Nat.min k 200)) /\
      Charts.chartData (history a) = history a /\
      stepCount (fixedEngine a) = Z.of_nat k /\
      stepCount (smartEngine a) = Z.of_nat k /\
      fixedSnapshot a = getSnapshot (fixedEngine a) /\
      smartSnapshot a = getSnapshot (smartEngine a).
Proof.
  destruct (app_after gridSize) as (a0 & Hinit & Hall).
  exists a0. split; [exact Hinit |]. intros k g a.
  destruct (Hall k g) as (_ & _ & Cf & Cs & Sf & Ss & Hlen & Hsteps & _).
  fold a in Cf, Cs, Sf, Ss, Hlen, Hsteps.
  repeat (split; [assumption |]). split; [| auto].
  unfold Charts.chartData. rewrite Hlen.
  replace (Nat.min k 200 - 200)%nat with 0%nat by lia. reflexivity.
Qed.

Lemma waitReduction_bounds (last : ComparisonStats) :
  0 <= fixedStopped last -> 0 <= smartStopped last ->
  match waitReduction last with
  | None => fixedStopped last == 0
  | Some imp =>
      0 < fixedStopped last /\ imp <= 100 /\
      (imp == 100 <-> smartStopped last == 0) /\
      (0 <= imp <-> smartStopped last <= fixedStopped last)
  end.
Proof.
  intros Hf Hs. unfold waitReduction.
  destruct (Qeq_bool (fixedStopped last) 0) eqn:E.
  - now apply Qeq_bool_iff in E.
  - assert (Hne : ~ fixedStopped last == 0).
    { intros H. apply Qeq_bool_iff in H. congruence. }
    assert (Hpos : 0 < fixedStopped last) by lra.
    set (f := fixedStopped last) in *. set (s := smartStopped last) in *.
    assert (Ediv : (f - s) / f * 100 == 100 - 100 * (s / f)) by (field; exact Hne).
    assert (Hsf : 0 <= s / f).
    { apply Qle_shift_div_l; [exact Hpos | lra]. }
    assert (Hmul : s / f * f == s) by (field; exact Hne).
    split; [exact Hpos |]. rewrite Ediv.
    split; [lra | split; split; intros H].
    + assert (s / f == 0) by lra. rewrite <- Hmul, H0. ring.
    + assert (E0 : s / f == 0) by (rewrite H; field; exact Hne). lra.
    + assert (H1 : s / f <= 1) by lra.
      assert (H2 : s / f * f <= 1 * f) by (apply Qmult_le_compat_r; lra).
      rewrite Hmul in H2. lra.
    + assert (H1 : s / f <= 1).
      { apply Qle_shift_div_r; [exact Hpos | lra]. }
      lra.
Qed.

Lemma app_wait_reduction (gridSize : Z) :
  exists a0,
    initSimulation gridSize = Some a0 /\
    forall (k : nat) (g : Random),
      (1 <= k)%nat ->
      let a := fst (frames k g a0) in
      let item := newItem (fixedSnapshot a) (smartSnapshot a) in
      history a <> [] /\ last (history a) item = item /\
      match waitReduction item with
      | None => fixedStopped item == 0
      | Some imp =>
          0 < fixedStopped item /\ imp <= 100 /\
          (imp == 100 <-> smartStopped item == 0) /\
          (0 <= imp <-> smartStopped item <= fixedStopped item)
      end.
Proof.
  destruct (app_after gridSize) as (a0 & Hinit & Hall).
  exists a0. split; [exact Hinit |]. intros k g Hk a item.
  destruct (Hall k g) as (Hf & Hs & _ & _ & Sf & Ss & _ & _ & Hlast).
  fold a in Hf, Hs, Sf, Ss, Hlast. destruct (Hlast Hk) as [Hl Hne].
  split; [exact Hne | split; [exact Hl |]].
  apply waitReduction_bounds; unfold item, newItem;
    cbn [fixedStopped smartStopped]; rewrite ?Sf, ?Ss.
  - now destruct (snapshot_bounds _ Hf).
  - now destruct (snapshot_bounds _ Hs).
Qed.
End AppHistory.

Section Drawing.
Import PHYSICS SimulationEngine TrafficGrid.

Lemma circle_inside (rws cls : Z) (nd : IntersectionData) :
  (Z.of_nat (nd_row nd) < rws)%Z -> (Z.of_nat (nd_col nd) < cls)%Z ->
  circleInside (width cls) (height rws cls) (nodeCircle cls nd).
Proof.
  intros Hr Hc.
  unfold circleInside, nodeCircle, getCoords, width, height, getVisualConfig.
  destruct (14 <? cls)%Z; [| destruct (8 <? cls)%Z];
    cbn [cellSize radius padding]; lia.
Qed.

Lemma snapshot_nodes_placed (rws cls : Z) (rate : Q) (m : ControlMode) :
  exists e0,
    new rws cls rate m = Some e0 /\
    forall (k : nat) (g : Random),
      Forall (fun nd => (Z.of_nat (nd_row nd) < rws)%Z /\
                        (Z.of_nat (nd_col nd) < cls)%Z /\
                        nd_id nd = nodeKey (nd_row nd) (nd_col nd))
             (snap_intersections (getSnapshot (fst (run k g e0)))).
Proof.
  destruct (reachable_grid rws cls rate m) as (e0 & Hnew & _ & _ & Hreach).
  exists e0. split; [exact Hnew |]. intros k g.
  destruct (Hreach k g) as (_ & _ & Hk & Hnode).
  unfold getSnapshot. cbn [snap_intersections].
  apply Forall_map, Forall_forall. intros n Hn.
  destruct (in_values_get _ n (intersections (fst (run k g e0))))
    as (key & Hget); auto.
  { rewrite Hk. apply NoDup_gridKeys. }
  destruct (Hnode key n Hget) as (r & c & Hr & Hc & -> & Hid & Hrow & Hcol).
  unfold nodeSnapshot. cbn [nd_row nd_col nd_id].
  rewrite Hrow, Hcol, Hid. repeat split; lia.
Qed.

Lemma density_thresholds (q : Q) :
  (Qltb (4 # 10)
        (q / (inject_Z (Z.of_nat ROAD_LENGTH_CELLS) * MAX_CARS_PER_CELL)) = true
   <-> 28 < q) /\
  (Qltb (1 # 10)
        (q / (inject_Z (Z.of_nat ROAD_LENGTH_CELLS) * MAX_CARS_PER_CELL)) = true
   <-> 7 < q).
Proof.
  assert (E : q / (inject_Z (Z.of_nat ROAD_LENGTH_CELLS) * MAX_CARS_PER_CELL)
              == q * (1 # 70)).
  { change (inject_Z (Z.of_nat ROAD_LENGTH_CELLS) * MAX_CARS_PER_CELL)
      with (70 # 1).
    unfold Qdiv. change (/ (70 # 1)) with (1 # 70). reflexivity. }
  rewrite !Qltb_lt, E. split; split; intros H; lra.
Qed.

Lemma roadColor_thresholds (rd : RoadData) :
  (getRoadColor rd = COLORS.ROAD_JAMMED <-> 28 < rd_stoppedQueue rd) /\
  (getRoadColor rd = "#eab308"%string <->
   7 < rd_stoppedQueue rd /\ rd_stoppedQueue rd <= 28) /\
  (getRoadColor rd = COLORS.ROAD_EMPTY <-> rd_stoppedQueue rd <= 7).
Proof.
  destruct (density_thresholds (rd_stoppedQueue rd)) as [H4 H1].
  unfold getRoadColor. cbv zeta.
  destruct (Qltb (4 # 10) _).
  - assert (E4 : 28 < rd_stoppedQueue rd) by (apply H4; reflexivity).
    split; [| split]; split; intros Hx; try discriminate Hx;
      try reflexivity; try lra; try (destruct Hx; lra); try (split; lra).
  - assert (N4 : ~ 28 < rd_stoppedQueue rd)
      by (intros H; apply H4 in H; discriminate).
    destruct (Qltb (1 # 10) _).
    + assert (E1 : 7 < rd_stoppedQueue rd) by (apply H1; reflexivity).
      split; [| split]; split; intros Hx; try discriminate Hx;
      try reflexivity; try lra; try (destruct Hx; lra); try (split; lra).
    + assert (N1 : ~ 7 < rd_stoppedQueue rd)
        by (intros H; apply H1 in H; discriminate).
      split; [| split]; split; intros Hx; try discriminate Hx;
      try reflexivity; try lra; try (destruct Hx; lra); try (split; lra).
Qed.

Lemma queue_by_cells (cs : list Q) :
  cellsWithin 0 MAX_CARS_PER_CELL cs ->
  sumCells (filter (fun c => Qltb 2 c) cs) <=
  inject_Z (Z.of_nat (queuedCells cs)) * MAX_CARS_PER_CELL.
Proof.
  intros H. unfold queuedCells.
  apply (sumCells_bounds 0 MAX_CARS_PER_CELL).
  unfold cellsWithin in *. apply Forall_forall. intros c Hc.
  apply filter_In in Hc. destruct Hc as [Hc _].
  rewrite Forall_forall in H. now apply H.
Qed.

Lemma queue_needs_cells (cs : list Q) (n : nat) :
  cellsWithin 0 MAX_CARS_PER_CELL cs ->
  inject_Z (Z.of_nat n) * MAX_CARS_PER_CELL
  < sumCells (filter (fun c => Qltb 2 c) cs) ->
  (n < queuedCells cs)%nat.
Proof.
  intros H Hlt. pose proof (queue_by_cells cs H) as Hle.
  destruct (le_lt_dec (queuedCells cs) n) as [Hn | Hn]; [exfalso | exact Hn].
  assert (Hq : inject_Z (Z.of_nat (queuedCells cs)) <= inject_Z (Z.of_nat n)).
  { rewrite <- Zle_Qle. lia. }
  unfold MAX_CARS_PER_CELL in *.
  set (a := inject_Z (Z.of_nat (queuedCells cs))) in *.
  set (b := inject_Z (Z.of_nat n)) in *. lra.
Qed.

Lemma snapshot_colours (e : t) :
  EngineOK e ->
  Forall (fun rd =>
            (getRoadColor rd = COLORS.ROAD_JAMMED ->
             (5 <= queuedCells (rd_cells rd))%nat) /\
            (getRoadColor rd = "#eab308"%string ->
             (2 <= queuedCells (rd_cells rd))%nat) /\
            (queuedCells (rd_cells rd) = 0%nat ->
             getRoadColor rd = COLORS.ROAD_EMPTY))
         (snap_roads (getSnapshot e)).
Proof.
  intros [_ Hcells]. unfold getSnapshot. cbn [snap_roads].
  apply Forall_map. eapply Forall_impl; [| exact Hcells].
  intros r Hr. cbv beta in Hr.
  destruct (roadColor_thresholds (roadSnapshot r)) as (HJ & HY & HE).
  unfold roadSnapshot in *. cbn [rd_cells rd_stoppedQueue] in *.
  unfold DirectedRoad.getStoppedQueue in *.
  split; [| split].
  - intros Hc. apply HJ in Hc.
    apply (queue_needs_cells _ 4 Hr). unfold MAX_CARS_PER_CELL.
    change (inject_Z (Z.of_nat 4) * 7) with (28 # 1). exact Hc.
  - intros Hc. apply HY in Hc. destruct Hc as [Hc _].
    apply (queue_needs_cells _ 1 Hr). unfold MAX_CARS_PER_CELL.
    change (inject_Z (Z.of_nat 1) * 7) with (7 # 1). exact Hc.
  - intros Hz. apply HE. unfold queuedCells in Hz.
    apply length_zero_iff_nil in Hz. rewrite Hz.
    unfold sumCells. simpl. lra.
Qed.
End Drawing.

(** X18.  The history of the application keeps the last 200 items:
    after [k] due frames from [initSimulation] it holds [min k 200]
    items, their steps are the consecutive tick numbers ending at [k],
    the slice that the charts take of it is the whole of it, both
    engines have made [k] ticks and the two snapshots are those of the
    engines. *)
Theorem X18_history_keeps_last_200 (gridSize : Z) :
  exists a0,
    App.initSimulation gridSize = Some a0 /\
    forall (k : nat) (g : Random),
      let a := fst (App.frames k g a0) in
      List.length (App.history a) = Nat.min k 200 /\
      map App.cs_step (App.history a) =
      map Z.of_nat (seq (k - Nat.min k 200 + 1) (Nat.min k 200)) /\
      Charts.chartData (App.history a) = App.history a /\
      SimulationEngine.stepCount (App.fixedEngine a) = Z.of_nat k /\
      SimulationEngine.stepCount (App.smartEngine a) = Z.of_nat k /\
      App.fixedSnapshot a = SimulationEngine.getSnapshot (App.fixedEngine a) /\
      App.smartSnapshot a = SimulationEngine.getSnapshot (App.smartEngine a).
Proof. apply app_history. Qed.

(** X19.  The "Wait Reduction" figure never divides by zero and never
    exceeds 100: after at least one due frame the history is not empty,
    its last item is the one made from the two current snapshots, and
    for it the figure is the literal "0%" only if the fixed-time engine
    has no stopped vehicles, and otherwise a number of at most 100, which
    is 100 exactly when the adaptive engine has no stopped vehicles and
    is negative exactly when the adaptive engine has more stopped
    vehicles than the fixed-time one. *)
Theorem X19_wait_reduction_at_most_100 (gridSize : Z) :
  exists a0,
    App.initSimulation gridSize = Some a0 /\
    forall (k : nat) (g : Random),
      (1 <= k)%nat ->
      let a := fst (App.frames k g a0) in
      let item := App.newItem (App.fixedSnapshot a) (App.smartSnapshot a) in
      App.history a <> [] /\ last (App.history a) item = item /\
      match App.waitReduction item with
      | None => App.fixedStopped item == 0
      | Some imp =>
          0 < App.fixedStopped item /\ imp <= 100 /\
          (imp == 100 <-> App.smartStopped item == 0) /\
          (0 <= imp <-> App.smartStopped item <= App.fixedStopped item)
      end.
Proof. apply app_wait_reduction. Qed.

Lemma X19_witness :
  (1 <= 3)%nat /\
  exists a0,
    App.initSimulation 2 = Some a0 /\
    App.history (fst (App.frames 3 alwaysSpawn a0)) <> [].
Proof.
  assert (H : (1 <= 3)%nat) by lia.
  split; [exact H |].
  destruct (X19_wait_reduction_at_most_100 2) as (a0 & Hinit & Hall).
  exists a0. split; [exact Hinit |].
  exact (proj1 (Hall 3%nat alwaysSpawn H)).
Defined.

(** X20.  Every intersection is drawn inside the canvas: in the
    snapshot of any state reached from the constructor, drawn with the
    rows and columns of the engine, the circle of every intersection
    (centre [getCoords(row, col)], radius [NODE_RADIUS]) lies within the
    [width] and [height] of the SVG; and every intersection listed has
    a row below [rows], a column below [cols] and the identifier
    [row-col]. *)
Theorem X20_intersections_inside_canvas (rws cls : Z) (rate : Q)
        (m : ControlMode) :
  exists e0,
    SimulationEngine.new rws cls rate m = Some e0 /\
    forall (k : nat) (g : Random),
      Forall (fun nd =>
                circleInside (TrafficGrid.width cls)
                             (TrafficGrid.height rws cls)
                             (TrafficGrid.nodeCircle cls nd) /\
                (Z.of_nat (nd_row nd) < rws)%Z /\
                (Z.of_nat (nd_col nd) < cls)%Z /\
                nd_id nd = SimulationEngine.nodeKey (nd_row nd) (nd_col nd))
             (snap_intersections
                (SimulationEngine.getSnapshot
                   (fst (SimulationEngine.run k g e0)))).
Proof.
  destruct (snapshot_nodes_placed rws cls rate m) as (e0 & Hnew & Hall).
  exists e0. split; [exact Hnew |]. intros k g.
  eapply Forall_impl; [| exact (Hall k g)].
  intros nd (Hr & Hc & Hid). cbv beta.
  split; [now apply circle_inside | auto].
Qed.

(** X21.  The colour of a road: [getRoadColor] gives [ROAD_JAMMED]
    exactly when the stopped queue exceeds 28 vehicles, the yellow
    [#eab308] exactly when it exceeds 7 but not 28, and [ROAD_EMPTY]
    exactly when it is at most 7.  In the snapshot of any state reached
    from the constructor a road drawn as jammed has at least 5 cells
    above the queuing threshold, a road drawn yellow at least 2, and a
    road with no such cell is drawn as empty. *)
Theorem X21_road_colour (rws cls : Z) (rate : Q) (m : ControlMode) :
  (forall rd : RoadData,
      (TrafficGrid.getRoadColor rd = COLORS.ROAD_JAMMED <->
       28 < rd_stoppedQueue rd) /\
      (TrafficGrid.getRoadColor rd = "#eab308"%string <->
       7 < rd_stoppedQueue rd /\ rd_stoppedQueue rd <= 28) /\
      (TrafficGrid.getRoadColor rd = COLORS.ROAD_EMPTY <->
       rd_stoppedQueue rd <= 7))
  /\
  exists e0,
    SimulationEngine.new rws cls rate m = Some e0 /\
    forall (k : nat) (g : Random),
      Forall (fun rd =>
                (TrafficGrid.getRoadColor rd = COLORS.ROAD_JAMMED ->
                 (5 <= queuedCells (rd_cells rd))%nat) /\
                (TrafficGrid.getRoadColor rd = "#eab308"%string ->
                 (2 <= queuedCells (rd_cells rd))%nat) /\
                (queuedCells (rd_cells rd) = 0%nat ->
                 TrafficGrid.getRoadColor rd = COLORS.ROAD_EMPTY))
             (snap_roads
                (SimulationEngine.getSnapshot
                   (fst (SimulationEngine.run k g e0)))).
Proof.
  split; [apply roadColor_thresholds |].
  destruct (new_reachable rws cls rate m)
    as (e0 & Hnew & _ & _ & _ & _ & _ & Hreach).
  exists e0. split; [exact Hnew |]. intros k g.
  apply snapshot_colours. apply Hreach.
Qed.

Lemma X21_witness :
  28 < rd_stoppedQueue (SimulationEngine.roadSnapshot busyRoad) /\
  TrafficGrid.getRoadColor (SimulationEngine.roadSnapshot busyRoad)
  = COLORS.ROAD_JAMMED.
Proof.
  assert (H : 28 < rd_stoppedQueue (SimulationEngine.roadSnapshot busyRoad))
    by (vm_compute; reflexivity).
  split; [exact H |].
  exact (proj2 (proj1 (proj1 (X21_road_colour 2 2 1 SMART)
                         (SimulationEngine.roadSnapshot busyRoad))) H).
Defined.


(** ** The identifiers as [drawRoad] reads them *)

Section ParseIds.
Import SimulationEngine TrafficGrid.

Lemma split_whole (sep : ascii) (s : string) :
  lacks sep s -> split sep s = [s].
Proof.
  induction s as [| a s IH]; simpl; [reflexivity |].
  intros [Ha Hs]. destruct (Ascii.eqb_spec a sep) as [E | _]; [contradiction |].
  now rewrite (IH Hs).
Qed.

Lemma split_first (sep : ascii) (s t : string) :
  lacks sep s -> split sep (s ++ String sep t) = s :: split sep t.
Proof.
  induction s as [| a s IH]; simpl.
  - intros _. now rewrite Ascii.eqb_refl.
  - intros [Ha Hs]. destruct (Ascii.eqb_spec a sep) as [E | _]; [contradiction |].
    now rewrite (IH Hs).
Qed.

Lemma lacks_dash (n : nat) : lacks "-" (natStr n).
Proof.
  apply lacks_natStr. intros x Hx.
  repeat (destruct Hx as [<- | Hx]; [discriminate |]). destruct Hx.
Qed.

Lemma Number_natStr (n : nat) : Number (natStr n) = Some n.
Proof.
  unfold Number, natStr. rewrite NilEmpty.usu. now rewrite Unsigned.of_to.
Qed.

Lemma parseNode_key (r c : nat) : parseNode (nodeKey r c) = Some (r, c).
Proof.
  unfold parseNode, nodeKey.
  change (natStr r ++ "-" ++ natStr c)%string
    with (natStr r ++ String "-" (natStr c))%string.
  rewrite split_first by apply lacks_dash.
  rewrite split_whole by apply lacks_dash.
  cbn [map]. now rewrite !Number_natStr.
Qed.

Lemma snapshot_road_ends (rws cls : Z) (rate : Q) (m : ControlMode) :
  exists e0,
    new rws cls rate m = Some e0 /\
    forall (k : nat) (g : Random),
      Forall (fun rd =>
                exists r1 c1 r2 c2,
                  rd_u rd = nodeKey r1 c1 /\ rd_v rd = nodeKey r2 c2 /\
                  parseNode (rd_u rd) = Some (r1, c1) /\
                  parseNode (rd_v rd) = Some (r2, c2) /\
                  (r1 < Z.to_nat rws)%nat /\ (c1 < Z.to_nat cls)%nat /\
                  (r2 < Z.to_nat rws)%nat /\ (c2 < Z.to_nat cls)%nat /\
                  ((r1 = r2 /\ (c2 = c1 + 1 \/ c1 = c2 + 1)%nat) \/
                   (c1 = c2 /\ (r2 = r1 + 1 \/ r1 = r2 + 1)%nat)) /\
                  roadEnds cls rd =
                  Some (getCoords cls (Z.of_nat r1) (Z.of_nat c1),
                        getCoords cls (Z.of_nat r2) (Z.of_nat c2)))
             (snap_roads (getSnapshot (fst (run k g e0)))).
Proof.
  destruct (reachable_grid rws cls rate m) as (e0 & Hnew & _ & _ & Hreach).
  exists e0. split; [exact Hnew |]. intros k g.
  destruct (Hreach k g) as (Hf & _).
  unfold getSnapshot. cbn [snap_roads].
  apply Forall_map, Forall_forall. intros rd Hin.
  destruct (roads_shape rws cls _ Hf rd Hin) as (r & c & Hr & Hc & Hshape).
  unfold roadSnapshot, roadEnds. cbn [rd_u rd_v].
  unfold cellRoads in Hshape.
  repeat match type of Hshape with
         | context [if ?b then _ else _] =>
             let E := fresh "Hcond" in destruct b eqn:E
         end;
    simpl in Hshape;
    repeat match type of Hshape with
           | _ \/ _ => destruct Hshape as [Hshape | Hshape]
           | False => destruct Hshape
           end;
    unfold roadFrame in Hshape;
    cbn [DirectedRoad.id DirectedRoad.u DirectedRoad.v DirectedRoad.isBoundary
         DirectedRoad.new] in Hshape;
    injection Hshape as Eid Eu Ev Eb;
    repeat match goal with
           | H : Z.ltb ?a ?b = true |- _ => apply Z.ltb_lt in H
           end;
    rewrite <- Eu, <- Ev, !parseNode_key;
    do 4 eexists;
    (split; [reflexivity |]); (split; [reflexivity |]);
    (split; [reflexivity |]); (split; [reflexivity |]);
    repeat (split; [lia |]); reflexivity.
Qed.
End ParseIds.

(** X22.  The identifiers can be read back as [drawRoad] reads them: in
    the snapshot of any state reached from the constructor, splitting
    the [u] and the [v] of every road at the dash and converting the
    pieces gives the row and column of two intersections of the grid
    that are neighbours in a row or in a column, and the road is drawn
    between the centres of these two intersections. *)
Theorem X22_road_ends_parse (rws cls : Z) (rate : Q) (m : ControlMode) :
  exists e0,
    SimulationEngine.new rws cls rate m = Some e0 /\
    forall (k : nat) (g : Random),
      Forall (fun rd =>
                exists r1 c1 r2 c2,
                  rd_u rd = SimulationEngine.nodeKey r1 c1 /\
                  rd_v rd = SimulationEngine.nodeKey r2 c2 /\
                  TrafficGrid.parseNode (rd_u rd) = Some (r1, c1) /\
                  TrafficGrid.parseNode (rd_v rd) = Some (r2, c2) /\
                  (r1 < Z.to_nat rws)%nat /\ (c1 < Z.to_nat cls)%nat /\
                  (r2 < Z.to_nat rws)%nat /\ (c2 < Z.to_nat cls)%nat /\
                  ((r1 = r2 /\ (c2 = c1 + 1 \/ c1 = c2 + 1)%nat) \/
                   (c1 = c2 /\ (r2 = r1 + 1 \/ r1 = r2 + 1)%nat)) /\
                  TrafficGrid.roadEnds cls rd =
                  Some (TrafficGrid.getCoords cls (Z.of_nat r1) (Z.of_nat c1),
                        TrafficGrid.getCoords cls (Z.of_nat r2) (Z.of_nat c2)))
             (snap_roads
                (SimulationEngine.getSnapshot
                   (fst (SimulationEngine.run k g e0)))).
Proof. apply snapshot_road_ends. Qed.
